(** * Soundealer: the DSP helpers and the offline render pipeline

    A shallow embedding of [AudioUtils.js] (WAV encoding, slicing, the
    distortion curve, the bitcrusher, range reversal, the offline effect
    renderer), of the parts of [AudioPlayer.js] that work on buffers and
    on the live graph (the local gain of [freezeCurrentEffect], the peak
    normalisation of [getProcessedWavBlob], trimming, the direct
    effects, the effect panel with its knobs, the equalizer chain) and
    of the peak and interval analysis of [BeatDetect.js].

    Numbers.  JavaScript numbers are modelled as rationals [Q].  Where
    the source takes an integer out of a product or a quotient (a frame
    index [Math.floor(t * rate)], a hold period [Math.floor(1 / f)], a
    bit depth), the product or quotient is rounded as the doubles round
    it ([Js.mul], [Js.div]: to the nearest double, ties to even), so the
    integer is the one the source computes.  The arithmetic on sample
    values is exact.  There is no NaN or infinity: each place where the
    source can meet one ([x % 0], [1 / 0], a read past the end of a
    typed array) is written out as a case, and the statements keep to
    operands whose results are finite.  Copying a sample keeps the very
    same term, so Leibniz equality of samples stands for
    "bit-identical"; results of arithmetic are compared with [==].

    Objects.  An [AudioBuffer] lives in a store and is handled through a
    reference, as in the source: writes through [getChannelData] change
    the buffer in the store, and a function that returns its argument
    returns the same reference. *)

From Stdlib Require Import ZArith QArith Qround Qabs Qminmax Qpower Lqa Lia String Ascii.
From Stdlib Require Import Sorted.
From stdpp Require Import list.

Local Open Scope Z_scope.
Local Open Scope Q_scope.
Local Open Scope nat_scope.

(** ** JavaScript numbers *)

Module Js.

(** [Math.floor] *)
Definition floor (x : Q) : Z := Qfloor x.

(** [Math.round]: the nearest integer, ties towards +infinity. *)
Definition round (x : Q) : Z := Qfloor (x + (1 # 2))%Q.

(** [Math.abs] *)
Definition abs (x : Q) : Q := Qabs x.

(** [Math.pow(2, n)] for an integer exponent [n] from -1074 to 1023,
    where it is the exact power (above it is Infinity, below it 0). *)
Definition pow2 (n : Z) : Q := Qpower (2 # 1) n.

(** [floor(log2(x))] for a positive [x]: the estimate from the sizes of
    the numerator and the denominator is right or one too large. *)
Definition ilog2 (x : Q) : Z :=
  let e := (Z.log2 (Qnum x) - Z.log2 (Zpos (Qden x)))%Z in
  if Qle_bool (pow2 e) x then e else (e - 1)%Z.

(** The nearest integer, ties to the even one. *)
Definition round_even (x : Q) : Z :=
  let f := Qfloor x in
  match (x - inject_Z f ?= 1 # 2)%Q with
  | Lt => f
  | Eq => if Z.even f then f else (f + 1)%Z
  | Gt => (f + 1)%Z
  end.

(** The spacing of the doubles around a positive [x]: 53 significant
    bits, and 2^-1074 below 2^-1022. *)
Definition ulp (x : Q) : Q := pow2 (Z.max (ilog2 x - 52) (-1074)).

Definition fl_pos (x : Q) : Q := (inject_Z (round_even (x / ulp x)) * ulp x)%Q.

(** The double nearest to [x], ties to even: what an arithmetic
    operation of exact result [x] returns.  The exponent is not bounded
    above: a result of 2^1024 or more in magnitude is an infinity in the
    source and [finite] tells it apart. *)
Definition fl (x : Q) : Q :=
  match (x ?= 0)%Q with
  | Eq => 0%Q
  | Gt => fl_pos x
  | Lt => (- fl_pos (- x))%Q
  end.

Definition finite (x : Q) : Prop := (Qabs x < pow2 1024)%Q.

(** [x] is a double. *)
Definition is_double (x : Q) : Prop := (fl x == x)%Q.

(** [a * b] and [a / b] on doubles (for [b] that is not 0). *)
Definition mul (a b : Q) : Q := fl (a * b).

Definition div (a b : Q) : Q := fl (a / b).


(** [ToIntegerOrInfinity] on a finite number: truncation towards 0. *)
Definition trunc (x : Q) : Z :=
  if Qlt_le_dec x 0 then Qceiling x else Qfloor x.

(** Truthiness of a number that may be [undefined]: [undefined] and 0
    are falsy. *)
Definition truthy (x : option Q) : bool :=
  match x with
  | Some v => negb (Qeq_bool v 0)
  | None => false
  end.

(** [x || d] on an optional number. *)
Definition or (x : option Q) (d : Q) : Q :=
  match x with
  | Some v => if Qeq_bool v 0 then d else v
  | None => d
  end.

(** [x || d] on an optional integer. *)
Definition orZ (x : option Z) (d : Z) : Z :=
  match x with
  | Some v => if (v =? 0)%Z then d else v
  | None => d
  end.

(** [i % m === 0] for an integer [i] and an integer [m]; [i % 0] is
    NaN, which is not [=== 0].  [Z.rem] has the sign of the dividend,
    like [%]. *)
Definition rem_is_zero (i m : Z) : bool :=
  if (m =? 0)%Z then false else (Z.rem i m =? 0)%Z.

End Js.

(** ** Typed arrays

    A [Float32Array] is the list of its elements; its length never
    changes. *)

Module TypedArray.

(** The relative index of [slice] and [subarray]: a negative index
    counts from the end, and the result is clamped to [0, len]. *)
Definition rel (len : nat) (k : Z) : nat :=
  if (k <? 0)%Z then Z.to_nat (Z.max (Z.of_nat len + k) 0)
  else Z.to_nat (Z.min k (Z.of_nat len)).

(** [a.slice(s, e)]: a fresh array. *)
Definition slice (a : list Q) (s e : Z) : list Q :=
  let k := rel (length a) s in
  let final := rel (length a) e in
  take (final - k) (drop k a).

(** Errors an operation of this development can throw. *)
Inductive Error := RangeError | NotSupportedError | IndexSizeError | TypeError.

(** [target.set(src, offset)]: a RangeError when the source does not
    fit, otherwise the elements are overwritten in place. *)
Definition set (target src : list Q) (offset : Z) : Error + list Q :=
  if ((offset <? 0) || (Z.of_nat (length target) <? Z.of_nat (length src) + offset))%Z
  then inl RangeError
  else
    let o := Z.to_nat offset in
    inr (take o target ++ src ++ drop (o + length src) target).

(** [a.subarray(s, e).reverse()]: the view shares the memory of [a],
    so the elements of [a] in the (clamped) range are reversed. *)
Definition reverse_subarray (a : list Q) (s e : Z) : list Q :=
  let k := rel (length a) s in
  let final := rel (length a) e in
  let n := final - k in
  take k a ++ reverse (take n (drop k a)) ++ drop (k + n) a.

(** [a[i]]: [undefined] outside the array. *)
Definition get (a : list Q) (i : Z) : option Q :=
  if (i <? 0)%Z then None else a !! Z.to_nat i.

(** [a[i] = v]: a write outside the array is ignored. *)
Definition put (a : list Q) (i : Z) (v : Q) : list Q :=
  if (i <? 0)%Z then a else <[Z.to_nat i := v]> a.

(** The values [i] takes in [for (let i = from; i < to; i++)]. *)
Definition indices (from to : Z) : list Z := seqZ from (to - from).

(** [for (let i = from; i < to; i++) a[i] = f(a[i])].  Outside the
    array [a[i]] is [undefined], [f] of it is NaN and the write is
    ignored. *)
Definition update_range (f : Q -> Q) (from to : Z) (a : list Q) : list Q :=
  fold_left (fun d i => match get d i with
                        | Some x => put d i (f x)
                        | None => d
                        end) (indices from to) a.

End TypedArray.

Export TypedArray(Error(..)).

(** ** The store of audio buffers *)

(** An [AudioBuffer]: [buf_length] is the source's [length] (frames per
    channel), [numberOfChannels] is the number of channel arrays. *)
Record AudioBuffer := mkAudioBuffer {
  sampleRate : Q;
  buf_length : nat;
  channelData : list (list Q)
}.

Definition numberOfChannels (b : AudioBuffer) : nat := length (channelData b).

(** What the Web Audio API guarantees of every [AudioBuffer]: at least
    one channel, at least one frame, every channel [buf_length] long,
    a positive sample rate. *)
Definition wf_buffer (b : AudioBuffer) : Prop :=
  0 < numberOfChannels b /\ 0 < buf_length b /\
  Forall (fun ch => length ch = buf_length b) (channelData b) /\
  (0 < sampleRate b)%Q.

(** The sample of channel [c] at frame [i]. *)
Definition sample (b : AudioBuffer) (c i : nat) : option Q :=
  match channelData b !! c with
  | Some ch => ch !! i
  | None => None
  end.

(** References to buffers, and the store they point into. *)
Abbreviation ref := nat (only parsing).
Abbreviation Store := (list AudioBuffer) (only parsing).

(** The outcome of a computation: a value or a thrown error, with the
    store as it is at that point. *)
Inductive Res (A : Type) :=
| Ok (a : A) (s : Store)
| Throw (e : Error) (s : Store).
Arguments Ok {A} a s.
Arguments Throw {A} e s.

Definition M (A : Type) := Store -> Res A.

Definition ret {A} (a : A) : M A := fun s => Ok a s.

Definition bind {A B} (m : M A) (k : A -> M B) : M B :=
  fun s => match m s with
           | Ok a s' => k a s'
           | Throw e s' => Throw e s'
           end.

Definition throw {A} (e : Error) : M A := fun s => Throw e s.

Declare Scope js_scope.
Delimit Scope js_scope with js.
Notation "x <- m ;; k" := (bind m (fun x => k))
  (at level 100, m at next level, right associativity) : js_scope.
Notation "m ;; k" := (bind m (fun _ => k))
  (at level 100, right associativity) : js_scope.
Local Open Scope js_scope.

(** [for (const x of xs) body(x)] *)
Fixpoint for_each {A} (xs : list A) (body : A -> M unit) : M unit :=
  match xs with
  | [] => ret tt
  | x :: xs' => body x ;; for_each xs' body
  end.

(** [for (let i = 0; i < n; i++) body(i)] *)
Definition for_range (n : nat) (body : nat -> M unit) : M unit :=
  for_each (seq 0 n) body.

(** Reading the fields of a buffer. *)
Definition readBuffer (r : ref) : M AudioBuffer :=
  fun s => match s !! r with
           | Some b => Ok b s
           | None => Throw TypeError s
           end.

(** [context.createBuffer(channels, length, sampleRate)]: a fresh buffer
    of silence.  Zero channels or zero frames is a NotSupportedError.
    (The rate is always that of an existing buffer here, so the check of
    its range is left out.) *)
Definition createBuffer (channels len : nat) (rate : Q) : M ref :=
  fun s =>
    if (channels =? 0) || (len =? 0) then Throw NotSupportedError s
    else Ok (length s)
            (s ++ [mkAudioBuffer rate len (replicate channels (replicate len 0%Q))]).

(** [buffer.getChannelData(c)], read as a snapshot of the contents. *)
Definition getChannelData (r : ref) (c : nat) : M (list Q) :=
  b <- readBuffer r ;;
  match channelData b !! c with
  | Some ch => ret ch
  | None => throw IndexSizeError
  end.

(** A write through the array that [buffer.getChannelData(c)] returned:
    the contents of channel [c] become [f] of the old contents, or the
    error [f] throws. *)
Definition modifyChannelData (r : ref) (c : nat) (f : list Q -> Error + list Q) : M unit :=
  b <- readBuffer r ;;
  match channelData b !! c with
  | Some ch =>
      match f ch with
      | inr ch' =>
          fun s => Ok tt (<[r := mkAudioBuffer (sampleRate b) (buf_length b)
                                   (<[c := ch']> (channelData b))]> s)
      | inl e => throw e
      end
  | None => throw IndexSizeError
  end.

(** [buffer.copyToChannel(source, c)]: as many elements as fit. *)
Definition copyToChannel (r : ref) (source : list Q) (c : nat) : M unit :=
  modifyChannelData r c
    (fun ch => inr (take (length ch) source ++ drop (length source) ch)).

(** ** AudioUtils.js: WAV encoding *)

Module DataView.

(** [view.setUint8(offset, v)] *)
Definition setUint8 (view : list Z) (offset : nat) (v : Z) : list Z :=
  <[offset := (v mod 256)%Z]> view.

(** [view.setUint16(offset, v, true)]: little-endian, modulo 2^16. *)
Definition setUint16 (view : list Z) (offset : nat) (v : Z) : list Z :=
  let u := (v mod 65536)%Z in
  <[offset + 1 := (u / 256)%Z]> (<[offset := (u mod 256)%Z]> view).

(** [view.setUint32(offset, v, true)]: little-endian, modulo 2^32. *)
Definition setUint32 (view : list Z) (offset : nat) (v : Z) : list Z :=
  let u := (v mod 4294967296)%Z in
  <[offset + 3 := (u / 16777216)%Z]>
    (<[offset + 2 := (u / 65536 mod 256)%Z]>
       (<[offset + 1 := (u / 256 mod 256)%Z]>
          (<[offset := (u mod 256)%Z]> view))).

(** The two bytes of an [Int16Array] element, low byte first. *)
Definition int16_bytes (v : Z) : list Z := [(v mod 256)%Z; (v / 256 mod 256)%Z].

End DataView.

(** The conversion of a number stored into an [Int16Array]: truncated,
    then wrapped into the signed 16-bit range. *)
Definition ToInt16 (x : Q) : Z :=
  let n := (Js.trunc x mod 65536)%Z in
  if (32768 <=? n)%Z then (n - 65536)%Z else n.

(** [string.charCodeAt(i)] for every [i]. *)
Definition charCodes (s : string) : list Z :=
  map (fun c => Z.of_nat (nat_of_ascii c)) (list_ascii_of_string s).

(** The inner function [writeString(view, offset, string)]. *)
Definition writeString (view : list Z) (offset : nat) (s : string) : list Z :=
  fold_left (fun view i =>
               match charCodes s !! i with
               | Some code => DataView.setUint8 view (offset + i) code
               | None => view
               end) (seq 0 (String.length s)) view.

(** [Math.max(-1, Math.min(1, sample))] *)
Definition clamp (sample : Q) : Q := Qmax (- (1)) (Qmin 1 sample).

(** [sample < 0 ? sample * 0x8000 : sample * 0x7FFF] *)
Definition scale16 (sample : Q) : Q :=
  if Qlt_le_dec sample 0 then (sample * (32768 # 1))%Q else (sample * (32767 # 1))%Q.

(** The 16-bit value [bufferToWave] stores for [channels[ch][i]]; a read
    past the end of the channel is [undefined], which the clamp turns
    into NaN and the store into 0. *)
Definition pcm16 (sample : option Q) : Z :=
  match sample with
  | Some sample =>
      let sample := clamp sample in
      ToInt16 (scale16 sample)
  | None => 0%Z
  end.

Record Blob := mkBlob { blob_bytes : list Z; blob_type : string }.

(** The 44 bytes [bufferToWave] writes through the [DataView]. *)
Definition wav_header (numOfChan : nat) (rate : Q) (lengthInBytes : nat) : list Z :=
  let view := replicate 44 0%Z in
  let view := writeString view 0 "RIFF" in
  let view := DataView.setUint32 view 4 (36 + Z.of_nat lengthInBytes) in
  let view := writeString view 8 "WAVE" in
  let view := writeString view 12 "fmt " in
  let view := DataView.setUint32 view 16 16 in
  let view := DataView.setUint16 view 20 1 in
  let view := DataView.setUint16 view 22 (Z.of_nat numOfChan) in
  let view := DataView.setUint32 view 24 (Js.trunc rate) in
  let view := DataView.setUint32 view 28
                (Js.trunc (rate * (2 # 1) * inject_Z (Z.of_nat numOfChan))%Q) in
  let view := DataView.setUint16 view 32 (Z.of_nat (numOfChan * 2)) in
  let view := DataView.setUint16 view 34 16 in
  let view := writeString view 36 "data" in
  DataView.setUint32 view 40 (Z.of_nat lengthInBytes).

(** The value stored for [channels[ch][i]]. *)
Definition pcm_value (channels : list (list Q)) (i ch : nat) : Z :=
  pcm16 (match channels !! ch with
         | Some data => data !! i
         | None => None
         end).

(** The body of the inner PCM loop of [bufferToWave]: the [Int16Array]
    and [offset] are the loop state. *)
Definition pcm_sample_step (channels : list (list Q)) (i : nat) (st : list Z * nat)
    (ch : nat) : list Z * nat :=
  let '(dataView, offset) := st in
  (<[offset := pcm_value channels i ch]> dataView, S offset).

(** The body of the outer PCM loop: one frame, every channel. *)
Definition pcm_frame_step (channels : list (list Q)) (numOfChan : nat) (st : list Z * nat)
    (i : nat) : list Z * nat :=
  fold_left (pcm_sample_step channels i) (seq 0 numOfChan) st.

(** The PCM loops of [bufferToWave]. *)
Definition wav_pcm (channels : list (list Q)) (numOfChan len : nat) : list Z :=
  fst (fold_left (pcm_frame_step channels numOfChan) (seq 0 len)
         (replicate (len * numOfChan) 0%Z, 0)).

(** [bufferToWave(abuffer, len)]; [None] is an omitted [len].  The blob
    holds the header bytes followed by the [Int16Array] elements, which
    share one [ArrayBuffer] from byte 44 on. *)
Definition bufferToWave (abuffer : ref) (len : option nat) : M Blob :=
  b <- readBuffer abuffer ;;
  let numOfChan := numberOfChannels b in
  let length := match len with
                | Some (S n) => S n
                | _ => buf_length b
                end in
  let lengthInBytes := length * numOfChan * 2 in
  let header := wav_header numOfChan (sampleRate b) lengthInBytes in
  let dataView := wav_pcm (channelData b) numOfChan length in
  ret (mkBlob (header ++ flat_map DataView.int16_bytes dataView) "audio/wav").

(** ** AudioUtils.js: buffers *)

(** [sliceBuffer(buffer, startRatio, endRatio, context)]; [None] is the
    source's [null]. *)
Definition sliceBuffer (buffer : ref) (startRatio endRatio : Q) : M (option ref) :=
  b <- readBuffer buffer ;;
  let startFrame := Js.floor (Js.mul startRatio (inject_Z (Z.of_nat (buf_length b)))) in
  let endFrame := Js.floor (Js.mul endRatio (inject_Z (Z.of_nat (buf_length b)))) in
  let frameCount := (endFrame - startFrame)%Z in
  if (frameCount <=? 0)%Z then ret None
  else
    newBuffer <- createBuffer (numberOfChannels b) (Z.to_nat frameCount) (sampleRate b) ;;
    for_range (numberOfChannels b) (fun i =>
      data <- getChannelData buffer i ;;
      copyToChannel newBuffer (TypedArray.slice data startFrame endFrame) i) ;;
    ret (Some newBuffer).

(** [reverseRange(buffer, startTime, endTime, context)] *)
Definition reverseRange (buffer : ref) (startTime endTime : Q) : M ref :=
  b <- readBuffer buffer ;;
  let numChannels := numberOfChannels b in
  newBuffer <- createBuffer numChannels (buf_length b) (sampleRate b) ;;
  let startFrame := Js.floor (Js.mul startTime (sampleRate b)) in
  let endFrame := Js.floor (Js.mul endTime (sampleRate b)) in
  for_range numChannels (fun i =>
    originalData <- getChannelData buffer i ;;
    modifyChannelData newBuffer i (fun newData => TypedArray.set newData originalData 0) ;;
    if (endFrame >? startFrame)%Z
    then modifyChannelData newBuffer i
           (fun newData => inr (TypedArray.reverse_subarray newData startFrame endFrame))
    else ret tt) ;;
  ret newBuffer.

(** ** AudioUtils.js: DSP *)

(** [Math.PI], the double nearest to pi, as the rational it is. *)
Definition Math_PI : Q := 7074237752028440 # 2251799813685248.

Definition n_samples : nat := Z.to_nat 44100.

(** The body of the loop of [makeDistortionCurve]: the value stored at
    index [i] for the (finite) amount [k], in exact arithmetic.  Where
    the denominator is 0 the source stores an infinity or NaN, which
    this development has no value for: the statements keep to the
    entries whose denominator is not 0. *)
Definition distortion_entry (k : Q) (i : nat) : Q :=
  (let deg := Math_PI / (180 # 1) in
   let x := inject_Z (Z.of_nat i) * (2 # 1) / inject_Z (Z.of_nat n_samples) - 1 in
   ((3 # 1) + k) * x * (20 # 1) * deg / (Math_PI + k * Js.abs x))%Q.

(** [makeDistortionCurve(amount)]; [None] is an [amount] that is not a
    number. *)
Definition makeDistortionCurve (amount : option Q) : list Q :=
  let k := match amount with Some a => a | None => 50 # 1 end in
  let curve := replicate n_samples 0%Q in
  fold_left (fun curve i => <[i := distortion_entry k i]> curve) (seq 0 n_samples) curve.

(** [Math.floor(1 / normFreq)]; [None] is an infinity: [normFreq] is 0,
    or so small that the quotient overflows. *)
Definition stepSize_of (normFreq : Q) : option Z :=
  if Qeq_bool normFreq 0 then None
  else if Qle_bool (Js.pow2 1024) (Qabs (Js.div 1 normFreq)) then None
  else Some (Js.floor (Js.div 1 normFreq)).

(** [i % stepSize === 0]; [i % Infinity] is [i]. *)
Definition on_step (i : Z) (stepSize : option Z) : bool :=
  match stepSize with
  | Some m => Js.rem_is_zero i m
  | None => (i =? 0)%Z
  end.

(** [Math.round(sample * stepScale) * step] *)
Definition quantized (step stepScale sample : Q) : Q :=
  (inject_Z (Js.round (sample * stepScale)) * step)%Q.

(** One iteration of the inner loop of [applyMathBitcrush], with the
    array and [lastSample] as the loop state.  The loop runs up to the
    length of the array, so the read [data[i]] is always in range (past
    the end the write would be ignored, whatever [lastSample] is). *)
Definition bitcrush_step (step stepScale : Q) (stepSize : option Z)
    (st : list Q * Q) (i : Z) : list Q * Q :=
  let '(data, lastSample) := st in
  let lastSample' :=
    if on_step i stepSize then
      match TypedArray.get data i with
      | Some sample => quantized step stepScale sample
      | None => lastSample
      end
    else lastSample in
  (TypedArray.put data i lastSample', lastSample').

(** The inner loop of [applyMathBitcrush] on one channel. *)
Definition bitcrush_channel (len : nat) (step stepScale : Q) (stepSize : option Z)
    (data : list Q) : list Q :=
  fst (fold_left (bitcrush_step step stepScale stepSize)
         (TypedArray.indices 0 (Z.of_nat len)) (data, 0%Q)).

(** [applyMathBitcrush(buffer, bits, normFreq)]: in place, returns its
    argument. *)
Definition applyMathBitcrush (buffer : ref) (bits : Z) (normFreq : Q) : M ref :=
  b <- readBuffer buffer ;;
  let channels := numberOfChannels b in
  let len := buf_length b in
  let step := (1 / Js.pow2 bits)%Q in
  let stepScale := (1 / step)%Q in
  let stepSize := stepSize_of normFreq in
  for_range channels (fun c =>
    modifyChannelData buffer c
      (fun data => inr (bitcrush_channel len step stepScale stepSize data))) ;;
  ret buffer.

(** ** AudioUtils.js: offline effects *)

(** The effect parameters object; [None] is a property that is not set.
    [bits] is an integer, as the slider and the knob of the player set
    it. *)
Record Params := mkParams {
  amount : option Q;
  time : option Q;
  feedback : option Q;
  bits : option Z;
  normFreq : option Q;
  volume : option Q
}.

(** The nodes of an offline graph and its connections, in the order of
    the [connect] calls. *)
Inductive AudioNode :=
| BufferSource
| Destination
| WaveShaper (curve : list Q) (oversample : string)
| DelayNode (delayTime : Q)
| GainNode (gain : Q)
| BiquadFilter (type : string) (frequency : Q) (gain : Q).

Definition Graph := list (AudioNode * AudioNode).

(** The graph [renderOfflineEffect] builds between [clipSource] and the
    destination of the clip context. *)
Definition build_graph (effectType : string) (params : Params) : Graph :=
  let inputNode := BufferSource in
  let endNode := Destination in
  if (effectType =? "distortion")%string then
    let dist := WaveShaper (makeDistortionCurve (amount params)) "4x" in
    [(inputNode, dist); (dist, endNode)]
  else if (effectType =? "delay")%string then
    let delay := DelayNode (Js.or (time params) (3 # 10)) in
    let feedback := GainNode (Js.or (feedback params) (1 # 2)) in
    [(inputNode, endNode); (inputNode, delay); (delay, feedback);
     (feedback, delay); (delay, endNode)]
  else if (effectType =? "bitcrush")%string then
    [(inputNode, endNode)]
  else [].

Section Offline.

(** What an offline context renders is opaque: [render g clip c i] is
    the sample it produces on channel [c] at frame [i] for the graph [g]
    played from the source contents [clip]. *)
Variable render : Graph -> list (list Q) -> nat -> nat -> Q.

(** [new OfflineAudioContext(channels, len, rate)] with the graph [g]
    on the source buffer [source], then [startRendering()]: a fresh
    buffer of [channels] channels and [len] frames. *)
Definition startRendering (g : Graph) (source : ref) (channels len : nat) (rate : Q)
    : M ref :=
  src <- readBuffer source ;;
  fun s =>
    Ok (length s)
       (s ++ [mkAudioBuffer rate len
                (map (fun c => map (render g (channelData src) c) (seq 0 len))
                     (seq 0 channels))]).

(** [renderOfflineEffect(originalBuffer, regionStart, regionEnd,
    effectType, params)] *)
Definition renderOfflineEffect (originalBuffer : ref) (regionStart regionEnd : Q)
    (effectType : string) (params : Params) : M ref :=
  ob <- readBuffer originalBuffer ;;
  let sampleRate := sampleRate ob in
  let channels := numberOfChannels ob in
  let startFrame := Js.floor (Js.mul regionStart sampleRate) in
  let endFrame := Js.floor (Js.mul regionEnd sampleRate) in
  let lengthFrame := (endFrame - startFrame)%Z in
  if (lengthFrame <=? 0)%Z then ret originalBuffer
  else
    tempBuffer <- createBuffer channels (Z.to_nat lengthFrame) sampleRate ;;
    for_range channels (fun c =>
      data <- getChannelData originalBuffer c ;;
      copyToChannel tempBuffer (TypedArray.slice data startFrame endFrame) c) ;;
    processedClip <- startRendering (build_graph effectType params) tempBuffer
                       channels (Z.to_nat lengthFrame) sampleRate ;;
    processedClip <-
      (if (effectType =? "bitcrush")%string
       then applyMathBitcrush processedClip (Js.orZ (bits params) 8)
              (Js.or (normFreq params) (1 # 2))
       else ret processedClip) ;;
    finalBuffer <- createBuffer channels (buf_length ob) sampleRate ;;
    for_range channels (fun c =>
      orig <- getChannelData originalBuffer c ;;
      modifyChannelData finalBuffer c (fun data => TypedArray.set data orig 0) ;;
      clip <- getChannelData processedClip c ;;
      modifyChannelData finalBuffer c (fun data => TypedArray.set data clip startFrame)) ;;
    ret finalBuffer.

(** [processRange(buffer, context, type, startTime, endTime, params)] *)
Definition processRange (buffer : ref) (type : string) (startTime endTime : Q)
    (params : Params) : M ref :=
  if (type =? "reverse")%string then reverseRange buffer startTime endTime
  else if existsb (String.eqb type) ["distortion"; "delay"; "bitcrush"]%string
  then renderOfflineEffect buffer startTime endTime type params
  else ret buffer.

(** ** AudioPlayer.js *)

Record Region := mkRegion { region_start : Q; region_end : Q }.

(** The local gain of [freezeCurrentEffect]: every sample of the region
    window is multiplied in place. *)
Definition applyLocalGain (newBuffer : ref) (region : Region) (vol : Q) : M unit :=
  b <- readBuffer newBuffer ;;
  let startSample := Js.floor (Js.mul (region_start region) (sampleRate b)) in
  let endSample := Js.floor (Js.mul (region_end region) (sampleRate b)) in
  for_range (numberOfChannels b) (fun channel =>
    modifyChannelData newBuffer channel
      (fun data => inr (TypedArray.update_range (fun x => x * vol)%Q startSample
                          (Z.min endSample (Z.of_nat (length data))) data))).

(** [try m catch (e) h] *)
Definition try_catch {A} (m : M A) (h : Error -> M A) : M A :=
  fun s => match m s with
           | Ok a s' => Ok a s'
           | Throw e s' => h e s'
           end.

(** [freezeCurrentEffect()], on the fields of the player it reads.  The
    result is the buffer handed to [reloadWithBuffer], which becomes the
    committed buffer; [None] when nothing is reloaded. *)
Definition freezeCurrentEffect (activeRegion : option Region) (originalBuffer : ref)
    (currentEffectType : string) (effectParams : Params) : M (option ref) :=
  match activeRegion with
  | None => ret None
  | Some region =>
      try_catch
        (newBuffer <- processRange originalBuffer currentEffectType
                        (region_start region) (region_end region) effectParams ;;
         match volume effectParams with
         | Some vol => applyLocalGain newBuffer region vol
         | None => ret tt
         end ;;
         ret (Some newBuffer))
        (fun _ => ret None)
  end.

(** [if (Math.abs(d) > maxPeak) maxPeak = Math.abs(d)] *)
Definition peak_step (maxPeak d : Q) : Q :=
  if Qlt_le_dec maxPeak (Js.abs d) then Js.abs d else maxPeak.

(** The first loops of the normalising step: the largest absolute
    sample. *)
Definition scanPeak (channels : list (list Q)) : Q :=
  fold_left (fun maxPeak data => fold_left peak_step data maxPeak) channels 0%Q.

(** The normalising step of [getProcessedWavBlob], in place. *)
Definition normalize (renderedBuffer : ref) : M unit :=
  b <- readBuffer renderedBuffer ;;
  let maxPeak := scanPeak (channelData b) in
  if Qlt_le_dec 0 maxPeak then
    let normFactor := ((98 # 100) / maxPeak)%Q in
    for_range (numberOfChannels b) (fun c =>
      modifyChannelData renderedBuffer c
        (fun data => inr (TypedArray.update_range (fun x => x * normFactor)%Q 0
                            (Z.of_nat (length data)) data)))
  else ret tt.

Definition eqBands : list Z := [32; 64; 125; 250; 500; 1000; 2000; 4000; 8000; 16000]%Z.

(** The chain [getProcessedWavBlob] connects: one filter per band with
    its current gain, then the master gain when there is one. *)
Definition export_graph (currentGains : list Q) (masterGain : option Q) : Graph :=
  let '(g, currentNode) :=
    fold_left (fun '(g, currentNode) '(i, band) =>
                 let filter :=
                   BiquadFilter (if (band <=? 32)%Z then "lowshelf"
                                 else if (16000 <=? band)%Z then "highshelf"
                                 else "peaking")
                                (inject_Z band) (default 0%Q (currentGains !! i)) in
                 (g ++ [(currentNode, filter)], filter))
              (imap pair eqBands) ([], BufferSource) in
  let '(g, currentNode) :=
    match masterGain with
    | Some v => (g ++ [(currentNode, GainNode v)], GainNode v)
    | None => (g, currentNode)
    end in
  g ++ [(currentNode, Destination)].

(** [getProcessedWavBlob()], on the fields of the player it reads:
    [currentGains] are the gains of [this.filters].  With fewer filters
    than bands, [filter.gain.value = undefined] is a TypeError. *)
Definition getProcessedWavBlob (originalBuffer : option ref) (currentGains : list Q)
    (masterGain : option Q) : M (option Blob) :=
  match originalBuffer with
  | None => ret None
  | Some originalBuffer =>
      ob <- readBuffer originalBuffer ;;
      (if length currentGains <? length eqBands then throw TypeError else ret tt) ;;
      renderedBuffer <- startRendering (export_graph currentGains masterGain)
                          originalBuffer (numberOfChannels ob) (buf_length ob)
                          (sampleRate ob) ;;
      normalize renderedBuffer ;;
      rb <- readBuffer renderedBuffer ;;
      blob <- bufferToWave renderedBuffer (Some (buf_length rb)) ;;
      ret (Some blob)
  end.

End Offline.

(** ** AudioPlayer.js: reloading, trimming and direct effects *)




Section Direct.

Variable render : Graph -> list (list Q) -> nat -> nat -> Q.


End Direct.

(** ** AudioPlayer.js: the live graph and the effect panel *)

(** The nodes of the live graph.  The preview nodes are created anew by
    every [activateRealTimePreview]; the number of the activation that
    created a node stands for its identity. *)
Module Live.

Inductive Node :=
| Media                 (* mediaNode *)
| EqInput               (* eqInputNode *)
| Band (i : nat)        (* filters[i] *)
| Master                (* masterGainNode *)
| Analyser              (* analyser *)
| Output                (* audioContext.destination *)
| Effect (id : nat)     (* a previewEffectNode *)
| Delay (id : nat)      (* a delayNode *)
| Feedback (id : nat)   (* a feedbackNode *)
| Gain (id : nat).      (* a previewGainNode *)

#[global] Instance node_eq_dec : EqDecision Node.
Proof. solve_decision. Defined.

(** [a.connect(b)]: connecting twice is connecting once. *)
Definition connect (a b : Node) (g : list (Node * Node)) : list (Node * Node) :=
  if decide ((a, b) ∈ g) then g else g ++ [(a, b)].

(** [a.disconnect()]: every outgoing connection of [a] goes. *)
Definition disconnect (a : Node) (g : list (Node * Node)) : list (Node * Node) :=
  filter (fun e => e.1 <> a) g.

(** [if (node) node.disconnect()], for a field [node] that may be
    [null]; [a] names the node the field holds. *)
Definition disconnect_if {A} (node : option A) (a : A -> Node) (g : list (Node * Node))
    : list (Node * Node) :=
  match node with
  | Some n => disconnect (a n) g
  | None => g
  end.

End Live.

(** What [previewEffectNode] is: the wave shaper with its curve, or the
    script processor of the bitcrusher. *)
Inductive PreviewNode :=
| PreviewShaper (curve : list Q)
| PreviewCrusher.

(** The fields of the player the effect panel and the live graph work
    on.  A node field holds the value of the node's parameter (a gain),
    a preview node also the number of its activation.  [delayNode]
    stands for [delayNode] and [feedbackNode], which are created and
    dropped together: it holds the delay time (the value its ramp ends
    at) and the feedback gain.  [mediaElement] tells whether the
    waveform view has its media element, [slider_eq] are the values of
    the EQ sliders of the page, [connections] the connections made
    between the nodes, in the order of the [connect] calls. *)
Record Player := mkPlayer {
  activeRegion : option Region;
  currentEffectType : option string;
  effectParams : Params;
  mediaElement : bool;
  masterGainNode : option Q;
  filters : list Q;
  previewEffectNode : option (nat * PreviewNode);
  delayNode : option (nat * Q * Q);
  previewGainNode : option (nat * Q);
  slider_eq : list Q;
  connections : list (Live.Node * Live.Node);
  activations : nat
}.

(** Assignments to the fields. *)
Definition set_activeRegion (v : option Region) (p : Player) : Player :=
  mkPlayer v (currentEffectType p) (effectParams p) (mediaElement p) (masterGainNode p)
    (filters p) (previewEffectNode p) (delayNode p) (previewGainNode p) (slider_eq p)
    (connections p) (activations p).

Definition set_currentEffectType (v : option string) (p : Player) : Player :=
  mkPlayer (activeRegion p) v (effectParams p) (mediaElement p) (masterGainNode p)
    (filters p) (previewEffectNode p) (delayNode p) (previewGainNode p) (slider_eq p)
    (connections p) (activations p).

Definition set_effectParams (v : Params) (p : Player) : Player :=
  mkPlayer (activeRegion p) (currentEffectType p) v (mediaElement p) (masterGainNode p)
    (filters p) (previewEffectNode p) (delayNode p) (previewGainNode p) (slider_eq p)
    (connections p) (activations p).

Definition set_masterGainNode (v : option Q) (p : Player) : Player :=
  mkPlayer (activeRegion p) (currentEffectType p) (effectParams p) (mediaElement p) v
    (filters p) (previewEffectNode p) (delayNode p) (previewGainNode p) (slider_eq p)
    (connections p) (activations p).

Definition set_filters (v : list Q) (p : Player) : Player :=
  mkPlayer (activeRegion p) (currentEffectType p) (effectParams p) (mediaElement p)
    (masterGainNode p) v (previewEffectNode p) (delayNode p) (previewGainNode p)
    (slider_eq p) (connections p) (activations p).

Definition set_previewEffectNode (v : option (nat * PreviewNode)) (p : Player) : Player :=
  mkPlayer (activeRegion p) (currentEffectType p) (effectParams p) (mediaElement p)
    (masterGainNode p) (filters p) v (delayNode p) (previewGainNode p) (slider_eq p)
    (connections p) (activations p).

Definition set_delayNode (v : option (nat * Q * Q)) (p : Player) : Player :=
  mkPlayer (activeRegion p) (currentEffectType p) (effectParams p) (mediaElement p)
    (masterGainNode p) (filters p) (previewEffectNode p) v (previewGainNode p) (slider_eq p)
    (connections p) (activations p).

Definition set_previewGainNode (v : option (nat * Q)) (p : Player) : Player :=
  mkPlayer (activeRegion p) (currentEffectType p) (effectParams p) (mediaElement p)
    (masterGainNode p) (filters p) (previewEffectNode p) (delayNode p) v (slider_eq p)
    (connections p) (activations p).

Definition set_connections (v : list (Live.Node * Live.Node)) (p : Player) : Player :=
  mkPlayer (activeRegion p) (currentEffectType p) (effectParams p) (mediaElement p)
    (masterGainNode p) (filters p) (previewEffectNode p) (delayNode p) (previewGainNode p)
    (slider_eq p) v (activations p).

Definition set_activations (v : nat) (p : Player) : Player :=
  mkPlayer (activeRegion p) (currentEffectType p) (effectParams p) (mediaElement p)
    (masterGainNode p) (filters p) (previewEffectNode p) (delayNode p) (previewGainNode p)
    (slider_eq p) (connections p) v.

(** Assignments to the properties of the params object. *)
Definition set_amount (v : Q) (p : Params) : Params :=
  mkParams (Some v) (time p) (feedback p) (bits p) (normFreq p) (volume p).

Definition set_time (v : Q) (p : Params) : Params :=
  mkParams (amount p) (Some v) (feedback p) (bits p) (normFreq p) (volume p).

Definition set_feedback (v : Q) (p : Params) : Params :=
  mkParams (amount p) (time p) (Some v) (bits p) (normFreq p) (volume p).

Definition set_bits (v : Z) (p : Params) : Params :=
  mkParams (amount p) (time p) (feedback p) (Some v) (normFreq p) (volume p).

Definition set_normFreq (v : Q) (p : Params) : Params :=
  mkParams (amount p) (time p) (feedback p) (bits p) (Some v) (volume p).

Definition set_volume (v : Q) (p : Params) : Params :=
  mkParams (amount p) (time p) (feedback p) (bits p) (normFreq p) (Some v).

(** Truthiness of a string that may be [null]. *)
Definition truthy_type (type : option string) : bool :=
  match type with
  | Some t => negb (t =? "")%string
  | None => false
  end.

(** [type === t] for a string that may be [null]. *)
Definition is_type (type : option string) (t : string) : bool :=
  match type with
  | Some t' => (t' =? t)%string
  | None => false
  end.

(** The filter bank [initEqualizer] creates, after [connectSliders]:
    one filter per band, with the gain of its slider when there is
    one. *)
Definition createFilters (sliders : list Q) : list Q :=
  imap (fun i _ => default 0%Q (sliders !! i)) eqBands.

(** The routing step of [initEqualizer]. *)
Definition route (p : Player) (g : list (Live.Node * Live.Node))
    : list (Live.Node * Live.Node) :=
  match (if is_type (currentEffectType p) "distortion" ||
            is_type (currentEffectType p) "bitcrush"
         then previewEffectNode p else None) with
  | Some (id, _) =>
      Live.connect (Live.Effect id) Live.EqInput (Live.connect Live.Media (Live.Effect id) g)
  | None =>
      match (if is_type (currentEffectType p) "delay" then delayNode p else None) with
      | Some (id, _, _) =>
          let g := Live.connect Live.Media Live.EqInput g in
          let g := Live.connect Live.Media (Live.Delay id) g in
          let g := Live.connect (Live.Delay id) (Live.Feedback id) g in
          let g := Live.connect (Live.Feedback id) (Live.Delay id) g in
          Live.connect (Live.Delay id) Live.EqInput g
      | None => Live.connect Live.Media Live.EqInput g
      end
  end.

(** [initEqualizer()] *)
Definition initEqualizer (p : Player) : Player :=
  if mediaElement p then
    let master := match masterGainNode p with
                  | Some v => v
                  | None => 8 # 10
                  end in
    let g := Live.connect Live.Master Live.Analyser (connections p) in
    let filters := if (length (filters p) =? 0)%nat then createFilters (slider_eq p)
                   else filters p in
    let bands := seq 0 (length filters) in
    let g := Live.disconnect Live.Media g in
    let g := Live.disconnect Live.EqInput g in
    let g := Live.disconnect_if (previewEffectNode p) (fun n => Live.Effect n.1) g in
    let g := Live.disconnect_if (delayNode p) (fun n => Live.Delay n.1.1) g in
    let g := Live.disconnect_if (delayNode p) (fun n => Live.Feedback n.1.1) g in
    let g := Live.disconnect_if (previewGainNode p) (fun n => Live.Gain n.1) g in
    let g := fold_left (fun g i => Live.disconnect (Live.Band i) g) bands g in
    let g := Live.disconnect Live.Master g in
    let g := route p g in
    let '(g, chainStart) :=
      match (if truthy_type (currentEffectType p) then previewGainNode p else None) with
      | Some (id, _) =>
          (Live.connect Live.EqInput (Live.Gain id) (Live.disconnect Live.EqInput g),
           Live.Gain id)
      | None => (g, Live.EqInput)
      end in
    let '(g, currentNode) :=
      fold_left (fun '(g, currentNode) i =>
                   (Live.connect currentNode (Live.Band i) g, Live.Band i))
                bands (g, chainStart) in
    let g := Live.connect currentNode Live.Master g in
    let g := Live.connect Live.Master Live.Output g in
    let g := Live.connect Live.Master Live.Analyser g in
    set_connections g (set_filters filters (set_masterGainNode (Some master) p))
  else p.

(** [closeEffectPanel()] *)
Definition closeEffectPanel (p : Player) : Player :=
  let p := set_previewEffectNode None p in
  let p := set_delayNode None p in
  let p := set_previewGainNode None p in
  let p := set_activeRegion None p in
  let p := set_currentEffectType None p in
  initEqualizer p.

(** [updateEffectParam(knobIndex, normalizedValue)] *)
Definition updateEffectParam (knobIndex : Z) (normalizedValue : Q) (p : Player) : Player :=
  let type := currentEffectType p in
  if is_type type "distortion" then
    if (knobIndex =? 1)%Z then
      let val := (normalizedValue * (400 # 1))%Q in
      let p := set_effectParams (set_amount val (effectParams p)) p in
      match previewEffectNode p with
      | Some (id, PreviewShaper _) =>
          set_previewEffectNode (Some (id, PreviewShaper (makeDistortionCurve (Some val)))) p
      | _ => p
      end
    else p
  else if is_type type "delay" then
    if (knobIndex =? 1)%Z then
      let val := ((1 # 100) + normalizedValue * (99 # 100))%Q in
      let p := set_effectParams (set_time val (effectParams p)) p in
      match delayNode p with
      | Some (id, _, fb) => set_delayNode (Some (id, val, fb)) p
      | None => p
      end
    else if (knobIndex =? 2)%Z then
      let val := (normalizedValue * (9 # 10))%Q in
      let p := set_effectParams (set_feedback val (effectParams p)) p in
      match delayNode p with
      | Some (id, t, _) => set_delayNode (Some (id, t, val)) p
      | None => p
      end
    else p
  else if is_type type "bitcrush" then
    if (knobIndex =? 1)%Z then
      let val := (1 + Js.floor (Js.mul normalizedValue (15 # 1)))%Z in
      set_effectParams (set_bits val (effectParams p)) p
    else if (knobIndex =? 2)%Z then
      let val := ((1 # 100) + normalizedValue * (99 # 100))%Q in
      set_effectParams (set_normFreq val (effectParams p)) p
    else p
  else p.

(** [activateRealTimePreview(region, type)] *)
Definition activateRealTimePreview (region : Region) (type : string) (p : Player) : Player :=
  let p := closeEffectPanel p in
  let id := activations p in
  let p := set_activations (S id) p in
  let p := set_activeRegion (Some region) p in
  let p := set_currentEffectType (Some type) p in
  let startVol := (8 # 10)%Q in
  let p := set_previewGainNode (Some (id, startVol)) p in
  let p := set_effectParams (set_volume startVol (effectParams p)) p in
  let '(p, def1, def2) :=
    if (type =? "distortion")%string then
      let p := set_effectParams (set_amount (50 # 1) (effectParams p)) p in
      let p := set_previewEffectNode
                 (Some (id, PreviewShaper (makeDistortionCurve (amount (effectParams p))))) p in
      (p, ((50 # 1) / (400 # 1))%Q, (1 # 2)%Q)
    else if (type =? "delay")%string then
      let p := set_effectParams (set_time (25 # 100) (effectParams p)) p in
      let p := set_effectParams (set_feedback (4 # 10) (effectParams p)) p in
      let p := set_delayNode (Some (id, 25 # 100, 4 # 10)%Q) p in
      (p, (25 # 100)%Q, ((4 # 10) / (9 # 10))%Q)
    else if (type =? "bitcrush")%string then
      let p := set_effectParams (set_bits 8 (effectParams p)) p in
      let p := set_effectParams (set_normFreq (1 # 10) (effectParams p)) p in
      let p := set_previewEffectNode (Some (id, PreviewCrusher)) p in
      (p, ((8 # 1) / (16 # 1))%Q, (1 # 10)%Q)
    else (p, (1 # 2)%Q, (1 # 2)%Q) in
  let p := updateEffectParam 1 def1 p in
  let p := if negb (type =? "distortion")%string then updateEffectParam 2 def2 p else p in
  initEqualizer p.

(** The three knobs of the rack. *)
Inductive Knob := knob_p1 | knob_p2 | knob_vol.

(** The callbacks [setupKnobListeners] binds to the knobs. *)
Definition onInput (knob : Knob) (val : Q) (p : Player) : Player :=
  match knob with
  | knob_p1 => if truthy_type (currentEffectType p) then updateEffectParam 1 val p else p
  | knob_p2 => if truthy_type (currentEffectType p) then updateEffectParam 2 val p else p
  | knob_vol =>
      if truthy_type (currentEffectType p) then
        let p := match previewGainNode p with
                 | Some (id, _) => set_previewGainNode (Some (id, val)) p
                 | None => p
                 end in
        set_effectParams (set_volume val (effectParams p)) p
      else
        match masterGainNode p with
        | Some _ => set_masterGainNode (Some val) p
        | None => p
        end
  end.

(** The [onMouseMove] handler of a knob drag that started at the value
    [startVal] and the height [startY]. *)
Definition onMouseMove (knob : Knob) (startVal startY clientY : Q) (p : Player) : Player :=
  let delta := (startY - clientY)%Q in
  let sensitivity := (5 # 1000)%Q in
  let newVal := (startVal + delta * sensitivity)%Q in
  let newVal := Qmax 0 (Qmin 1 newVal) in
  onInput knob newVal p.

(** The [onaudioprocess] handler of the bitcrush preview on one block of
    [bs] frames: [bits] and [normFreq] are [effectParams.bits] and
    [effectParams.normFreq], [inp] is the input block and [out] the
    output block, both of [bs] frames, so every read is in range (a read
    outside is written out as no write). *)
Definition onaudioprocess (bs : nat) (bits : Z) (normFreq : Q) (inp out : list Q) : list Q :=
  let step := (1 / Js.pow2 bits)%Q in
  let sSize := stepSize_of normFreq in
  fold_left (fun out i =>
               let v := if on_step i sSize then
                          match TypedArray.get inp i with
                          | Some x => Some (inject_Z (Js.round (x / step)) * step)%Q
                          | None => None
                          end
                        else if (0 <? i)%Z then TypedArray.get out (i - 1)
                        else Some 0%Q in
               match v with
               | Some v => TypedArray.put out i v
               | None => out
               end)
            (TypedArray.indices 0 (Z.of_nat bs)) out.

(** ** BeatDetect.js

    The analysis of a rendered buffer.  The sample rate of the detector
    is taken to be an even integer, so that [partSize], half of it, is a
    whole number of frames. *)

Module BeatDetect.

Record Peak := mkPeak { position : nat; volume : Q }.

Record Group := mkGroup { tempo : Z; count : nat; peaks : list Peak }.

(** The inner loop of [_getPeaks]: the loudest frame of the part
    [from, to); [None] is the initial [max = 0].  A frame past the end
    of the data has the volume NaN, which is not larger than any
    volume; the first frame of a part is never past the end. *)
Definition part_max (dataL dataR : list Q) (from to : nat) : option Peak :=
  fold_left (fun max j =>
               match dataL !! j, dataR !! j with
               | Some l, Some r =>
                   let volume := Qmax (Js.abs l) (Js.abs r) in
                   match max with
                   | None => Some (mkPeak j volume)
                   | Some m =>
                       if Qlt_le_dec (BeatDetect.volume m) volume
                       then Some (mkPeak j volume) else max
                   end
               | _, _ => max
               end) (seq from (to - from)) None.

(** [array.sort(compare)], which is stable: [before a b] tells whether
    [compare(a, b) < 0]. *)
Fixpoint insert_by {A} (before : A -> A -> bool) (x : A) (l : list A) : list A :=
  match l with
  | [] => [x]
  | y :: l' => if before y x then y :: insert_by before x l' else x :: l
  end.

Definition sort_by {A} (before : A -> A -> bool) (l : list A) : list A :=
  fold_right (insert_by before) [] l.

Definition louder (a b : Peak) : bool :=
  if Qlt_le_dec (volume b) (volume a) then true else false.

Definition earlier (a b : Peak) : bool := (position a <? position b)%nat.

(** [_getPeaks(data)] for [data = [dataL, dataR]]; [partSize] is
    [this._sampleRate / 2].  With a part size of 0 the number of parts
    is infinite and the loop does not end: [None]. *)
Definition _getPeaks (partSize : nat) (dataL dataR : list Q) : option (list Peak) :=
  if (partSize =? 0)%nat then None
  else
    let parts := (length dataL + partSize - 1) / partSize in
    let peaks :=
      fold_left (fun peaks i =>
                   match part_max dataL dataR (i * partSize) ((i + 1) * partSize) with
                   | Some max => peaks ++ [max]
                   | None => peaks
                   end) (seq 0 parts) [] in
    let peaks := sort_by louder peaks in
    let peaks := take (length peaks / 2) peaks in
    Some (sort_by earlier peaks).

(** [while (tempo <= lo) tempo *= 2], given [fuel] tests of its
    condition; [None] is a loop that has not ended by then. *)
Fixpoint double_up (fuel : nat) (lo tempo : Q) : option Q :=
  match fuel with
  | 0 => None
  | S fuel => if Qle_bool tempo lo then double_up fuel lo (tempo * (2 # 1))%Q else Some tempo
  end.

(** [while (tempo > hi) tempo /= 2] *)
Fixpoint halve_down (fuel : nat) (hi tempo : Q) : option Q :=
  match fuel with
  | 0 => None
  | S fuel => if Qle_bool tempo hi then Some tempo else halve_down fuel hi (tempo / (2 # 1))%Q
  end.

(** [(60 * this._sampleRate) / (next.position - peak.position)]; the
    sample rate is not 0.  [None] is the infinity of two peaks at the
    same position, which the loops never bring into the range. *)
Definition interval_tempo (sampleRate : Q) (peak next : Peak) : option Q :=
  let d := (inject_Z (Z.of_nat (position next)) - inject_Z (Z.of_nat (position peak)))%Q in
  if Qeq_bool d 0 then None else Some ((60 # 1) * sampleRate / d)%Q.

(** [groups.some(...)]: the first interval of the tempo [t], if there is
    one, gets the peak and one more count. *)
Fixpoint some_interval (t : Z) (peak : Peak) (groups : list Group) : bool * list Group :=
  match groups with
  | [] => (false, [])
  | interval :: rest =>
      if (tempo interval =? t)%Z
      then (true, mkGroup (tempo interval) (S (count interval)) (peaks interval ++ [peak]) :: rest)
      else let '(found, rest') := some_interval t peak rest in (found, interval :: rest')
  end.

(** The body of the inner loop of [_getIntervals]. *)
Definition interval_step (fuel : nat) (sampleRate lo hi : Q) (peak next : Peak)
    (groups : list Group) : option (list Group) :=
  match interval_tempo sampleRate peak next with
  | None => None
  | Some t =>
      match double_up fuel lo t with
      | None => None
      | Some t =>
          match halve_down fuel hi t with
          | None => None
          | Some t =>
              let t := Js.round t in
              let '(exists_, groups) := some_interval t peak groups in
              Some (if exists_ then groups else groups ++ [mkGroup t 1 []])
          end
      end
  end.

(** [_getIntervals(peaks)]; [lo] and [hi] are [this._bpmRange]. *)
Definition _getIntervals (fuel : nat) (sampleRate lo hi : Q) (peaks : list Peak)
    : option (list Group) :=
  fold_left (fun groups '(index, peak) =>
               fold_left (fun groups i =>
                            match groups, peaks !! (index + i) with
                            | Some groups, Some next =>
                                interval_step fuel sampleRate lo hi peak next groups
                            | _, _ => groups
                            end)
                         (seq 1 (Nat.min 9 (length peaks - 1 - index))) groups)
            (imap pair peaks) (Some []).

Definition more_counted (a b : Group) : bool := (count b <? count a)%nat.

(** [_processRenderedBuffer(options)] on the two channels of the
    rendered buffer: the [bpm] it resolves with, or the TypeError of
    [top[0].tempo] when there is no group. *)
Definition _processRenderedBuffer (fuel : nat) (sampleRate lo hi : Q) (partSize : nat)
    (dataL dataR : list Q) : option (Error + Z) :=
  match _getPeaks partSize dataL dataR with
  | None => None
  | Some peaks =>
      match _getIntervals fuel sampleRate lo hi peaks with
      | None => None
      | Some groups =>
          let top := take 5 (sort_by more_counted groups) in
          match top !! 0 with
          | Some first => Some (inr (tempo first))
          | None => Some (inl TypeError)
          end
      end
  end.

End BeatDetect.

(** * Vocabulary of the statements *)

(** The channel [copyToChannel] leaves when it copies the slice of
    [data] into [frameCount] frames of silence. *)
Definition copied_slice (frameCount : nat) (startFrame endFrame : Z) (data : list Q) : list Q :=
  let source := TypedArray.slice data startFrame endFrame in
  take frameCount source ++ drop (length source) (replicate frameCount 0%Q).

(** The mirror image of frame [i] in the range [[s, e)]. *)
Definition mirror (s e : Z) (i : nat) : nat :=
  if ((s <=? Z.of_nat i) && (Z.of_nat i <? e))%Z
  then Z.to_nat (s + e - 1 - Z.of_nat i) else i.

(** The channels of the buffer [reverseRange] returns. *)
Definition reversed_channels (b : AudioBuffer) (startTime endTime : Q) : list (list Q) :=
  let startFrame := Js.floor (Js.mul startTime (sampleRate b)) in
  let endFrame := Js.floor (Js.mul endTime (sampleRate b)) in
  map (fun data => if (endFrame >? startFrame)%Z
                   then TypedArray.reverse_subarray data startFrame endFrame
                   else data) (channelData b).

(** The frame at which the run of [m] frames that holds frame [i]
    starts. *)
Definition hold_index (m : Z) (i : nat) : nat := Z.to_nat (m * (Z.of_nat i / m)).

(** The same for a step size that may be infinite ([None]): the whole
    channel is then one run. *)
Definition run_start (stepSize : option Z) (i : nat) : nat :=
  match stepSize with
  | Some m => hold_index m i
  | None => 0
  end.

(** A channel of the merged buffer: the original with the clip laid
    over it from [startFrame] on. *)
Definition spliced (startFrame : Z) (orig clip : list Q) : list Q :=
  take (Z.to_nat startFrame) orig ++ clip ++ drop (Z.to_nat startFrame + length clip) orig.

(** The channels of the clip after the post-processing step. *)
Definition processed_channels (effectType : string) (params : Params) (len : nat)
    (rendered : list (list Q)) : list (list Q) :=
  if (effectType =? "bitcrush")%string
  then map (bitcrush_channel len (1 / Js.pow2 (Js.orZ (bits params) 8))
              (1 / (1 / Js.pow2 (Js.orZ (bits params) 8)))
              (stepSize_of (Js.or (normFreq params) (1 # 2)))) rendered
  else rendered.

(** The params object with [feedback] replaced. *)
Definition with_feedback (v : option Q) (p : Params) : Params :=
  mkParams (amount p) (time p) v (bits p) (normFreq p) (volume p).

(** The params object with [time] replaced. *)
Definition with_time (v : option Q) (p : Params) : Params :=
  mkParams (amount p) v (feedback p) (bits p) (normFreq p) (volume p).

(** The params object with [volume] replaced. *)
Definition with_volume (v : option Q) (p : Params) : Params :=
  mkParams (amount p) (time p) (feedback p) (bits p) (normFreq p) v.

(** The buffer the normalising step leaves in place of [b]. *)
Definition normalized (b : AudioBuffer) : AudioBuffer :=
  let maxPeak := scanPeak (channelData b) in
  if Qlt_le_dec 0 maxPeak
  then mkAudioBuffer (sampleRate b) (buf_length b)
         (map (map (fun x => x * ((98 # 100) / maxPeak))%Q) (channelData b))
  else b.

(** The effect types [processRange] renders offline. *)
Definition offline_effect (type : string) : Prop :=
  existsb (String.eqb type) ["distortion"; "delay"; "bitcrush"]%string = true.

(** The four bytes of an unsigned 32-bit value and the two bytes of an
    unsigned 16-bit value, low byte first, and their readers. *)
Definition le32 (u : Z) : list Z :=
  [u mod 256; u / 256 mod 256; u / 65536 mod 256; u / 16777216]%Z.

Definition le16 (u : Z) : list Z := [u mod 256; u / 256]%Z.

Definition read_u32 (bs : list Z) : Z :=
  match bs with
  | [b0; b1; b2; b3] => (b0 + 256 * b1 + 65536 * b2 + 16777216 * b3)%Z
  | _ => 0%Z
  end.

Definition read_s16 (bs : list Z) : Z :=
  match bs with
  | [b0; b1] => let u := (b0 + 256 * b1)%Z in
                if (32768 <=? u)%Z then (u - 65536)%Z else u
  | _ => 0%Z
  end.

(** A mouse move during the drag of a knob: the knob, the value and the
    height the drag started at, and the height of the pointer. *)
Record MouseMove := mkMouseMove {
  move_knob : Knob;
  move_startVal : Q;
  move_startY : Q;
  move_clientY : Q
}.

(** The player after a sequence of mouse moves. *)
Definition mouseMoves (moves : list MouseMove) (p : Player) : Player :=
  fold_left (fun p m => onMouseMove (move_knob m) (move_startVal m) (move_startY m)
                          (move_clientY m) p) moves p.

(** The effect panel is open on [region] with the effect [type]: the
    live nodes hold the values of the params object, and these are in
    the ranges of the knobs. *)
Definition previewing (region : Region) (type : string) (p : Player) : Prop :=
  activeRegion p = Some region /\
  currentEffectType p = Some type /\
  (exists id v, previewGainNode p = Some (id, v) /\
                volume (effectParams p) = Some v /\ (0 <= v)%Q /\ (v <= 1)%Q) /\
  (type = "distortion"%string ->
   exists id a, previewEffectNode p =
                  Some (id, PreviewShaper (makeDistortionCurve (Some a))) /\
                amount (effectParams p) = Some a /\ (0 <= a)%Q /\ (a <= 400 # 1)%Q) /\
  (type = "delay"%string ->
   exists id t f, delayNode p = Some (id, t, f) /\
                  time (effectParams p) = Some t /\ feedback (effectParams p) = Some f /\
                  (1 # 100 <= t)%Q /\ (t <= 1)%Q /\ (0 <= f)%Q /\ (f <= 9 # 10)%Q) /\
  (type = "bitcrush"%string ->
   exists id n nf, previewEffectNode p = Some (id, PreviewCrusher) /\
                   bits (effectParams p) = Some n /\ normFreq (effectParams p) = Some nf /\
                   (1 <= n <= 16)%Z /\ (1 # 100 <= nf)%Q /\ (nf <= 1)%Q).

(** What can happen to the effect panel and the live graph: an effect
    is dropped on a region, the panel is closed (by its button, by a
    freeze or by the removal of its region), the graph is rebuilt, a
    knob is dragged. *)
Inductive PlayerEvent :=
| effect_dropped (region : Region) (type : string)
| panel_closed
| graph_rebuilt
| knob_moved (m : MouseMove).

Definition handleEvent (p : Player) (ev : PlayerEvent) : Player :=
  match ev with
  | effect_dropped region type => activateRealTimePreview region type p
  | panel_closed => closeEffectPanel p
  | graph_rebuilt => initEqualizer p
  | knob_moved m =>
      onMouseMove (move_knob m) (move_startVal m) (move_startY m) (move_clientY m) p
  end.

(** The delay preview of activation [id] has been dropped by the player
    but not by the graph: its loop is still wired into the EQ input,
    though the media node no longer feeds it. *)
Definition delay_left_behind (id : nat) (p : Player) : Prop :=
  (forall t f, delayNode p <> Some (id, t, f)) /\
  (Live.Delay id, Live.EqInput) ∈ connections p /\
  (Live.Delay id, Live.Feedback id) ∈ connections p /\
  (Live.Feedback id, Live.Delay id) ∈ connections p /\
  (Live.Media, Live.Delay id) ∉ connections p.

(** The preview nodes the player holds were all created after
    activation [id]. *)
Definition created_after (id : nat) (p : Player) : Prop :=
  mediaElement p = true /\
  id < activations p /\
  forall i t f, delayNode p = Some (i, t, f) -> id < i.

(** The volume [_getPeaks] gives frame [j]: the larger of the
    magnitudes of the two channels. *)
Definition frame_volume (dataL dataR : list Q) (j : nat) : option Q :=
  match dataL !! j, dataR !! j with
  | Some l, Some r => Some (Qmax (Qabs l) (Qabs r))
  | _, _ => None
  end.

(** The pairs of peaks [_getIntervals] takes a tempo from, in order:
    each peak with the peaks after it, nine at most. *)
Definition interval_pairs (peaks : list BeatDetect.Peak)
    : list (BeatDetect.Peak * BeatDetect.Peak) :=
  flat_map (fun '(index, peak) =>
              omap (fun i => pair peak <$> peaks !! (index + i))
                   (seq 1 (Nat.min 9 (length peaks - 1 - index))))
           (imap pair peaks).

(** The peaks are in time order, no two at the same frame. *)
Definition in_time_order (peaks : list BeatDetect.Peak) : Prop :=
  forall i j p q, i < j -> peaks !! i = Some p -> peaks !! j = Some q ->
    BeatDetect.position p < BeatDetect.position q.

(** ** Example data

    A stereo buffer of 10 frames at 44100 frames per second and an
    offline context that renders every graph as half of its input. *)

Definition tape : AudioBuffer :=
  mkAudioBuffer (44100 # 1) 10
    [[1 # 8; 1 # 4; -3 # 8; 1 # 2; -1 # 2; 3 # 8; 1 # 4; 1 # 8; -1 # 8; 3 # 4];
     [0; 1 # 4; 1 # 2; -1 # 4; 0; 1 # 8; -1 # 8; 1 # 2; -3 # 4; 1]]%Q.

Definition demo_render (g : Graph) (clip : list (list Q)) (c i : nat) : Q :=
  match clip !! c with
  | Some data => (default 0 (data !! i) / (2 # 1))%Q
  | None => 0%Q
  end.

(** A params object with a delay time and a feedback of 0, and an
    offline context that renders, on every channel and frame, the sum of
    the feedback gain and the delay time of the graph it is given. *)
Definition tape_params : Params :=
  mkParams None (Some 0%Q) (Some 0%Q) (Some 2%Z) (Some (1 # 4)) (Some (1 # 2)).

Definition probe_render (g : Graph) (clip : list (list Q)) (c i : nat) : Q :=
  fold_left (fun acc e => match e with
                          | (GainNode gain, DelayNode delayTime) => (gain + delayTime)%Q
                          | _ => acc
                          end) g 0%Q.

(** The times 3/44100, 5/44100 and 7/44100, as the doubles they are:
    their exact products with 44100 are below 3, 5 and 7, the double
    products are 3, 5 and 7. *)
Definition t3 : Q := Js.div 3 (44100 # 1).
Definition t5 : Q := Js.div 5 (44100 # 1).
Definition t7 : Q := Js.div 7 (44100 # 1).

(** A player as its constructor leaves it, with the media element of a
    loaded file and the ten sliders at 0. *)
Definition demo_player : Player :=
  mkPlayer None None (mkParams None None None None None None) true None [] None None None
    (replicate 10 0%Q) [] 0.

(** Three peaks, half a second apart at 4 frames per second, and the two
    channels of a rendered buffer of 8 frames. *)
Definition demo_peaks : list BeatDetect.Peak :=
  [BeatDetect.mkPeak 0 1%Q; BeatDetect.mkPeak 2 (1 # 2)%Q; BeatDetect.mkPeak 4 1%Q].

Definition demo_left : list Q :=
  [1 # 10; -5 # 10; 3 # 10; 2 # 10; 0; 1 # 10; 7 # 10; 0]%Q.

Definition demo_right : list Q :=
  [0; 4 # 10; -3 # 10; 1 # 10; 0; -2 # 10; 6 # 10; 1 # 10]%Q.

(** * Properties *)

(** ** Lists *)

Lemma lookup_of_drop_eq {A} (k : nat) (l1 l2 : list A) :
  drop k l1 = drop k l2 -> l1 !! k = l2 !! k.
Proof.
  intros H. rewrite <- (Nat.add_0_r k), <- !lookup_drop. now rewrite H.
Qed.

Lemma map_lookup_seq {A B} (f : A -> B) (d : B) (l : list A) :
  map (fun k => match l !! k with Some x => f x | None => d end) (seq 0 (length l)) =
  map f l.
Proof.
  apply list_eq. intros i.
  change (map ?h ?l) with (h <$> l). rewrite !list_lookup_fmap.
  destruct (l !! i) as [x|] eqn:Hx.
  - rewrite lookup_seq_lt by (eapply lookup_lt_Some; eauto). simpl. now rewrite Hx.
  - rewrite lookup_seq_ge by (now apply lookup_ge_None). reflexivity.
Qed.

(** The three parts of a list cut at [k] and [k + n]. *)
Lemma parts_of_app {A} (p m r : list A) :
  take (length p) (p ++ m ++ r) = p /\
  take (length m) (drop (length p) (p ++ m ++ r)) = m /\
  drop (length p + length m) (p ++ m ++ r) = r.
Proof.
  repeat split.
  - now rewrite take_app_length.
  - now rewrite drop_app_length, take_app_length.
  - now rewrite <- drop_drop, drop_app_length, drop_app_length.
Qed.

(** ** Running the store operations *)

Lemma bind_Ok {A B} (m : M A) (k : A -> M B) s a s' :
  m s = Ok a s' -> bind m k s = k a s'.
Proof. unfold bind. now intros ->. Qed.

Lemma bind_Throw {A B} (m : M A) (k : A -> M B) s e s' :
  m s = Throw e s' -> bind m k s = Throw e s'.
Proof. unfold bind. now intros ->. Qed.

Lemma readBuffer_Ok s r b : s !! r = Some b -> readBuffer r s = Ok b s.
Proof. unfold readBuffer. now intros ->. Qed.

Lemma getChannelData_Ok s r b c ch :
  s !! r = Some b -> channelData b !! c = Some ch -> getChannelData r c s = Ok ch s.
Proof.
  intros Hr Hc. unfold getChannelData.
  rewrite (bind_Ok _ _ _ _ _ (readBuffer_Ok _ _ _ Hr)). now rewrite Hc.
Qed.

Lemma modifyChannelData_Ok s r b c f ch ch' :
  s !! r = Some b -> channelData b !! c = Some ch -> f ch = inr ch' ->
  modifyChannelData r c f s =
  Ok tt (<[r := mkAudioBuffer (sampleRate b) (buf_length b) (<[c := ch']> (channelData b))]> s).
Proof.
  intros Hr Hc Hf. unfold modifyChannelData.
  rewrite (bind_Ok _ _ _ _ _ (readBuffer_Ok _ _ _ Hr)). now rewrite Hc, Hf.
Qed.

Lemma modifyChannelData_Throw s r b c f ch e :
  s !! r = Some b -> channelData b !! c = Some ch -> f ch = inl e ->
  modifyChannelData r c f s = Throw e s.
Proof.
  intros Hr Hc Hf. unfold modifyChannelData.
  rewrite (bind_Ok _ _ _ _ _ (readBuffer_Ok _ _ _ Hr)). now rewrite Hc, Hf.
Qed.

Lemma createBuffer_Ok s channels len rate :
  0 < channels -> 0 < len ->
  createBuffer channels len rate s =
  Ok (length s) (s ++ [mkAudioBuffer rate len (replicate channels (replicate len 0%Q))]).
Proof.
  intros Hc Hl. unfold createBuffer.
  destruct channels; [lia|]. destruct len; [lia|]. reflexivity.
Qed.

(** A loop over the channels of the buffer [d] whose iteration [k]
    replaces channel [k] by [g k], reading only channels of [d] that
    the loop has not written yet: afterwards the channels of [d] are
    [g 0, g 1, ...], and no other buffer has changed. *)
Lemma for_range_channels (d : ref) (rate : Q) (len : nat) (chs0 : list (list Q))
    (g : nat -> list Q) (body : nat -> M unit) (s0 : Store) :
  d < length s0 ->
  (forall k chs, k < length chs0 -> length chs = length chs0 ->
     drop k chs = drop k chs0 ->
     body k (<[d := mkAudioBuffer rate len chs]> s0) =
     Ok tt (<[d := mkAudioBuffer rate len (<[k := g k]> chs)]> s0)) ->
  for_range (length chs0) body (<[d := mkAudioBuffer rate len chs0]> s0) =
  Ok tt (<[d := mkAudioBuffer rate len (map g (seq 0 (length chs0)))]> s0).
Proof.
  intros Hd Hbody. unfold for_range.
  assert (Hgen : forall m k chs, k + m = length chs0 -> length chs = length chs0 ->
            drop k chs = drop k chs0 ->
            for_each (seq k m) body (<[d := mkAudioBuffer rate len chs]> s0) =
            Ok tt (<[d := mkAudioBuffer rate len (take k chs ++ map g (seq k m))]> s0)).
  { induction m as [|m IH]; intros k chs Hk Hlen Hdrop; simpl.
    - unfold ret. rewrite app_nil_r, take_ge by lia. reflexivity.
    - rewrite (bind_Ok _ _ _ _ _ (Hbody k chs ltac:(lia) Hlen Hdrop)).
      rewrite IH.
      + do 3 f_equal.
        rewrite (take_S_r _ _ (g k)).
        * rewrite take_insert_ge by lia. now rewrite <- app_assoc.
        * apply list_lookup_insert_eq. lia.
      + lia.
      + now rewrite length_insert.
      + rewrite drop_insert_lt by lia.
        replace (S k) with (k + 1) by lia.
        rewrite <- !drop_drop. now rewrite Hdrop. }
  now apply (Hgen (length chs0) 0 chs0).
Qed.

(** A loop over the channels that rewrites each channel by [f]. *)
Lemma map_channels_run (s : Store) (r : ref) (b : AudioBuffer) (f : list Q -> list Q) :
  s !! r = Some b ->
  for_range (numberOfChannels b) (fun c => modifyChannelData r c (fun data => inr (f data))) s =
  Ok tt (<[r := mkAudioBuffer (sampleRate b) (buf_length b) (map f (channelData b))]> s).
Proof.
  intros Hb.
  set (g := fun k => match channelData b !! k with Some data => f data | None => [] end).
  match goal with |- for_range _ ?body _ = _ =>
    pose proof (for_range_channels r (sampleRate b) (buf_length b) (channelData b) g
                  body s (lookup_lt_Some _ _ _ Hb)) as Hloop
  end.
  assert (Hs0 : <[r := mkAudioBuffer (sampleRate b) (buf_length b) (channelData b)]> s = s).
  { apply list_insert_id. rewrite Hb. now destruct b. }
  rewrite Hs0 in Hloop. unfold numberOfChannels. rewrite Hloop.
  - do 3 f_equal. unfold g. apply map_lookup_seq.
  - intros k chs Hk Hlen Hdrop.
    destruct (lookup_lt_is_Some_2 (channelData b) k Hk) as [data Hdata].
    erewrite modifyChannelData_Ok;
      [| apply list_lookup_insert_eq; eapply lookup_lt_Some; eauto
       | cbn [channelData]; rewrite (lookup_of_drop_eq _ _ _ Hdrop); exact Hdata
       | reflexivity].
    cbn [sampleRate buf_length channelData]. rewrite list_insert_insert_eq.
    unfold g. now rewrite Hdata.
Qed.

(** ** Typed arrays and frame arithmetic *)

Lemma rel_in_range len k : (0 <= k <= Z.of_nat len)%Z -> TypedArray.rel len k = Z.to_nat k.
Proof.
  intros H. unfold TypedArray.rel.
  destruct (Z.ltb_spec k 0); [lia|]. f_equal. lia.
Qed.

Lemma rel_le_len len k : TypedArray.rel len k <= len.
Proof. unfold TypedArray.rel. destruct (Z.ltb_spec k 0); lia. Qed.

Lemma slice_in_range (a : list Q) (s e : Z) :
  (0 <= s <= e)%Z -> (e <= Z.of_nat (length a))%Z ->
  TypedArray.slice a s e = take (Z.to_nat (e - s)) (drop (Z.to_nat s) a).
Proof.
  intros Hs He. unfold TypedArray.slice.
  rewrite !rel_in_range by lia. f_equal. lia.
Qed.

Lemma length_slice_in_range (a : list Q) (s e : Z) :
  (0 <= s <= e)%Z -> (e <= Z.of_nat (length a))%Z ->
  length (TypedArray.slice a s e) = Z.to_nat (e - s).
Proof.
  intros Hs He. rewrite slice_in_range by lia.
  rewrite length_take, length_drop. lia.
Qed.

Lemma lookup_slice_in_range (a : list Q) (s e : Z) (j : nat) :
  (0 <= s <= e)%Z -> (e <= Z.of_nat (length a))%Z -> j < Z.to_nat (e - s) ->
  TypedArray.slice a s e !! j = a !! (Z.to_nat s + j).
Proof.
  intros Hs He Hj. rewrite slice_in_range by lia.
  rewrite lookup_take_lt by lia. apply lookup_drop.
Qed.

Lemma slice_all (a : list Q) : TypedArray.slice a 0 (Z.of_nat (length a)) = a.
Proof.
  rewrite slice_in_range by lia. simpl. rewrite Z.sub_0_r, Nat2Z.id. apply take_ge. lia.
Qed.

(** Copying a source of the channel's own length replaces the channel. *)
Lemma copy_same_length (ch source : list Q) :
  length source = length ch -> take (length ch) source ++ drop (length source) ch = source.
Proof.
  intros H. rewrite take_ge by lia. rewrite drop_ge by lia. apply app_nil_r.
Qed.

(** ** Rounding to the nearest double *)

Lemma pow2_pos (n : Z) : (0 < Js.pow2 n)%Q.
Proof. apply Qpower_0_lt. reflexivity. Qed.

Lemma pow2_add (a b : Z) : (Js.pow2 (a + b) == Js.pow2 a * Js.pow2 b)%Q.
Proof. apply Qpower_plus. discriminate. Qed.

Lemma pow2_le (a b : Z) : (a <= b)%Z -> (Js.pow2 a <= Js.pow2 b)%Q.
Proof. intros H. apply Qpower_le_compat_l; [exact H | discriminate]. Qed.

Lemma pow2_lt (a b : Z) : (a < b)%Z -> (Js.pow2 a < Js.pow2 b)%Q.
Proof. intros H. apply Qpower_lt_compat_l; [exact H | reflexivity]. Qed.

Lemma pow2_lt_inv (a b : Z) : (Js.pow2 a < Js.pow2 b)%Q -> (a < b)%Z.
Proof. intros H. apply (Qpower_lt_compat_l_inv (2 # 1)); [exact H | reflexivity]. Qed.

Lemma pow2_inject (k : Z) : (0 <= k)%Z -> (Js.pow2 k == inject_Z (2 ^ k))%Q.
Proof. intros H. unfold Js.pow2. now rewrite Zpower_Qpower. Qed.

Lemma pow2_split (a b : Z) : (Js.pow2 a == Js.pow2 (a - b) * Js.pow2 b)%Q.
Proof. rewrite <- pow2_add. now replace (a - b + b)%Z with a by lia. Qed.

Lemma pow2_div (a b : Z) : (Js.pow2 a / Js.pow2 b == Js.pow2 (a - b))%Q.
Proof.
  pose proof (pow2_pos b). rewrite (pow2_split a b). field. lra.
Qed.

(** [ilog2 x] is the binary exponent of a positive [x]. *)
Lemma ilog2_spec (x : Q) :
  (0 < x)%Q -> (Js.pow2 (Js.ilog2 x) <= x)%Q /\ (x < Js.pow2 (Js.ilog2 x + 1))%Q.
Proof.
  intros Hx. destruct x as [n d].
  assert (Hn : (0 < n)%Z) by (unfold Qlt in Hx; cbn in Hx; lia).
  unfold Js.ilog2. cbn [Qnum Qden].
  set (ln := Z.log2 n). set (ld := Z.log2 (Z.pos d)).
  destruct (Z.log2_spec n Hn) as [Hn1 Hn2]. fold ln in Hn1, Hn2.
  destruct (Z.log2_spec (Z.pos d) ltac:(lia)) as [Hd1 Hd2]. fold ld in Hd1, Hd2.
  assert (Hln : (0 <= ln)%Z) by apply Z.log2_nonneg.
  assert (Hld : (0 <= ld)%Z) by apply Z.log2_nonneg.
  assert (Ex : (n # d == inject_Z n / inject_Z (Z.pos d))%Q) by apply Qmake_Qdiv.
  assert (Hdpos : (0 < inject_Z (Z.pos d))%Q) by (change 0%Q with (inject_Z 0); rewrite <- Zlt_Qlt; lia).
  assert (Qn1 : (Js.pow2 ln <= inject_Z n)%Q) by (rewrite pow2_inject by lia; now rewrite <- Zle_Qle).
  assert (Qn2 : (inject_Z n < Js.pow2 (ln + 1))%Q)
    by (rewrite pow2_inject by lia; now rewrite <- Zlt_Qlt).
  assert (Qd1 : (Js.pow2 ld <= inject_Z (Z.pos d))%Q)
    by (rewrite pow2_inject by lia; now rewrite <- Zle_Qle).
  assert (Qd2 : (inject_Z (Z.pos d) < Js.pow2 (ld + 1))%Q)
    by (rewrite pow2_inject by lia; now rewrite <- Zlt_Qlt).
  assert (Hup : (n # d < Js.pow2 (ln - ld + 1))%Q).
  { rewrite Ex. apply Qlt_shift_div_r; [exact Hdpos|].
    apply Qlt_le_trans with (Js.pow2 (ln + 1)); [exact Qn2|].
    rewrite (pow2_split (ln + 1) ld). replace (ln + 1 - ld)%Z with (ln - ld + 1)%Z by lia.
    apply Qmult_le_l; [apply pow2_pos | exact Qd1]. }
  assert (Hlo : (Js.pow2 (ln - ld - 1) <= n # d)%Q).
  { rewrite Ex. apply Qle_shift_div_l; [exact Hdpos|].
    apply Qle_trans with (Js.pow2 ln); [|exact Qn1].
    rewrite (pow2_split ln (ld + 1)). replace (ln - (ld + 1))%Z with (ln - ld - 1)%Z by lia.
    apply Qmult_le_l; [apply pow2_pos | now apply Qlt_le_weak]. }
  destruct (Qle_bool (Js.pow2 (ln - ld)) (n # d)) eqn:E.
  - apply Qle_bool_iff in E. split; [exact E | exact Hup].
  - split; [exact Hlo|]. replace (ln - ld - 1 + 1)%Z with (ln - ld)%Z by lia.
    apply Qnot_le_lt. intros H. apply Qle_bool_iff in H. congruence.
Qed.

Lemma ilog2_lt (x : Q) (k : Z) : (0 < x)%Q -> (x < Js.pow2 k)%Q -> (Js.ilog2 x < k)%Z.
Proof.
  intros Hx H. destruct (ilog2_spec x Hx) as [Hl _].
  apply pow2_lt_inv. now apply Qle_lt_trans with x.
Qed.

Lemma ilog2_ge (x : Q) (k : Z) : (0 < x)%Q -> (Js.pow2 k <= x)%Q -> (k <= Js.ilog2 x)%Z.
Proof.
  intros Hx H. destruct (ilog2_spec x Hx) as [_ Hu].
  assert (k < Js.ilog2 x + 1)%Z; [|lia].
  apply pow2_lt_inv. now apply Qle_lt_trans with x.
Qed.

Lemma ilog2_mono (x y : Q) : (0 < x)%Q -> (x <= y)%Q -> (Js.ilog2 x <= Js.ilog2 y)%Z.
Proof.
  intros Hx Hxy. apply ilog2_ge; [lra|].
  destruct (ilog2_spec x Hx) as [Hl _]. lra.
Qed.

Lemma ulp_pos (x : Q) : (0 < Js.ulp x)%Q.
Proof. apply pow2_pos. Qed.

(** Rounding to the nearest integer. *)
Lemma round_even_floor (x : Q) :
  Js.round_even x = Qfloor x \/
  (Js.round_even x = (Qfloor x + 1)%Z /\ (1 # 2 <= x - inject_Z (Qfloor x))%Q).
Proof.
  unfold Js.round_even.
  destruct (Qcompare_spec (x - inject_Z (Qfloor x)) (1 # 2)) as [E|E|E].
  - destruct (Z.even (Qfloor x)); [now left | right; split; [reflexivity | lra]].
  - now left.
  - right. split; [reflexivity | lra].
Qed.

Lemma round_even_comp (x y : Q) : (x == y)%Q -> Js.round_even x = Js.round_even y.
Proof.
  intros E. unfold Js.round_even. rewrite (Qfloor_comp _ _ E).
  assert (E' : (x - inject_Z (Qfloor y) == y - inject_Z (Qfloor y))%Q) by (rewrite E; reflexivity).
  now rewrite (Qcompare_comp _ _ E' _ _ (Qeq_refl (1 # 2))).
Qed.

Lemma round_even_inject (z : Z) : Js.round_even (inject_Z z) = z.
Proof.
  unfold Js.round_even. rewrite Qfloor_Z.
  destruct (Qcompare_spec (inject_Z z - inject_Z z) (1 # 2)) as [E|E|E];
    [lra | reflexivity | lra].
Qed.

Lemma round_even_le (x : Q) (z : Z) : (x <= inject_Z z)%Q -> (Js.round_even x <= z)%Z.
Proof.
  intros H. pose proof (Qfloor_le x) as Hf. pose proof (Qlt_floor x) as Hf'.
  rewrite inject_Z_plus in Hf'. change (inject_Z 1) with 1%Q in Hf'.
  destruct (round_even_floor x) as [->|[-> Hr]].
  - rewrite Zle_Qle. lra.
  - assert (Qfloor x < z)%Z; [|lia]. rewrite Zlt_Qlt. lra.
Qed.

Lemma round_even_ge (x : Q) (z : Z) : (inject_Z z <= x)%Q -> (z <= Js.round_even x)%Z.
Proof.
  intros H. assert (Hz : (z <= Qfloor x)%Z).
  { rewrite <- (Qfloor_Z z). now apply Qfloor_resp_le. }
  destruct (round_even_floor x) as [->|[-> _]]; lia.
Qed.

Lemma round_even_mono (x y : Q) : (x <= y)%Q -> (Js.round_even x <= Js.round_even y)%Z.
Proof.
  intros H. pose proof (Qfloor_resp_le _ _ H) as Hf.
  destruct (Z.eq_dec (Qfloor x) (Qfloor y)) as [E|E].
  - unfold Js.round_even. rewrite E.
    destruct (Qcompare_spec (x - inject_Z (Qfloor y)) (1 # 2)) as [Ex|Ex|Ex];
      destruct (Qcompare_spec (y - inject_Z (Qfloor y)) (1 # 2)) as [Ey|Ey|Ey];
      try lra; try lia; destruct (Z.even (Qfloor y)); lia.
  - apply Z.le_trans with (Qfloor x + 1)%Z.
    + destruct (round_even_floor x) as [->|[-> _]]; lia.
    + apply Z.le_trans with (Qfloor y); [lia|].
      destruct (round_even_floor y) as [->|[-> _]]; lia.
Qed.

(** A positive number is rounded to a power of two on either side of
    its binade. *)
Lemma fl_pos_upper (x : Q) :
  (0 < x)%Q ->
  (Js.fl_pos x <= Js.pow2 (Z.max (Js.ilog2 x + 1) (Z.max (Js.ilog2 x - 52) (-1074))))%Q.
Proof.
  intros Hx. destruct (ilog2_spec x Hx) as [_ Hu]. unfold Js.fl_pos, Js.ulp.
  set (k := Js.ilog2 x) in *. set (e := Z.max (k - 52) (-1074)).
  set (j := (Z.max (k + 1) e - e)%Z).
  assert (Hj : (0 <= j)%Z) by (unfold j; lia).
  assert (Hr : (Js.round_even (x / Js.pow2 e) <= 2 ^ j)%Z).
  { apply round_even_le. rewrite <- pow2_inject by exact Hj.
    apply Qle_shift_div_r; [apply pow2_pos|]. rewrite <- pow2_add.
    apply Qle_trans with (Js.pow2 (k + 1)); [lra|]. apply pow2_le. unfold j. lia. }
  apply Qle_trans with (inject_Z (2 ^ j) * Js.pow2 e)%Q.
  - apply Qmult_le_compat_r; [now rewrite <- Zle_Qle | apply Qlt_le_weak, pow2_pos].
  - rewrite <- pow2_inject by exact Hj. rewrite <- pow2_add.
    apply pow2_le. unfold j. lia.
Qed.

Lemma fl_pos_lower (x : Q) :
  (0 < x)%Q -> (-1074 <= Js.ilog2 x - 52)%Z -> (Js.pow2 (Js.ilog2 x) <= Js.fl_pos x)%Q.
Proof.
  intros Hx Hk. destruct (ilog2_spec x Hx) as [Hl _]. unfold Js.fl_pos, Js.ulp.
  set (k := Js.ilog2 x) in *. rewrite Z.max_l by lia.
  assert (Hr : (2 ^ 52 <= Js.round_even (x / Js.pow2 (k - 52)))%Z).
  { apply round_even_ge. rewrite <- pow2_inject by lia.
    apply Qle_shift_div_l; [apply pow2_pos|]. rewrite <- pow2_add.
    now replace (52 + (k - 52))%Z with k by lia. }
  apply Qle_trans with (inject_Z (2 ^ 52) * Js.pow2 (k - 52))%Q.
  - rewrite <- pow2_inject by lia. rewrite <- pow2_add.
    replace (52 + (k - 52))%Z with k by lia. apply Qle_refl.
  - apply Qmult_le_compat_r; [now rewrite <- Zle_Qle | apply Qlt_le_weak, pow2_pos].
Qed.

Lemma fl_pos_nonneg (x : Q) : (0 < x)%Q -> (0 <= Js.fl_pos x)%Q.
Proof.
  intros Hx. unfold Js.fl_pos. apply Qmult_le_0_compat; [|apply Qlt_le_weak, ulp_pos].
  change 0%Q with (inject_Z 0). rewrite <- Zle_Qle. apply round_even_ge. change (inject_Z 0) with 0%Q. apply Qle_shift_div_l; [apply ulp_pos|]. lra.
Qed.

Lemma fl_pos_mono (x y : Q) : (0 < x)%Q -> (x <= y)%Q -> (Js.fl_pos x <= Js.fl_pos y)%Q.
Proof.
  intros Hx Hxy. assert (Hy : (0 < y)%Q) by lra.
  pose proof (ilog2_mono x y Hx Hxy) as Hk.
  destruct (Z.eq_dec (Z.max (Js.ilog2 x - 52) (-1074)) (Z.max (Js.ilog2 y - 52) (-1074)))
    as [E|E].
  - unfold Js.fl_pos, Js.ulp. rewrite E.
    set (u := Js.pow2 _). assert (Hu : (0 < u)%Q) by apply pow2_pos.
    apply Qmult_le_compat_r; [|lra]. rewrite <- Zle_Qle. apply round_even_mono.
    apply Qmult_le_compat_r; [exact Hxy | apply Qlt_le_weak, Qinv_lt_0_compat, Hu].
  - apply Qle_trans with (Js.pow2 (Js.ilog2 y)).
    + eapply Qle_trans; [apply fl_pos_upper, Hx|]. apply pow2_le. lia.
    + apply fl_pos_lower; [exact Hy | lia].
Qed.

Lemma fl_nonneg (x : Q) : (0 <= x)%Q -> (0 <= Js.fl x)%Q.
Proof.
  intros H. unfold Js.fl. destruct (Qcompare_spec x 0) as [E|E|E];
    [apply Qle_refl | lra | now apply fl_pos_nonneg].
Qed.

Lemma fl_nonpos (x : Q) : (x <= 0)%Q -> (Js.fl x <= 0)%Q.
Proof.
  intros H. unfold Js.fl. destruct (Qcompare_spec x 0) as [E|E|E]; [apply Qle_refl | | lra].
  pose proof (fl_pos_nonneg (- x) ltac:(lra)). lra.
Qed.

(** Rounding to the nearest double is monotone. *)
Lemma fl_mono (x y : Q) : (x <= y)%Q -> (Js.fl x <= Js.fl y)%Q.
Proof.
  intros H. destruct (Qlt_le_dec 0 x) as [Hx|Hx].
  - unfold Js.fl. destruct (Qcompare_spec x 0) as [E|E|E]; try lra.
    destruct (Qcompare_spec y 0) as [E'|E'|E']; try lra. now apply fl_pos_mono.
  - destruct (Qlt_le_dec y 0) as [Hy|Hy].
    + unfold Js.fl. destruct (Qcompare_spec x 0) as [E|E|E]; try lra.
      destruct (Qcompare_spec y 0) as [E'|E'|E']; try lra.
      pose proof (fl_pos_mono (- y) (- x) ltac:(lra) ltac:(lra)). lra.
    + apply Qle_trans with 0%Q; [now apply fl_nonpos | now apply fl_nonneg].
Qed.

Lemma fl_comp (x y : Q) : (x == y)%Q -> (Js.fl x == Js.fl y)%Q.
Proof. intros E. apply Qle_antisym; apply fl_mono; lra. Qed.

(** A number with at most 53 significant bits above 2^-1074 is a
    double. *)
Lemma fl_pos_representable (x : Q) (m e : Z) :
  (x == inject_Z m * Js.pow2 e)%Q -> (0 < m < 2 ^ 53)%Z -> (-1074 <= e)%Z ->
  (Js.fl_pos x == x)%Q.
Proof.
  intros Ex Hm He.
  assert (Hx : (0 < x)%Q).
  { rewrite Ex. apply Qmult_lt_0_compat; [|apply pow2_pos].
    change 0%Q with (inject_Z 0). rewrite <- Zlt_Qlt. lia. }
  assert (Hk : (Js.ilog2 x < 53 + e)%Z).
  { apply ilog2_lt; [exact Hx|]. rewrite Ex, pow2_add.
    apply Qmult_lt_compat_r; [apply pow2_pos|].
    rewrite pow2_inject by lia. rewrite <- Zlt_Qlt. lia. }
  unfold Js.fl_pos, Js.ulp. set (u := Z.max (Js.ilog2 x - 52) (-1074)).
  assert (Hu : (u <= e)%Z) by (unfold u; lia).
  assert (E : (x / Js.pow2 u == inject_Z (m * 2 ^ (e - u)))%Q).
  { rewrite Ex, inject_Z_mult, <- pow2_inject by lia.
    rewrite (pow2_split e u). pose proof (pow2_pos u). field. lra. }
  rewrite (round_even_comp _ _ E), round_even_inject.
  rewrite inject_Z_mult, <- pow2_inject by lia. rewrite Ex.
  rewrite (pow2_split e u). ring.
Qed.

Lemma fl_representable (x : Q) (m e : Z) :
  (x == inject_Z m * Js.pow2 e)%Q -> (Z.abs m < 2 ^ 53)%Z -> (-1074 <= e)%Z ->
  (Js.fl x == x)%Q.
Proof.
  intros Ex Hm He. pose proof (pow2_pos e) as Hp. unfold Js.fl.
  destruct (Qcompare_spec x 0) as [E|E|E].
  - now symmetry.
  - assert (Hneg : (m < 0)%Z).
    { destruct (Z.lt_ge_cases m 0) as [|Hge]; [assumption|]. exfalso.
      assert (0 <= inject_Z m)%Q by (change 0%Q with (inject_Z 0); rewrite <- Zle_Qle; lia).
      assert (0 <= inject_Z m * Js.pow2 e)%Q by (apply Qmult_le_0_compat; lra). lra. }
    rewrite (fl_pos_representable (- x) (- m) e); [ring | | lia | exact He].
    rewrite Ex, inject_Z_opp. ring.
  - assert (Hpos : (0 < m)%Z).
    { destruct (Z.lt_ge_cases 0 m) as [|Hge]; [assumption|]. exfalso.
      assert (inject_Z m <= 0)%Q by (change 0%Q with (inject_Z 0); rewrite <- Zle_Qle; lia).
      assert (inject_Z m * Js.pow2 e <= 0)%Q by nra. lra. }
    apply (fl_pos_representable x m e); [exact Ex | lia | exact He].
Qed.

(** An integer below 2^53 in magnitude is a double. *)
Lemma fl_inject (z : Z) : (Z.abs z < 2 ^ 53)%Z -> (Js.fl (inject_Z z) == inject_Z z)%Q.
Proof.
  intros H. apply (fl_representable _ z 0); [|exact H | lia].
  change (Js.pow2 0) with 1%Q. ring.
Qed.

(** ** Frames *)

Lemma floor_inject (z : Z) : Js.floor (inject_Z z) = z.
Proof. apply Qfloor_Z. Qed.

Lemma floor_mono (x y : Q) : (x <= y)%Q -> (Js.floor x <= Js.floor y)%Z.
Proof. apply Qfloor_resp_le. Qed.

Lemma inject_nat_nonneg (n : nat) : (0 <= inject_Z (Z.of_nat n))%Q.
Proof. change 0%Q with (inject_Z 0). rewrite <- Zle_Qle. lia. Qed.

Lemma floor_comp (x y : Q) : (x == y)%Q -> Js.floor x = Js.floor y.
Proof. apply Qfloor_comp. Qed.

(** The double product is monotone in an operand when the other is not
    negative. *)
Lemma mul_mono_l (a a' b : Q) : (0 <= b)%Q -> (a <= a')%Q -> (Js.mul a b <= Js.mul a' b)%Q.
Proof. intros Hb Ha. apply fl_mono. now apply Qmult_le_compat_r. Qed.

Lemma mul_0_l (b : Q) : (Js.mul 0 b == 0)%Q.
Proof. unfold Js.mul. rewrite (fl_comp (0 * b) 0) by ring. reflexivity. Qed.

(** The product of 1 and a frame count is that frame count. *)
Lemma mul_1_l_nat (n : nat) :
  (Z.of_nat n < 2 ^ 53)%Z -> (Js.mul 1 (inject_Z (Z.of_nat n)) == inject_Z (Z.of_nat n))%Q.
Proof.
  intros H. unfold Js.mul. rewrite (fl_comp (1 * _) (inject_Z (Z.of_nat n))) by ring.
  apply fl_inject. lia.
Qed.

(** A ratio in [0, 1] of [n] frames is a frame index in [0, n]. *)
Lemma floor_ratio_bounds (a : Q) (n : nat) :
  (0 <= a)%Q -> (a <= 1)%Q -> (Z.of_nat n < 2 ^ 53)%Z ->
  (0 <= Js.floor (Js.mul a (inject_Z (Z.of_nat n))) <= Z.of_nat n)%Z.
Proof.
  intros H0 H1 Hn53.
  pose proof (inject_nat_nonneg n) as Hn.
  split.
  - rewrite <- (floor_inject 0). apply floor_mono.
    apply Qle_trans with (Js.mul 0 (inject_Z (Z.of_nat n)));
      [apply Qle_lteq; right; symmetry; apply mul_0_l | now apply mul_mono_l].
  - rewrite <- (floor_inject (Z.of_nat n)) at 2. apply floor_mono.
    apply Qle_trans with (Js.mul 1 (inject_Z (Z.of_nat n)));
      [now apply mul_mono_l | apply Qle_lteq; right; now apply mul_1_l_nat].
Qed.

(** ** sliceBuffer *)

Lemma copied_slice_in_range (frameCount : nat) (startFrame endFrame : Z) (data : list Q) :
  (0 <= startFrame <= endFrame)%Z -> (endFrame <= Z.of_nat (length data))%Z ->
  frameCount = Z.to_nat (endFrame - startFrame) ->
  copied_slice frameCount startFrame endFrame data = TypedArray.slice data startFrame endFrame.
Proof.
  intros Hs He ->. unfold copied_slice. cbv zeta.
  pose proof (length_slice_in_range data startFrame endFrame Hs He) as Hl.
  rewrite Hl. rewrite <- Hl at 1.
  rewrite firstn_all. rewrite drop_ge by (rewrite length_replicate; lia).
  apply app_nil_r.
Qed.

(** The loop that fills a freshly created buffer, the last of the
    store, with the slices of the channels of [buffer]; [sliceBuffer]
    and [renderOfflineEffect] both run it. *)
Lemma copy_slices_run (s : Store) (buffer : ref) (b : AudioBuffer) (rate : Q)
    (frameCount : nat) (startFrame endFrame : Z) :
  s !! buffer = Some b ->
  for_range (numberOfChannels b)
    (fun i => data <- getChannelData buffer i ;;
              copyToChannel (length s) (TypedArray.slice data startFrame endFrame) i)
    (s ++ [mkAudioBuffer rate frameCount
             (replicate (numberOfChannels b) (replicate frameCount 0%Q))]) =
  Ok tt (s ++ [mkAudioBuffer rate frameCount
                 (map (copied_slice frameCount startFrame endFrame) (channelData b))]).
Proof.
  intros Hb.
  set (chs0 := replicate (numberOfChannels b) (replicate frameCount 0%Q)).
  set (s0 := s ++ [mkAudioBuffer rate frameCount chs0]).
  set (g := fun k => match channelData b !! k with
                     | Some data => copied_slice frameCount startFrame endFrame data
                     | None => []
                     end).
  assert (Hd : length s < length s0) by (unfold s0; rewrite length_app; simpl; lia).
  assert (Hlen0 : length chs0 = numberOfChannels b) by apply length_replicate.
  match goal with |- for_range _ ?body _ = _ =>
    pose proof (for_range_channels (length s) rate frameCount chs0 g body s0 Hd) as Hloop
  end.
  rewrite Hlen0 in Hloop.
  assert (Hs0 : <[length s := mkAudioBuffer rate frameCount chs0]> s0 = s0).
  { apply list_insert_id. unfold s0. now rewrite lookup_app_r, Nat.sub_diag by lia. }
  rewrite Hs0 in Hloop. rewrite Hloop.
  - unfold s0. do 2 f_equal.
    rewrite insert_app_r_alt, Nat.sub_diag by lia. cbn [insert list_insert]. do 3 f_equal.
    unfold numberOfChannels, g. apply map_lookup_seq.
  - intros k chs Hk Hlen Hdrop.
    assert (Hne : length s <> buffer) by (apply lookup_lt_Some in Hb; lia).
    destruct (lookup_lt_is_Some_2 (channelData b) k ltac:(unfold numberOfChannels in *; lia))
      as [data Hdata].
    erewrite bind_Ok;
      [| eapply getChannelData_Ok; [|exact Hdata];
         rewrite list_lookup_insert_ne by exact Hne;
         unfold s0; now apply lookup_app_l_Some].
    unfold copyToChannel.
    erewrite modifyChannelData_Ok;
      [| now apply list_lookup_insert_eq
       | cbn [channelData]; rewrite (lookup_of_drop_eq _ _ _ Hdrop);
         apply lookup_replicate_2; lia
       | reflexivity].
    cbn [sampleRate buf_length channelData]. rewrite list_insert_insert_eq.
    unfold g, copied_slice. rewrite Hdata.
    now rewrite length_replicate.
Qed.

(** What [sliceBuffer] does whenever it allocates: one new buffer at the
    end of the store, each channel the copy of the slice of the source
    channel into [frameCount] frames of silence. *)
Lemma sliceBuffer_run (s : Store) (buffer : ref) (b : AudioBuffer) (startRatio endRatio : Q) :
  s !! buffer = Some b -> 0 < numberOfChannels b ->
  let startFrame := Js.floor (Js.mul startRatio (inject_Z (Z.of_nat (buf_length b)))) in
  let endFrame := Js.floor (Js.mul endRatio (inject_Z (Z.of_nat (buf_length b)))) in
  let frameCount := Z.to_nat (endFrame - startFrame) in
  (0 < endFrame - startFrame)%Z ->
  sliceBuffer buffer startRatio endRatio s =
  Ok (Some (length s))
     (s ++ [mkAudioBuffer (sampleRate b) frameCount
              (map (copied_slice frameCount startFrame endFrame) (channelData b))]).
Proof.
  intros Hb Hch startFrame endFrame frameCount Hpos.
  unfold sliceBuffer.
  rewrite (bind_Ok _ _ _ _ _ (readBuffer_Ok _ _ _ Hb)).
  fold startFrame endFrame.
  destruct (Z.leb_spec (endFrame - startFrame) 0) as [|_]; [lia|].
  fold frameCount.
  rewrite (bind_Ok _ _ _ _ _ (createBuffer_Ok s _ frameCount _ Hch ltac:(lia))).
  now rewrite (bind_Ok _ _ _ _ _ (copy_slices_run s buffer b _ _ _ _ Hb)).
Qed.

(** C6. For ratios [0 <= a < b <= 1] over a buffer of [N] frames (fewer
    than 2^32, as the length of an [AudioBuffer] is), [sliceBuffer]
    returns [null] exactly when the frame count
    [Math.floor(b * N) - Math.floor(a * N)] is not positive; otherwise
    it returns a freshly allocated buffer (a new reference, the store is
    only extended) of exactly that many frames per channel whose samples
    are those of the source at frames
    [Math.floor(a * N), Math.floor(b * N)), on every channel; and
    slicing (0, 1) yields a copy equal to the source.  The products are
    the double products of the source: for the ratio 0.7 of 10 frames
    the frame is 7. *)
Theorem sliceBuffer_correct (s : Store) (buffer : ref) (b : AudioBuffer) (a e : Q) :
  s !! buffer = Some b -> wf_buffer b -> (Z.of_nat (buf_length b) < 2 ^ 32)%Z ->
  (0 <= a)%Q -> (a < e)%Q -> (e <= 1)%Q ->
  let startFrame := Js.floor (Js.mul a (inject_Z (Z.of_nat (buf_length b)))) in
  let endFrame := Js.floor (Js.mul e (inject_Z (Z.of_nat (buf_length b)))) in
  let frameCount := (endFrame - startFrame)%Z in
  ((frameCount <= 0)%Z <-> sliceBuffer buffer a e s = Ok None s) /\
  ((0 < frameCount)%Z ->
     exists nb,
       sliceBuffer buffer a e s = Ok (Some (length s)) (s ++ [nb]) /\
       wf_buffer nb /\
       sampleRate nb = sampleRate b /\
       numberOfChannels nb = numberOfChannels b /\
       Z.of_nat (buf_length nb) = frameCount /\
       forall c j, c < numberOfChannels b -> j < buf_length nb ->
         is_Some (sample nb c j) /\
         sample nb c j = sample b c (Z.to_nat startFrame + j)) /\
  ((a == 0)%Q -> (e == 1)%Q ->
     sliceBuffer buffer a e s = Ok (Some (length s)) (s ++ [b])).
Proof.
  intros Hb (Hch & Hlen & Hall & Hrate) H32 Ha Hae He startFrame endFrame frameCount.
  assert (Hs : (0 <= startFrame <= Z.of_nat (buf_length b))%Z).
  { apply floor_ratio_bounds; [assumption | lra | lia]. }
  assert (Hse : (startFrame <= endFrame)%Z).
  { apply floor_mono, mul_mono_l; [apply inject_nat_nonneg | lra]. }
  assert (HeN : (0 <= endFrame <= Z.of_nat (buf_length b))%Z).
  { apply floor_ratio_bounds; [lra | assumption | lia]. }
  assert (Hrun : (0 < frameCount)%Z ->
            sliceBuffer buffer a e s =
            Ok (Some (length s))
               (s ++ [mkAudioBuffer (sampleRate b) (Z.to_nat frameCount)
                        (map (fun data => TypedArray.slice data startFrame endFrame)
                             (channelData b))])).
  { intros Hpos. rewrite (sliceBuffer_run s buffer b a e Hb Hch Hpos).
    fold startFrame endFrame frameCount. do 4 f_equal.
    apply map_ext_in. intros data Hin.
    rewrite Forall_forall in Hall. specialize (Hall data (proj2 (list_elem_of_In _ _) Hin)).
    apply copied_slice_in_range; [lia | lia | reflexivity]. }
  split; [split|split].
  - intros Hle. unfold sliceBuffer.
    rewrite (bind_Ok _ _ _ _ _ (readBuffer_Ok _ _ _ Hb)).
    fold startFrame endFrame frameCount.
    destruct (Z.leb_spec frameCount 0); [reflexivity | lia].
  - intros Hnull. destruct (Z.le_gt_cases frameCount 0) as [|Hpos]; [assumption|].
    rewrite (Hrun Hpos) in Hnull. discriminate.
  - intros Hpos. eexists. split; [apply (Hrun Hpos)|].
    unfold wf_buffer, numberOfChannels; simpl. rewrite length_map.
    rewrite Forall_forall in Hall.
    split; [|split; [reflexivity | split; [reflexivity | split; [lia|]]]].
    + split; [exact Hch | split; [lia | split; [|exact Hrate]]].
      rewrite Forall_forall. intros ch Hin.
      apply list_elem_of_In, in_map_iff in Hin. destruct Hin as (data & <- & Hin).
      apply list_elem_of_In, Hall in Hin.
      apply length_slice_in_range; lia.
    + intros c j Hc Hj. unfold sample; cbn [channelData buf_length] in *.
      change (map ?h ?l) with (h <$> l). rewrite list_lookup_fmap.
      destruct (lookup_lt_is_Some_2 (channelData b) c Hc) as [data Hdata].
      rewrite Hdata; cbn [fmap option_fmap option_map].
      assert (Hd : length data = buf_length b)
        by (apply Hall; eapply list_elem_of_lookup_2; eauto).
      rewrite lookup_slice_in_range by lia.
      split; [|reflexivity].
      apply lookup_lt_is_Some_2. lia.
  - intros Ha0 He1.
    assert (Hs0 : startFrame = 0%Z).
    { unfold startFrame, Js.mul. rewrite (floor_comp _ 0); [reflexivity|].
      rewrite (fl_comp _ 0); [reflexivity | rewrite Ha0; ring]. }
    assert (He0 : endFrame = Z.of_nat (buf_length b)).
    { unfold endFrame, Js.mul. rewrite <- (floor_inject (Z.of_nat (buf_length b))) at 2.
      apply floor_comp.
      rewrite (fl_comp _ (inject_Z (Z.of_nat (buf_length b)))) by (rewrite He1; ring).
      apply fl_inject. lia. }
    rewrite Hrun by lia. do 3 f_equal.
    unfold frameCount. rewrite Hs0, He0, Z.sub_0_r, Nat2Z.id.
    destruct b as [rate len chs]; simpl in *. f_equal.
    rewrite <- (map_id chs) at 2. apply map_ext_in. intros data Hin.
    rewrite Forall_forall in Hall.
    rewrite <- (Hall data (proj2 (list_elem_of_In _ _) Hin)). apply slice_all.
Qed.

(** ** reverseRange *)

Lemma set_whole (target src : list Q) :
  length src = length target -> TypedArray.set target src 0 = inr src.
Proof.
  intros H. unfold TypedArray.set. simpl.
  destruct (Z.ltb_spec (Z.of_nat (length target)) (Z.of_nat (length src) + 0)); [lia|].
  simpl. rewrite drop_ge by lia. now rewrite app_nil_r.
Qed.

Lemma length_reverse_subarray (a : list Q) (s e : Z) :
  length (TypedArray.reverse_subarray a s e) = length a.
Proof.
  unfold TypedArray.reverse_subarray.
  pose proof (rel_le_len (length a) s). pose proof (rel_le_len (length a) e).
  rewrite !length_app, length_reverse, !length_take, !length_drop. lia.
Qed.

Lemma reverse_subarray_involutive (a : list Q) (s e : Z) :
  TypedArray.reverse_subarray (TypedArray.reverse_subarray a s e) s e = a.
Proof.
  unfold TypedArray.reverse_subarray at 1. rewrite length_reverse_subarray.
  unfold TypedArray.reverse_subarray.
  set (k := TypedArray.rel (length a) s). set (n := TypedArray.rel (length a) e - k).
  pose proof (rel_le_len (length a) s). pose proof (rel_le_len (length a) e).
  assert (Hp : length (take k a) = k) by (rewrite length_take; lia).
  assert (Hm : length (reverse (take n (drop k a))) = n)
    by (rewrite length_reverse, length_take, length_drop; lia).
  destruct (parts_of_app (take k a) (reverse (take n (drop k a))) (drop (k + n) a))
    as (H1 & H2 & H3).
  rewrite Hp, Hm in *. rewrite H1, H2, H3, reverse_involutive.
  rewrite <- drop_drop. now rewrite !take_drop.
Qed.

Lemma lookup_reverse_subarray (a : list Q) (s e : Z) (i : nat) :
  (0 <= s <= e)%Z -> (e <= Z.of_nat (length a))%Z ->
  TypedArray.reverse_subarray a s e !! i = a !! mirror s e i.
Proof.
  intros Hs He. unfold TypedArray.reverse_subarray, mirror.
  rewrite !rel_in_range by lia.
  replace (Z.to_nat s + (Z.to_nat e - Z.to_nat s)) with (Z.to_nat e) by lia.
  destruct (Z.leb_spec s (Z.of_nat i)); simpl.
  - rewrite lookup_app_r by (rewrite length_take; lia).
    rewrite length_take_le by lia.
    destruct (Z.ltb_spec (Z.of_nat i) e).
    + rewrite lookup_app_l by (rewrite length_reverse, length_take, length_drop; lia).
      rewrite reverse_lookup by (rewrite length_take, length_drop; lia).
      rewrite length_take, length_drop.
      rewrite lookup_take_lt by lia. rewrite lookup_drop. f_equal. lia.
    + rewrite lookup_app_r by (rewrite length_reverse, length_take, length_drop; lia).
      rewrite length_reverse, length_take, length_drop, lookup_drop. f_equal. lia.
  - rewrite lookup_app_l by (rewrite length_take; lia).
    apply lookup_take_lt. lia.
Qed.

Lemma reverseRange_run (s : Store) (buffer : ref) (b : AudioBuffer) (startTime endTime : Q) :
  s !! buffer = Some b -> wf_buffer b ->
  reverseRange buffer startTime endTime s =
  Ok (length s)
     (s ++ [mkAudioBuffer (sampleRate b) (buf_length b)
              (reversed_channels b startTime endTime)]).
Proof.
  intros Hb (Hch & Hlen & Hall & _). unfold reverseRange, reversed_channels.
  rewrite (bind_Ok _ _ _ _ _ (readBuffer_Ok _ _ _ Hb)).
  set (startFrame := Js.floor (Js.mul startTime (sampleRate b))).
  set (endFrame := Js.floor (Js.mul endTime (sampleRate b))).
  rewrite (bind_Ok _ _ _ _ _ (createBuffer_Ok s _ _ _ Hch Hlen)).
  set (chs0 := replicate (numberOfChannels b) (replicate (buf_length b) 0%Q)).
  set (s0 := s ++ [mkAudioBuffer (sampleRate b) (buf_length b) chs0]).
  set (f := fun data : list Q =>
              if (endFrame >? startFrame)%Z
              then TypedArray.reverse_subarray data startFrame endFrame else data).
  set (g := fun k => match channelData b !! k with Some data => f data | None => [] end).
  assert (Hd : length s < length s0) by (unfold s0; rewrite length_app; simpl; lia).
  assert (Hlen0 : length chs0 = numberOfChannels b) by apply length_replicate.
  assert (Hs0 : <[length s := mkAudioBuffer (sampleRate b) (buf_length b) chs0]> s0 = s0).
  { apply list_insert_id. unfold s0. now rewrite lookup_app_r, Nat.sub_diag by lia. }
  match goal with |- bind (for_range _ ?body) _ _ = _ =>
    pose proof (for_range_channels (length s) (sampleRate b) (buf_length b) chs0 g body
                  s0 Hd) as Hloop
  end.
  rewrite Hlen0, Hs0 in Hloop.
  erewrite bind_Ok; [| apply Hloop].
  - unfold ret, s0. do 2 f_equal.
    rewrite insert_app_r_alt, Nat.sub_diag by lia. simpl. do 3 f_equal.
    unfold numberOfChannels, g. apply map_lookup_seq.
  - intros k chs Hk Hlenc Hdrop.
    assert (Hne : length s <> buffer) by (apply lookup_lt_Some in Hb; lia).
    destruct (lookup_lt_is_Some_2 (channelData b) k ltac:(unfold numberOfChannels in *; lia))
      as [data Hdata].
    assert (Hdl : length data = buf_length b).
    { rewrite Forall_forall in Hall. apply Hall. eapply list_elem_of_lookup_2; eauto. }
    erewrite bind_Ok;
      [| eapply getChannelData_Ok; [|exact Hdata];
         rewrite list_lookup_insert_ne by exact Hne;
         unfold s0; now apply lookup_app_l_Some].
    erewrite bind_Ok;
      [| eapply modifyChannelData_Ok;
         [ now apply list_lookup_insert_eq
         | simpl; rewrite (lookup_of_drop_eq _ _ _ Hdrop); apply lookup_replicate_2; lia
         | apply set_whole; rewrite length_replicate; exact Hdl ]].
    simpl. rewrite list_insert_insert_eq.
    unfold g, f. rewrite Hdata.
    destruct (endFrame >? startFrame)%Z.
    + erewrite modifyChannelData_Ok;
        [| now apply list_lookup_insert_eq
         | simpl; apply list_lookup_insert_eq; lia
         | reflexivity].
      simpl. now rewrite !list_insert_insert_eq.
    + reflexivity.
Qed.

Lemma wf_reversed (b : AudioBuffer) (startTime endTime : Q) :
  wf_buffer b ->
  wf_buffer (mkAudioBuffer (sampleRate b) (buf_length b)
               (reversed_channels b startTime endTime)).
Proof.
  intros (Hch & Hlen & Hall & Hrate).
  unfold wf_buffer, numberOfChannels, reversed_channels in *; simpl.
  rewrite length_map. repeat split; try assumption.
  rewrite Forall_forall in *. intros ch Hin.
  apply list_elem_of_In, in_map_iff in Hin. destruct Hin as (data & <- & Hin).
  apply list_elem_of_In, Hall in Hin.
  destruct (_ >? _)%Z; [rewrite length_reverse_subarray|]; exact Hin.
Qed.

(** C7. [reverseRange] copies the buffer into a new one (the store is
    only extended, so the original is unmodified), of the same shape;
    for valid times [0 <= t0 < t1] whose end frame is within the buffer,
    the new buffer holds on every channel the source's samples with the
    order reversed inside
    [Math.floor(t0 * sampleRate), Math.floor(t1 * sampleRate)) (the
    frames of the double products, as the source computes them) and
    unchanged outside; and applying [reverseRange] again with the same
    times to the result yields a buffer equal to the original. *)
Theorem reverseRange_involution (s : Store) (buffer : ref) (b : AudioBuffer) (t0 t1 : Q) :
  s !! buffer = Some b -> wf_buffer b ->
  let startFrame := Js.floor (Js.mul t0 (sampleRate b)) in
  let endFrame := Js.floor (Js.mul t1 (sampleRate b)) in
  exists nb,
    reverseRange buffer t0 t1 s = Ok (length s) (s ++ [nb]) /\
    wf_buffer nb /\
    sampleRate nb = sampleRate b /\
    numberOfChannels nb = numberOfChannels b /\
    buf_length nb = buf_length b /\
    ((0 <= t0)%Q -> (t0 < t1)%Q -> (endFrame <= Z.of_nat (buf_length b))%Z ->
     forall c i, sample nb c i = sample b c (mirror startFrame endFrame i)) /\
    reverseRange (length s) t0 t1 (s ++ [nb]) = Ok (S (length s)) (s ++ [nb; b]).
Proof.
  intros Hb Hwf startFrame endFrame.
  pose proof (wf_reversed b t0 t1 Hwf) as Hwf'.
  set (nb := mkAudioBuffer (sampleRate b) (buf_length b) (reversed_channels b t0 t1)) in *.
  exists nb. split; [apply (reverseRange_run s buffer b t0 t1 Hb Hwf)|].
  split; [exact Hwf'|]. split; [reflexivity|].
  split; [unfold numberOfChannels, reversed_channels; simpl; apply length_map|].
  split; [reflexivity|]. split.
  - intros H0 H01 He c i. destruct Hwf as (Hch & Hlen & Hall & Hrate).
    assert (Hs : (0 <= startFrame)%Z).
    { rewrite <- (floor_inject 0). apply floor_mono.
      apply Qle_trans with (Js.mul 0 (sampleRate b));
        [apply Qle_lteq; right; symmetry; apply mul_0_l | apply mul_mono_l; lra]. }
    assert (Hse : (startFrame <= endFrame)%Z).
    { apply floor_mono, mul_mono_l; lra. }
    unfold sample, nb, reversed_channels. cbn [channelData]. fold startFrame endFrame.
    change (map ?h ?l) with (h <$> l). rewrite list_lookup_fmap.
    destruct (channelData b !! c) as [data|] eqn:Hdata; cbn [fmap option_fmap option_map];
      [|reflexivity].
    assert (Hdl : length data = buf_length b).
    { rewrite Forall_forall in Hall. apply Hall. eapply list_elem_of_lookup_2; eauto. }
    destruct (Z.gtb_spec endFrame startFrame).
    + apply lookup_reverse_subarray; lia.
    + unfold mirror. destruct (Z.leb_spec startFrame (Z.of_nat i)); simpl; [|reflexivity].
      destruct (Z.ltb_spec (Z.of_nat i) endFrame); [lia | reflexivity].
  - rewrite (reverseRange_run (s ++ [nb]) (length s) nb t0 t1).
    + rewrite length_app, Nat.add_1_r, <- app_assoc. cbn [length app]. do 3 f_equal.
      destruct b as [rate len chs]. unfold nb, reversed_channels.
      cbn [sampleRate buf_length channelData]. rewrite map_map.
      apply (f_equal (fun x => [mkAudioBuffer rate len x])).
      transitivity (map (fun data : list Q => data) chs); [|apply map_id].
      apply map_ext. intros data.
      destruct (_ >? _)%Z; [apply reverse_subarray_involutive | reflexivity].
    + now rewrite lookup_app_r, Nat.sub_diag by lia.
    + exact Hwf'.
Qed.

(** ** applyMathBitcrush *)

Lemma hold_index_le m i : (1 <= m)%Z -> hold_index m i <= i.
Proof.
  intros Hm. unfold hold_index.
  pose proof (Z.mul_div_le (Z.of_nat i) m ltac:(lia)).
  pose proof (Z.div_pos (Z.of_nat i) m ltac:(lia) ltac:(lia)). nia.
Qed.

Lemma hold_index_start m i : (1 <= m)%Z -> (Z.rem (Z.of_nat i) m = 0)%Z -> hold_index m i = i.
Proof.
  intros Hm H. unfold hold_index. rewrite Z.rem_mod_nonneg in H by lia.
  pose proof (Z.div_mod (Z.of_nat i) m ltac:(lia)). lia.
Qed.

Lemma hold_index_next m i :
  (1 <= m)%Z -> (Z.rem (Z.of_nat (S i)) m <> 0)%Z -> hold_index m (S i) = hold_index m i.
Proof.
  intros Hm H. unfold hold_index. rewrite Z.rem_mod_nonneg in H by lia.
  do 2 f_equal.
  pose proof (Z.div_mod (Z.of_nat (S i)) m ltac:(lia)).
  pose proof (Z.mod_pos_bound (Z.of_nat (S i)) m ltac:(lia)).
  apply (Z.div_unique _ _ _ (Z.of_nat (S i) mod m - 1)); lia.
Qed.

Lemma hold_index_run m i j :
  (1 <= m)%Z -> (Z.of_nat i mod m = 0)%Z -> (Z.of_nat j < m)%Z ->
  hold_index m (i + j) = i.
Proof.
  intros Hm Hi Hj. unfold hold_index.
  pose proof (Z.div_mod (Z.of_nat i) m ltac:(lia)).
  replace (Z.of_nat (i + j) / m)%Z with (Z.of_nat i / m)%Z; [lia|].
  apply (Z.div_unique _ _ _ (Z.of_nat j)); lia.
Qed.

Lemma length_put a i v : length (TypedArray.put a i v) = length a.
Proof. unfold TypedArray.put. destruct (_ <? _)%Z; [reflexivity | apply length_insert]. Qed.

Lemma length_bitcrush_fold step stepScale stepSize (idx : list Z) (st : list Q * Q) :
  length (fst (fold_left (bitcrush_step step stepScale stepSize) idx st)) = length (fst st).
Proof.
  revert st. induction idx as [|i idx IH]; intros [d l]; [reflexivity|].
  simpl fold_left. rewrite IH. unfold bitcrush_step. simpl. apply length_put.
Qed.

Lemma length_bitcrush_channel len step stepScale stepSize data :
  length (bitcrush_channel len step stepScale stepSize data) = length data.
Proof. unfold bitcrush_channel. apply length_bitcrush_fold. Qed.

(** The loop state after [k] iterations: the frames below [k] hold the
    quantized sample of the start of their run, the frames from [k] on
    are untouched, and [lastSample] is what frame [k - 1] got. *)
Lemma bitcrush_invariant step stepScale (m : Z) (data : list Q) (k : nat) :
  (1 <= m)%Z -> k <= length data ->
  (forall i, i < k ->
     fst (fold_left (bitcrush_step step stepScale (Some m))
            (seqZ 0 (Z.of_nat k)) (data, 0%Q)) !! i =
     quantized step stepScale <$> data !! hold_index m i) /\
  (forall i, k <= i ->
     fst (fold_left (bitcrush_step step stepScale (Some m))
            (seqZ 0 (Z.of_nat k)) (data, 0%Q)) !! i = data !! i) /\
  (0 < k ->
     Some (snd (fold_left (bitcrush_step step stepScale (Some m))
                  (seqZ 0 (Z.of_nat k)) (data, 0%Q))) =
     quantized step stepScale <$> data !! hold_index m (k - 1)).
Proof.
  intros Hm. set (q := quantized step stepScale).
  induction k as [|k IH]; intros Hk.
  - simpl. split; [intros; lia | split; [intros; reflexivity | intros; lia]].
  - specialize (IH ltac:(lia)). destruct IH as (Hlow & Hhigh & Hlast).
    rewrite seqZ_S, fold_left_app. simpl fold_left.
    pose proof (length_bitcrush_fold step stepScale (Some m) (seqZ 0 (Z.of_nat k)) (data, 0%Q))
      as Hlen. simpl fst in Hlen.
    destruct (fold_left _ (seqZ 0 (Z.of_nat k)) _) as [d last]. simpl fst in *. simpl snd in *.
    assert (Hsome : is_Some (data !! hold_index m k)).
    { apply lookup_lt_is_Some_2. pose proof (hold_index_le m k Hm). lia. }
    destruct Hsome as [x Hx].
    assert (Hnew : (if Js.rem_is_zero (0 + Z.of_nat k) m
                    then match TypedArray.get d (0 + Z.of_nat k) with
                         | Some sample => q sample
                         | None => last
                         end
                    else last) = q x).
    { unfold Js.rem_is_zero, TypedArray.get.
      destruct (Z.eqb_spec m 0); [lia|]. rewrite Z.add_0_l.
      destruct (Z.ltb_spec (Z.of_nat k) 0); [lia|]. rewrite Nat2Z.id.
      destruct (Z.eqb_spec (Z.rem (Z.of_nat k) m) 0) as [Hz|Hnz].
      - rewrite (Hhigh k (le_n _)). rewrite (hold_index_start m k Hm Hz) in Hx.
        now rewrite Hx.
      - destruct k as [|k']; [now destruct m|].
        specialize (Hlast ltac:(lia)). replace (S k' - 1) with k' in Hlast by lia.
        rewrite (hold_index_next m k' Hm Hnz) in Hx. rewrite Hx in Hlast.
        simpl in Hlast. congruence. }
    unfold bitcrush_step. cbv zeta. fold q. rewrite Hnew. simpl fst. simpl snd. unfold TypedArray.put.
    rewrite Z.add_0_l. destruct (Z.ltb_spec (Z.of_nat k) 0); [lia|]. rewrite Nat2Z.id.
    split; [|split].
    + intros i Hi. destruct (Nat.eq_dec i k) as [->|Hne].
      * rewrite list_lookup_insert_eq by lia. now rewrite Hx.
      * rewrite list_lookup_insert_ne by lia. apply Hlow. lia.
    + intros i Hi. rewrite list_lookup_insert_ne by lia. apply Hhigh. lia.
    + intros _. replace (S k - 1) with k by lia. now rewrite Hx.
Qed.

(** The closed form of the inner loop for a step size of at least 1. *)
Lemma bitcrush_channel_lookup step stepScale (m : Z) (data : list Q) (i : nat) :
  (1 <= m)%Z -> i < length data ->
  bitcrush_channel (length data) step stepScale (Some m) data !! i =
  quantized step stepScale <$> data !! hold_index m i.
Proof.
  intros Hm Hi. unfold bitcrush_channel, TypedArray.indices. rewrite Z.sub_0_r.
  now apply (bitcrush_invariant step stepScale m data (length data) Hm (le_n _)).
Qed.

Lemma applyMathBitcrush_run (s : Store) (buffer : ref) (b : AudioBuffer) (bits : Z)
    (normFreq : Q) :
  s !! buffer = Some b ->
  applyMathBitcrush buffer bits normFreq s =
  Ok buffer
     (<[buffer := mkAudioBuffer (sampleRate b) (buf_length b)
                    (map (bitcrush_channel (buf_length b) (1 / Js.pow2 bits)
                            (1 / (1 / Js.pow2 bits)) (stepSize_of normFreq))
                         (channelData b))]> s).
Proof.
  intros Hb. unfold applyMathBitcrush.
  rewrite (bind_Ok _ _ _ _ _ (readBuffer_Ok _ _ _ Hb)).
  now rewrite (bind_Ok _ _ _ _ _ (map_channels_run s buffer b _ Hb)).
Qed.


(** The quotient [1 / normFreq] of a ratio in (0, 1] is at least 1. *)
Lemma div_1_ge_1 (normFreq : Q) :
  (0 < normFreq)%Q -> (normFreq <= 1)%Q -> (1 <= Js.div 1 normFreq)%Q.
Proof.
  intros H0 H1. apply Qle_trans with (Js.fl 1).
  - apply Qle_lteq. right. symmetry. apply (fl_inject 1). reflexivity.
  - apply fl_mono, Qle_shift_div_l; lra.
Qed.

(** A ratio in (0, 1] gives a step size of at least one frame, or an
    infinite one when the quotient overflows. *)
Lemma stepSize_cases (normFreq : Q) :
  (0 < normFreq)%Q -> (normFreq <= 1)%Q ->
  match stepSize_of normFreq with
  | Some m => m = Js.floor (Js.div 1 normFreq) /\ (1 <= m)%Z
  | None => (Js.pow2 1024 <= Js.div 1 normFreq)%Q
  end.
Proof.
  intros H0 H1. pose proof (div_1_ge_1 normFreq H0 H1) as Hq. unfold stepSize_of.
  destruct (Qeq_bool normFreq 0) eqn:E; [apply Qeq_bool_eq in E; lra|].
  destruct (Qle_bool (Js.pow2 1024) (Qabs (Js.div 1 normFreq))) eqn:E'.
  - apply Qle_bool_iff in E'. rewrite Qabs_pos in E' by lra. exact E'.
  - split; [reflexivity|]. change (Js.floor 1 <= Js.floor (Js.div 1 normFreq))%Z.
    now apply floor_mono.
Qed.

(** A ratio in (0, 1] that is not below the normal doubles gives a
    finite step size. *)
Lemma stepSize_ge_1 (normFreq : Q) :
  (Js.pow2 (-1022) <= normFreq)%Q -> (normFreq <= 1)%Q ->
  stepSize_of normFreq = Some (Js.floor (Js.div 1 normFreq)) /\
  (1 <= Js.floor (Js.div 1 normFreq))%Z.
Proof.
  intros H0 H1. pose proof (pow2_pos (-1022)) as Hp.
  pose proof (stepSize_cases normFreq ltac:(lra) H1) as Hc.
  destruct (stepSize_of normFreq) as [m|]; [destruct Hc as [-> Hm]; now split|].
  exfalso.
  assert (Hle : (Js.div 1 normFreq <= Js.pow2 1022)%Q).
  { apply Qle_trans with (Js.fl (Js.pow2 1022)).
    - apply fl_mono. apply Qle_shift_div_r; [lra|].
      apply Qle_trans with (Js.pow2 1022 * Js.pow2 (-1022))%Q.
      + rewrite <- pow2_add. apply Qle_refl.
      + apply Qmult_le_l; [apply pow2_pos | exact H0].
    - apply Qle_lteq. right. apply (fl_representable _ 1 1022); [ring | reflexivity | lia]. }
  pose proof (pow2_lt 1022 1024 ltac:(lia)). lra.
Qed.

(** An infinite step size samples at frame 0 only, as a step size
    longer than the channel does. *)
Lemma bitcrush_fold_infinite step stepScale (M : Z) (idx : list Z) (st : list Q * Q) :
  (forall i, i ∈ idx -> (0 <= i < M)%Z) ->
  fold_left (bitcrush_step step stepScale None) idx st =
  fold_left (bitcrush_step step stepScale (Some M)) idx st.
Proof.
  revert st. induction idx as [|i idx IH]; intros st Hidx; [reflexivity|].
  cbn [fold_left]. rewrite IH by (intros j Hj; apply Hidx; now right).
  f_equal. destruct st as [data lastSample]. unfold bitcrush_step, on_step, Js.rem_is_zero.
  pose proof (Hidx i ltac:(now left)) as Hi.
  destruct (Z.eqb_spec M 0); [lia|]. now rewrite Z.rem_small by lia.
Qed.

Lemma bitcrush_channel_infinite step stepScale (data : list Q) (len : nat) :
  bitcrush_channel len step stepScale None data =
  bitcrush_channel len step stepScale (Some (Z.of_nat len + 1)%Z) data.
Proof.
  unfold bitcrush_channel. f_equal. apply bitcrush_fold_infinite.
  intros i Hi. unfold TypedArray.indices in Hi. apply elem_of_seqZ in Hi. lia.
Qed.

(** The closed form of the inner loop for every step size of a ratio in
    (0, 1]. *)
Lemma bitcrush_channel_run step stepScale (stepSize : option Z) (data : list Q) (i : nat) :
  match stepSize with Some m => (1 <= m)%Z | None => True end -> i < length data ->
  bitcrush_channel (length data) step stepScale stepSize data !! i =
  quantized step stepScale <$> data !! run_start stepSize i.
Proof.
  intros Hm Hi. destruct stepSize as [m|]; cbn [run_start].
  - now apply bitcrush_channel_lookup.
  - rewrite bitcrush_channel_infinite, bitcrush_channel_lookup by lia.
    unfold hold_index. rewrite Z.div_small by lia. now rewrite Z.mul_0_r.
Qed.

Lemma run_start_le (stepSize : option Z) (i : nat) :
  match stepSize with Some m => (1 <= m)%Z | None => True end -> run_start stepSize i <= i.
Proof.
  destruct stepSize as [m|]; cbn [run_start]; [apply hold_index_le | lia].
Qed.



(** ** renderOfflineEffect *)

Lemma set_at (target src : list Q) (offset : Z) :
  (0 <= offset)%Z -> (Z.of_nat (length src) + offset <= Z.of_nat (length target))%Z ->
  TypedArray.set target src offset =
  inr (take (Z.to_nat offset) target ++ src ++ drop (Z.to_nat offset + length src) target).
Proof.
  intros H0 H1. unfold TypedArray.set.
  destruct (Z.ltb_spec offset 0); [lia|].
  destruct (Z.ltb_spec (Z.of_nat (length target)) (Z.of_nat (length src) + offset)); [lia|].
  reflexivity.
Qed.

Lemma set_out_of_range (target src : list Q) (offset : Z) :
  (offset < 0)%Z \/ (Z.of_nat (length target) < Z.of_nat (length src) + offset)%Z ->
  TypedArray.set target src offset = inl RangeError.
Proof.
  intros H. unfold TypedArray.set.
  destruct (Z.ltb_spec offset 0); [reflexivity|].
  destruct (Z.ltb_spec (Z.of_nat (length target)) (Z.of_nat (length src) + offset));
    [reflexivity | lia].
Qed.

Lemma length_spliced (startFrame : Z) (orig clip : list Q) :
  (0 <= startFrame)%Z -> (startFrame + Z.of_nat (length clip) <= Z.of_nat (length orig))%Z ->
  length (spliced startFrame orig clip) = length orig.
Proof.
  intros H0 H1. unfold spliced. rewrite !length_app, length_take, length_drop. lia.
Qed.

Lemma lookup_spliced_outside (startFrame : Z) (orig clip : list Q) (i : nat) :
  (0 <= startFrame)%Z -> (startFrame + Z.of_nat (length clip) <= Z.of_nat (length orig))%Z ->
  (Z.of_nat i < startFrame \/ startFrame + Z.of_nat (length clip) <= Z.of_nat i)%Z ->
  spliced startFrame orig clip !! i = orig !! i.
Proof.
  intros H0 H1 [Hlt|Hge]; unfold spliced.
  - rewrite lookup_app_l by (rewrite length_take; lia). apply lookup_take_lt. lia.
  - rewrite lookup_app_r by (rewrite length_take; lia).
    rewrite lookup_app_r by (rewrite length_take; lia).
    rewrite length_take, lookup_drop. f_equal. lia.
Qed.

Lemma lookup_spliced_inside (startFrame : Z) (orig clip : list Q) (i : nat) :
  (0 <= startFrame)%Z -> (startFrame + Z.of_nat (length clip) <= Z.of_nat (length orig))%Z ->
  (startFrame <= Z.of_nat i < startFrame + Z.of_nat (length clip))%Z ->
  spliced startFrame orig clip !! i = clip !! (i - Z.to_nat startFrame).
Proof.
  intros H0 H1 Hi. unfold spliced.
  rewrite lookup_app_r by (rewrite length_take; lia).
  rewrite length_take_le by lia. apply lookup_app_l. lia.
Qed.

(** The merging loop of [renderOfflineEffect] when every clip fits:
    channel [k] of the final buffer becomes the original channel with
    the processed clip spliced in. *)
Lemma merge_run (s0 : Store) (o p d : ref) (bo bp : AudioBuffer) (rate : Q) (startFrame : Z)
    (L : nat) :
  s0 !! o = Some bo -> s0 !! p = Some bp -> o <> d -> p <> d -> d < length s0 ->
  Forall (fun ch => length ch = buf_length bo) (channelData bo) ->
  Forall (fun ch => length ch = L) (channelData bp) ->
  numberOfChannels bp = numberOfChannels bo ->
  (0 <= startFrame)%Z -> (startFrame + Z.of_nat L <= Z.of_nat (buf_length bo))%Z ->
  for_range (numberOfChannels bo)
    (fun c =>
       orig <- getChannelData o c ;;
       modifyChannelData d c (fun data => TypedArray.set data orig 0) ;;
       clip <- getChannelData p c ;;
       modifyChannelData d c (fun data => TypedArray.set data clip startFrame))
    (<[d := mkAudioBuffer rate (buf_length bo)
              (replicate (numberOfChannels bo) (replicate (buf_length bo) 0%Q))]> s0) =
  Ok tt (<[d := mkAudioBuffer rate (buf_length bo)
                  (zip_with (spliced startFrame) (channelData bo) (channelData bp))]> s0).
Proof.
  intros Ho Hp Hod Hpd Hd Hall Hallp Hnch H0 H1.
  set (chs0 := replicate (numberOfChannels bo) (replicate (buf_length bo) 0%Q)).
  set (g := fun k => match channelData bo !! k, channelData bp !! k with
                     | Some orig, Some clip => spliced startFrame orig clip
                     | _, _ => []
                     end).
  assert (Hlen0 : length chs0 = numberOfChannels bo) by apply length_replicate.
  match goal with |- for_range _ ?body _ = _ =>
    pose proof (for_range_channels d rate (buf_length bo) chs0 g body s0 Hd) as Hloop
  end.
  rewrite Hlen0 in Hloop. rewrite Hloop.
  - do 3 f_equal. apply list_eq. intros i. unfold g.
    change (map ?h ?l) with (h <$> l). rewrite list_lookup_fmap, lookup_zip_with.
    unfold numberOfChannels in *.
    destruct (channelData bo !! i) as [orig|] eqn:Eo.
    + rewrite lookup_seq_lt by (eapply lookup_lt_Some; eauto).
      cbn [fmap option_fmap option_map mbind option_bind]. rewrite Nat.add_0_l, Eo.
      destruct (lookup_lt_is_Some_2 (channelData bp) i
                  ltac:(apply lookup_lt_Some in Eo; lia)) as [clip Ec].
      now rewrite Ec.
    + rewrite lookup_seq_ge by (now apply lookup_ge_None). reflexivity.
  - intros k chs Hk Hlen Hdrop. unfold numberOfChannels in *.
    destruct (lookup_lt_is_Some_2 (channelData bo) k Hk) as [orig Eo].
    destruct (lookup_lt_is_Some_2 (channelData bp) k ltac:(lia)) as [clip Ec].
    rewrite Forall_forall in Hall, Hallp.
    assert (Hol : length orig = buf_length bo)
      by (apply Hall; eapply list_elem_of_lookup_2; eauto).
    assert (Hcl : length clip = L)
      by (apply Hallp; eapply list_elem_of_lookup_2; eauto).
    erewrite bind_Ok;
      [| eapply getChannelData_Ok; [|exact Eo];
         rewrite list_lookup_insert_ne by (intros E; apply Hod; now symmetry); exact Ho].
    erewrite bind_Ok;
      [| eapply modifyChannelData_Ok;
         [ now apply list_lookup_insert_eq
         | cbn [channelData]; rewrite (lookup_of_drop_eq _ _ _ Hdrop);
           apply lookup_replicate_2; lia
         | apply set_whole; rewrite length_replicate; exact Hol ]].
    cbn [sampleRate buf_length channelData]. rewrite list_insert_insert_eq.
    erewrite bind_Ok;
      [| eapply getChannelData_Ok; [|exact Ec];
         rewrite list_lookup_insert_ne by (intros E; apply Hpd; now symmetry); exact Hp].
    erewrite modifyChannelData_Ok;
      [| now apply list_lookup_insert_eq
       | cbn [channelData]; apply list_lookup_insert_eq; lia
       | apply set_at; lia].
    cbn [sampleRate buf_length channelData]. rewrite !list_insert_insert_eq.
    unfold g. now rewrite Eo, Ec.
Qed.

Section OfflineProperties.

Variable render : Graph -> list (list Q) -> nat -> nat -> Q.

Lemma startRendering_Ok (s : Store) (g : Graph) (source : ref) (src : AudioBuffer)
    (channels len : nat) (rate : Q) :
  s !! source = Some src ->
  startRendering render g source channels len rate s =
  Ok (length s)
     (s ++ [mkAudioBuffer rate len
              (map (fun c => map (render g (channelData src) c) (seq 0 len))
                   (seq 0 channels))]).
Proof.
  intros Hs. unfold startRendering.
  now rewrite (bind_Ok _ _ _ _ _ (readBuffer_Ok _ _ _ Hs)).
Qed.

(** What [renderOfflineEffect] does for a region of positive length
    that lies within the buffer: three buffers are appended to the
    store (the clip, the rendered clip, the result) and the result is
    the original with the rendered clip spliced in. *)
Lemma renderOfflineEffect_run (s : Store) (originalBuffer : ref) (b : AudioBuffer)
    (regionStart regionEnd : Q) (effectType : string) (params : Params) :
  s !! originalBuffer = Some b -> wf_buffer b ->
  let startFrame := Js.floor (Js.mul regionStart (sampleRate b)) in
  let endFrame := Js.floor (Js.mul regionEnd (sampleRate b)) in
  let L := Z.to_nat (endFrame - startFrame) in
  let temp := map (fun data => TypedArray.slice data startFrame endFrame) (channelData b) in
  let processed :=
    processed_channels effectType params L
      (map (fun c => map (render (build_graph effectType params) temp c) (seq 0 L))
           (seq 0 (numberOfChannels b))) in
  (0 <= startFrame)%Z -> (startFrame < endFrame)%Z ->
  (endFrame <= Z.of_nat (buf_length b))%Z ->
  renderOfflineEffect render originalBuffer regionStart regionEnd effectType params s =
  Ok (length s + 2)
     (s ++ [mkAudioBuffer (sampleRate b) L temp;
            mkAudioBuffer (sampleRate b) L processed;
            mkAudioBuffer (sampleRate b) (buf_length b)
              (zip_with (spliced startFrame) (channelData b) processed)]).
Proof.
  intros Hb (Hch & Hlen & Hall & Hrate) startFrame endFrame L temp processed H0 Hse He.
  unfold renderOfflineEffect.
  rewrite (bind_Ok _ _ _ _ _ (readBuffer_Ok _ _ _ Hb)). fold startFrame endFrame.
  destruct (Z.leb_spec (endFrame - startFrame) 0) as [|_]; [lia|]. fold L.
  rewrite (bind_Ok _ _ _ _ _ (createBuffer_Ok s _ L _ Hch ltac:(lia))).
  rewrite (bind_Ok _ _ _ _ _ (copy_slices_run s originalBuffer b _ _ _ _ Hb)).
  assert (Htemp : map (copied_slice L startFrame endFrame) (channelData b) = temp).
  { apply map_ext_in. intros data Hin. rewrite Forall_forall in Hall.
    specialize (Hall data (proj2 (list_elem_of_In _ _) Hin)).
    apply copied_slice_in_range; [lia | lia | reflexivity]. }
  rewrite Htemp.
  set (s1 := s ++ [mkAudioBuffer (sampleRate b) L temp]).
  assert (Hs1 : length s1 = length s + 1) by (unfold s1; rewrite length_app; reflexivity).
  erewrite bind_Ok;
    [| apply startRendering_Ok; unfold s1; now rewrite lookup_app_r, Nat.sub_diag by lia].
  cbn [channelData]. rewrite Hs1.
  set (rendered := map (fun c => map (render (build_graph effectType params) temp c) (seq 0 L))
                       (seq 0 (numberOfChannels b))).
  set (s2 := s1 ++ [mkAudioBuffer (sampleRate b) L processed]).
  assert (Hproc : bind (if (effectType =? "bitcrush")%string
                        then applyMathBitcrush (length s + 1) (Js.orZ (bits params) 8)
                               (Js.or (normFreq params) (1 # 2))
                        else ret (length s + 1))
                       (fun processedClip =>
                          finalBuffer <- createBuffer (numberOfChannels b) (buf_length b)
                                           (sampleRate b) ;;
                          for_range (numberOfChannels b) (fun c =>
                            orig <- getChannelData originalBuffer c ;;
                            modifyChannelData finalBuffer c
                              (fun data => TypedArray.set data orig 0) ;;
                            clip <- getChannelData processedClip c ;;
                            modifyChannelData finalBuffer c
                              (fun data => TypedArray.set data clip startFrame)) ;;
                          ret finalBuffer)
                       (s1 ++ [mkAudioBuffer (sampleRate b) L rendered]) =
                  (finalBuffer <- createBuffer (numberOfChannels b) (buf_length b)
                                    (sampleRate b) ;;
                   for_range (numberOfChannels b) (fun c =>
                     orig <- getChannelData originalBuffer c ;;
                     modifyChannelData finalBuffer c
                       (fun data => TypedArray.set data orig 0) ;;
                     clip <- getChannelData (length s + 1) c ;;
                     modifyChannelData finalBuffer c
                       (fun data => TypedArray.set data clip startFrame)) ;;
                   ret finalBuffer) s2).
  { unfold s2, processed, processed_channels. fold rendered.
    destruct (effectType =? "bitcrush")%string; [|reflexivity].
    erewrite bind_Ok;
      [| apply applyMathBitcrush_run; rewrite <- Hs1; now rewrite lookup_app_r, Nat.sub_diag by lia].
    cbn [sampleRate buf_length channelData].
    rewrite <- Hs1, insert_app_r_alt, Nat.sub_diag by lia. reflexivity. }
  rewrite Hproc. clear Hproc.
  assert (Hs2 : length s2 = length s + 2)
    by (unfold s2; rewrite length_app, Hs1; simpl; lia).
  rewrite (bind_Ok _ _ _ _ _ (createBuffer_Ok s2 _ _ _ Hch Hlen)). rewrite Hs2.
  set (final0 := mkAudioBuffer (sampleRate b) (buf_length b)
                   (replicate (numberOfChannels b) (replicate (buf_length b) 0%Q))).
  assert (Hproc_len : Forall (fun ch => length ch = L) processed).
  { unfold processed, processed_channels. rewrite Forall_forall. intros ch Hin.
    assert (Hr : forall ch, ch ∈ rendered -> length ch = L).
    { intros ch' Hin'. apply list_elem_of_In, in_map_iff in Hin'.
      destruct Hin' as (c & <- & _). now rewrite length_map, length_seq. }
    fold rendered in Hin. destruct (effectType =? "bitcrush")%string; [|now apply Hr].
    apply list_elem_of_In, in_map_iff in Hin. destruct Hin as (data & <- & Hin).
    rewrite length_bitcrush_channel. apply Hr. now apply list_elem_of_In. }
  assert (Hproc_n : length processed = numberOfChannels b).
  { unfold processed, processed_channels.
    destruct (effectType =? "bitcrush")%string; rewrite ?length_map; apply length_seq. }
  pose proof (merge_run (s2 ++ [final0]) originalBuffer (length s + 1) (length s + 2)
                b (mkAudioBuffer (sampleRate b) L processed) (sampleRate b) startFrame L)
    as Hmerge.
  assert (Hins : <[length s + 2 := final0]> (s2 ++ [final0]) = s2 ++ [final0]).
  { apply list_insert_id. now rewrite lookup_app_r, Hs2, Nat.sub_diag by lia. }
  fold final0 in Hmerge. rewrite Hins in Hmerge.
  pose proof (lookup_lt_Some _ _ _ Hb) as Hlt.
  erewrite bind_Ok; [| apply Hmerge].
  - unfold ret. f_equal.
    rewrite <- Hs2, insert_app_r_alt, Nat.sub_diag by lia.
    unfold s2, s1. now rewrite <- !app_assoc.
  - unfold s2, s1. rewrite <- !app_assoc. now apply lookup_app_l_Some.
  - unfold s2. rewrite <- app_assoc, lookup_app_r by lia.
    now rewrite Hs1, Nat.sub_diag.
  - lia.
  - lia.
  - rewrite length_app, Hs2. simpl. lia.
  - exact Hall.
  - exact Hproc_len.
  - exact Hproc_n.
  - exact H0.
  - lia.
Qed.

(** The buffer [renderOfflineEffect] returns for a region within the
    buffer: the source outside the frame range, the rendered clip
    inside. *)
Lemma renderOfflineEffect_spliced (s : Store) (originalBuffer : ref) (b : AudioBuffer)
    (regionStart regionEnd : Q) (effectType : string) (params : Params) :
  s !! originalBuffer = Some b -> wf_buffer b ->
  let startFrame := Js.floor (Js.mul regionStart (sampleRate b)) in
  let endFrame := Js.floor (Js.mul regionEnd (sampleRate b)) in
  (0 <= startFrame)%Z -> (startFrame < endFrame)%Z ->
  (endFrame <= Z.of_nat (buf_length b))%Z ->
  exists temp clip final,
    renderOfflineEffect render originalBuffer regionStart regionEnd effectType params s =
    Ok (length s + 2) (s ++ [temp; clip; final]) /\
    wf_buffer final /\
    sampleRate final = sampleRate b /\
    numberOfChannels final = numberOfChannels b /\
    buf_length final = buf_length b /\
    (forall c i, (Z.of_nat i < startFrame \/ endFrame <= Z.of_nat i)%Z ->
       sample final c i = sample b c i) /\
    (forall c i, c < numberOfChannels b -> (startFrame <= Z.of_nat i < endFrame)%Z ->
       sample final c i = sample clip c (i - Z.to_nat startFrame)).
Proof.
  intros Hb Hwf startFrame endFrame H0 Hse He.
  pose proof (renderOfflineEffect_run s originalBuffer b regionStart regionEnd effectType
                params Hb Hwf H0 Hse He) as Hrun.
  cbv zeta in Hrun. fold startFrame endFrame in Hrun.
  destruct Hwf as (Hch & Hlen & Hall & Hrate).
  set (L := Z.to_nat (endFrame - startFrame)) in *.
  match type of Hrun with
  | _ = Ok _ (_ ++ [_; mkAudioBuffer _ _ ?p; _]) => set (processed := p) in *
  end.
  assert (Hproc_len : forall clip, clip ∈ processed -> length clip = L).
  { intros ch Hin. unfold processed, processed_channels in Hin.
    match type of Hin with context [map ?f (seq 0 (numberOfChannels b))] =>
      set (rendered := map f (seq 0 (numberOfChannels b))) in * end.
    assert (Hr : forall ch, ch ∈ rendered -> length ch = L).
    { intros ch' Hin'. apply list_elem_of_In, in_map_iff in Hin'.
      destruct Hin' as (c & <- & _). now rewrite length_map, length_seq. }
    destruct (effectType =? "bitcrush")%string; [|now apply Hr].
    apply list_elem_of_In, in_map_iff in Hin. destruct Hin as (data & <- & Hin).
    rewrite length_bitcrush_channel. apply Hr. now apply list_elem_of_In. }
  assert (Hproc_n : length processed = numberOfChannels b).
  { unfold processed, processed_channels.
    destruct (effectType =? "bitcrush")%string; rewrite ?length_map; apply length_seq. }
  rewrite Forall_forall in Hall.
  assert (Hsample : forall c i,
            sample (mkAudioBuffer (sampleRate b) (buf_length b)
                      (zip_with (spliced startFrame) (channelData b) processed)) c i =
            match channelData b !! c, processed !! c with
            | Some orig, Some clip => spliced startFrame orig clip !! i
            | _, _ => None
            end).
  { intros c i. unfold sample. cbn [channelData]. rewrite lookup_zip_with.
    destruct (channelData b !! c); [|reflexivity].
    cbn [mbind option_bind]. now destruct (processed !! c). }
  do 3 eexists. split; [exact Hrun|].
  split; [|split; [reflexivity | split; [|split; [reflexivity | split]]]].
  - unfold wf_buffer, numberOfChannels in *. cbn [sampleRate buf_length channelData].
    rewrite length_zip_with, Hproc_n, Nat.min_id.
    split; [exact Hch | split; [exact Hlen | split; [|exact Hrate]]].
    rewrite Forall_forall. intros ch Hin.
    apply list_elem_of_lookup in Hin. destruct Hin as [c Hc].
    rewrite lookup_zip_with in Hc.
    destruct (channelData b !! c) as [orig|] eqn:Eo; [|discriminate].
    cbn [mbind option_bind] in Hc.
    destruct (processed !! c) as [clip|] eqn:Ec; [|discriminate].
    injection Hc as <-.
    pose proof (Hall orig (list_elem_of_lookup_2 _ _ _ Eo)).
    pose proof (Hproc_len clip (list_elem_of_lookup_2 _ _ _ Ec)).
    rewrite length_spliced; lia.
  - unfold numberOfChannels. cbn [channelData].
    now rewrite length_zip_with, Hproc_n, Nat.min_id.
  - intros c i Hi. rewrite Hsample. unfold sample.
    destruct (channelData b !! c) as [orig|] eqn:Eo; [|reflexivity].
    destruct (lookup_lt_is_Some_2 processed c
                ltac:(apply lookup_lt_Some in Eo; unfold numberOfChannels in *; lia))
      as [clip Ec].
    rewrite Ec.
    pose proof (Hall orig (list_elem_of_lookup_2 _ _ _ Eo)).
    pose proof (Hproc_len clip (list_elem_of_lookup_2 _ _ _ Ec)).
    apply lookup_spliced_outside; lia.
  - intros c i Hc Hi. rewrite Hsample. unfold sample. cbn [channelData].
    destruct (lookup_lt_is_Some_2 (channelData b) c Hc) as [orig Eo].
    destruct (lookup_lt_is_Some_2 processed c ltac:(lia)) as [clip Ec].
    rewrite Eo, Ec.
    pose proof (Hall orig (list_elem_of_lookup_2 _ _ _ Eo)).
    pose proof (Hproc_len clip (list_elem_of_lookup_2 _ _ _ Ec)).
    apply lookup_spliced_inside; lia.
Qed.

(** C1, for regions that lie within the buffer.  For a region of
    positive frame count with [0 <= Math.floor(regionStart * rate)] and
    [Math.floor(regionEnd * rate) <= length] (the frames of the double
    products, as the source computes them), and for any effect type and
    params, [renderOfflineEffect] returns a new buffer of the source's
    shape, allocated after the clip and the rendered clip; the store it
    started from is only extended, so the source is not modified; every
    sample outside the frame range is the source's sample, on every
    channel, and every sample inside is the rendered clip's. *)
Theorem renderOfflineEffect_locality (s : Store) (originalBuffer : ref) (b : AudioBuffer)
    (regionStart regionEnd : Q) (effectType : string) (params : Params) :
  s !! originalBuffer = Some b -> wf_buffer b ->
  let startFrame := Js.floor (Js.mul regionStart (sampleRate b)) in
  let endFrame := Js.floor (Js.mul regionEnd (sampleRate b)) in
  (0 <= startFrame)%Z -> (startFrame < endFrame)%Z ->
  (endFrame <= Z.of_nat (buf_length b))%Z ->
  exists temp clip final,
    renderOfflineEffect render originalBuffer regionStart regionEnd effectType params s =
    Ok (length s + 2) (s ++ [temp; clip; final]) /\
    wf_buffer final /\
    sampleRate final = sampleRate b /\
    numberOfChannels final = numberOfChannels b /\
    buf_length final = buf_length b /\
    (forall c i, (Z.of_nat i < startFrame \/ endFrame <= Z.of_nat i)%Z ->
       sample final c i = sample b c i) /\
    (forall c i, c < numberOfChannels b -> (startFrame <= Z.of_nat i < endFrame)%Z ->
       sample final c i = sample clip c (i - Z.to_nat startFrame)).
Proof.
  intros Hb Hwf startFrame endFrame H0 Hse He.
  exact (renderOfflineEffect_spliced s originalBuffer b regionStart regionEnd effectType
           params Hb Hwf H0 Hse He).
Qed.

(** C5. When the derived frame count
    [Math.floor(regionEnd * rate) - Math.floor(regionStart * rate)] is
    not positive (for region times whose products with the rate are
    finite), [renderOfflineEffect] returns its argument, the very same
    buffer reference, and leaves the store as it was: no error, for
    every effect type and params. *)
Theorem renderOfflineEffect_degenerate (s : Store) (originalBuffer : ref) (b : AudioBuffer)
    (regionStart regionEnd : Q) (effectType : string) (params : Params) :
  s !! originalBuffer = Some b ->
  Js.finite (Js.mul regionStart (sampleRate b)) ->
  Js.finite (Js.mul regionEnd (sampleRate b)) ->
  (Js.floor (Js.mul regionEnd (sampleRate b)) -
   Js.floor (Js.mul regionStart (sampleRate b)) <= 0)%Z ->
  renderOfflineEffect render originalBuffer regionStart regionEnd effectType params s =
  Ok originalBuffer s.
Proof.
  intros Hb _ _ Hle. unfold renderOfflineEffect.
  rewrite (bind_Ok _ _ _ _ _ (readBuffer_Ok _ _ _ Hb)).
  destruct (Z.leb_spec (Js.floor (Js.mul regionEnd (sampleRate b)) -
                        Js.floor (Js.mul regionStart (sampleRate b))) 0); [reflexivity | lia].
Qed.


End OfflineProperties.

(** ** In-place loops over a range of frames *)

Lemma update_range_invariant (f : Q -> Q) (from : Z) (a : list Q) (n : nat) :
  (from + Z.of_nat n <= Z.of_nat (length a))%Z ->
  let d := fold_left (fun d i => match TypedArray.get d i with
                                 | Some x => TypedArray.put d i (f x)
                                 | None => d
                                 end) (seqZ from (Z.of_nat n)) a in
  length d = length a /\
  forall i, d !! i = if ((from <=? Z.of_nat i) && (Z.of_nat i <? from + Z.of_nat n))%Z
                     then f <$> a !! i else a !! i.
Proof.
  induction n as [|n IH]; intros Hn; cbv zeta.
  - rewrite seqZ_nil by lia. cbn [fold_left]. split; [reflexivity|]. intros i.
    destruct (Z.leb_spec from (Z.of_nat i)),
             (Z.ltb_spec (Z.of_nat i) (from + Z.of_nat 0));
      cbn [andb]; try reflexivity; lia.
  - specialize (IH ltac:(lia)). cbv zeta in IH.
    rewrite seqZ_S, fold_left_app. cbn [fold_left].
    destruct IH as [Hlen Hlook].
    set (d := fold_left _ (seqZ from (Z.of_nat n)) a) in *.
    unfold TypedArray.get, TypedArray.put.
    destruct (Z.ltb_spec (from + Z.of_nat n) 0) as [Hneg|Hpos].
    + split; [exact Hlen|]. intros i. rewrite Hlook.
      destruct (Z.leb_spec from (Z.of_nat i)); cbn [andb]; [|reflexivity].
      destruct (Z.ltb_spec (Z.of_nat i) (from + Z.of_nat n)); [lia|].
      destruct (Z.ltb_spec (Z.of_nat i) (from + Z.of_nat (S n))); [lia | reflexivity].
    + assert (Hj : d !! Z.to_nat (from + Z.of_nat n) = a !! Z.to_nat (from + Z.of_nat n)).
      { rewrite Hlook. rewrite Z2Nat.id by lia.
        destruct (Z.ltb_spec (from + Z.of_nat n) (from + Z.of_nat n)); [lia|].
        now rewrite andb_false_r. }
      rewrite Hj.
      destruct (lookup_lt_is_Some_2 a (Z.to_nat (from + Z.of_nat n)) ltac:(lia)) as [x Hx].
      rewrite Hx. split; [now rewrite length_insert|]. intros i.
      destruct (Nat.eq_dec i (Z.to_nat (from + Z.of_nat n))) as [->|Hne].
      * rewrite list_lookup_insert_eq by lia. rewrite Z2Nat.id by lia.
        destruct (Z.leb_spec from (from + Z.of_nat n)); [|lia].
        destruct (Z.ltb_spec (from + Z.of_nat n) (from + Z.of_nat (S n))); [|lia].
        cbn [andb]. now rewrite Hx.
      * rewrite list_lookup_insert_ne by lia. rewrite Hlook.
        destruct (Z.leb_spec from (Z.of_nat i)); cbn [andb]; [|reflexivity].
        destruct (Z.ltb_spec (Z.of_nat i) (from + Z.of_nat n)),
                 (Z.ltb_spec (Z.of_nat i) (from + Z.of_nat (S n))); try reflexivity; lia.
Qed.

(** The frames of [[from, to)] get [f] of their value, the others keep
    theirs. *)
Lemma update_range_lookup (f : Q -> Q) (from to : Z) (a : list Q) (i : nat) :
  (to <= Z.of_nat (length a))%Z ->
  TypedArray.update_range f from to a !! i =
  if ((from <=? Z.of_nat i) && (Z.of_nat i <? to))%Z then f <$> a !! i else a !! i.
Proof.
  intros Hto. unfold TypedArray.update_range, TypedArray.indices.
  destruct (Z.le_gt_cases to from) as [Hle|Hgt].
  - rewrite seqZ_nil by lia. cbn [fold_left].
    destruct (Z.leb_spec from (Z.of_nat i)), (Z.ltb_spec (Z.of_nat i) to);
      cbn [andb]; try reflexivity; lia.
  - pose proof (update_range_invariant f from a (Z.to_nat (to - from)) ltac:(lia)) as H.
    cbv zeta in H. rewrite Z2Nat.id in H by lia. destruct H as [_ H].
    rewrite H. now replace (from + (to - from))%Z with to by lia.
Qed.

Lemma length_update_range (f : Q -> Q) (from to : Z) (a : list Q) :
  (to <= Z.of_nat (length a))%Z -> length (TypedArray.update_range f from to a) = length a.
Proof.
  intros Hto. unfold TypedArray.update_range, TypedArray.indices.
  destruct (Z.le_gt_cases to from) as [Hle|Hgt].
  - now rewrite seqZ_nil by lia.
  - pose proof (update_range_invariant f from a (Z.to_nat (to - from)) ltac:(lia)) as H.
    cbv zeta in H. rewrite Z2Nat.id in H by lia. apply H.
Qed.

(** Over the whole array the loop is a map. *)
Lemma update_range_all (f : Q -> Q) (a : list Q) :
  TypedArray.update_range f 0 (Z.of_nat (length a)) a = map f a.
Proof.
  apply list_eq. intros i. rewrite update_range_lookup by lia.
  change (map f a) with (f <$> a). rewrite list_lookup_fmap.
  destruct (Z.leb_spec 0 (Z.of_nat i)); [|lia]. cbn [andb].
  destruct (Z.ltb_spec (Z.of_nat i) (Z.of_nat (length a))); [reflexivity|].
  now rewrite lookup_ge_None_2 by lia.
Qed.

(** ** freezeCurrentEffect *)

Lemma applyLocalGain_run (s : Store) (newBuffer : ref) (b : AudioBuffer) (region : Region)
    (vol : Q) :
  s !! newBuffer = Some b ->
  applyLocalGain newBuffer region vol s =
  Ok tt (<[newBuffer :=
             mkAudioBuffer (sampleRate b) (buf_length b)
               (map (fun data =>
                       TypedArray.update_range (fun x => x * vol)%Q
                         (Js.floor (Js.mul (region_start region) (sampleRate b)))
                         (Z.min (Js.floor (Js.mul (region_end region) (sampleRate b)))
                                (Z.of_nat (length data))) data)
                    (channelData b))]> s).
Proof.
  intros Hb. unfold applyLocalGain.
  rewrite (bind_Ok _ _ _ _ _ (readBuffer_Ok _ _ _ Hb)).
  now rewrite (map_channels_run s newBuffer b _ Hb).
Qed.

Section FreezeProperties.

Variable render : Graph -> list (list Q) -> nat -> nat -> Q.

(** C9. On freeze of one of the three offline effects, when a preview
    volume [vol] is set and the offline processing returned the buffer
    [newBuffer], that buffer is rewritten in place before it becomes the
    committed one: on every channel the samples at the frames of
    [Math.floor(start*rate), min(Math.floor(end*rate), length)) (the
    frames of the double products) are multiplied by [vol] and all other
    samples are left as rendered.  The volume is no part of the offline
    graph: the graph, and the whole offline processing, are the same
    whatever the volume. *)
Theorem freeze_local_gain (s s1 : Store) (region : Region) (originalBuffer newBuffer : ref)
    (currentEffectType : string) (effectParams : Params) (vol : Q) (b1 : AudioBuffer) :
  offline_effect currentEffectType ->
  volume effectParams = Some vol ->
  processRange render originalBuffer currentEffectType (region_start region)
    (region_end region) effectParams s = Ok newBuffer s1 ->
  s1 !! newBuffer = Some b1 -> wf_buffer b1 ->
  let startSample := Js.floor (Js.mul (region_start region) (sampleRate b1)) in
  let endSample := Js.floor (Js.mul (region_end region) (sampleRate b1)) in
  (exists b2,
     freezeCurrentEffect render (Some region) originalBuffer currentEffectType effectParams s =
     Ok (Some newBuffer) (<[newBuffer := b2]> s1) /\
     sampleRate b2 = sampleRate b1 /\
     buf_length b2 = buf_length b1 /\
     numberOfChannels b2 = numberOfChannels b1 /\
     forall c i,
       sample b2 c i =
       if ((startSample <=? Z.of_nat i) &&
           (Z.of_nat i <? Z.min endSample (Z.of_nat (buf_length b1))))%Z
       then (fun x => x * vol)%Q <$> sample b1 c i
       else sample b1 c i) /\
  (forall v, build_graph currentEffectType (with_volume v effectParams) =
             build_graph currentEffectType effectParams) /\
  (forall v, processRange render originalBuffer currentEffectType (region_start region)
               (region_end region) (with_volume v effectParams) s = Ok newBuffer s1).
Proof.
  intros _ Hvol Hrun Hb1 (Hch & Hlen & Hall & Hrate) startSample endSample.
  split; [|split; [reflexivity | intros v; exact Hrun]].
  eexists. split.
  - unfold freezeCurrentEffect, try_catch.
    rewrite (bind_Ok _ _ _ _ _ Hrun), Hvol.
    rewrite (bind_Ok _ _ _ _ _ (applyLocalGain_run s1 newBuffer b1 region vol Hb1)).
    reflexivity.
  - split; [reflexivity | split; [reflexivity | split]].
    + unfold numberOfChannels. cbn [channelData]. apply length_map.
    + intros c i. unfold sample. cbn [channelData].
      change (map ?h ?l) with (h <$> l). rewrite list_lookup_fmap.
      destruct (channelData b1 !! c) as [data|] eqn:Hdata; cbn [fmap option_fmap option_map].
      * rewrite Forall_forall in Hall.
        rewrite (Hall data (list_elem_of_lookup_2 _ _ _ Hdata)).
        apply update_range_lookup.
        rewrite (Hall data (list_elem_of_lookup_2 _ _ _ Hdata)). lia.
      * now destruct (_ && _).
Qed.

End FreezeProperties.

(** ** The normalising step of getProcessedWavBlob *)

Lemma scanPeak_flat (channels : list (list Q)) (m0 : Q) :
  fold_left (fun maxPeak data => fold_left peak_step data maxPeak) channels m0 =
  fold_left peak_step (concat channels) m0.
Proof.
  revert m0. induction channels as [|data channels IH]; intros m0; [reflexivity|].
  cbn [fold_left concat]. now rewrite fold_left_app, IH.
Qed.

Lemma peak_fold_ge_init (l : list Q) (m0 : Q) : (m0 <= fold_left peak_step l m0)%Q.
Proof.
  revert m0. induction l as [|d l IH]; intros m0; cbn [fold_left]; [apply Qle_refl|].
  eapply Qle_trans; [|apply IH]. unfold peak_step.
  destruct (Qlt_le_dec m0 (Js.abs d)); [now apply Qlt_le_weak | apply Qle_refl].
Qed.

Lemma peak_fold_upper (l : list Q) (m0 d : Q) :
  In d l -> (Js.abs d <= fold_left peak_step l m0)%Q.
Proof.
  revert m0. induction l as [|d' l IH]; intros m0 Hin; [destruct Hin|].
  cbn [fold_left]. destruct Hin as [->|Hin]; [|now apply IH].
  eapply Qle_trans; [|apply peak_fold_ge_init]. unfold peak_step.
  destruct (Qlt_le_dec m0 (Js.abs d)); [apply Qle_refl | assumption].
Qed.

Lemma peak_fold_attained (l : list Q) (m0 : Q) :
  fold_left peak_step l m0 = m0 \/ exists d, In d l /\ fold_left peak_step l m0 = Js.abs d.
Proof.
  revert m0. induction l as [|d l IH]; intros m0; cbn [fold_left]; [now left|].
  destruct (IH (peak_step m0 d)) as [E|(d' & Hin & E)].
  - rewrite E. unfold peak_step. destruct (Qlt_le_dec m0 (Js.abs d)).
    + right. exists d. split; [now left | reflexivity].
    + now left.
  - right. exists d'. split; [now right | exact E].
Qed.

Lemma sample_In (b : AudioBuffer) (c i : nat) (x : Q) :
  sample b c i = Some x -> In x (concat (channelData b)).
Proof.
  unfold sample. destruct (channelData b !! c) as [data|] eqn:Hdata; [|discriminate].
  intros Hx. apply in_concat. exists data.
  split; apply list_elem_of_In; eapply list_elem_of_lookup_2; eauto.
Qed.

Lemma In_sample (b : AudioBuffer) (x : Q) :
  In x (concat (channelData b)) -> exists c i, sample b c i = Some x.
Proof.
  intros Hin. apply in_concat in Hin. destruct Hin as (data & Hd & Hx).
  apply list_elem_of_In, list_elem_of_lookup in Hd, Hx.
  destruct Hd as [c Hc], Hx as [i Hi]. exists c, i. unfold sample. now rewrite Hc.
Qed.

(** The scan returns the largest absolute sample. *)
Lemma scanPeak_max (b : AudioBuffer) :
  (0 <= scanPeak (channelData b))%Q /\
  (forall c i x, sample b c i = Some x -> (Qabs x <= scanPeak (channelData b))%Q) /\
  (scanPeak (channelData b) = 0%Q \/
   exists c i x, sample b c i = Some x /\ scanPeak (channelData b) = Qabs x).
Proof.
  unfold scanPeak. rewrite scanPeak_flat. split; [apply peak_fold_ge_init|]. split.
  - intros c i x Hx. apply (peak_fold_upper _ 0%Q x). eapply sample_In; eauto.
  - destruct (peak_fold_attained (concat (channelData b)) 0%Q) as [E|(d & Hin & E)].
    + now left.
    + right. destruct (In_sample b d Hin) as (c & i & Hs). now exists c, i, d.
Qed.

Lemma normalize_run (s : Store) (renderedBuffer : ref) (b : AudioBuffer) :
  s !! renderedBuffer = Some b ->
  normalize renderedBuffer s = Ok tt (<[renderedBuffer := normalized b]> s).
Proof.
  intros Hb. unfold normalize, normalized.
  rewrite (bind_Ok _ _ _ _ _ (readBuffer_Ok _ _ _ Hb)). cbv zeta.
  destruct (Qlt_le_dec 0 (scanPeak (channelData b))).
  - rewrite (map_channels_run s renderedBuffer b _ Hb). do 3 f_equal.
    apply map_ext. intros data. apply update_range_all.
  - unfold ret. now rewrite list_insert_id.
Qed.

Lemma bufferToWave_run (s : Store) (abuffer : ref) (b : AudioBuffer) (len : option nat) :
  s !! abuffer = Some b ->
  let frames := match len with Some (S n) => S n | _ => buf_length b end in
  bufferToWave abuffer len s =
  Ok (mkBlob (wav_header (numberOfChannels b) (sampleRate b)
                (frames * numberOfChannels b * 2) ++
              flat_map DataView.int16_bytes
                (wav_pcm (channelData b) (numberOfChannels b) frames))
             "audio/wav") s.
Proof.
  intros Hb frames. unfold bufferToWave.
  now rewrite (bind_Ok _ _ _ _ _ (readBuffer_Ok _ _ _ Hb)).
Qed.

Section ExportProperties.

Variable render : Graph -> list (list Q) -> nat -> nat -> Q.

(** The export pipeline: the committed buffer is rendered through the
    equalizer chain into a new buffer, that buffer is normalised in
    place, and the WAV encoder runs on the normalised buffer. *)
Lemma getProcessedWavBlob_run (s : Store) (originalBuffer : ref) (b : AudioBuffer)
    (currentGains : list Q) (masterGain : option Q) :
  s !! originalBuffer = Some b -> length eqBands <= length currentGains ->
  let rendered :=
    mkAudioBuffer (sampleRate b) (buf_length b)
      (map (fun c => map (render (export_graph currentGains masterGain) (channelData b) c)
                         (seq 0 (buf_length b)))
           (seq 0 (numberOfChannels b))) in
  exists blob,
    bufferToWave (length s) (Some (buf_length (normalized rendered)))
      (s ++ [normalized rendered]) =
    Ok blob (s ++ [normalized rendered]) /\
    getProcessedWavBlob render (Some originalBuffer) currentGains masterGain s =
    Ok (Some blob) (s ++ [normalized rendered]).
Proof.
  intros Hb Hgains rendered.
  assert (Hlast : (s ++ [normalized rendered]) !! length s = Some (normalized rendered))
    by (now rewrite lookup_app_r, Nat.sub_diag by lia).
  eexists. split.
  - apply (bufferToWave_run _ _ _ _ Hlast).
  - unfold getProcessedWavBlob.
    rewrite (bind_Ok _ _ _ _ _ (readBuffer_Ok _ _ _ Hb)).
    destruct (Nat.ltb_spec (length currentGains) (length eqBands)) as [|_]; [lia|].
    erewrite bind_Ok; [|reflexivity].
    rewrite (bind_Ok _ _ _ _ _ (startRendering_Ok render s _ _ b _ _ _ Hb)).
    fold rendered.
    erewrite bind_Ok;
      [| apply normalize_run; now rewrite lookup_app_r, Nat.sub_diag by lia].
    rewrite insert_app_r_alt, Nat.sub_diag by lia. cbn [insert list_insert].
    rewrite (bind_Ok _ _ _ _ _ (readBuffer_Ok _ _ _ Hlast)).
    now rewrite (bind_Ok _ _ _ _ _ (bufferToWave_run _ _ _ _ Hlast)).
Qed.

End ExportProperties.

(** The normalising step scans every channel for the largest absolute
    sample; when that peak is greater than 0 every sample of every
    channel is multiplied, in place, by [0.98 / peak], and the largest
    absolute sample of the result is then 0.98 exactly (in exact
    arithmetic); when the peak is 0 the buffer is left as it is. *)
Lemma normalize_scales (s : Store) (renderedBuffer : ref) (b : AudioBuffer) :
  s !! renderedBuffer = Some b ->
  let maxPeak := scanPeak (channelData b) in
  ((forall c i x, sample b c i = Some x -> (Qabs x <= maxPeak)%Q) /\
   (maxPeak = 0%Q \/ exists c i x, sample b c i = Some x /\ maxPeak = Qabs x)) /\
  ((0 < maxPeak)%Q ->
   exists b',
     normalize renderedBuffer s = Ok tt (<[renderedBuffer := b']> s) /\
     sampleRate b' = sampleRate b /\
     buf_length b' = buf_length b /\
     numberOfChannels b' = numberOfChannels b /\
     (forall c i,
        sample b' c i = (fun x => x * ((98 # 100) / maxPeak))%Q <$> sample b c i) /\
     (scanPeak (channelData b') == 98 # 100)%Q /\
     (forall c i y, sample b' c i = Some y -> (Qabs y <= 98 # 100)%Q) /\
     (exists c i y, sample b' c i = Some y /\ (Qabs y == 98 # 100)%Q)) /\
  (~ (0 < maxPeak)%Q -> (maxPeak == 0)%Q /\ normalize renderedBuffer s = Ok tt s).
Proof.
  intros Hb maxPeak.
  destruct (scanPeak_max b) as (Hnonneg & Hub & Hatt). fold maxPeak in Hnonneg, Hub, Hatt.
  split; [split; assumption|]. split.
  - intros Hpos.
    set (f := (fun x => x * ((98 # 100) / maxPeak))%Q).
    set (b' := mkAudioBuffer (sampleRate b) (buf_length b) (map (map f) (channelData b))).
    assert (Hsample : forall c i, sample b' c i = f <$> sample b c i).
    { intros c i. unfold sample, b'. cbn [channelData].
      change (map (map f) ?l) with (map f <$> l). rewrite list_lookup_fmap.
      destruct (channelData b !! c) as [data|]; cbn [fmap option_fmap option_map];
        [|reflexivity].
      change (map f data) with (f <$> data). apply list_lookup_fmap. }
    assert (Hscale : forall x, (Qabs (f x) == Qabs x * ((98 # 100) / maxPeak))%Q).
    { intros x. unfold f. rewrite Qabs_Qmult.
      rewrite (Qabs_pos ((98 # 100) / maxPeak)); [reflexivity|].
      apply Qle_shift_div_l; [assumption | lra]. }
    assert (Hfac : (0 <= (98 # 100) / maxPeak)%Q)
      by (apply Qle_shift_div_l; [assumption | lra]).
    assert (Hub' : forall c i y, sample b' c i = Some y -> (Qabs y <= 98 # 100)%Q).
    { intros c i y Hy. rewrite Hsample in Hy.
      destruct (sample b c i) as [x|] eqn:Hx; [|discriminate].
      injection Hy as <-. rewrite Hscale.
      specialize (Hub c i x Hx).
      eapply Qle_trans; [apply Qmult_le_compat_r; [exact Hub | exact Hfac]|].
      apply Qle_lteq. right. field. lra. }
    assert (Hatt' : exists c i y, sample b' c i = Some y /\ (Qabs y == 98 # 100)%Q).
    { destruct Hatt as [E|(c & i & x & Hx & E)]; [rewrite E in Hpos; lra|].
      exists c, i, (f x). split; [now rewrite Hsample, Hx|].
      rewrite Hscale, <- E. field. lra. }
    exists b'. split.
    { unfold normalize. rewrite (bind_Ok _ _ _ _ _ (readBuffer_Ok _ _ _ Hb)).
      fold maxPeak. destruct (Qlt_le_dec 0 maxPeak) as [_|Hle]; [|lra].
      rewrite (map_channels_run s renderedBuffer b _ Hb). do 3 f_equal.
      apply map_ext. intros data. apply update_range_all. }
    split; [reflexivity|]. split; [reflexivity|].
    split; [unfold numberOfChannels, b'; cbn [channelData]; apply length_map|].
    split; [exact Hsample|]. split; [|split; assumption].
    destruct (scanPeak_max b') as (_ & Hub2 & Hatt2).
    apply Qle_antisym.
    + destruct Hatt2 as [E|(c & i & y & Hy & E)]; [rewrite E; lra|].
      rewrite E. eapply Hub'; eauto.
    + destruct Hatt' as (c & i & y & Hy & E). rewrite <- E. eapply Hub2; eauto.
  - intros Hnpos. split; [lra|].
    unfold normalize. rewrite (bind_Ok _ _ _ _ _ (readBuffer_Ok _ _ _ Hb)).
    fold maxPeak. destruct (Qlt_le_dec 0 maxPeak); [contradiction | reflexivity].
Qed.

Section ExportPeak.

Variable render : Graph -> list (list Q) -> nat -> nat -> Q.

(** C3. [getProcessedWavBlob] on a loaded buffer, with the ten band
    filters in place: the offline render is a new buffer, [maxPeak] is
    the largest absolute sample of its channels, and the buffer the WAV
    encoder is run on is the render normalised in place.  When the peak
    is greater than 0 every sample of every channel has been multiplied
    by [0.98 / maxPeak], so the largest absolute sample of the encoded
    buffer is 0.98 exactly (in exact arithmetic); when the peak is 0 the
    encoded buffer is the render as it is. *)
Theorem normalize_peak (s : Store) (originalBuffer : ref) (b : AudioBuffer)
    (currentGains : list Q) (masterGain : option Q) :
  s !! originalBuffer = Some b -> length eqBands <= length currentGains ->
  let rendered :=
    mkAudioBuffer (sampleRate b) (buf_length b)
      (map (fun c => map (render (export_graph currentGains masterGain) (channelData b) c)
                         (seq 0 (buf_length b)))
           (seq 0 (numberOfChannels b))) in
  let maxPeak := scanPeak (channelData rendered) in
  exists blob out,
    getProcessedWavBlob render (Some originalBuffer) currentGains masterGain s =
    Ok (Some blob) (s ++ [out]) /\
    bufferToWave (length s) (Some (buf_length out)) (s ++ [out]) = Ok blob (s ++ [out]) /\
    (forall c i x, sample rendered c i = Some x -> (Qabs x <= maxPeak)%Q) /\
    (maxPeak = 0%Q \/ exists c i x, sample rendered c i = Some x /\ maxPeak = Qabs x) /\
    ((0 < maxPeak)%Q ->
     (forall c i,
        sample out c i = (fun x => x * ((98 # 100) / maxPeak))%Q <$> sample rendered c i) /\
     (forall c i y, sample out c i = Some y -> (Qabs y <= 98 # 100)%Q) /\
     (exists c i y, sample out c i = Some y /\ (Qabs y == 98 # 100)%Q)) /\
    (~ (0 < maxPeak)%Q -> (maxPeak == 0)%Q /\ out = rendered).
Proof.
  intros Hb Hgains rendered maxPeak.
  destruct (getProcessedWavBlob_run render s originalBuffer b currentGains masterGain
              Hb Hgains) as (blob & Hwave & Hrun).
  fold rendered in Hwave, Hrun.
  assert (Hlast : (s ++ [rendered]) !! length s = Some rendered)
    by (now rewrite lookup_app_r, Nat.sub_diag by lia).
  destruct (normalize_scales (s ++ [rendered]) (length s) rendered Hlast)
    as ((Hub & Hatt) & Hscaled & Hsilent).
  fold maxPeak in Hub, Hatt, Hscaled, Hsilent.
  pose proof (normalize_run (s ++ [rendered]) (length s) rendered Hlast) as Hnorm.
  exists blob, (normalized rendered).
  split; [exact Hrun|]. split; [exact Hwave|]. split; [exact Hub|]. split; [exact Hatt|].
  split.
  - intros Hpos. destruct (Hscaled Hpos) as (b' & Hrun' & _ & _ & _ & Hs & _ & Hle & Hmax).
    rewrite Hnorm in Hrun'.
    assert (E : normalized rendered = b').
    { injection Hrun' as Hrun'. apply (f_equal (fun l => l !! length s)) in Hrun'.
      rewrite !list_lookup_insert_eq in Hrun'
        by (rewrite length_app; cbn [length]; lia).
      now injection Hrun'. }
    rewrite E. auto.
  - intros Hnpos. destruct (Hsilent Hnpos) as [Hz _]. split; [exact Hz|].
    unfold normalized. fold maxPeak.
    destruct (Qlt_le_dec 0 maxPeak); [contradiction | reflexivity].
Qed.

End ExportPeak.

(** ** makeDistortionCurve *)

(** A loop that assigns [h i] to every index of an array. *)
Lemma fill_invariant (h : nat -> Q) (l : list Q) (k : nat) :
  k <= length l ->
  length (fold_left (fun curve i => <[i := h i]> curve) (seq 0 k) l) = length l /\
  forall i, fold_left (fun curve i => <[i := h i]> curve) (seq 0 k) l !! i =
            if decide (i < k) then Some (h i) else l !! i.
Proof.
  induction k as [|k IH]; intros Hk.
  - split; [reflexivity|]. intros i. destruct (decide (i < 0)); [lia | reflexivity].
  - specialize (IH ltac:(lia)). destruct IH as [Hlen Hlook].
    rewrite seq_S, fold_left_app. cbn [fold_left]. rewrite Nat.add_0_l.
    split; [now rewrite length_insert|]. intros i.
    destruct (Nat.eq_dec i k) as [->|Hne].
    + rewrite list_lookup_insert_eq by lia. destruct (decide (k < S k)); [reflexivity | lia].
    + rewrite list_lookup_insert_ne by lia. rewrite Hlook.
      destruct (decide (i < k)), (decide (i < S k)); try reflexivity; lia.
Qed.



(** ** bufferToWave *)

Lemma read_le32 (u : Z) : (0 <= u < 4294967296)%Z -> read_u32 (le32 u) = u.
Proof. intros H. unfold read_u32, le32. Z.div_mod_to_equations. lia. Qed.

Lemma read_int16_bytes (v : Z) :
  (-32768 <= v <= 32767)%Z -> read_s16 (DataView.int16_bytes v) = v.
Proof.
  intros H. unfold read_s16, DataView.int16_bytes. cbv zeta.
  destruct (Z.leb_spec 32768 (v mod 256 + 256 * (v / 256 mod 256)));
    Z.div_mod_to_equations; lia.
Qed.

(** The header is the canonical 44-byte RIFF/WAVE/fmt/data layout. *)
Lemma wav_header_layout (numOfChan : nat) (rate : Q) (lengthInBytes : nat) :
  wav_header numOfChan rate lengthInBytes =
  charCodes "RIFF" ++ le32 ((36 + Z.of_nat lengthInBytes) mod 4294967296) ++
  charCodes "WAVE" ++
  charCodes "fmt " ++ le32 16 ++ le16 1 ++
  le16 (Z.of_nat numOfChan mod 65536) ++
  le32 (Js.trunc rate mod 4294967296) ++
  le32 (Js.trunc (rate * (2 # 1) * inject_Z (Z.of_nat numOfChan)) mod 4294967296) ++
  le16 (Z.of_nat (numOfChan * 2) mod 65536) ++ le16 16 ++
  charCodes "data" ++ le32 (Z.of_nat lengthInBytes mod 4294967296).
Proof.
  unfold wav_header, writeString, DataView.setUint32, DataView.setUint16, DataView.setUint8.
  cbn [replicate fold_left seq String.length charCodes list_ascii_of_string map lookup
       list_lookup insert list_insert Nat.add nat_of_ascii].
  reflexivity.
Qed.

Lemma length_wav_header (numOfChan : nat) (rate : Q) (lengthInBytes : nat) :
  length (wav_header numOfChan rate lengthInBytes) = 44.
Proof. now rewrite wav_header_layout. Qed.

Lemma clamp_bounds (x : Q) : (- (1) <= clamp x)%Q /\ (clamp x <= 1)%Q.
Proof.
  unfold clamp. split; [apply Q.le_max_l|].
  apply Q.max_lub; [discriminate | apply Q.le_min_l].
Qed.

Lemma clamp_id (x : Q) : (- (1) <= x)%Q -> (x <= 1)%Q -> (clamp x == x)%Q.
Proof.
  intros H0 H1. unfold clamp.
  rewrite (Q.min_r 1 x) by assumption. now apply Q.max_r.
Qed.

Lemma trunc_bounds (x : Q) (lo hi : Z) :
  (lo <= 0 <= hi)%Z -> (inject_Z lo <= x)%Q -> (x <= inject_Z hi)%Q ->
  (lo <= Js.trunc x <= hi)%Z.
Proof.
  intros Hz Hlo Hhi. unfold Js.trunc. destruct (Qlt_le_dec x 0) as [Hneg|Hpos].
  - split.
    + rewrite <- (Qceiling_Z lo). now apply Qceiling_resp_le.
    + transitivity 0%Z; [|lia]. change 0%Z with (Qceiling 0).
      apply Qceiling_resp_le. now apply Qlt_le_weak.
  - split.
    + transitivity 0%Z; [lia|]. change 0%Z with (Qfloor 0). now apply Qfloor_resp_le.
    + rewrite <- (Qfloor_Z hi). now apply Qfloor_resp_le.
Qed.

(** A sample is clamped to [-1, 1], scaled by 0x8000 when negative and
    by 0x7FFF otherwise, and truncated; the result needs no wrapping. *)
Lemma pcm16_Some (x : Q) :
  pcm16 (Some x) = Js.trunc (scale16 (clamp x)) /\
  (-32768 <= pcm16 (Some x) <= 32767)%Z.
Proof.
  assert (Hb : (-32768 <= Js.trunc (scale16 (clamp x)) <= 32767)%Z).
  { destruct (clamp_bounds x) as [Hlo Hhi]. unfold scale16.
    destruct (Qlt_le_dec (clamp x) 0) as [Hneg|Hpos].
    - assert (-32768 <= Js.trunc (clamp x * (32768 # 1)) <= 0)%Z; [|lia].
      apply trunc_bounds; [lia | |]; unfold inject_Z; lra.
    - assert (0 <= Js.trunc (clamp x * (32767 # 1)) <= 32767)%Z; [|lia].
      apply trunc_bounds; [lia | |]; unfold inject_Z; lra. }
  assert (E : pcm16 (Some x) = Js.trunc (scale16 (clamp x))).
  { unfold pcm16, ToInt16. cbv zeta.
    set (t := Js.trunc (scale16 (clamp x))) in *.
    destruct (Z.leb_spec 32768 (t mod 65536)); Z.div_mod_to_equations; lia. }
  split; [exact E | now rewrite E].
Qed.

(** The same with the clamp, the two scales and the truncation written
    out. *)
Lemma pcm16_explicit (x : Q) :
  let c := Qmax (- (1)) (Qmin 1 x) in
  ((c < 0)%Q -> pcm16 (Some x) = Qceiling (c * (32768 # 1))) /\
  ((0 <= c)%Q -> pcm16 (Some x) = Qfloor (c * (32767 # 1))) /\
  (-32768 <= pcm16 (Some x) <= 32767)%Z.
Proof.
  intros c. destruct (pcm16_Some x) as [E Hr]. fold (clamp x) in c.
  split; [|split; [|exact Hr]].
  - intros Hc. rewrite E. unfold scale16. fold c.
    destruct (Qlt_le_dec c 0) as [_|]; [|lra]. unfold Js.trunc.
    destruct (Qlt_le_dec (c * (32768 # 1)) 0); [reflexivity | lra].
  - intros Hc. rewrite E. unfold scale16. fold c.
    destruct (Qlt_le_dec c 0) as [|_]; [lra|]. unfold Js.trunc.
    destruct (Qlt_le_dec (c * (32767 # 1)) 0) as [Hlt|]; [lra | reflexivity].
Qed.

Lemma pcm_inner_invariant (channels : list (list Q)) (i k : nat) (dv : list Z) (off : nat) :
  off + k <= length dv ->
  snd (fold_left (pcm_sample_step channels i) (seq 0 k) (dv, off)) = off + k /\
  length (fst (fold_left (pcm_sample_step channels i) (seq 0 k) (dv, off))) = length dv /\
  forall j, fst (fold_left (pcm_sample_step channels i) (seq 0 k) (dv, off)) !! j =
            if decide (off <= j < off + k) then Some (pcm_value channels i (j - off))
            else dv !! j.
Proof.
  induction k as [|k IH]; intros Hk.
  - cbn [seq fold_left fst snd]. split; [lia | split; [reflexivity|]].
    intros j. destruct (decide (off <= j < off + 0)); [lia | reflexivity].
  - specialize (IH ltac:(lia)). destruct IH as (Hoff & Hlen & Hlook).
    rewrite seq_S, fold_left_app. cbn [fold_left]. rewrite Nat.add_0_l.
    destruct (fold_left _ (seq 0 k) (dv, off)) as [d o]. cbn [fst snd] in *. subst o.
    unfold pcm_sample_step. cbn [fst snd].
    split; [lia | split; [now rewrite length_insert|]]. intros j.
    destruct (Nat.eq_dec j (off + k)) as [->|Hne].
    + rewrite list_lookup_insert_eq by lia.
      destruct (decide (off <= off + k < off + S k)); [|lia].
      now replace (off + k - off) with k by lia.
    + rewrite list_lookup_insert_ne by lia. rewrite Hlook.
      destruct (decide (off <= j < off + k)), (decide (off <= j < off + S k));
        try reflexivity; lia.
Qed.

Lemma pcm_outer_invariant (channels : list (list Q)) (numOfChan m : nat) (dv0 : list Z) :
  m * numOfChan <= length dv0 ->
  snd (fold_left (pcm_frame_step channels numOfChan) (seq 0 m) (dv0, 0)) = m * numOfChan /\
  length (fst (fold_left (pcm_frame_step channels numOfChan) (seq 0 m) (dv0, 0))) =
  length dv0 /\
  forall j, fst (fold_left (pcm_frame_step channels numOfChan) (seq 0 m) (dv0, 0)) !! j =
            if decide (j < m * numOfChan)
            then Some (pcm_value channels (j / numOfChan) (j mod numOfChan))
            else dv0 !! j.
Proof.
  induction m as [|m IH]; intros Hm.
  - cbn [seq fold_left fst snd]. split; [lia | split; [reflexivity|]].
    intros j. destruct (decide (j < 0 * numOfChan)); [lia | reflexivity].
  - specialize (IH ltac:(lia)). destruct IH as (Hoff & Hlen & Hlook).
    rewrite seq_S, fold_left_app. cbn [fold_left]. rewrite Nat.add_0_l.
    destruct (fold_left _ (seq 0 m) (dv0, 0)) as [d o]. cbn [fst snd] in *. subst o.
    unfold pcm_frame_step.
    destruct (pcm_inner_invariant channels m numOfChan d (m * numOfChan) ltac:(lia))
      as (Hoff' & Hlen' & Hlook').
    split; [lia | split; [lia|]]. intros j. rewrite Hlook', Hlook.
    destruct (decide (m * numOfChan <= j < m * numOfChan + numOfChan)) as [Hin|Hout].
    + destruct (decide (j < S m * numOfChan)); [|lia].
      assert (Hj : j = numOfChan * m + (j - m * numOfChan)) by lia.
      assert (Hr : j - m * numOfChan < numOfChan) by lia.
      rewrite <- (Nat.div_unique _ _ _ _ Hr Hj), <- (Nat.mod_unique _ _ _ _ Hr Hj).
      reflexivity.
    + destruct (decide (j < m * numOfChan)), (decide (j < S m * numOfChan));
        try reflexivity; lia.
Qed.

(** The samples are written channel-interleaved, frame after frame. *)
Lemma wav_pcm_lookup (channels : list (list Q)) (numOfChan len i ch : nat) :
  i < len -> ch < numOfChan ->
  wav_pcm channels numOfChan len !! (i * numOfChan + ch) = Some (pcm_value channels i ch).
Proof.
  intros Hi Hch. unfold wav_pcm.
  destruct (pcm_outer_invariant channels numOfChan len (replicate (len * numOfChan) 0%Z))
    as (_ & _ & Hlook); [now rewrite length_replicate|].
  rewrite Hlook. destruct (decide (i * numOfChan + ch < len * numOfChan)); [|nia].
  assert (Hj : i * numOfChan + ch = numOfChan * i + ch) by lia.
  now rewrite <- (Nat.div_unique _ _ _ _ Hch Hj), <- (Nat.mod_unique _ _ _ _ Hch Hj).
Qed.

Lemma length_wav_pcm (channels : list (list Q)) (numOfChan len : nat) :
  length (wav_pcm channels numOfChan len) = len * numOfChan.
Proof.
  unfold wav_pcm.
  destruct (pcm_outer_invariant channels numOfChan len (replicate (len * numOfChan) 0%Z))
    as (_ & Hlen & _); [now rewrite length_replicate|].
  now rewrite Hlen, length_replicate.
Qed.

Lemma length_int16_bytes (dataView : list Z) :
  length (flat_map DataView.int16_bytes dataView) = 2 * length dataView.
Proof. induction dataView as [|v l IH]; cbn [flat_map length app DataView.int16_bytes]; lia. Qed.

(** Element [k] of the [Int16Array] is the byte pair at [2 * k]. *)
Lemma int16_bytes_at (dataView : list Z) (k : nat) (v : Z) :
  dataView !! k = Some v ->
  take 2 (drop (2 * k) (flat_map DataView.int16_bytes dataView)) = DataView.int16_bytes v.
Proof.
  revert k. induction dataView as [|v' l IH]; intros k Hk; [discriminate|].
  destruct k as [|k].
  - injection Hk as ->. reflexivity.
  - replace (2 * S k) with (S (S (2 * k))) by lia. cbn [flat_map DataView.int16_bytes app drop].
    now apply IH.
Qed.

(** C4. [bufferToWave] produces a blob of type audio/wav that is the
    44-byte RIFF/WAVE/fmt/data header followed by the 16-bit samples:
    the header's RIFF size is the number of bytes after byte 8 and its
    data size the number of bytes after the header (both modulo 2^32, so
    exactly when the file is shorter than 4 GiB); the sample of frame [i]
    and channel [ch] is the element [i * numOfChan + ch] of the data
    (channel-interleaved), stored low byte first; and a sample [x] is
    stored as [c * 0x8000] when [c < 0] and as [c * 0x7FFF] otherwise,
    truncated towards 0, where [c = max(-1, min(1, x))] is [x] clamped to
    [-1, 1], which always fits the signed 16-bit range. *)
Theorem bufferToWave_encoding (s : Store) (abuffer : ref) (b : AudioBuffer)
    (len : option nat) :
  s !! abuffer = Some b ->
  let numOfChan := numberOfChannels b in
  let frames := match len with Some (S n) => S n | _ => buf_length b end in
  let lengthInBytes := frames * numOfChan * 2 in
  exists header dataView,
    bufferToWave abuffer len s =
    Ok (mkBlob (header ++ flat_map DataView.int16_bytes dataView) "audio/wav") s /\
    header =
      charCodes "RIFF" ++ le32 ((36 + Z.of_nat lengthInBytes) mod 4294967296) ++
      charCodes "WAVE" ++
      charCodes "fmt " ++ le32 16 ++ le16 1 ++
      le16 (Z.of_nat numOfChan mod 65536) ++
      le32 (Js.trunc (sampleRate b) mod 4294967296) ++
      le32 (Js.trunc (sampleRate b * (2 # 1) * inject_Z (Z.of_nat numOfChan))
            mod 4294967296) ++
      le16 (Z.of_nat (numOfChan * 2) mod 65536) ++ le16 16 ++
      charCodes "data" ++ le32 (Z.of_nat lengthInBytes mod 4294967296) /\
    length header = 44 /\
    length (header ++ flat_map DataView.int16_bytes dataView) = 44 + lengthInBytes /\
    ((36 + Z.of_nat lengthInBytes < 4294967296)%Z ->
     read_u32 (take 4 (drop 4 header)) =
       (Z.of_nat (length (header ++ flat_map DataView.int16_bytes dataView)) - 8)%Z /\
     read_u32 (take 4 (drop 40 header)) =
       (Z.of_nat (length (header ++ flat_map DataView.int16_bytes dataView)) - 44)%Z) /\
    length dataView = frames * numOfChan /\
    (forall i ch, i < frames -> ch < numOfChan ->
       dataView !! (i * numOfChan + ch) = Some (pcm16 (sample b ch i)) /\
       take 2 (drop (2 * (i * numOfChan + ch)) (flat_map DataView.int16_bytes dataView)) =
         DataView.int16_bytes (pcm16 (sample b ch i)) /\
       read_s16 (DataView.int16_bytes (pcm16 (sample b ch i))) = pcm16 (sample b ch i)) /\
    (forall i ch x, i < frames -> ch < numOfChan -> sample b ch i = Some x ->
       let c := Qmax (- (1)) (Qmin 1 x) in
       exists v,
         dataView !! (i * numOfChan + ch) = Some v /\
         ((c < 0)%Q -> v = Qceiling (c * (32768 # 1))) /\
         ((0 <= c)%Q -> v = Qfloor (c * (32767 # 1))) /\
         (-32768 <= v <= 32767)%Z /\
         take 2 (drop (2 * (i * numOfChan + ch))
                   (flat_map DataView.int16_bytes dataView)) =
         [(v mod 256)%Z; (v / 256 mod 256)%Z]) /\
    (forall i ch, i < frames -> ch < numOfChan -> sample b ch i = None ->
       dataView !! (i * numOfChan + ch) = Some 0%Z).
Proof.
  intros Hb numOfChan frames lengthInBytes.
  exists (wav_header numOfChan (sampleRate b) lengthInBytes),
         (wav_pcm (channelData b) numOfChan frames).
  assert (Hlen : length (wav_header numOfChan (sampleRate b) lengthInBytes ++
                         flat_map DataView.int16_bytes
                           (wav_pcm (channelData b) numOfChan frames)) =
                 44 + lengthInBytes).
  { rewrite length_app, length_wav_header, length_int16_bytes, length_wav_pcm.
    unfold lengthInBytes. lia. }
  split; [apply (bufferToWave_run s abuffer b len Hb)|].
  split; [apply wav_header_layout|].
  split; [apply length_wav_header|].
  split; [exact Hlen|].
  split.
  { intros Hsmall. rewrite Hlen, wav_header_layout.
    cbn [charCodes list_ascii_of_string map app drop take le32 le16].
    fold (le32 ((36 + Z.of_nat lengthInBytes) mod 4294967296)).
    fold (le32 (Z.of_nat lengthInBytes mod 4294967296)).
    rewrite !read_le32 by (apply Z.mod_pos_bound; lia).
    rewrite !Z.mod_small by lia. lia. }
  split; [apply length_wav_pcm|].
  split.
  { intros i ch Hi Hch.
    assert (Hv : pcm_value (channelData b) i ch = pcm16 (sample b ch i)) by reflexivity.
    pose proof (wav_pcm_lookup (channelData b) numOfChan frames i ch Hi Hch) as Hlook.
    rewrite Hv in Hlook.
    split; [exact Hlook|]. split; [now apply int16_bytes_at|].
    apply read_int16_bytes. destruct (sample b ch i) as [x|].
    - apply pcm16_Some.
    - cbn. lia. }
  split.
  { intros i ch x Hi Hch Hx c.
    pose proof (wav_pcm_lookup (channelData b) numOfChan frames i ch Hi Hch) as Hlook.
    change (pcm_value (channelData b) i ch) with (pcm16 (sample b ch i)) in Hlook.
    rewrite Hx in Hlook. exists (pcm16 (Some x)). split; [exact Hlook|].
    destruct (pcm16_explicit x) as (Hneg & Hpos & Hr).
    split; [exact Hneg|]. split; [exact Hpos|]. split; [exact Hr|].
    now apply int16_bytes_at. }
  intros i ch Hi Hch Hx.
  pose proof (wav_pcm_lookup (channelData b) numOfChan frames i ch Hi Hch) as Hlook.
  change (pcm_value (channelData b) i ch) with (pcm16 (sample b ch i)) in Hlook.
  now rewrite Hx in Hlook.
Qed.

(** * Worked examples *)

Lemma wf_tape : wf_buffer tape.
Proof.
  unfold wf_buffer, numberOfChannels. cbn [tape channelData buf_length sampleRate length].
  split; [lia | split; [lia | split; [|reflexivity]]].
  repeat constructor.
Defined.

(** The frames of the double products, and of the exact ones. *)
Lemma tape_frames :
  Js.floor (Js.mul t3 (sampleRate tape)) = 3%Z /\
  Js.floor (Js.mul t5 (sampleRate tape)) = 5%Z /\
  Js.floor (Js.mul t7 (sampleRate tape)) = 7%Z /\
  Js.floor (t3 * sampleRate tape) = 2%Z /\
  Js.floor (t7 * sampleRate tape) = 6%Z.
Proof. vm_compute. repeat split. Qed.

(** C1 as stated fails: a region of positive frame count that runs
    past the end of the buffer (frames 5 to 43 of 10) makes the merging
    [set] throw a RangeError, so no buffer is returned. *)
Lemma renderOfflineEffect_region_past_end :
  wf_buffer tape /\
  Js.floor (Js.mul t5 (sampleRate tape)) = 5%Z /\
  Js.floor (Js.mul (1 # 1024) (sampleRate tape)) = 43%Z /\
  exists s',
    renderOfflineEffect demo_render 0 t5 (1 # 1024) "delay" tape_params [tape] =
    Throw RangeError s' /\
    s' !! 0 = Some tape.
Proof.
  split; [exact wf_tape|]. split; [vm_compute; reflexivity|].
  split; [vm_compute; reflexivity|].
  eexists. split; [vm_compute; reflexivity | reflexivity].
Qed.

Lemma renderOfflineEffect_locality_witness :
  [tape] !! 0 = Some tape /\ wf_buffer tape /\
  (0 <= Js.floor (Js.mul t3 (sampleRate tape)))%Z /\
  (Js.floor (Js.mul t3 (sampleRate tape)) < Js.floor (Js.mul t7 (sampleRate tape)))%Z /\
  (Js.floor (Js.mul t7 (sampleRate tape)) <= Z.of_nat (buf_length tape))%Z /\
  exists temp clip final,
    renderOfflineEffect demo_render 0 t3 t7 "bitcrush" tape_params [tape] =
    Ok 3 ([tape] ++ [temp; clip; final]) /\
    forall c i, (Z.of_nat i < 3 \/ 7 <= Z.of_nat i)%Z ->
      sample final c i = sample tape c i.
Proof.
  destruct tape_frames as (E3 & _ & E7 & _).
  split; [reflexivity|]. split; [exact wf_tape|].
  rewrite E3, E7. split; [lia|]. split; [lia|]. split; [cbn; lia|].
  destruct (renderOfflineEffect_locality demo_render [tape] 0 tape t3 t7 "bitcrush"
              tape_params)
    as (temp & clip & final & Hrun & _ & _ & _ & _ & Hout & _).
  - reflexivity.
  - exact wf_tape.
  - rewrite E3. lia.
  - rewrite E3, E7. lia.
  - rewrite E7. cbn. lia.
  - rewrite E3, E7 in Hout. exists temp, clip, final. split; [exact Hrun | exact Hout].
Defined.


(** A render whose peak is 0.5, as in the spec's scenario. *)
Lemma normalize_peak_witness :
  [tape] !! 0 = Some tape /\ length eqBands <= length (replicate 10 0%Q) /\
  exists blob out,
    getProcessedWavBlob demo_render (Some 0) (replicate 10 0%Q) (Some (8 # 10)%Q) [tape] =
    Ok (Some blob) ([tape] ++ [out]) /\
    (forall c i y, sample out c i = Some y -> (Qabs y <= 98 # 100)%Q) /\
    (exists c i y, sample out c i = Some y /\ (Qabs y == 98 # 100)%Q) /\
    sample out 1 9 = (fun x => x * ((98 # 100) / (1 # 2)))%Q <$> Some (1 # 2)%Q.
Proof.
  split; [reflexivity|]. split; [cbn; lia|].
  destruct (normalize_peak demo_render [tape] 0 tape (replicate 10 0%Q) (Some (8 # 10)%Q))
    as (blob & out & Hrun & _ & _ & _ & Hpos & _); [reflexivity | cbn; lia |].
  destruct (Hpos ltac:(reflexivity)) as (Hs & Hle & Hmax).
  exists blob, out. split; [exact Hrun|]. split; [exact Hle|]. split; [exact Hmax|].
  exact (Hs 1 9).
Defined.

Lemma bufferToWave_encoding_witness :
  [tape] !! 0 = Some tape /\
  exists header dataView,
    bufferToWave 0 None [tape] =
    Ok (mkBlob (header ++ flat_map DataView.int16_bytes dataView) "audio/wav") [tape] /\
    length (header ++ flat_map DataView.int16_bytes dataView) = 44 + 10 * 2 * 2 /\
    sample tape 1 3 = Some (- 1 # 4)%Q /\ dataView !! (3 * 2 + 1) = Some (-8192)%Z /\
    sample tape 0 9 = Some (3 # 4)%Q /\ dataView !! (9 * 2 + 0) = Some 24575%Z.
Proof.
  split; [reflexivity|].
  destruct (bufferToWave_encoding [tape] 0 tape None)
    as (header & dataView & Hrun & _ & _ & Hlen & _ & _ & _ & Hdata & _); [reflexivity|].
  exists header, dataView. split; [exact Hrun|]. split; [exact Hlen|].
  split; [reflexivity|]. split.
  - destruct (Hdata 3 1 (- 1 # 4)%Q) as (v & Hv & Hneg & _); [cbn; lia | cbn; lia | reflexivity |].
    change (dataView !! (3 * 2 + 1) = Some v) in Hv.
    rewrite Hv, (Hneg ltac:(reflexivity)). reflexivity.
  - split; [reflexivity|].
    destruct (Hdata 9 0 (3 # 4)%Q) as (v & Hv & _ & Hpos & _); [cbn; lia | cbn; lia | reflexivity |].
    change (dataView !! (9 * 2 + 0) = Some v) in Hv.
    rewrite Hv, (Hpos ltac:(discriminate)). reflexivity.
Defined.

(** A collapsed region. *)
Lemma renderOfflineEffect_degenerate_witness :
  [tape] !! 0 = Some tape /\
  Js.finite (Js.mul t5 (sampleRate tape)) /\
  (Js.floor (Js.mul t5 (sampleRate tape)) - Js.floor (Js.mul t5 (sampleRate tape)) <= 0)%Z /\
  renderOfflineEffect demo_render 0 t5 t5 "distortion" tape_params [tape] = Ok 0 [tape].
Proof.
  split; [reflexivity|]. split; [vm_compute; reflexivity|]. split; [lia|].
  apply (renderOfflineEffect_degenerate demo_render [tape] 0 tape).
  - reflexivity.
  - vm_compute; reflexivity.
  - vm_compute; reflexivity.
  - lia.
Defined.

(** The ratio 0.7 of 10 frames is frame 7 (its exact product with 10 is
    below 7): the slice (0.7, 1) has 3 frames. *)
Lemma sliceBuffer_correct_witness :
  [tape] !! 0 = Some tape /\ wf_buffer tape /\ (Z.of_nat (buf_length tape) < 2 ^ 32)%Z /\
  (0 <= Js.div 7 (10 # 1))%Q /\ (Js.div 7 (10 # 1) < 1)%Q /\ (1 <= 1)%Q /\
  Js.floor (Js.div 7 (10 # 1) * (10 # 1)) = 6%Z /\
  exists nb,
    sliceBuffer 0 (Js.div 7 (10 # 1)) 1 [tape] = Ok (Some 1) ([tape] ++ [nb]) /\
    Z.of_nat (buf_length nb) = 3%Z /\
    sample nb 0 0 = sample tape 0 7.
Proof.
  split; [reflexivity|]. split; [exact wf_tape|]. split; [cbn; lia|].
  split; [vm_compute; discriminate|]. split; [vm_compute; reflexivity|].
  split; [discriminate|]. split; [vm_compute; reflexivity|].
  assert (Es : Js.floor (Js.mul (Js.div 7 (10 # 1)) (inject_Z (Z.of_nat (buf_length tape)))) = 7%Z)
    by (vm_compute; reflexivity).
  assert (Ee : Js.floor (Js.mul 1 (inject_Z (Z.of_nat (buf_length tape)))) = 10%Z)
    by (vm_compute; reflexivity).
  destruct (sliceBuffer_correct [tape] 0 tape (Js.div 7 (10 # 1)) 1) as (_ & Hpos & _).
  - reflexivity.
  - exact wf_tape.
  - cbn; lia.
  - vm_compute; discriminate.
  - vm_compute; reflexivity.
  - discriminate.
  - rewrite Es, Ee in Hpos.
    destruct (Hpos ltac:(lia)) as (nb & Hrun & _ & _ & _ & Hlen & Hsample).
    exists nb. split; [exact Hrun|]. split; [exact Hlen|].
    destruct (Hsample 0 0) as [_ Hs]; [cbn; lia | lia |]. exact Hs.
Defined.

(** Reversing the frames 3 to 6 (the exact products would give 2
    to 5). *)
Lemma reverseRange_involution_witness :
  [tape] !! 0 = Some tape /\ wf_buffer tape /\
  exists nb,
    reverseRange 0 t3 t7 [tape] = Ok 1 ([tape] ++ [nb]) /\
    sample nb 0 3 = sample tape 0 6 /\ sample nb 0 2 = sample tape 0 2 /\
    reverseRange 1 t3 t7 ([tape] ++ [nb]) = Ok 2 ([tape] ++ [nb; tape]).
Proof.
  destruct tape_frames as (E3 & _ & E7 & _).
  split; [reflexivity|]. split; [exact wf_tape|].
  destruct (reverseRange_involution [tape] 0 tape t3 t7)
    as (nb & Hrun & _ & _ & _ & _ & Hmirror & Hagain).
  - reflexivity.
  - exact wf_tape.
  - rewrite E3, E7 in Hmirror.
    assert (Hm : forall c i, sample nb c i = sample tape c (mirror 3 7 i)).
    { apply Hmirror; [vm_compute; discriminate | vm_compute; reflexivity | cbn; lia]. }
    exists nb. split; [exact Hrun|]. split; [exact (Hm 0 3)|].
    split; [exact (Hm 0 2) | exact Hagain].
Defined.

(** The frames 3 to 6 of the rendered delay are halved, the others are
    not. *)
Lemma freeze_local_gain_witness :
  volume tape_params = Some (1 # 2) /\
  exists s1,
    processRange demo_render 0 "delay" t3 t7 tape_params [tape] = Ok 3 s1 /\
    exists b1 b2,
      s1 !! 3 = Some b1 /\ wf_buffer b1 /\
      freezeCurrentEffect demo_render (Some (mkRegion t3 t7)) 0 "delay" tape_params [tape] =
      Ok (Some 3) (<[3 := b2]> s1) /\
      sample b2 0 3 = (fun x => x * (1 # 2))%Q <$> sample b1 0 3 /\
      sample b2 0 6 = (fun x => x * (1 # 2))%Q <$> sample b1 0 6 /\
      sample b2 0 2 = sample b1 0 2 /\
      sample b2 0 7 = sample b1 0 7.
Proof.
  split; [reflexivity|].
  eexists. split; [vm_compute; reflexivity|].
  eexists.
  match goal with |- exists b2, ?s1 !! 3 = Some ?b1 /\ _ =>
    assert (Hb1 : s1 !! 3 = Some b1) by reflexivity;
    assert (Hwf : wf_buffer b1)
  end.
  { unfold wf_buffer, numberOfChannels.
    cbn [channelData buf_length sampleRate length].
    split; [lia | split; [lia | split; [repeat constructor | reflexivity]]]. }
  match type of Hb1 with ?s1 !! 3 = Some ?b1 =>
    destruct (freeze_local_gain demo_render [tape] s1 (mkRegion t3 t7) 0 3 "delay"
                tape_params (1 # 2) b1)
      as ((b2 & Hfreeze & _ & _ & _ & Hsample) & _);
      [reflexivity | reflexivity | vm_compute; reflexivity | exact Hb1 | exact Hwf |]
  end.
  destruct tape_frames as (E3 & _ & E7 & _).
  cbn [region_start region_end sampleRate] in Hsample.
  change (Js.floor (Js.mul t3 (44100 # 1))) with (Js.floor (Js.mul t3 (sampleRate tape)))
    in Hsample.
  change (Js.floor (Js.mul t7 (44100 # 1))) with (Js.floor (Js.mul t7 (sampleRate tape)))
    in Hsample.
  rewrite E3, E7 in Hsample.
  exists b2. split; [exact Hb1|]. split; [exact Hwf|].
  split; [exact Hfreeze|]. split; [apply (Hsample 0 3)|]. split; [apply (Hsample 0 6)|].
  split; [apply (Hsample 0 2) | apply (Hsample 0 7)].
Defined.



(** * Further properties *)

(** ** renderOfflineEffect and freezeCurrentEffect at the bounds *)

Lemma for_range_throw_first (n : nat) (body : nat -> M unit) (s s' : Store) (e : Error) :
  0 < n -> body 0 s = Throw e s' -> for_range n body s = Throw e s'.
Proof.
  intros Hn Hbody. destruct n as [|n]; [lia|].
  unfold for_range. cbn [seq for_each]. now rewrite (bind_Throw _ _ _ _ _ Hbody).
Qed.

Lemma length_processed_channels (effectType : string) (params : Params) (len : nat)
    (rendered : list (list Q)) :
  length (processed_channels effectType params len rendered) = length rendered.
Proof.
  unfold processed_channels. destruct (effectType =? "bitcrush")%string;
    [apply length_map | reflexivity].
Qed.

Lemma processed_channels_frames (effectType : string) (params : Params) (len : nat)
    (rendered : list (list Q)) :
  Forall (fun ch => length ch = len) rendered ->
  Forall (fun ch => length ch = len) (processed_channels effectType params len rendered).
Proof.
  intros H. unfold processed_channels. destruct (effectType =? "bitcrush")%string; [|exact H].
  rewrite Forall_forall in *. intros ch Hin.
  apply list_elem_of_In, in_map_iff in Hin. destruct Hin as (data & <- & Hin).
  rewrite length_bitcrush_channel. now apply H, list_elem_of_In.
Qed.

Section BoundsProperties.

Variable render : Graph -> list (list Q) -> nat -> nat -> Q.

(** The channels an offline context renders for a clip. *)
Lemma rendered_frames (g : Graph) (clip : list (list Q)) (channels len : nat) :
  Forall (fun ch => length ch = len)
    (map (fun c => map (render g clip c) (seq 0 len)) (seq 0 channels)).
Proof.
  rewrite Forall_forall. intros ch Hin.
  apply list_elem_of_In, in_map_iff in Hin. destruct Hin as (c & <- & _).
  now rewrite length_map, length_seq.
Qed.

(** For a region of positive frame count, whatever its position:
    [renderOfflineEffect] appends the clip and the processed clip to the
    store and goes on with the merging step. *)
Lemma renderOfflineEffect_until_merge (s : Store) (originalBuffer : ref) (b : AudioBuffer)
    (regionStart regionEnd : Q) (effectType : string) (params : Params) :
  s !! originalBuffer = Some b -> 0 < numberOfChannels b ->
  let startFrame := Js.floor (Js.mul regionStart (sampleRate b)) in
  let endFrame := Js.floor (Js.mul regionEnd (sampleRate b)) in
  let L := Z.to_nat (endFrame - startFrame) in
  let temp := map (copied_slice L startFrame endFrame) (channelData b) in
  let processed :=
    processed_channels effectType params L
      (map (fun c => map (render (build_graph effectType params) temp c) (seq 0 L))
           (seq 0 (numberOfChannels b))) in
  (0 < endFrame - startFrame)%Z ->
  renderOfflineEffect render originalBuffer regionStart regionEnd effectType params s =
  (finalBuffer <- createBuffer (numberOfChannels b) (buf_length b) (sampleRate b) ;;
   for_range (numberOfChannels b) (fun c =>
     orig <- getChannelData originalBuffer c ;;
     modifyChannelData finalBuffer c (fun data => TypedArray.set data orig 0) ;;
     clip <- getChannelData (length s + 1) c ;;
     modifyChannelData finalBuffer c (fun data => TypedArray.set data clip startFrame)) ;;
   ret finalBuffer)
    (s ++ [mkAudioBuffer (sampleRate b) L temp; mkAudioBuffer (sampleRate b) L processed]).
Proof.
  intros Hb Hch startFrame endFrame L temp processed Hpos.
  unfold renderOfflineEffect.
  rewrite (bind_Ok _ _ _ _ _ (readBuffer_Ok _ _ _ Hb)). fold startFrame endFrame.
  destruct (Z.leb_spec (endFrame - startFrame) 0) as [|_]; [lia|]. fold L.
  rewrite (bind_Ok _ _ _ _ _ (createBuffer_Ok s _ L _ Hch ltac:(lia))).
  rewrite (bind_Ok _ _ _ _ _ (copy_slices_run s originalBuffer b _ _ _ _ Hb)).
  fold temp.
  set (s1 := s ++ [mkAudioBuffer (sampleRate b) L temp]).
  assert (Hs1 : length s1 = length s + 1) by (unfold s1; rewrite length_app; reflexivity).
  erewrite bind_Ok;
    [| apply startRendering_Ok; unfold s1; now rewrite lookup_app_r, Nat.sub_diag by lia].
  cbn [channelData]. rewrite Hs1.
  replace (s ++ [mkAudioBuffer (sampleRate b) L temp; mkAudioBuffer (sampleRate b) L processed])
    with (s1 ++ [mkAudioBuffer (sampleRate b) L processed])
    by (unfold s1; now rewrite <- app_assoc).
  unfold processed, processed_channels.
  destruct (effectType =? "bitcrush")%string; [|reflexivity].
  erewrite bind_Ok;
    [| apply applyMathBitcrush_run; rewrite <- Hs1; now rewrite lookup_app_r, Nat.sub_diag by lia].
  cbn [sampleRate buf_length channelData].
  rewrite <- Hs1, insert_app_r_alt, Nat.sub_diag by lia. reflexivity.
Qed.

(** The merging [set] throws when the clip does not fit. *)
Lemma renderOfflineEffect_throws (s : Store) (originalBuffer : ref) (b : AudioBuffer)
    (regionStart regionEnd : Q) (effectType : string) (params : Params) :
  s !! originalBuffer = Some b -> wf_buffer b ->
  let startFrame := Js.floor (Js.mul regionStart (sampleRate b)) in
  let endFrame := Js.floor (Js.mul regionEnd (sampleRate b)) in
  (0 < endFrame - startFrame)%Z ->
  (startFrame < 0 \/ Z.of_nat (buf_length b) < endFrame)%Z ->
  exists extra,
    renderOfflineEffect render originalBuffer regionStart regionEnd effectType params s =
    Throw RangeError (s ++ extra).
Proof.
  intros Hb (Hch & Hlen & Hall & Hrate) startFrame endFrame Hpos Hout.
  rewrite (renderOfflineEffect_until_merge s originalBuffer b regionStart regionEnd
             effectType params Hb Hch Hpos).
  fold startFrame endFrame.
  set (L := Z.to_nat (endFrame - startFrame)).
  set (temp := map (copied_slice L startFrame endFrame) (channelData b)).
  set (processed := processed_channels effectType params L _).
  set (s2 := s ++ [mkAudioBuffer (sampleRate b) L temp; mkAudioBuffer (sampleRate b) L processed]).
  assert (Hs2 : length s2 = length s + 2) by (unfold s2; rewrite length_app; reflexivity).
  rewrite (bind_Ok _ _ _ _ _ (createBuffer_Ok s2 _ _ _ Hch Hlen)). rewrite Hs2.
  set (chs0 := replicate (numberOfChannels b) (replicate (buf_length b) 0%Q)).
  set (s3 := s2 ++ [mkAudioBuffer (sampleRate b) (buf_length b) chs0]).
  pose proof (lookup_lt_Some _ _ _ Hb) as Hlt.
  destruct (lookup_lt_is_Some_2 (channelData b) 0 Hch) as [orig Ho].
  assert (Hproc_n : length processed = numberOfChannels b).
  { unfold processed. rewrite length_processed_channels, length_map. apply length_seq. }
  assert (Hproc_len : Forall (fun ch => length ch = L) processed)
    by (apply processed_channels_frames, rendered_frames).
  destruct (lookup_lt_is_Some_2 processed 0 ltac:(lia)) as [clip Hc].
  rewrite Forall_forall in Hall, Hproc_len.
  pose proof (Hall orig (list_elem_of_lookup_2 _ _ _ Ho)) as Hol.
  pose proof (Hproc_len clip (list_elem_of_lookup_2 _ _ _ Hc)) as Hcl.
  assert (Hob : s3 !! originalBuffer = Some b).
  { unfold s3, s2. rewrite <- !app_assoc. now apply lookup_app_l_Some. }
  assert (Hfin : s3 !! (length s + 2) =
                 Some (mkAudioBuffer (sampleRate b) (buf_length b) chs0)).
  { unfold s3. now rewrite lookup_app_r, Hs2, Nat.sub_diag by lia. }
  set (s4 := <[length s + 2 := mkAudioBuffer (sampleRate b) (buf_length b)
                                 (<[0 := orig]> chs0)]> s3).
  exists [mkAudioBuffer (sampleRate b) L temp; mkAudioBuffer (sampleRate b) L processed;
          mkAudioBuffer (sampleRate b) (buf_length b) (<[0 := orig]> chs0)].
  apply bind_Throw.
  apply for_range_throw_first; [exact Hch|].
  rewrite (bind_Ok _ _ _ _ _ (getChannelData_Ok _ _ _ _ _ Hob Ho)).
  erewrite bind_Ok;
    [| eapply modifyChannelData_Ok;
       [ exact Hfin
       | cbn [channelData]; apply lookup_replicate_2; exact Hch
       | apply set_whole; rewrite length_replicate; exact Hol ]].
  cbn [sampleRate buf_length channelData]. fold s4.
  assert (Hclip : s4 !! (length s + 1) = Some (mkAudioBuffer (sampleRate b) L processed)).
  { unfold s4. rewrite list_lookup_insert_ne by lia.
    unfold s3, s2. rewrite <- app_assoc, lookup_app_r by lia.
    now replace (length s + 1 - length s) with 1 by lia. }
  rewrite (bind_Ok _ _ _ _ _ (getChannelData_Ok _ _ _ _ _ Hclip Hc)).
  erewrite modifyChannelData_Throw;
    [| unfold s4; apply list_lookup_insert_eq; unfold s3; rewrite length_app, Hs2; simpl; lia
     | cbn [channelData]; apply list_lookup_insert_eq; unfold chs0;
       rewrite length_replicate; exact Hch
     | apply set_out_of_range; lia ].
  f_equal. unfold s4, s3. rewrite <- Hs2, insert_app_r_alt, Nat.sub_diag by lia.
  unfold s2. now rewrite <- app_assoc.
Qed.

(** X1. A region of positive frame count (below 2^32, the most an
    offline context can be asked for) that does not fit the buffer (it
    starts before frame 0 or ends past the last frame) makes
    [renderOfflineEffect] throw a RangeError, for every effect type; the
    buffers of the store it started from are all still there,
    unchanged.  The frames are [Math.floor(t * sampleRate)] of the
    double products. *)
Theorem renderOfflineEffect_out_of_range (s : Store) (originalBuffer : ref) (b : AudioBuffer)
    (regionStart regionEnd : Q) (effectType : string) (params : Params) :
  s !! originalBuffer = Some b -> wf_buffer b ->
  let startFrame := Js.floor (Js.mul regionStart (sampleRate b)) in
  let endFrame := Js.floor (Js.mul regionEnd (sampleRate b)) in
  (0 < endFrame - startFrame)%Z -> (endFrame - startFrame < 2 ^ 32)%Z ->
  (startFrame < 0 \/ Z.of_nat (buf_length b) < endFrame)%Z ->
  exists extra,
    renderOfflineEffect render originalBuffer regionStart regionEnd effectType params s =
    Throw RangeError (s ++ extra) /\
    forall r, r < length s -> (s ++ extra) !! r = s !! r.
Proof.
  intros Hb Hwf startFrame endFrame Hpos _ Hout.
  destruct (renderOfflineEffect_throws s originalBuffer b regionStart regionEnd effectType
              params Hb Hwf Hpos Hout) as [extra Hrun].
  exists extra. split; [exact Hrun|]. intros r Hr. now apply lookup_app_l.
Qed.

(** The effect types [processRange] hands to [renderOfflineEffect]. *)
Lemma processRange_offline (buffer : ref) (type : string) (startTime endTime : Q)
    (params : Params) :
  offline_effect type ->
  processRange render buffer type startTime endTime params =
  renderOfflineEffect render buffer startTime endTime type params.
Proof.
  unfold offline_effect, processRange. cbn [existsb]. intros H.
  destruct (String.eqb_spec type "distortion") as [->|_]; [reflexivity|].
  destruct (String.eqb_spec type "delay") as [->|_]; [reflexivity|].
  destruct (String.eqb_spec type "bitcrush") as [->|_]; [reflexivity|].
  discriminate.
Qed.

(** X2. Freezing one of the three offline effects over a region of
    positive frame count (below 2^32) that does not fit the buffer is
    caught: nothing is handed over to be reloaded, and the buffers that
    were in the store, the committed one among them, are unchanged. *)
Theorem freeze_out_of_range (s : Store) (region : Region) (originalBuffer : ref)
    (b : AudioBuffer) (currentEffectType : string) (effectParams : Params) :
  s !! originalBuffer = Some b -> wf_buffer b -> offline_effect currentEffectType ->
  let startFrame := Js.floor (Js.mul (region_start region) (sampleRate b)) in
  let endFrame := Js.floor (Js.mul (region_end region) (sampleRate b)) in
  (0 < endFrame - startFrame)%Z -> (endFrame - startFrame < 2 ^ 32)%Z ->
  (startFrame < 0 \/ Z.of_nat (buf_length b) < endFrame)%Z ->
  exists extra,
    freezeCurrentEffect render (Some region) originalBuffer currentEffectType effectParams s =
    Ok None (s ++ extra) /\
    forall r, r < length s -> (s ++ extra) !! r = s !! r.
Proof.
  intros Hb Hwf Hty startFrame endFrame Hpos _ Hout.
  destruct (renderOfflineEffect_throws s originalBuffer b (region_start region)
              (region_end region) currentEffectType effectParams Hb Hwf Hpos Hout)
    as [extra Hrun].
  exists extra. split; [|intros r Hr; now apply lookup_app_l].
  unfold freezeCurrentEffect, try_catch.
  rewrite (processRange_offline _ _ _ _ _ Hty).
  now rewrite (bind_Throw _ _ _ _ _ Hrun).
Qed.

Lemma update_range_empty (f : Q -> Q) (from to : Z) (a : list Q) :
  (to <= from)%Z -> TypedArray.update_range f from to a = a.
Proof.
  intros H. unfold TypedArray.update_range, TypedArray.indices.
  now rewrite seqZ_nil by lia.
Qed.

(** X3. Freezing one of the three offline effects over a region of no
    frames (its frame count
    [Math.floor(end * rate) - Math.floor(start * rate)], of finite
    double products, is not positive) changes nothing, whatever the
    preview volume: the committed buffer itself is handed back and the
    store is as it was. *)
Theorem freeze_degenerate_region (s : Store) (region : Region) (originalBuffer : ref)
    (b : AudioBuffer) (currentEffectType : string) (effectParams : Params) :
  s !! originalBuffer = Some b -> offline_effect currentEffectType ->
  Js.finite (Js.mul (region_start region) (sampleRate b)) ->
  Js.finite (Js.mul (region_end region) (sampleRate b)) ->
  (Js.floor (Js.mul (region_end region) (sampleRate b)) -
   Js.floor (Js.mul (region_start region) (sampleRate b)) <= 0)%Z ->
  freezeCurrentEffect render (Some region) originalBuffer currentEffectType effectParams s =
  Ok (Some originalBuffer) s.
Proof.
  intros Hb Hty _ _ Hle.
  assert (Hrun : renderOfflineEffect render originalBuffer (region_start region)
                   (region_end region) currentEffectType effectParams s =
                 Ok originalBuffer s).
  { unfold renderOfflineEffect. rewrite (bind_Ok _ _ _ _ _ (readBuffer_Ok _ _ _ Hb)).
    destruct (Z.leb_spec (Js.floor (Js.mul (region_end region) (sampleRate b)) -
                          Js.floor (Js.mul (region_start region) (sampleRate b))) 0);
      [reflexivity | lia]. }
  unfold freezeCurrentEffect, try_catch.
  rewrite (processRange_offline _ _ _ _ _ Hty), (bind_Ok _ _ _ _ _ Hrun).
  destruct (volume effectParams) as [vol|]; [|reflexivity].
  rewrite (bind_Ok _ _ _ _ _ (applyLocalGain_run s originalBuffer b region vol Hb)).
  unfold ret. f_equal. apply list_insert_id. rewrite Hb. f_equal.
  destruct b as [rate len chs]. cbn [sampleRate buf_length channelData] in *. f_equal.
  symmetry. transitivity (map (fun data : list Q => data) chs); [|apply map_id].
  apply map_ext. intros data. apply update_range_empty. lia.
Qed.

(** X4. Freezing one of the three offline effects over a region that
    lies within the buffer, with a preview volume set: the buffer handed
    over is a new one, the committed buffer is not modified, and the new
    buffer holds the committed samples outside the region and the
    rendered clip multiplied by the volume inside it. *)
Theorem freeze_bakes_region (s : Store) (region : Region) (originalBuffer : ref)
    (b : AudioBuffer) (currentEffectType : string) (effectParams : Params) (vol : Q) :
  s !! originalBuffer = Some b -> wf_buffer b -> offline_effect currentEffectType ->
  volume effectParams = Some vol ->
  let startFrame := Js.floor (Js.mul (region_start region) (sampleRate b)) in
  let endFrame := Js.floor (Js.mul (region_end region) (sampleRate b)) in
  (0 <= startFrame)%Z -> (startFrame < endFrame)%Z ->
  (endFrame <= Z.of_nat (buf_length b))%Z ->
  exists temp clip final,
    freezeCurrentEffect render (Some region) originalBuffer currentEffectType effectParams s =
    Ok (Some (length s + 2)) (s ++ [temp; clip; final]) /\
    (s ++ [temp; clip; final]) !! originalBuffer = Some b /\
    originalBuffer <> length s + 2 /\
    sampleRate final = sampleRate b /\
    buf_length final = buf_length b /\
    numberOfChannels final = numberOfChannels b /\
    (forall c i, (Z.of_nat i < startFrame \/ endFrame <= Z.of_nat i)%Z ->
       sample final c i = sample b c i) /\
    (forall c i, c < numberOfChannels b -> (startFrame <= Z.of_nat i < endFrame)%Z ->
       sample final c i = (fun x => x * vol)%Q <$> sample clip c (i - Z.to_nat startFrame)).
Proof.
  intros Hb Hwf Hty Hvol startFrame endFrame H0 Hse He.
  pose proof (renderOfflineEffect_run render s originalBuffer b (region_start region)
                (region_end region) currentEffectType effectParams Hb Hwf H0 Hse He) as Hrun.
  cbv zeta in Hrun. fold startFrame endFrame in Hrun.
  destruct Hwf as (Hch & Hlen & Hall & Hrate).
  set (L := Z.to_nat (endFrame - startFrame)) in *.
  match type of Hrun with
  | _ = Ok _ (_ ++ [?t; mkAudioBuffer _ _ ?p; _]) => set (temp := t) in *;
                                                    set (processed := p) in *
  end.
  assert (Hproc_n : length processed = numberOfChannels b).
  { unfold processed. rewrite length_processed_channels, length_map. apply length_seq. }
  assert (Hproc_len : Forall (fun ch => length ch = L) processed)
    by (apply processed_channels_frames, rendered_frames).
  rewrite Forall_forall in Hall, Hproc_len.
  set (merged := zip_with (spliced startFrame) (channelData b) processed) in *.
  set (s1 := s ++ [temp; mkAudioBuffer (sampleRate b) L processed;
                   mkAudioBuffer (sampleRate b) (buf_length b) merged]) in *.
  assert (Hnew : s1 !! (length s + 2) =
                 Some (mkAudioBuffer (sampleRate b) (buf_length b) merged)).
  { unfold s1. rewrite lookup_app_r by lia.
    now replace (length s + 2 - length s) with 2 by lia. }
  set (g := fun data : list Q =>
              TypedArray.update_range (fun x => x * vol)%Q startFrame
                (Z.min endFrame (Z.of_nat (length data))) data).
  pose proof (lookup_lt_Some _ _ _ Hb) as Hlt.
  assert (Hmerged : forall c orig clip,
            channelData b !! c = Some orig -> processed !! c = Some clip ->
            merged !! c = Some (spliced startFrame orig clip) /\
            length orig = buf_length b /\ length clip = L /\
            length (spliced startFrame orig clip) = buf_length b).
  { intros c orig clip Ho Hc.
    pose proof (Hall orig (list_elem_of_lookup_2 _ _ _ Ho)).
    pose proof (Hproc_len clip (list_elem_of_lookup_2 _ _ _ Hc)).
    split; [unfold merged; now rewrite lookup_zip_with, Ho, Hc|].
    split; [assumption | split; [assumption|]]. rewrite length_spliced; lia. }
  assert (Hsample : forall c i,
            sample (mkAudioBuffer (sampleRate b) (buf_length b) (map g merged)) c i =
            match channelData b !! c, processed !! c with
            | Some orig, Some clip => g (spliced startFrame orig clip) !! i
            | _, _ => None
            end).
  { intros c i. unfold sample. cbn [channelData].
    change (map g merged) with (g <$> merged). rewrite list_lookup_fmap.
    unfold merged. rewrite lookup_zip_with.
    destruct (channelData b !! c); [|reflexivity].
    cbn [mbind option_bind]. now destruct (processed !! c). }
  exists temp, (mkAudioBuffer (sampleRate b) L processed),
         (mkAudioBuffer (sampleRate b) (buf_length b) (map g merged)).
  split.
  { unfold freezeCurrentEffect, try_catch.
    rewrite (processRange_offline _ _ _ _ _ Hty), (bind_Ok _ _ _ _ _ Hrun), Hvol.
    rewrite (bind_Ok _ _ _ _ _ (applyLocalGain_run s1 (length s + 2) _ region vol Hnew)).
    cbn [sampleRate buf_length channelData]. unfold ret. f_equal.
    unfold s1. rewrite insert_app_r_alt by lia.
    now replace (length s + 2 - length s) with 2 by lia. }
  split; [now apply lookup_app_l_Some|]. split; [lia|].
  split; [reflexivity|]. split; [reflexivity|]. split.
  { unfold numberOfChannels, merged. cbn [channelData].
    now rewrite length_map, length_zip_with, Hproc_n, Nat.min_id. }
  split.
  - intros c i Hi. rewrite Hsample. unfold sample.
    destruct (channelData b !! c) as [orig|] eqn:Ho; [|reflexivity].
    destruct (lookup_lt_is_Some_2 processed c
                ltac:(apply lookup_lt_Some in Ho; unfold numberOfChannels in *; lia))
      as [clip Hc].
    rewrite Hc. destruct (Hmerged c orig clip Ho Hc) as (_ & Hol & Hcl & Hsl).
    unfold g. rewrite update_range_lookup by lia. rewrite Hsl.
    rewrite lookup_spliced_outside by lia.
    destruct (Z.leb_spec startFrame (Z.of_nat i)); cbn [andb]; [|reflexivity].
    destruct (Z.ltb_spec (Z.of_nat i) (Z.min endFrame (Z.of_nat (buf_length b))));
      [lia | reflexivity].
  - intros c i Hc Hi. rewrite Hsample. unfold sample. cbn [channelData].
    destruct (lookup_lt_is_Some_2 (channelData b) c Hc) as [orig Ho].
    destruct (lookup_lt_is_Some_2 processed c ltac:(lia)) as [clip Hcl].
    rewrite Ho, Hcl. destruct (Hmerged c orig clip Ho Hcl) as (_ & Hol & Hcll & Hsl).
    unfold g. rewrite update_range_lookup by lia. rewrite Hsl.
    rewrite lookup_spliced_inside by lia.
    destruct (Z.leb_spec startFrame (Z.of_nat i)); [|lia].
    destruct (Z.ltb_spec (Z.of_nat i) (Z.min endFrame (Z.of_nat (buf_length b))));
      [reflexivity | lia].
Qed.

End BoundsProperties.

(** ** reverseRange: what it keeps *)

Lemma reverse_subarray_Permutation (a : list Q) (s e : Z) :
  TypedArray.reverse_subarray a s e ≡ₚ a.
Proof.
  unfold TypedArray.reverse_subarray.
  set (k := TypedArray.rel (length a) s). set (n := TypedArray.rel (length a) e - k).
  rewrite reverse_Permutation, <- drop_drop.
  now rewrite (take_drop n (drop k a)), take_drop.
Qed.

(** X5. For any times, valid or not, [reverseRange] succeeds on a
    well-formed buffer and every channel of the buffer it returns is a
    rearrangement of the source channel (no sample is lost, added or
    changed); when the end frame is not after the start frame the buffer
    returned is a plain copy. *)
Theorem reverseRange_permutes (s : Store) (buffer : ref) (b : AudioBuffer) (t0 t1 : Q) :
  s !! buffer = Some b -> wf_buffer b ->
  exists nb,
    reverseRange buffer t0 t1 s = Ok (length s) (s ++ [nb]) /\
    Forall2 Permutation (channelData nb) (channelData b) /\
    ((Js.floor (Js.mul t1 (sampleRate b)) <= Js.floor (Js.mul t0 (sampleRate b)))%Z -> nb = b).
Proof.
  intros Hb Hwf. eexists. split; [apply (reverseRange_run s buffer b t0 t1 Hb Hwf)|].
  cbn [channelData]. unfold reversed_channels. split.
  - apply Forall2_fmap_l, Forall_Forall2_diag, Forall_forall. intros data _.
    destruct (_ >? _)%Z; [apply reverse_subarray_Permutation | reflexivity].
  - intros Hle. destruct b as [rate len chs]. cbn [sampleRate buf_length channelData] in *.
    f_equal. destruct (Z.gtb_spec (Js.floor (Js.mul t1 rate)) (Js.floor (Js.mul t0 rate))); [lia|].
    apply map_id.
Qed.

(** ** applyMathBitcrush: silence, idempotence, error *)

Lemma floor_unit_interval (x : Q) : (0 <= x)%Q -> (x < 1)%Q -> Js.floor x = 0%Z.
Proof.
  intros H0 H1. unfold Js.floor.
  pose proof (Qfloor_le x) as Hle. pose proof (Qlt_floor x) as Hlt.
  assert (Ha : (inject_Z (Qfloor x) < inject_Z 1)%Q) by (eapply Qle_lt_trans; eauto).
  assert (Hb : (inject_Z 0 < inject_Z (Qfloor x + 1))%Q) by (eapply Qle_lt_trans; eauto).
  rewrite <- Zlt_Qlt in Ha, Hb. lia.
Qed.

(** With a step size of 0 the loop never samples: every frame gets the
    initial [lastSample]. *)
Lemma bitcrush_never_samples step stepScale (data : list Q) (k : nat) :
  k <= length data ->
  snd (fold_left (bitcrush_step step stepScale (Some 0%Z)) (seqZ 0 (Z.of_nat k)) (data, 0%Q))
  = 0%Q /\
  forall i, fst (fold_left (bitcrush_step step stepScale (Some 0%Z))
                   (seqZ 0 (Z.of_nat k)) (data, 0%Q)) !! i =
            if decide (i < k) then Some 0%Q else data !! i.
Proof.
  induction k as [|k IH]; intros Hk.
  - cbn. split; [reflexivity|]. intros i. destruct (decide (i < 0)); [lia | reflexivity].
  - specialize (IH ltac:(lia)). destruct IH as [Hlast Hlook].
    rewrite seqZ_S, fold_left_app. cbn [fold_left].
    pose proof (length_bitcrush_fold step stepScale (Some 0%Z) (seqZ 0 (Z.of_nat k))
                  (data, 0%Q)) as Hlen. cbn [fst] in Hlen.
    destruct (fold_left _ (seqZ 0 (Z.of_nat k)) _) as [d last]. cbn [fst snd] in *.
    subst last. unfold bitcrush_step, on_step, Js.rem_is_zero. cbn [Z.eqb fst snd].
    unfold TypedArray.put. rewrite Z.add_0_l.
    destruct (Z.ltb_spec (Z.of_nat k) 0); [lia|]. rewrite Nat2Z.id.
    split; [reflexivity|]. intros i.
    destruct (Nat.eq_dec i k) as [->|Hne].
    + rewrite list_lookup_insert_eq by lia. destruct (decide (k < S k)); [reflexivity | lia].
    + rewrite list_lookup_insert_ne by lia. rewrite Hlook.
      destruct (decide (i < k)), (decide (i < S k)); try reflexivity; lia.
Qed.

(** The least double above 1 is [1 + 2^-52]. *)
Lemma double_above_one (x : Q) :
  Js.is_double x -> (1 < x)%Q -> (1 + Js.pow2 (-52) <= x)%Q.
Proof.
  intros Hd Hx. unfold Js.is_double, Js.fl in Hd.
  destruct (Qcompare_spec x 0) as [E|E|E]; try lra.
  unfold Js.fl_pos in Hd.
  assert (He : (0 <= Js.ilog2 x)%Z)
    by (apply ilog2_ge; [lra | change (Js.pow2 0) with 1%Q; lra]).
  destruct (Z.eq_dec (Js.ilog2 x) 0%Z) as [E0|E0].
  - unfold Js.ulp in Hd. rewrite E0 in Hd.
    change (Z.max (0 - 52) (-1074)) with (-52)%Z in Hd.
    set (k := Js.round_even (x / Js.pow2 (-52))) in *.
    pose proof (pow2_pos (-52)) as Hp.
    assert (E1 : (inject_Z (2 ^ 52) * Js.pow2 (-52) == 1)%Q) by reflexivity.
    assert (Hk : (2 ^ 52 < k)%Z).
    { rewrite Zlt_Qlt. apply Qmult_lt_r with (Js.pow2 (-52)); [exact Hp|]. lra. }
    assert (Hk' : (inject_Z (2 ^ 52 + 1) <= inject_Z k)%Q) by (rewrite <- Zle_Qle; lia).
    rewrite inject_Z_plus in Hk'. change (inject_Z 1) with 1%Q in Hk'.
    apply Qle_trans with ((inject_Z (2 ^ 52) + 1) * Js.pow2 (-52))%Q; [lra|].
    apply Qle_trans with (inject_Z k * Js.pow2 (-52))%Q; [|lra].
    apply Qmult_le_compat_r; lra.
  - destruct (ilog2_spec x E) as [Hl _].
    pose proof (pow2_le 1 (Js.ilog2 x) ltac:(lia)) as H1.
    assert (H2 : (1 + Js.pow2 (-52) <= Js.pow2 1)%Q) by (vm_compute; discriminate).
    lra.
Qed.

(** The reciprocal of a double above 1 rounds to a double below 1, so
    the step size [Math.floor(1 / normFreq)] is 0. *)
Lemma stepSize_above_one (normFreq : Q) :
  Js.is_double normFreq -> (1 < normFreq)%Q -> stepSize_of normFreq = Some 0%Z.
Proof.
  intros Hd Hnf. pose proof (double_above_one normFreq Hd Hnf) as Hge.
  pose proof (pow2_pos (-52)) as Hp.
  assert (H0 : (0 <= Js.div 1 normFreq)%Q)
    by (apply fl_nonneg, Qle_shift_div_l; lra).
  assert (H1 : (Js.div 1 normFreq < 1)%Q).
  { apply Qle_lt_trans with (Js.fl (1 / (1 + Js.pow2 (-52)))).
    - apply fl_mono. apply Qle_shift_div_r; [lra|].
      assert (E : (1 / (1 + Js.pow2 (-52)) * normFreq == normFreq / (1 + Js.pow2 (-52)))%Q)
        by (field; lra).
      rewrite E. apply Qle_shift_div_l; lra.
    - vm_compute. reflexivity. }
  unfold stepSize_of. destruct (Qeq_bool normFreq 0) eqn:E; [apply Qeq_bool_eq in E; lra|].
  destruct (Qle_bool (Js.pow2 1024) (Qabs (Js.div 1 normFreq))) eqn:E'.
  - apply Qle_bool_iff in E'. rewrite Qabs_pos in E' by exact H0.
    pose proof (pow2_lt 0 1024 ltac:(lia)) as Hlt. change (Js.pow2 0) with 1%Q in Hlt. lra.
  - f_equal. now apply floor_unit_interval.
Qed.

(** X6. With a [normFreq] above 1 (a double, as every number of the
    program is) the step size [Math.floor(1 / normFreq)] is 0, [i % 0]
    is never 0, and [applyMathBitcrush] turns every sample of every
    channel into 0, whatever [bits] is. *)
Theorem applyMathBitcrush_above_one (s : Store) (buffer : ref) (b : AudioBuffer)
    (bits : Z) (normFreq : Q) :
  s !! buffer = Some b -> wf_buffer b -> Js.is_double normFreq -> (1 < normFreq)%Q ->
  exists b',
    applyMathBitcrush buffer bits normFreq s = Ok buffer (<[buffer := b']> s) /\
    buf_length b' = buf_length b /\
    numberOfChannels b' = numberOfChannels b /\
    forall c i, c < numberOfChannels b -> i < buf_length b -> sample b' c i = Some 0%Q.
Proof.
  intros Hb (Hch & Hlen & Hall & Hrate) Hdbl Hnf.
  eexists. split; [apply (applyMathBitcrush_run s buffer b bits normFreq Hb)|].
  split; [reflexivity|]. split; [unfold numberOfChannels; cbn [channelData]; apply length_map|].
  intros c i Hc Hi. unfold sample. cbn [channelData].
  change (map ?h ?l) with (h <$> l). rewrite list_lookup_fmap.
  destruct (lookup_lt_is_Some_2 (channelData b) c Hc) as [data Hdata].
  rewrite Hdata. cbn [fmap option_fmap option_map].
  rewrite Forall_forall in Hall.
  pose proof (Hall data (list_elem_of_lookup_2 _ _ _ Hdata)) as Hd.
  rewrite (stepSize_above_one normFreq Hdbl Hnf).
  unfold bitcrush_channel, TypedArray.indices. rewrite Z.sub_0_r.
  destruct (bitcrush_never_samples (1 / Js.pow2 bits) (1 / (1 / Js.pow2 bits)) data
              (buf_length b) ltac:(lia)) as [_ Hlook].
  rewrite Hlook. destruct (decide (i < buf_length b)); [reflexivity | lia].
Qed.

Lemma round_inject (k : Z) : Js.round (inject_Z k) = k.
Proof.
  unfold Js.round, inject_Z, Qplus, Qfloor. cbn [Qnum Qden].
  rewrite Z.mul_1_l. change (Z.pos (1 * 2)) with 2%Z.
  change (Z.pos 2) with 2%Z. Z.div_mod_to_equations. lia.
Qed.

Lemma round_comp (x y : Q) : (x == y)%Q -> Js.round x = Js.round y.
Proof. intros H. unfold Js.round. now rewrite H. Qed.

(** Quantizing a quantized sample returns it. *)
Lemma quantized_idempotent (bits : Z) (x : Q) :
  quantized (1 / Js.pow2 bits) (1 / (1 / Js.pow2 bits))
    (quantized (1 / Js.pow2 bits) (1 / (1 / Js.pow2 bits)) x) =
  quantized (1 / Js.pow2 bits) (1 / (1 / Js.pow2 bits)) x.
Proof.
  pose proof (pow2_pos bits) as Hp. unfold quantized.
  set (k := Js.round (x * (1 / (1 / Js.pow2 bits)))).
  replace (Js.round (inject_Z k * (1 / Js.pow2 bits) * (1 / (1 / Js.pow2 bits)))) with k;
    [reflexivity|].
  rewrite <- (round_inject k) at 1. apply round_comp. field. lra.
Qed.

Lemma hold_index_idempotent (m : Z) (i : nat) :
  (1 <= m)%Z -> hold_index m (hold_index m i) = hold_index m i.
Proof.
  intros Hm. rewrite <- (Nat.add_0_r (hold_index m i)) at 1.
  apply hold_index_run; [exact Hm | | lia].
  unfold hold_index.
  pose proof (Z.div_pos (Z.of_nat i) m ltac:(lia) ltac:(lia)).
  rewrite Z2Nat.id by nia. rewrite Z.mul_comm. apply Z_mod_mult.
Qed.

Lemma bitcrush_channel_idempotent (bits : Z) (stepSize : option Z) (data : list Q) :
  match stepSize with Some m => (1 <= m)%Z | None => True end ->
  let bc := bitcrush_channel (length data) (1 / Js.pow2 bits) (1 / (1 / Js.pow2 bits))
              stepSize in
  bc (bc data) = bc data.
Proof.
  intros Hm bc.
  assert (Hl : length (bc data) = length data) by apply length_bitcrush_channel.
  assert (Hidem : forall i, run_start stepSize (run_start stepSize i) = run_start stepSize i).
  { intros i. destruct stepSize as [m|]; cbn [run_start]; [|reflexivity].
    now apply hold_index_idempotent. }
  apply list_eq. intros i. destruct (decide (i < length data)) as [Hi|Hi].
  - unfold bc at 1. rewrite <- Hl at 1.
    rewrite bitcrush_channel_run by (rewrite ?Hl; try exact Hm; lia).
    unfold bc. rewrite !bitcrush_channel_run
      by (try exact Hm; pose proof (run_start_le stepSize i Hm); lia).
    rewrite Hidem.
    destruct (data !! run_start stepSize i); cbn [fmap option_fmap option_map]; [|reflexivity].
    f_equal. apply quantized_idempotent.
  - rewrite !lookup_ge_None_2; [reflexivity | lia |].
    unfold bc at 1. rewrite length_bitcrush_channel. lia.
Qed.

(** X7. For [bits] from -1022 to 1023 (the powers of two that are
    doubles with a double reciprocal) and [normFreq] in (0, 1], with the
    step size of the double quotient [1 / normFreq] (infinite when it
    overflows), [applyMathBitcrush] is idempotent: crushing an already
    crushed buffer with the same settings leaves it exactly as it is. *)
Theorem applyMathBitcrush_idempotent (s s1 : Store) (buffer : ref) (b : AudioBuffer)
    (bits : Z) (normFreq : Q) :
  s !! buffer = Some b -> wf_buffer b -> (-1022 <= bits <= 1023)%Z ->
  (0 < normFreq)%Q -> (normFreq <= 1)%Q ->
  applyMathBitcrush buffer bits normFreq s = Ok buffer s1 ->
  applyMathBitcrush buffer bits normFreq s1 = Ok buffer s1.
Proof.
  intros Hb (Hch & Hlen & Hall & Hrate) _ H0 H1 Hrun.
  rewrite (applyMathBitcrush_run s buffer b bits normFreq Hb) in Hrun.
  injection Hrun as <-.
  assert (Hm : match stepSize_of normFreq with Some m => (1 <= m)%Z | None => True end).
  { pose proof (stepSize_cases normFreq H0 H1) as Hc.
    destruct (stepSize_of normFreq); [apply Hc | exact I]. }
  pose proof (lookup_lt_Some _ _ _ Hb) as Hlt.
  erewrite applyMathBitcrush_run; [|now apply list_lookup_insert_eq].
  cbn [sampleRate buf_length channelData]. rewrite list_insert_insert_eq.
  do 3 f_equal. rewrite map_map. apply map_ext_in. intros data Hin.
  rewrite Forall_forall in Hall.
  rewrite <- (Hall data (proj2 (list_elem_of_In _ _) Hin)).
  now apply bitcrush_channel_idempotent.
Qed.



(** ** makeDistortionCurve: the shape of the table *)


Lemma length_makeDistortionCurve (amount : option Q) :
  length (makeDistortionCurve amount) = n_samples.
Proof.
  unfold makeDistortionCurve. cbv zeta.
  destruct (fill_invariant
              (distortion_entry (match amount with Some a => a | None => 50 # 1 end))
              (replicate n_samples 0%Q) n_samples) as [H _].
  - rewrite length_replicate. apply Nat.le_refl.
  - rewrite H. apply length_replicate.
Qed.



(** ** bufferToWave: the 16-bit quantizer *)

Lemma trunc_mono (x y : Q) : (x <= y)%Q -> (Js.trunc x <= Js.trunc y)%Z.
Proof.
  intros H. unfold Js.trunc.
  destruct (Qlt_le_dec x 0) as [Hx|Hx], (Qlt_le_dec y 0) as [Hy|Hy].
  - now apply Qceiling_resp_le.
  - transitivity 0%Z.
    + change 0%Z with (Qceiling 0). apply Qceiling_resp_le. lra.
    + change 0%Z with (Qfloor 0). now apply Qfloor_resp_le.
  - lra.
  - now apply Qfloor_resp_le.
Qed.

Lemma scale16_mono (x y : Q) : (x <= y)%Q -> (scale16 x <= scale16 y)%Q.
Proof.
  intros H. unfold scale16.
  destruct (Qlt_le_dec x 0), (Qlt_le_dec y 0); lra.
Qed.

Lemma clamp_mono (x y : Q) : (x <= y)%Q -> (clamp x <= clamp y)%Q.
Proof.
  intros H. unfold clamp. apply Q.max_le_compat_l, Q.min_le_compat_l, H.
Qed.

Lemma pcm16_mono (x y : Q) : (x <= y)%Q -> (pcm16 (Some x) <= pcm16 (Some y))%Z.
Proof.
  intros H. rewrite (proj1 (pcm16_Some x)), (proj1 (pcm16_Some y)).
  now apply trunc_mono, scale16_mono, clamp_mono.
Qed.

(** X11. The 16-bit value [bufferToWave] stores is monotone in the
    sample and saturates instead of wrapping: a larger sample never gets
    a smaller code, every sample at or above 1 gets 32767 and every
    sample at or below -1 gets -32768. *)
Theorem pcm16_monotone_saturating :
  (forall x y, (x <= y)%Q -> (pcm16 (Some x) <= pcm16 (Some y))%Z) /\
  (forall x, (1 <= x)%Q -> pcm16 (Some x) = 32767%Z) /\
  (forall x, (x <= - (1))%Q -> pcm16 (Some x) = (-32768)%Z).
Proof.
  split; [exact pcm16_mono|]. split; intros x Hx.
  - pose proof (pcm16_mono 1 x Hx) as H. change (pcm16 (Some 1%Q)) with 32767%Z in H.
    pose proof (proj2 (pcm16_Some x)). lia.
  - pose proof (pcm16_mono x (- (1)) Hx) as H.
    change (pcm16 (Some (- (1))%Q)) with (-32768)%Z in H.
    pose proof (proj2 (pcm16_Some x)). lia.
Qed.

(** X12. The 16-bit code [bufferToWave] stores is the scaled sample
    truncated towards zero.  With [c] the sample clamped to [-1, 1]: a
    negative [c] is scaled by 0x8000 = 32768 and its code lies in
    [c * 32768, c * 32768 + 1), at most 0; any other [c] is scaled by
    0x7FFF = 32767 and its code lies in (c * 32767 - 1, c * 32767], at
    least 0. *)
Theorem pcm16_truncates (x : Q) :
  let c := Qmax (- (1)) (Qmin 1 x) in
  let v := pcm16 (Some x) in
  ((c < 0)%Q ->
   (c * (32768 # 1) <= inject_Z v)%Q /\ (inject_Z v < c * (32768 # 1) + 1)%Q /\ (v <= 0)%Z) /\
  ((0 <= c)%Q ->
   (c * (32767 # 1) - 1 < inject_Z v)%Q /\ (inject_Z v <= c * (32767 # 1))%Q /\ (0 <= v)%Z).
Proof.
  intros c v. destruct (pcm16_explicit x) as (Hneg & Hpos & _). fold c v in Hneg, Hpos.
  split; intros Hc.
  - rewrite (Hneg Hc). set (z := (c * (32768 # 1))%Q).
    pose proof (Qle_ceiling z) as Hle. pose proof (Qceiling_lt z) as Hlt.
    unfold Zminus in Hlt. rewrite inject_Z_plus, inject_Z_opp in Hlt.
    change (inject_Z 1) with 1%Q in Hlt.
    split; [exact Hle|]. split; [lra|].
    change 0%Z with (Qceiling 0). apply Qceiling_resp_le. unfold z. lra.
  - rewrite (Hpos Hc). set (z := (c * (32767 # 1))%Q).
    pose proof (Qfloor_le z) as Hle. pose proof (Qlt_floor z) as Hlt.
    rewrite inject_Z_plus in Hlt. change (inject_Z 1) with 1%Q in Hlt.
    split; [lra|]. split; [exact Hle|].
    change 0%Z with (Qfloor 0). apply Qfloor_resp_le. unfold z. lra.
Qed.

(** ** sliceBuffer: a slice that runs past the end *)

(** A ratio of 1 or more reaches the end of the buffer. *)
Lemma floor_ratio_past_end (e : Q) (n : nat) :
  (1 <= e)%Q -> (Z.of_nat n < 2 ^ 53)%Z ->
  (Z.of_nat n <= Js.floor (Js.mul e (inject_Z (Z.of_nat n))))%Z.
Proof.
  intros He Hn. rewrite <- (floor_inject (Z.of_nat n)) at 1. apply floor_mono.
  apply Qle_trans with (Js.mul 1 (inject_Z (Z.of_nat n))).
  - apply Qle_lteq. right. symmetry. now apply mul_1_l_nat.
  - apply mul_mono_l; [apply inject_nat_nonneg | exact He].
Qed.

(** X13. When the end ratio is 1 or more and the start ratio is in
    [0, 1], [sliceBuffer] still allocates
    [Math.floor(e*N) - Math.floor(a*N)] frames (a count below 2^32, as
    the length of an [AudioBuffer] is): the first [N - Math.floor(a*N)]
    are the tail of the source and all the frames after them are
    silence.  The products are the double products of the source. *)
Theorem sliceBuffer_past_end (s : Store) (buffer : ref) (b : AudioBuffer) (a e : Q) :
  s !! buffer = Some b -> wf_buffer b -> (Z.of_nat (buf_length b) < 2 ^ 32)%Z ->
  (0 <= a)%Q -> (a <= 1)%Q -> (1 <= e)%Q ->
  let startFrame := Js.floor (Js.mul a (inject_Z (Z.of_nat (buf_length b)))) in
  let endFrame := Js.floor (Js.mul e (inject_Z (Z.of_nat (buf_length b)))) in
  (0 < endFrame - startFrame)%Z -> (endFrame - startFrame < 2 ^ 32)%Z ->
  exists nb,
    sliceBuffer buffer a e s = Ok (Some (length s)) (s ++ [nb]) /\
    Z.of_nat (buf_length nb) = (endFrame - startFrame)%Z /\
    numberOfChannels nb = numberOfChannels b /\
    forall c j, c < numberOfChannels b -> j < buf_length nb ->
      sample nb c j =
      if decide (Z.to_nat startFrame + j < buf_length b)
      then sample b c (Z.to_nat startFrame + j) else Some 0%Q.
Proof.
  intros Hb (Hch & Hlen & Hall & Hrate) H32 Ha Ha1 He startFrame endFrame Hpos _.
  assert (Hs : (0 <= startFrame <= Z.of_nat (buf_length b))%Z)
    by (apply floor_ratio_bounds; [assumption | assumption | lia]).
  assert (HeN : (Z.of_nat (buf_length b) <= endFrame)%Z)
    by (apply floor_ratio_past_end; [assumption | lia]).
  eexists. split; [apply (sliceBuffer_run s buffer b a e Hb Hch Hpos)|].
  fold startFrame endFrame. cbn [buf_length channelData].
  split; [lia|]. split; [unfold numberOfChannels; cbn [channelData]; apply length_map|].
  intros c j Hc Hj. unfold sample. cbn [channelData].
  change (map ?h ?l) with (h <$> l). rewrite list_lookup_fmap.
  destruct (lookup_lt_is_Some_2 (channelData b) c Hc) as [data Hdata].
  rewrite Hdata. cbn [fmap option_fmap option_map].
  rewrite Forall_forall in Hall.
  pose proof (Hall data (list_elem_of_lookup_2 _ _ _ Hdata)) as Hd.
  unfold copied_slice. cbv zeta.
  assert (Hsl : TypedArray.slice data startFrame endFrame = drop (Z.to_nat startFrame) data).
  { unfold TypedArray.slice, TypedArray.rel.
    destruct (Z.ltb_spec startFrame 0); [lia|]. destruct (Z.ltb_spec endFrame 0); [lia|].
    rewrite (Z.min_l startFrame), (Z.min_r endFrame) by lia.
    apply take_ge. rewrite length_drop. lia. }
  rewrite Hsl, length_drop.
  destruct (decide (Z.to_nat startFrame + j < buf_length b)) as [Hin|Hout].
  - rewrite lookup_app_l by (rewrite length_take, length_drop; lia).
    rewrite lookup_take_lt by lia. apply lookup_drop.
  - rewrite lookup_app_r by (rewrite length_take, length_drop; lia).
    rewrite length_take, length_drop, lookup_drop.
    apply lookup_replicate_2. lia.
Qed.

(** ** getProcessedWavBlob: the exported file *)

Lemma normalized_shape (b : AudioBuffer) :
  buf_length (normalized b) = buf_length b /\
  numberOfChannels (normalized b) = numberOfChannels b /\
  sampleRate (normalized b) = sampleRate b.
Proof.
  unfold normalized, numberOfChannels. cbv zeta.
  destruct (Qlt_le_dec 0 (scanPeak (channelData b))); cbn [buf_length channelData sampleRate];
    rewrite ?length_map; auto.
Qed.

(** After the normalising step no sample exceeds 0.98 in magnitude. *)
Lemma normalized_bounded (b : AudioBuffer) (c i : nat) (y : Q) :
  sample (normalized b) c i = Some y -> (Qabs y <= 98 # 100)%Q.
Proof.
  destruct (scanPeak_max b) as (Hnonneg & Hub & _).
  unfold normalized. cbv zeta.
  destruct (Qlt_le_dec 0 (scanPeak (channelData b))) as [Hpos|Hzero].
  - unfold sample. cbn [channelData].
    change (map (map ?f) ?l) with (map f <$> l). rewrite list_lookup_fmap.
    destruct (channelData b !! c) as [data|] eqn:Hdata;
      cbn [fmap option_fmap option_map]; [|discriminate].
    change (map ?f data) with (f <$> data). rewrite list_lookup_fmap.
    destruct (data !! i) as [x|] eqn:Hx; cbn [fmap option_fmap option_map]; [|discriminate].
    intros [= <-].
    assert (Hxs : sample b c i = Some x) by (unfold sample; now rewrite Hdata).
    specialize (Hub c i x Hxs).
    rewrite Qabs_Qmult.
    assert (Hf : (0 < (98 # 100) / scanPeak (channelData b))%Q)
      by (apply Qlt_shift_div_l; lra).
    rewrite (Qabs_pos ((98 # 100) / scanPeak (channelData b))) by lra.
    apply Qle_trans with (scanPeak (channelData b) * ((98 # 100) / scanPeak (channelData b)))%Q.
    + apply Qmult_le_compat_r; [exact Hub | lra].
    + apply Qle_lteq. right. field. lra.
  - intros Hy. specialize (Hub c i y Hy). lra.
Qed.

Lemma pcm16_headroom (x : option Q) :
  (forall y, x = Some y -> (Qabs y <= 98 # 100)%Q) ->
  (-32112 <= pcm16 x <= 32111)%Z.
Proof.
  intros H. destruct x as [y|]; [|cbn; lia].
  specialize (H y eq_refl). apply Qabs_Qle_condition in H. destruct H as [Hlo Hhi].
  pose proof (pcm16_mono _ _ Hlo) as H1. pose proof (pcm16_mono _ _ Hhi) as H2.
  change (pcm16 (Some (- (98 # 100))%Q)) with (-32112)%Z in H1.
  change (pcm16 (Some (98 # 100)%Q)) with 32111%Z in H2. lia.
Qed.

Section ExportBounds.

Variable render : Graph -> list (list Q) -> nat -> nat -> Q.

(** X14. With a buffer loaded and the ten band filters in place,
    [getProcessedWavBlob] returns a WAV blob of the full length of the
    buffer, leaves every existing buffer as it is (the render is a new
    buffer), and never clips: whatever the render produces, every 16-bit
    value in the file lies between -32112 and 32111. *)
Theorem export_never_clips (s : Store) (originalBuffer : ref) (b : AudioBuffer)
    (currentGains : list Q) (masterGain : option Q) :
  s !! originalBuffer = Some b -> wf_buffer b -> length eqBands <= length currentGains ->
  exists blob rendered,
    getProcessedWavBlob render (Some originalBuffer) currentGains masterGain s =
    Ok (Some blob) (s ++ [rendered]) /\
    blob_type blob = "audio/wav"%string /\
    length (blob_bytes blob) = 44 + buf_length b * numberOfChannels b * 2 /\
    forall i ch, i < buf_length b -> ch < numberOfChannels b ->
      exists v,
        take 2 (drop (44 + 2 * (i * numberOfChannels b + ch)) (blob_bytes blob)) =
        DataView.int16_bytes v /\
        (-32112 <= v <= 32111)%Z.
Proof.
  intros Hb (Hch & Hlen & Hall & Hrate) Hgains.
  destruct (getProcessedWavBlob_run render s originalBuffer b currentGains masterGain
              Hb Hgains) as (blob & Hwave & Hrun).
  set (rendered := mkAudioBuffer (sampleRate b) (buf_length b)
         (map (fun c => map (render (export_graph currentGains masterGain) (channelData b) c)
                            (seq 0 (buf_length b)))
              (seq 0 (numberOfChannels b)))) in *.
  destruct (normalized_shape rendered) as (Hl & Hn & _).
  assert (Hn' : numberOfChannels (normalized rendered) = numberOfChannels b).
  { rewrite Hn. unfold rendered, numberOfChannels. cbn [channelData].
    now rewrite length_map, length_seq. }
  assert (Hl' : buf_length (normalized rendered) = buf_length b) by exact Hl.
  assert (Hlast : (s ++ [normalized rendered]) !! length s = Some (normalized rendered))
    by now rewrite lookup_app_r, Nat.sub_diag by lia.
  rewrite (bufferToWave_run _ _ _ _ Hlast) in Hwave.
  assert (Hframes : match buf_length (normalized rendered) with
                    | S n => S n | 0 => buf_length (normalized rendered) end = buf_length b)
    by (rewrite Hl'; destruct (buf_length b); reflexivity).
  cbv zeta in Hwave. cbn match in Hwave. rewrite Hframes, Hn' in Hwave.
  injection Hwave as <-.
  exists (mkBlob (wav_header (numberOfChannels b) (sampleRate (normalized rendered))
                    (buf_length b * numberOfChannels b * 2) ++
                  flat_map DataView.int16_bytes
                    (wav_pcm (channelData (normalized rendered)) (numberOfChannels b)
                       (buf_length b))) "audio/wav"), (normalized rendered).
  split; [exact Hrun|]. split; [reflexivity|]. cbn [blob_bytes].
  split.
  - rewrite length_app, length_wav_header, length_int16_bytes, length_wav_pcm. lia.
  - intros i ch Hi Hc.
    exists (pcm16 (sample (normalized rendered) ch i)). split.
    + rewrite <- drop_drop, drop_app_length'
        by (rewrite length_wav_header; reflexivity).
      apply int16_bytes_at. apply (wav_pcm_lookup _ _ _ _ _ Hi Hc).
    + apply pcm16_headroom. intros y Hy. eapply normalized_bounded; eauto.
Qed.

End ExportBounds.

(** ** trimAudio and applyDirectEffect *)




Section DirectProperties.

Variable render : Graph -> list (list Q) -> nat -> nat -> Q.


End DirectProperties.

(** ** The effect panel and its knobs *)

(** [initEqualizer] works on the graph, the filter bank and the master
    gain only. *)
Lemma initEqualizer_panel (p : Player) :
  activeRegion (initEqualizer p) = activeRegion p /\
  currentEffectType (initEqualizer p) = currentEffectType p /\
  effectParams (initEqualizer p) = effectParams p /\
  previewEffectNode (initEqualizer p) = previewEffectNode p /\
  delayNode (initEqualizer p) = delayNode p /\
  previewGainNode (initEqualizer p) = previewGainNode p /\
  activations (initEqualizer p) = activations p.
Proof.
  unfold initEqualizer. destruct (mediaElement p); [|repeat split]. cbv zeta.
  destruct (match (if truthy_type (currentEffectType p) then previewGainNode p else None)
            with Some _ => _ | None => _ end) as [g chainStart].
  destruct (fold_left _ _ (g, chainStart)) as [g' currentNode].
  repeat split.
Qed.

Lemma previewing_initEqualizer (region : Region) (type : string) (p : Player) :
  previewing region type p -> previewing region type (initEqualizer p).
Proof.
  unfold previewing.
  destruct (initEqualizer_panel p) as (-> & -> & -> & -> & -> & -> & _). auto.
Qed.

Lemma knob_value_bounds (x : Q) : (0 <= Qmax 0 (Qmin 1 x))%Q /\ (Qmax 0 (Qmin 1 x) <= 1)%Q.
Proof.
  split; [apply Q.le_max_l|].
  apply Q.max_lub; [discriminate | apply Q.le_min_l].
Qed.

Lemma offline_effect_cases (type : string) :
  offline_effect type ->
  type = "distortion"%string \/ type = "delay"%string \/ type = "bitcrush"%string.
Proof.
  unfold offline_effect. cbn [existsb]. intros H.
  destruct (String.eqb_spec type "distortion"); [auto|].
  destruct (String.eqb_spec type "delay"); [auto|].
  destruct (String.eqb_spec type "bitcrush"); [auto|]. discriminate.
Qed.

(** Turning a knob to a value in [0, 1] keeps the panel as it is
    described. *)
Lemma previewing_updateEffectParam (region : Region) (type : string) (p : Player)
    (knobIndex : Z) (val : Q) :
  offline_effect type -> (0 <= val)%Q -> (val <= 1)%Q ->
  previewing region type p -> previewing region type (updateEffectParam knobIndex val p).
Proof.
  intros Htype H0 H1 (Hreg & Hty & Hvol & Hdist & Hdelay & Hcrush).
  unfold updateEffectParam. cbv zeta. rewrite Hty. unfold is_type.
  destruct (offline_effect_cases type Htype) as [->|[->| ->]];
    cbn [String.eqb Ascii.eqb Bool.eqb].
  - destruct (knobIndex =? 1)%Z; [|repeat split; assumption].
    destruct (Hdist eq_refl) as (id & a & Hnode & _).
    cbn [previewEffectNode set_effectParams]. rewrite Hnode.
    unfold previewing. cbn [activeRegion currentEffectType previewGainNode effectParams
      previewEffectNode delayNode set_previewEffectNode set_effectParams set_amount
      amount time feedback bits normFreq volume].
    repeat split; try assumption; try discriminate.
    intros _. exists id, (val * (400 # 1))%Q. repeat split; lra.
  - destruct (Hdelay eq_refl) as (id & t & f & Hnode & Ht & Hf & Hb).
    destruct (knobIndex =? 1)%Z; [|destruct (knobIndex =? 2)%Z].
    + cbn [delayNode set_effectParams]. rewrite Hnode.
      unfold previewing. cbn [activeRegion currentEffectType previewGainNode effectParams
        previewEffectNode delayNode set_delayNode set_effectParams set_time
        amount time feedback bits normFreq volume].
      repeat split; try assumption; try discriminate.
      intros _. exists id, ((1 # 100) + val * (99 # 100))%Q, f.
      repeat split; try assumption; lra.
    + cbn [delayNode set_effectParams]. rewrite Hnode.
      unfold previewing. cbn [activeRegion currentEffectType previewGainNode effectParams
        previewEffectNode delayNode set_delayNode set_effectParams set_feedback
        amount time feedback bits normFreq volume].
      repeat split; try assumption; try discriminate.
      intros _. exists id, t, (val * (9 # 10))%Q.
      repeat split; try assumption; lra.
    + repeat split; assumption.
  - destruct (Hcrush eq_refl) as (id & n & nf & Hnode & Hn & Hnf & Hb).
    destruct (knobIndex =? 1)%Z; [|destruct (knobIndex =? 2)%Z].
    + unfold previewing. cbn [activeRegion currentEffectType previewGainNode effectParams
        previewEffectNode delayNode set_effectParams set_bits
        amount time feedback bits normFreq volume].
      repeat split; try assumption; try discriminate.
      intros _. exists id, (1 + Js.floor (Js.mul val (15 # 1)))%Z, nf.
      repeat split; try assumption; try tauto.
      * assert (0 <= Js.floor (Js.mul val (15 # 1)))%Z; [|lia].
        change 0%Z with (Js.floor 0). apply floor_mono.
        apply Qle_trans with (Js.mul 0 (15 # 1)); [vm_compute; discriminate|].
        apply mul_mono_l; [discriminate | exact H0].
      * assert (Js.floor (Js.mul val (15 # 1)) <= 15)%Z; [|lia].
        apply Z.le_trans with (Js.floor (15 # 1)); [apply floor_mono | discriminate].
        apply Qle_trans with (Js.mul 1 (15 # 1)); [|vm_compute; discriminate].
        apply mul_mono_l; [discriminate | exact H1].
    + unfold previewing. cbn [activeRegion currentEffectType previewGainNode effectParams
        previewEffectNode delayNode set_effectParams set_normFreq
        amount time feedback bits normFreq volume].
      repeat split; try assumption; try discriminate.
      intros _. exists id, n, ((1 # 100) + val * (99 # 100))%Q.
      repeat split; try assumption; try tauto; lra.
    + repeat split; assumption.
Qed.

Lemma closeEffectPanel_params (p : Player) :
  effectParams (closeEffectPanel p) = effectParams p.
Proof.
  unfold closeEffectPanel. cbv zeta.
  now rewrite (proj1 (proj2 (proj2 (initEqualizer_panel _)))).
Qed.

Lemma previewing_activate (region : Region) (type : string) (p : Player) :
  offline_effect type -> previewing region type (activateRealTimePreview region type p).
Proof.
  intros Htype. unfold activateRealTimePreview. cbv zeta.
  set (p1 := closeEffectPanel p).
  assert (Hhalf : (0 <= 1 # 2)%Q /\ (1 # 2 <= 1)%Q) by (split; discriminate).
  destruct (offline_effect_cases type Htype) as [->|[->| ->]];
    cbn [String.eqb Ascii.eqb Bool.eqb negb];
    apply previewing_initEqualizer;
    repeat (apply previewing_updateEffectParam;
            [exact Htype | discriminate | discriminate |]);
    unfold previewing;
    cbn [activeRegion currentEffectType previewGainNode effectParams previewEffectNode
         delayNode set_activations set_activeRegion set_currentEffectType
         set_previewGainNode set_previewEffectNode set_delayNode set_effectParams
         set_volume set_amount set_time set_feedback set_bits set_normFreq
         amount time feedback bits normFreq volume];
    (split; [reflexivity|]); (split; [reflexivity|]);
    (split; [exists (activations p1), (8 # 10)%Q; repeat split; discriminate|]);
    repeat split; try discriminate; intros _.
  - exists (activations p1), (50 # 1)%Q. repeat split; discriminate.
  - exists (activations p1), (25 # 100)%Q, (4 # 10)%Q. repeat split; discriminate.
  - exists (activations p1), 8%Z, (1 # 10)%Q. repeat split; discriminate.
Qed.

Lemma previewing_onMouseMove (region : Region) (type : string) (p : Player) (m : MouseMove) :
  offline_effect type -> previewing region type p ->
  previewing region type
    (onMouseMove (move_knob m) (move_startVal m) (move_startY m) (move_clientY m) p).
Proof.
  intros Htype Hp. unfold onMouseMove. cbv zeta.
  set (x := (move_startVal m + (move_startY m - move_clientY m) * (5 # 1000))%Q).
  destruct (knob_value_bounds x) as [H0 H1].
  assert (Htruthy : truthy_type (currentEffectType p) = true).
  { destruct Hp as (_ & -> & _).
    destruct (offline_effect_cases type Htype) as [->|[->| ->]]; reflexivity. }
  unfold onInput. rewrite Htruthy.
  destruct (move_knob m); try (now apply previewing_updateEffectParam).
  destruct Hp as (Hreg & Hty & (id & v & Hgain & Hvol) & Hdist & Hdelay & Hcrush).
  rewrite Hgain. unfold previewing.
  cbn [activeRegion currentEffectType previewGainNode effectParams previewEffectNode
       delayNode set_previewGainNode set_effectParams set_volume
       amount time feedback bits normFreq volume].
  repeat split; try assumption.
  exists id, (Qmax 0 (Qmin 1 x)). repeat split; assumption.
Qed.

Lemma previewing_mouseMoves (region : Region) (type : string) (moves : list MouseMove)
    (p : Player) :
  offline_effect type -> previewing region type p ->
  previewing region type (mouseMoves moves p).
Proof.
  intros Htype. unfold mouseMoves. revert p.
  induction moves as [|m moves IH]; intros p Hp; [exact Hp|].
  cbn [fold_left]. apply IH. now apply previewing_onMouseMove.
Qed.

(** X17. Once [activateRealTimePreview] has opened the panel on one of
    the three effects, no sequence of knob drags (any knob, any pointer
    position) takes the params object out of range: the volume stays in
    [0, 1], the drive in [0, 400], the delay time in [0.01, 1] and the
    feedback in [0, 0.9], the bit depth in 1..16 and the rate factor in
    [0.01, 1]; the panel stays on its region and effect. *)
Theorem knobs_keep_params_in_range (p0 : Player) (region : Region) (type : string)
    (moves : list MouseMove) :
  offline_effect type ->
  let p := mouseMoves moves (activateRealTimePreview region type p0) in
  activeRegion p = Some region /\
  currentEffectType p = Some type /\
  (exists v, volume (effectParams p) = Some v /\ (0 <= v)%Q /\ (v <= 1)%Q) /\
  (type = "distortion"%string ->
   exists a, amount (effectParams p) = Some a /\ (0 <= a)%Q /\ (a <= 400 # 1)%Q) /\
  (type = "delay"%string ->
   exists t f, time (effectParams p) = Some t /\ feedback (effectParams p) = Some f /\
               (1 # 100 <= t)%Q /\ (t <= 1)%Q /\ (0 <= f)%Q /\ (f <= 9 # 10)%Q) /\
  (type = "bitcrush"%string ->
   exists n nf, bits (effectParams p) = Some n /\ normFreq (effectParams p) = Some nf /\
                (1 <= n <= 16)%Z /\ (1 # 100 <= nf)%Q /\ (nf <= 1)%Q).
Proof.
  intros Htype p.
  destruct (previewing_mouseMoves region type moves _ Htype
              (previewing_activate region type p0 Htype))
    as (Hreg & Hty & (id & v & _ & Hvol) & Hdist & Hdelay & Hcrush).
  fold p in Hreg, Hty, Hvol, Hdist, Hdelay, Hcrush.
  split; [exact Hreg|]. split; [exact Hty|]. split; [now exists v|].
  split; [|split].
  - intros E. destruct (Hdist E) as (_ & a & _ & H). now exists a.
  - intros E. destruct (Hdelay E) as (_ & t & f & _ & H). now exists t, f.
  - intros E. destruct (Hcrush E) as (_ & n & nf & _ & H). now exists n, nf.
Qed.

(** X18. What a freeze renders is what the panel previews.  After
    [activateRealTimePreview] and any knob drags: the gain of the preview
    gain node is the [volume] the freeze multiplies by; the curve of the
    live wave shaper is the curve of the offline one; the offline delay
    has the delay time of the live delay node, and the feedback gain of
    the live feedback node unless that is 0, when the offline one is 0.5;
    and the offline bitcrusher runs with the very [bits] and [normFreq]
    of the params object, which the live script processor reads, with a
    step size of at least one frame. *)
Theorem freeze_renders_the_preview (p0 : Player) (region : Region) (type : string)
    (moves : list MouseMove) :
  offline_effect type ->
  let p := mouseMoves moves (activateRealTimePreview region type p0) in
  let params := effectParams p in
  (exists id vol, previewGainNode p = Some (id, vol) /\ volume params = Some vol) /\
  (type = "distortion"%string ->
   exists id curve,
     previewEffectNode p = Some (id, PreviewShaper curve) /\
     build_graph type params =
     [(BufferSource, WaveShaper curve "4x"); (WaveShaper curve "4x", Destination)]) /\
  (type = "delay"%string ->
   exists id t f,
     delayNode p = Some (id, t, f) /\
     let delay := DelayNode t in
     let feedback := GainNode (if Qeq_bool f 0 then 1 # 2 else f) in
     build_graph type params =
     [(BufferSource, Destination); (BufferSource, delay); (delay, feedback);
      (feedback, delay); (delay, Destination)]) /\
  (type = "bitcrush"%string ->
   exists id n nf,
     previewEffectNode p = Some (id, PreviewCrusher) /\
     bits params = Some n /\ normFreq params = Some nf /\
     (1 <= Js.floor (Js.div 1 nf))%Z /\
     forall len rendered,
       processed_channels type params len rendered =
       map (bitcrush_channel len (1 / Js.pow2 n) (1 / (1 / Js.pow2 n))
              (Some (Js.floor (Js.div 1 nf)))) rendered).
Proof.
  intros Htype p params.
  destruct (previewing_mouseMoves region type moves _ Htype
              (previewing_activate region type p0 Htype))
    as (Hreg & Hty & (id & v & Hgain & Hvol & _) & Hdist & Hdelay & Hcrush).
  fold p in Hreg, Hty, Hgain, Hvol, Hdist, Hdelay, Hcrush.
  split; [now exists id, v|]. split; [|split].
  - intros ->. destruct (Hdist eq_refl) as (i & a & Hnode & Ha & _).
    exists i, (makeDistortionCurve (Some a)). split; [exact Hnode|].
    unfold build_graph, params. cbn [String.eqb Ascii.eqb Bool.eqb]. now rewrite Ha.
  - intros ->. destruct (Hdelay eq_refl) as (i & t & f & Hnode & Ht & Hf & Ht0 & _).
    exists i, t, f. split; [exact Hnode|].
    unfold build_graph, params, Js.or. cbn [String.eqb Ascii.eqb Bool.eqb].
    rewrite Ht, Hf. cbv zeta.
    destruct (Qeq_bool t 0) eqn:E; [apply Qeq_bool_eq in E; lra | reflexivity].
  - intros ->. destruct (Hcrush eq_refl) as (i & n & nf & Hnode & Hn & Hnf & Hb & Hlo & Hhi).
    exists i, n, nf.
    assert (Hnormal : (Js.pow2 (-1022) <= nf)%Q)
      by (apply Qle_trans with (1 # 100)%Q; [vm_compute; discriminate | exact Hlo]).
    destruct (stepSize_ge_1 nf Hnormal Hhi) as [Hstep Hm].
    repeat split; try assumption.
    intros len rendered. unfold processed_channels, params, Js.orZ, Js.or.
    cbn [String.eqb Ascii.eqb Bool.eqb]. rewrite Hn, Hnf.
    destruct (Z.eqb_spec n 0); [lia|].
    destruct (Qeq_bool nf 0) eqn:E; [apply Qeq_bool_eq in E; lra|].
    now rewrite Hstep.
Qed.

(** ** The script processor of the bitcrush preview *)

(** The preview loop and the offline loop, side by side, after [k]
    frames: the outputs agree below [k], the offline array still holds
    the input from [k] on, and the offline [lastSample] is the preview's
    [out[k - 1]]. *)
Lemma preview_simulates_offline (bits : Z) (stepSize : option Z) (inp out : list Q)
    (k : nat) :
  length out = length inp -> k <= length inp ->
  let step := (1 / Js.pow2 bits)%Q in
  let o := fold_left (fun out i =>
               let v := if on_step i stepSize then
                          match TypedArray.get inp i with
                          | Some x => Some (inject_Z (Js.round (x / step)) * step)%Q
                          | None => None
                          end
                        else if (0 <? i)%Z then TypedArray.get out (i - 1)
                        else Some 0%Q in
               match v with
               | Some v => TypedArray.put out i v
               | None => out
               end) (seqZ 0 (Z.of_nat k)) out in
  let st := fold_left (bitcrush_step step (1 / step) stepSize) (seqZ 0 (Z.of_nat k))
              (inp, 0%Q) in
  length o = length inp /\
  (forall i, i < k -> o !! i = fst st !! i) /\
  (forall i, k <= i -> fst st !! i = inp !! i) /\
  match k with
  | 0 => snd st = 0%Q
  | S k' => o !! k' = Some (snd st)
  end.
Proof.
  intros Hlen. cbv zeta. induction k as [|k IH]; intros Hk.
  - cbn. repeat split; [exact Hlen | intros; lia].
  - specialize (IH ltac:(lia)). destruct IH as (Hlo & Hlow & Hhigh & Hlast).
    rewrite !seqZ_S, !fold_left_app. cbn [fold_left].
    pose proof (length_bitcrush_fold (1 / Js.pow2 bits) (1 / (1 / Js.pow2 bits)) stepSize
                  (seqZ 0 (Z.of_nat k)) (inp, 0%Q)) as Hld. cbn [fst] in Hld.
    set (o := fold_left _ (seqZ 0 (Z.of_nat k)) out) in *.
    destruct (fold_left (bitcrush_step _ _ _) (seqZ 0 (Z.of_nat k)) (inp, 0%Q)) as [d last].
    cbn [fst snd] in *.
    destruct (lookup_lt_is_Some_2 inp k ltac:(lia)) as [x Hx].
    assert (Hgi : TypedArray.get inp (0 + Z.of_nat k) = Some x).
    { unfold TypedArray.get. rewrite Z.add_0_l.
      destruct (Z.ltb_spec (Z.of_nat k) 0); [lia|]. now rewrite Nat2Z.id. }
    assert (Hgd : TypedArray.get d (0 + Z.of_nat k) = Some x).
    { unfold TypedArray.get. rewrite Z.add_0_l.
      destruct (Z.ltb_spec (Z.of_nat k) 0); [lia|].
      now rewrite Nat2Z.id, (Hhigh k (le_n _)). }
    assert (Hprev : (if (0 <? 0 + Z.of_nat k)%Z
                     then TypedArray.get o (0 + Z.of_nat k - 1) else Some 0%Q) = Some last).
    { destruct k as [|k'].
      - cbn. now rewrite Hlast.
      - destruct (Z.ltb_spec 0 (0 + Z.of_nat (S k'))); [|lia].
        unfold TypedArray.get.
        destruct (Z.ltb_spec (0 + Z.of_nat (S k') - 1) 0); [lia|].
        replace (Z.to_nat (0 + Z.of_nat (S k') - 1)) with k' by lia. exact Hlast. }
    assert (Hq : (inject_Z (Js.round (x / (1 / Js.pow2 bits))) * (1 / Js.pow2 bits))%Q =
                 quantized (1 / Js.pow2 bits) (1 / (1 / Js.pow2 bits)) x).
    { unfold quantized. f_equal. f_equal. apply round_comp.
      unfold Qdiv. ring. }
    unfold bitcrush_step. rewrite Hgi, Hgd, Hprev, Hq.
    set (v := if on_step (0 + Z.of_nat k) stepSize
              then quantized (1 / Js.pow2 bits) (1 / (1 / Js.pow2 bits)) x else last).
    assert (Ev : (if on_step (0 + Z.of_nat k) stepSize
                  then Some (quantized (1 / Js.pow2 bits) (1 / (1 / Js.pow2 bits)) x)
                  else Some last) = Some v)
      by (unfold v; destruct (on_step _ _); reflexivity).
    rewrite Ev. cbn [fst snd]. unfold TypedArray.put. rewrite Z.add_0_l.
    destruct (Z.ltb_spec (Z.of_nat k) 0); [lia|]. rewrite Nat2Z.id.
    split; [now rewrite length_insert|]. split; [|split].
    + intros i Hi. destruct (Nat.eq_dec i k) as [->|Hne].
      * now rewrite !list_lookup_insert_eq by lia.
      * rewrite !list_lookup_insert_ne by lia. apply Hlow. lia.
    + intros i Hi. rewrite list_lookup_insert_ne by lia. apply Hhigh. lia.
    + now rewrite list_lookup_insert_eq by lia.
Qed.

(** X19. On a block of [bs] frames the script processor of the bitcrush
    preview computes exactly what [applyMathBitcrush] computes offline
    on the same frames with the same [bits] and [normFreq], whatever
    these are and whatever the output block held before. *)
Theorem preview_block_is_offline_crush (bs : nat) (bits : Z) (normFreq : Q)
    (inp out : list Q) :
  length inp = bs -> length out = bs ->
  onaudioprocess bs bits normFreq inp out =
  bitcrush_channel bs (1 / Js.pow2 bits) (1 / (1 / Js.pow2 bits)) (stepSize_of normFreq) inp.
Proof.
  intros Hi Ho. subst bs.
  destruct (preview_simulates_offline bits (stepSize_of normFreq) inp out (length inp)
              Ho (le_n _)) as (Hlen & Hlow & _).
  unfold onaudioprocess, bitcrush_channel, TypedArray.indices. cbv zeta.
  rewrite Z.sub_0_r. apply list_eq. intros i.
  destruct (decide (i < length inp)) as [Hlt|Hge]; [now apply Hlow|].
  rewrite !lookup_ge_None_2; [reflexivity | |].
  - rewrite length_bitcrush_fold. cbn [fst]. lia.
  - cbv zeta in Hlen. rewrite Hlen. lia.
Qed.

(** ** The live graph *)

Lemma elem_connect (a b : Live.Node) (g : list (Live.Node * Live.Node))
    (e : Live.Node * Live.Node) :
  e ∈ Live.connect a b g <-> e = (a, b) \/ e ∈ g.
Proof.
  unfold Live.connect. destruct (decide ((a, b) ∈ g)) as [Hin|Hout].
  - split; [auto | intros [->|H]; assumption].
  - rewrite elem_of_app, list_elem_of_singleton. tauto.
Qed.

Lemma elem_disconnect (a : Live.Node) (g : list (Live.Node * Live.Node))
    (e : Live.Node * Live.Node) :
  e ∈ Live.disconnect a g <-> e.1 <> a /\ e ∈ g.
Proof. unfold Live.disconnect. now rewrite list_elem_of_filter. Qed.

Lemma elem_disconnect_if {A} (node : option A) (a : A -> Live.Node)
    (g : list (Live.Node * Live.Node)) (e : Live.Node * Live.Node) :
  e ∈ Live.disconnect_if node a g <-> (forall n, node = Some n -> e.1 <> a n) /\ e ∈ g.
Proof.
  destruct node as [n|]; cbn [Live.disconnect_if].
  - rewrite elem_disconnect. split.
    + intros [H1 H2]. split; [now intros ? [= <-] | assumption].
    + intros [H1 H2]. split; [now apply H1 | assumption].
  - split; [intros H; split; [discriminate | assumption] | tauto].
Qed.

Lemma elem_disconnect_bands (n : nat) (g : list (Live.Node * Live.Node))
    (e : Live.Node * Live.Node) :
  e ∈ fold_left (fun g i => Live.disconnect (Live.Band i) g) (seq 0 n) g <->
  (forall i, i < n -> e.1 <> Live.Band i) /\ e ∈ g.
Proof.
  induction n as [|n IH].
  - cbn. split; [intros H; split; [intros; lia | assumption] | tauto].
  - rewrite seq_S, fold_left_app. cbn [fold_left]. rewrite elem_disconnect, IH.
    split.
    + intros (Hn & Hlt & Hg). split; [|assumption].
      intros i Hi. destruct (decide (i = n)) as [->|]; [assumption | apply Hlt; lia].
    + intros (Hlt & Hg). repeat split; [apply Hlt; lia | intros; apply Hlt; lia | assumption].
Qed.

(** The loop that puts the filters in series after [start]. *)
Lemma chain_fold (n : nat) (g : list (Live.Node * Live.Node)) (start : Live.Node) :
  let r := fold_left (fun '(g, currentNode) i =>
                        (Live.connect currentNode (Live.Band i) g, Live.Band i))
                     (seq 0 n) (g, start) in
  r.2 = match n with 0 => start | S m => Live.Band m end /\
  forall e, e ∈ r.1 <->
            e ∈ g \/ (0 < n /\ e = (start, Live.Band 0)) \/
            exists i, S i < n /\ e = (Live.Band i, Live.Band (S i)).
Proof.
  cbv zeta. induction n as [|n IH].
  - cbn. split; [reflexivity|]. intros e. split; [auto|].
    intros [H|[[H _]|(i & H & _)]]; [assumption | lia | lia].
  - rewrite seq_S, fold_left_app. cbn [fold_left].
    destruct (fold_left _ (seq 0 n) (g, start)) as [g' cur]. cbn [fst snd] in *.
    destruct IH as [Hcur Hg']. split; [reflexivity|].
    intros e. rewrite elem_connect, Hg'. subst cur. split.
    + intros [->|[H|[[H ->]|(i & H & ->)]]]; [|auto | right; left; split; [lia | reflexivity]|].
      * destruct n as [|m]; [right; left; split; [lia | reflexivity]|].
        right; right. exists m. split; [lia | reflexivity].
      * right; right. exists i. split; [lia | reflexivity].
    + intros [H|[[H ->]|(i & H & ->)]]; [auto | |].
      * destruct n as [|m]; [now left|]. right; right; left. split; [lia | reflexivity].
      * destruct (decide (S i = n)) as [<-|Hne]; [now left|].
        right; right; right. exists i. split; [lia | reflexivity].
Qed.

Lemma length_createFilters (sliders : list Q) : length (createFilters sliders) = 10.
Proof. unfold createFilters. now rewrite length_imap. Qed.

Lemma route_elem (p : Player) (g : list (Live.Node * Live.Node))
    (e : Live.Node * Live.Node) :
  e ∈ route p g <-> e ∈ route p [] \/ e ∈ g.
Proof.
  unfold route.
  destruct (if is_type (currentEffectType p) "distortion" ||
               is_type (currentEffectType p) "bitcrush"
            then previewEffectNode p else None) as [[id k]|].
  - rewrite !elem_connect, elem_of_nil. tauto.
  - destruct (if is_type (currentEffectType p) "delay" then delayNode p else None)
      as [[[id t] f]|]; cbv zeta; rewrite !elem_connect, elem_of_nil; tauto.
Qed.

(** The connections [route] makes leave the media node or a preview
    node the player still holds. *)
Lemma route_sources (p : Player) (e : Live.Node * Live.Node) :
  e ∈ route p [] ->
  e = (Live.Media, Live.EqInput) \/
  (exists id k, previewEffectNode p = Some (id, k) /\
                (e = (Live.Media, Live.Effect id) \/ e = (Live.Effect id, Live.EqInput))) \/
  (exists id t f, delayNode p = Some (id, t, f) /\
                  (e = (Live.Media, Live.Delay id) \/
                   e = (Live.Delay id, Live.Feedback id) \/
                   e = (Live.Feedback id, Live.Delay id) \/
                   e = (Live.Delay id, Live.EqInput))).
Proof.
  unfold route.
  destruct (is_type (currentEffectType p) "distortion" ||
            is_type (currentEffectType p) "bitcrush").
  - destruct (previewEffectNode p) as [[id k]|] eqn:E.
    + rewrite !elem_connect, elem_of_nil. intros [->|[->|[]]]; right; left; eauto.
    + destruct (if is_type (currentEffectType p) "delay" then delayNode p else None)
        as [[[id t] f]|] eqn:E2; cbv zeta; rewrite !elem_connect, elem_of_nil.
      * destruct (is_type (currentEffectType p) "delay"); [|discriminate].
        intros [->|[->|[->|[->|[->|[]]]]]]; eauto 10.
      * intros [->|[]]. auto.
  - destruct (if is_type (currentEffectType p) "delay" then delayNode p else None)
      as [[[id t] f]|] eqn:E2; cbv zeta; rewrite !elem_connect, elem_of_nil.
    + destruct (is_type (currentEffectType p) "delay"); [|discriminate].
      intros [->|[->|[->|[->|[->|[]]]]]]; eauto 10.
    + intros [->|[]]. auto.
Qed.

(** What [initEqualizer] leaves of the graph: the chain it has just
    made, and the old connections of the nodes it has not disconnected
    (the nodes the player holds are all disconnected). *)
Lemma initEqualizer_connections (p : Player) :
  mediaElement p = true ->
  let q := initEqualizer p in
  let n := length (filters q) in
  let gain := if truthy_type (currentEffectType p) then previewGainNode p else None in
  let start := match gain with
               | Some (id, _) => Live.Gain id
               | None => Live.EqInput
               end in
  0 < n /\
  n = (if (length (filters p) =? 0)%nat then 10 else length (filters p)) /\
  forall e, e ∈ connections q <->
    e = (Live.Master, Live.Analyser) \/ e = (Live.Master, Live.Output) \/
    e = (Live.Band (n - 1), Live.Master) \/
    e = (start, Live.Band 0) \/
    (exists i, S i < n /\ e = (Live.Band i, Live.Band (S i))) \/
    (exists id v, gain = Some (id, v) /\ e = (Live.EqInput, Live.Gain id)) \/
    e ∈ route p [] \/
    (e ∈ connections p /\
     e.1 <> Live.Media /\ e.1 <> Live.EqInput /\ e.1 <> Live.Master /\
     (forall i, i < n -> e.1 <> Live.Band i) /\
     (forall id k, previewEffectNode p = Some (id, k) -> e.1 <> Live.Effect id) /\
     (forall id t f, delayNode p = Some (id, t, f) ->
        e.1 <> Live.Delay id /\ e.1 <> Live.Feedback id) /\
     (forall id v, previewGainNode p = Some (id, v) -> e.1 <> Live.Gain id)).
Proof.
  intros Hmedia. unfold initEqualizer. rewrite Hmedia. cbv zeta.
  set (fs := if (length (filters p) =? 0)%nat then createFilters (slider_eq p) else filters p).
  set (g0 := Live.disconnect Live.Master _).
  set (gain := if truthy_type (currentEffectType p) then previewGainNode p else None).
  assert (Hn : length fs = if (length (filters p) =? 0)%nat then 10 else length (filters p)).
  { unfold fs. destruct (Nat.eqb_spec (length (filters p)) 0);
      [apply length_createFilters | reflexivity]. }
  assert (Hpos : 0 < length fs).
  { rewrite Hn. destruct (Nat.eqb_spec (length (filters p)) 0); lia. }
  assert (Hg0 : forall e, e ∈ g0 <->
            (e = (Live.Master, Live.Analyser) \/ e ∈ connections p) /\
            e.1 <> Live.Media /\ e.1 <> Live.EqInput /\ e.1 <> Live.Master /\
            (forall i, i < length fs -> e.1 <> Live.Band i) /\
            (forall id k, previewEffectNode p = Some (id, k) -> e.1 <> Live.Effect id) /\
            (forall id t f, delayNode p = Some (id, t, f) ->
               e.1 <> Live.Delay id /\ e.1 <> Live.Feedback id) /\
            (forall id v, previewGainNode p = Some (id, v) -> e.1 <> Live.Gain id)).
  { intros e. unfold g0.
    rewrite elem_disconnect, elem_disconnect_bands, !elem_disconnect_if, !elem_disconnect,
      elem_connect.
    split.
    - intros (HM & HB & HG & HF & HD & HE & HQ & HMe & Hin).
      repeat split; try assumption.
      + intros id k E. apply (HE (id, k) E).
      + apply (HD (id, t, f) H).
      + apply (HF (id, t, f) H).
      + intros id v E. apply (HG (id, v) E).
    - intros (Hin & HMe & HQ & HM & HB & HE & HD & HG).
      repeat split; try assumption.
      + intros [id v] E. apply (HG id v E).
      + intros [[id t] f] E. apply (HD id t f E).
      + intros [[id t] f] E. apply (HD id t f E).
      + intros [id k] E. apply (HE id k E). }
  set (start := match gain with Some (id, _) => Live.Gain id | None => Live.EqInput end).
  set (g1 := match gain with
             | Some (id, _) =>
                 Live.connect Live.EqInput (Live.Gain id)
                   (Live.disconnect Live.EqInput (route p g0))
             | None => route p g0
             end).
  assert (Hpair : match gain with
                  | Some (id, _) =>
                      (Live.connect Live.EqInput (Live.Gain id)
                         (Live.disconnect Live.EqInput (route p g0)), Live.Gain id)
                  | None => (route p g0, Live.EqInput)
                  end = (g1, start)).
  { unfold g1, start. destruct gain as [[id v]|]; reflexivity. }
  rewrite Hpair.
  destruct (chain_fold (length fs) g1 start) as [Hcur Hchain].
  destruct (fold_left _ (seq 0 (length fs)) (g1, start)) as [g2 cur].
  cbn [fst snd] in Hcur, Hchain.
  cbn [filters connections set_connections set_filters set_masterGainNode].
  split; [exact Hpos|]. split; [exact Hn|].
  assert (Hcur' : cur = Live.Band (length fs - 1)).
  { rewrite Hcur. destruct (length fs) as [|m]; [lia|]. f_equal. lia. }
  assert (Hg1 : forall e, e ∈ g1 <->
            (exists id v, gain = Some (id, v) /\ e = (Live.EqInput, Live.Gain id)) \/
            e ∈ route p [] \/ e ∈ g0).
  { intros e. unfold g1. destruct gain as [[id v]|].
    - rewrite elem_connect, elem_disconnect, route_elem. split.
      + intros [->|[_ H]]; [left; eauto | right; exact H].
      + intros [(id' & v' & [= <- <-] & ->)|[H|H]]; [now left | |].
        * right. split; [|now left].
          destruct (route_sources p e H) as [->|[(i & k & _ & [->| ->])|
            (i & t & f & _ & [->|[->|[->| ->]]])]]; discriminate.
        * right. split; [|now right]. apply Hg0 in H. tauto.
    - rewrite route_elem. split; [tauto|].
      intros [(id & v & E & _)|H]; [discriminate | exact H]. }
  intros e. rewrite !elem_connect, Hchain, Hg1, Hg0, Hcur'.
  clear -Hpos. tauto.
Qed.

(** X20. Closing the effect panel leaves the clean signal path, whatever
    the graph was before: the media node feeds the EQ input and nothing
    else, the EQ input feeds the first filter, every filter the next
    one, the last filter the master gain, and the master gain the
    destination and the analyser; no other connection leaves any of
    these nodes. *)
Theorem closeEffectPanel_clean_chain (p : Player) :
  mediaElement p = true ->
  let q := closeEffectPanel p in
  let n := length (filters q) in
  0 < n /\
  activeRegion q = None /\ currentEffectType q = None /\
  (forall b, (Live.Media, b) ∈ connections q <-> b = Live.EqInput) /\
  (forall b, (Live.EqInput, b) ∈ connections q <-> b = Live.Band 0) /\
  (forall i b, i < n ->
     (Live.Band i, b) ∈ connections q <->
     b = if (S i <? n)%nat then Live.Band (S i) else Live.Master) /\
  (forall b, (Live.Master, b) ∈ connections q <-> b = Live.Output \/ b = Live.Analyser).
Proof.
  intros Hmedia. unfold closeEffectPanel. cbv zeta.
  set (p' := set_currentEffectType None _).
  destruct (initEqualizer_connections p' Hmedia) as (Hpos & _ & Hconn).
  destruct (initEqualizer_panel p') as (Hreg & Hty & _).
  set (q := initEqualizer p') in *. set (n := length (filters q)) in *.
  cbv zeta in Hconn.
  change (truthy_type (currentEffectType p')) with false in Hconn.
  change (route p' []) with [(Live.Media, Live.EqInput)] in Hconn.
  split; [exact Hpos|]. split; [exact Hreg|]. split; [exact Hty|].
  assert (Hone : forall e : Live.Node * Live.Node,
            e ∈ [(Live.Media, Live.EqInput)] <-> e = (Live.Media, Live.EqInput))
    by (intros e; apply list_elem_of_singleton).
  split; [|split; [|split]].
  - intros b. split.
    + intros H. apply Hconn in H. rewrite Hone in H.
      destruct H as [H|[H|[H|[H|[(i & _ & H)|[(id & v & H & _)|[H|(_ & H & _)]]]]]]];
        try discriminate; try congruence. now contradiction H.
    + intros ->. apply Hconn. rewrite Hone. tauto.
  - intros b. split.
    + intros H. apply Hconn in H. rewrite Hone in H.
      destruct H as [H|[H|[H|[H|[(i & _ & H)|[(id & v & H & _)|[H|(_ & _ & H & _)]]]]]]];
        try discriminate; try congruence. now contradiction H.
    + intros ->. apply Hconn. tauto.
  - intros i b Hi. split.
    + intros H. apply Hconn in H. rewrite Hone in H.
      destruct H as [H|[H|[H|[H|[(j & Hj & H)|[(id & v & H & _)|
        [H|(_ & _ & _ & _ & H & _)]]]]]]]; try discriminate.
      * injection H as Hn ->. replace i with (n - 1) by lia.
        destruct (Nat.ltb_spec (S (n - 1)) n); [lia | reflexivity].
      * injection H as -> ->. destruct (Nat.ltb_spec (S j) n); [reflexivity | lia].
      * now contradiction (H i).
    + intros ->. apply Hconn. destruct (Nat.ltb_spec (S i) n) as [Hlt|Hge].
      * right; right; right; right; left. now exists i.
      * right; right; left. do 2 f_equal. lia.
  - intros b. split.
    + intros H. apply Hconn in H. rewrite Hone in H.
      destruct H as [H|[H|[H|[H|[(i & _ & H)|[(id & v & H & _)|
        [H|(_ & _ & _ & H & _)]]]]]]];
        try discriminate; try (injection H as ->; tauto). now contradiction H.
    + intros [->| ->]; apply Hconn; tauto.
Qed.

Lemma initEqualizer_media (p : Player) : mediaElement (initEqualizer p) = mediaElement p.
Proof.
  unfold initEqualizer. destruct (mediaElement p) eqn:E; [|exact E]. cbv zeta.
  destruct (match (if truthy_type (currentEffectType p) then previewGainNode p else None)
            with Some _ => _ | None => _ end) as [g chainStart].
  destruct (fold_left _ _ (g, chainStart)) as [g' currentNode].
  exact E.
Qed.

(** A knob changes values only. *)
Lemma updateEffectParam_wiring (knobIndex : Z) (val : Q) (p : Player) :
  connections (updateEffectParam knobIndex val p) = connections p /\
  activations (updateEffectParam knobIndex val p) = activations p /\
  mediaElement (updateEffectParam knobIndex val p) = mediaElement p /\
  currentEffectType (updateEffectParam knobIndex val p) = currentEffectType p /\
  (forall i t f, delayNode (updateEffectParam knobIndex val p) = Some (i, t, f) ->
     exists t' f', delayNode p = Some (i, t', f')) /\
  (forall i t f, delayNode p = Some (i, t, f) ->
     exists t' f', delayNode (updateEffectParam knobIndex val p) = Some (i, t', f')).
Proof.
  unfold updateEffectParam. cbv zeta.
  destruct (is_type (currentEffectType p) "distortion").
  { destruct (knobIndex =? 1)%Z; [|repeat split; eauto].
    cbn [previewEffectNode set_effectParams].
    destruct (previewEffectNode p) as [[id [c|]]|]; repeat split; eauto. }
  destruct (is_type (currentEffectType p) "delay").
  { destruct (knobIndex =? 1)%Z; [|destruct (knobIndex =? 2)%Z];
      cbn [delayNode set_effectParams]; [| |repeat split; eauto].
    - destruct (delayNode p) as [[[id t0] f0]|] eqn:E; repeat split;
        cbn [delayNode set_delayNode set_effectParams]; try rewrite E; try discriminate.
      + intros i t f [= <- <- <-]. eauto.
      + intros i t f [= <- <- <-]. eauto.
    - destruct (delayNode p) as [[[id t0] f0]|] eqn:E; repeat split;
        cbn [delayNode set_delayNode set_effectParams]; try rewrite E; try discriminate.
      + intros i t f [= <- <- <-]. eauto.
      + intros i t f [= <- <- <-]. eauto. }
  destruct (is_type (currentEffectType p) "bitcrush"); [|repeat split; eauto].
  destruct (knobIndex =? 1)%Z; [|destruct (knobIndex =? 2)%Z]; repeat split; eauto.
Qed.

Lemma onMouseMove_wiring (m : MouseMove) (p : Player) :
  let q := onMouseMove (move_knob m) (move_startVal m) (move_startY m) (move_clientY m) p in
  connections q = connections p /\
  activations q = activations p /\
  mediaElement q = mediaElement p /\
  (forall i t f, delayNode q = Some (i, t, f) -> exists t' f', delayNode p = Some (i, t', f')).
Proof.
  cbv zeta. unfold onMouseMove, onInput. cbv zeta.
  set (v := Qmax 0 _).
  destruct (move_knob m), (truthy_type (currentEffectType p));
    try (repeat split; eauto; fail);
    try (destruct (updateEffectParam_wiring 1 v p) as (? & ? & ? & _ & ? & _); auto; fail);
    try (destruct (updateEffectParam_wiring 2 v p) as (? & ? & ? & _ & ? & _); auto; fail).
  - destruct (previewGainNode p) as [[id g]|]; repeat split; eauto.
  - destruct (masterGainNode p); repeat split; eauto.
Qed.

(** Rebuilding the graph leaves the loop of a dropped delay alone, and
    takes the media node off it. *)
Lemma left_behind_initEqualizer (id : nat) (p : Player) :
  created_after id p ->
  (Live.Delay id, Live.EqInput) ∈ connections p ->
  (Live.Delay id, Live.Feedback id) ∈ connections p ->
  (Live.Feedback id, Live.Delay id) ∈ connections p ->
  created_after id (initEqualizer p) /\ delay_left_behind id (initEqualizer p).
Proof.
  intros (Hmedia & Hact & Hlater) H1 H2 H3.
  destruct (initEqualizer_panel p) as (_ & _ & _ & _ & Hd & _ & Ha).
  destruct (initEqualizer_connections p Hmedia) as (_ & _ & Hconn). cbv zeta in Hconn.
  assert (Hkeep : forall e, e ∈ connections p ->
            e.1 = Live.Delay id \/ e.1 = Live.Feedback id ->
            e ∈ connections (initEqualizer p)).
  { intros e Hin He. apply Hconn. do 7 right. split; [exact Hin|].
    repeat split; try (destruct He as [-> | ->]; discriminate).
    - intros E. pose proof (Hlater _ _ _ H). destruct He as [He|He]; rewrite He in E;
        [injection E as ->; lia | discriminate].
    - intros E. pose proof (Hlater _ _ _ H). destruct He as [He|He]; rewrite He in E;
        [discriminate | injection E as ->; lia]. }
  split.
  - split; [now rewrite initEqualizer_media|]. split; [now rewrite Ha|]. now rewrite Hd.
  - split.
    { rewrite Hd. intros t f E. pose proof (Hlater _ _ _ E). lia. }
    split; [apply Hkeep; auto|]. split; [apply Hkeep; auto|]. split; [apply Hkeep; auto|].
    intros Hin. apply Hconn in Hin.
    destruct Hin as [H|[H|[H|[H|[(i & _ & H)|[(i & v & _ & H)|[H|(_ & H & _)]]]]]]];
      try discriminate.
    + destruct (route_sources p _ H) as [E|[(i & k & _ & [E|E])|
        (i & t & f & Hdn & [E|[E|[E|E]]])]]; try discriminate.
      injection E as <-. pose proof (Hlater _ _ _ Hdn). lia.
    + now contradiction H.
Qed.

Lemma closeEffectPanel_wiring (p : Player) :
  mediaElement (closeEffectPanel p) = mediaElement p /\
  activations (closeEffectPanel p) = activations p /\
  delayNode (closeEffectPanel p) = None.
Proof.
  unfold closeEffectPanel. cbv zeta.
  set (p' := set_currentEffectType None _).
  destruct (initEqualizer_panel p') as (_ & _ & _ & _ & Hd & _ & Ha).
  rewrite initEqualizer_media, Ha, Hd. repeat split.
Qed.

(** [activateRealTimePreview] is [initEqualizer] on a player whose
    connections are those [closeEffectPanel] left and whose delay node,
    if it has one, is the one just created. *)
Lemma activateRealTimePreview_wiring (region : Region) (type : string) (p : Player) :
  exists p',
    activateRealTimePreview region type p = initEqualizer p' /\
    connections p' = connections (closeEffectPanel p) /\
    mediaElement p' = mediaElement p /\
    activations p' = S (activations p) /\
    (forall i t f, delayNode p' = Some (i, t, f) -> i = activations p) /\
    (type = "delay"%string ->
     currentEffectType p' = Some "delay"%string /\
     exists t f, delayNode p' = Some (activations p, t, f)).
Proof.
  destruct (closeEffectPanel_wiring p) as (Hm & Ha & Hd).
  unfold activateRealTimePreview. cbv zeta.
  set (p1 := closeEffectPanel p) in *.
  destruct (String.eqb_spec type "distortion") as [->|Hn1]; cbn [negb].
  { eexists. split; [reflexivity|].
    match goal with |- context [updateEffectParam 1 ?v ?q] =>
      destruct (updateEffectParam_wiring 1 v q) as (Hc & Hac & Hme & _ & Hdn & _)
    end.
    rewrite Hc, Hac, Hme.
    cbn [connections activations mediaElement delayNode set_activations set_activeRegion
         set_currentEffectType set_previewGainNode set_previewEffectNode set_effectParams]
      in *.
    split; [reflexivity|]. split; [exact Hm|]. split; [now rewrite Ha|].
    split; [|intros [=]].
    intros i t f E. destruct (Hdn _ _ _ E) as (t' & f' & E').
    rewrite Hd in E'. discriminate E'. }
  destruct (String.eqb_spec type "delay") as [->|Hn2].
  { eexists. split; [reflexivity|].
    match goal with |- context [updateEffectParam 2 ?v ?q] =>
      destruct (updateEffectParam_wiring 2 v q) as (Hc & Hac & Hme & Hty & Hdn & Hdn')
    end.
    match goal with |- context [updateEffectParam 1 ?v ?q] =>
      destruct (updateEffectParam_wiring 1 v q) as (Hc1 & Hac1 & Hme1 & Hty1 & Hdn1 & Hdn1')
    end.
    rewrite Hc, Hac, Hme, Hty, Hc1, Hac1, Hme1, Hty1.
    cbn [connections activations mediaElement delayNode currentEffectType
         set_activations set_activeRegion set_currentEffectType set_previewGainNode
         set_delayNode set_effectParams] in *.
    split; [reflexivity|]. split; [exact Hm|]. split; [now rewrite Ha|].
    split; [|intros _; split; [reflexivity|]].
    - intros i t f E. destruct (Hdn _ _ _ E) as (t' & f' & E').
      destruct (Hdn1 _ _ _ E') as (t'' & f'' & E''). injection E'' as <-. exact Ha.
    - destruct (Hdn1' _ _ _ eq_refl) as (t' & f' & E').
      destruct (Hdn' _ _ _ E') as (t'' & f'' & E''). rewrite <- Ha. eauto. }
  destruct (String.eqb_spec type "bitcrush") as [->|Hn3].
  { eexists. split; [reflexivity|].
    match goal with |- context [updateEffectParam 2 ?v ?q] =>
      destruct (updateEffectParam_wiring 2 v q) as (Hc & Hac & Hme & Hty & Hdn & Hdn')
    end.
    match goal with |- context [updateEffectParam 1 ?v ?q] =>
      destruct (updateEffectParam_wiring 1 v q) as (Hc1 & Hac1 & Hme1 & Hty1 & Hdn1 & Hdn1')
    end.
    rewrite Hc, Hac, Hme, Hc1, Hac1, Hme1.
    cbn [connections activations mediaElement delayNode currentEffectType
         set_activations set_activeRegion set_currentEffectType set_previewGainNode
         set_previewEffectNode set_effectParams] in *.
    split; [reflexivity|]. split; [exact Hm|]. split; [now rewrite Ha|].
    split; [|intros [=]].
    intros i t f E. destruct (Hdn _ _ _ E) as (t' & f' & E').
    destruct (Hdn1 _ _ _ E') as (t'' & f'' & E''). rewrite Hd in E''. discriminate E''. }
  eexists. split; [reflexivity|].
  match goal with |- context [updateEffectParam 2 ?v ?q] =>
    destruct (updateEffectParam_wiring 2 v q) as (Hc & Hac & Hme & Hty & Hdn & Hdn')
  end.
  match goal with |- context [updateEffectParam 1 ?v ?q] =>
    destruct (updateEffectParam_wiring 1 v q) as (Hc1 & Hac1 & Hme1 & Hty1 & Hdn1 & Hdn1')
  end.
  rewrite Hc, Hac, Hme, Hc1, Hac1, Hme1.
  cbn [connections activations mediaElement delayNode currentEffectType
       set_activations set_activeRegion set_currentEffectType set_previewGainNode
       set_effectParams] in *.
  split; [reflexivity|]. split; [exact Hm|]. split; [now rewrite Ha|].
  split; [|intros E; contradiction].
  intros i t f E. destruct (Hdn _ _ _ E) as (t' & f' & E').
  destruct (Hdn1 _ _ _ E') as (t'' & f'' & E''). rewrite Hd in E''. discriminate E''.
Qed.

Lemma left_behind_closeEffectPanel (id : nat) (p : Player) :
  mediaElement p = true -> id < activations p ->
  (Live.Delay id, Live.EqInput) ∈ connections p ->
  (Live.Delay id, Live.Feedback id) ∈ connections p ->
  (Live.Feedback id, Live.Delay id) ∈ connections p ->
  created_after id (closeEffectPanel p) /\ delay_left_behind id (closeEffectPanel p).
Proof.
  intros Hmedia Hact H1 H2 H3. unfold closeEffectPanel. cbv zeta.
  apply left_behind_initEqualizer; try assumption.
  split; [exact Hmedia|]. split; [exact Hact|]. intros i t f [=].
Qed.

Lemma left_behind_handleEvent (id : nat) (p : Player) (ev : PlayerEvent) :
  created_after id p -> delay_left_behind id p ->
  created_after id (handleEvent p ev) /\ delay_left_behind id (handleEvent p ev).
Proof.
  intros Hc Hl. pose proof Hc as (Hmedia & Hact & Hlater).
  pose proof Hl as (Hnot & H1 & H2 & H3 & H4).
  destruct ev as [region type| | |m]; cbn [handleEvent].
  - destruct (left_behind_closeEffectPanel id p Hmedia Hact H1 H2 H3)
      as [_ (_ & C1 & C2 & C3 & _)].
    destruct (activateRealTimePreview_wiring region type p)
      as (p' & -> & Hconn & Hme & Hac & Hdn & _).
    apply left_behind_initEqualizer; rewrite ?Hconn; try assumption.
    split; [now rewrite Hme|]. split; [lia|].
    intros i t f E. rewrite (Hdn _ _ _ E). exact Hact.
  - now apply left_behind_closeEffectPanel.
  - now apply left_behind_initEqualizer.
  - destruct (onMouseMove_wiring m p) as (Hconn & Hac & Hme & Hdn). cbv zeta in *.
    split.
    + split; [now rewrite Hme|]. split; [now rewrite Hac|].
      intros i t f E. destruct (Hdn _ _ _ E) as (t' & f' & E'). eapply Hlater; eauto.
    + unfold delay_left_behind. rewrite Hconn. split; [|tauto].
      intros t f E. destruct (Hdn _ _ _ E) as (t' & f' & E'). now apply Hnot in E'.
Qed.

(** X21. A delay preview that has been closed is never taken out of
    the graph.  After [activateRealTimePreview(region, "delay")] and
    [closeEffectPanel()] (a freeze closes the panel too), whatever
    happens next (effects dropped, panels closed, graph rebuilt, knobs
    dragged): the player no longer holds that delay node, the media node
    no longer feeds it, but the delay still feeds its feedback gain, the
    feedback gain the delay, and the delay the EQ input. *)
Theorem closed_delay_stays_wired (p : Player) (region : Region) (later : list PlayerEvent) :
  mediaElement p = true ->
  delay_left_behind (activations p)
    (fold_left handleEvent later
       (closeEffectPanel (activateRealTimePreview region "delay" p))).
Proof.
  intros Hmedia. set (id := activations p).
  assert (Hstart : created_after id
                     (closeEffectPanel (activateRealTimePreview region "delay" p)) /\
                   delay_left_behind id
                     (closeEffectPanel (activateRealTimePreview region "delay" p))).
  { destruct (activateRealTimePreview_wiring region "delay" p)
      as (p' & -> & _ & Hme & Hac & _ & Hdelay).
    destruct (Hdelay eq_refl) as (Hty & t & f & Hdn). fold id in Hdn.
    rewrite <- Hme in Hmedia.
    destruct (initEqualizer_connections p' Hmedia) as (_ & _ & Hconn). cbv zeta in Hconn.
    destruct (initEqualizer_panel p') as (_ & _ & _ & _ & _ & _ & Ha).
    assert (Hroute : forall e,
              e ∈ [(Live.Delay id, Live.Feedback id); (Live.Feedback id, Live.Delay id);
                   (Live.Delay id, Live.EqInput)] ->
              e ∈ connections (initEqualizer p')).
    { intros e He. apply Hconn. do 6 right. left.
      unfold route, is_type. rewrite Hty, Hdn. cbn [String.eqb Ascii.eqb Bool.eqb orb].
      cbv zeta. rewrite !elem_connect.
      rewrite !elem_of_cons, elem_of_nil in He. tauto. }
    apply left_behind_closeEffectPanel.
    - now rewrite initEqualizer_media.
    - rewrite Ha, Hac. unfold id. lia.
    - apply Hroute. rewrite !elem_of_cons. tauto.
    - apply Hroute. rewrite !elem_of_cons. tauto.
    - apply Hroute. rewrite !elem_of_cons. tauto. }
  revert Hstart. generalize (closeEffectPanel (activateRealTimePreview region "delay" p)).
  induction later as [|ev later IH]; intros q [Hc Hl]; [exact Hl|].
  cbn [fold_left]. apply IH. now apply left_behind_handleEvent.
Qed.

(** X22. The signal path of a preview.  After
    [activateRealTimePreview(region, type)] with the media element
    present, the EQ input feeds the preview gain node and nothing else,
    and the preview gain node the first filter and nothing else.  For
    the delay the media node feeds the EQ input (dry) and the delay
    (wet), the delay its feedback gain and the EQ input, the feedback
    gain the delay.  For distortion and bitcrush the media node feeds
    the effect node only (there is no dry path) and the effect node the
    EQ input only. *)
Theorem preview_signal_path (p : Player) (region : Region) (type : string) :
  mediaElement p = true -> offline_effect type ->
  let q := connections (activateRealTimePreview region type p) in
  exists g,
    (forall b, (Live.EqInput, b) ∈ q <-> b = Live.Gain g) /\
    (forall b, (Live.Gain g, b) ∈ q <-> b = Live.Band 0) /\
    (type = "delay"%string ->
     exists d,
       (forall b, (Live.Media, b) ∈ q <-> b = Live.EqInput \/ b = Live.Delay d) /\
       (forall b, (Live.Delay d, b) ∈ q <-> b = Live.Feedback d \/ b = Live.EqInput) /\
       (forall b, (Live.Feedback d, b) ∈ q <-> b = Live.Delay d)) /\
    (type <> "delay"%string ->
     exists e,
       (forall b, (Live.Media, b) ∈ q <-> b = Live.Effect e) /\
       (forall b, (Live.Effect e, b) ∈ q <-> b = Live.EqInput)).
Proof.
  intros Hmedia Htype. cbv zeta.
  pose proof (previewing_activate region type p Htype) as Hprev.
  destruct (activateRealTimePreview_wiring region type p) as (p' & Hq & _ & Hme & _).
  rewrite Hq in Hprev |- *. rewrite <- Hme in Hmedia.
  destruct (initEqualizer_panel p') as (_ & Ety & _ & Eeff & Edel & Egain & _).
  destruct Hprev as (_ & Hty & (g & v & Hgain & _) & Hdist & Hdelay & Hcrush).
  rewrite Ety in Hty. rewrite Egain in Hgain. rewrite Eeff in Hdist, Hcrush.
  rewrite Edel in Hdelay.
  destruct (initEqualizer_connections p' Hmedia) as (Hpos & _ & Hconn). cbv zeta in Hconn.
  assert (Htruthy : truthy_type (currentEffectType p') = true).
  { rewrite Hty. destruct (offline_effect_cases type Htype) as [->|[->| ->]]; reflexivity. }
  rewrite Htruthy, Hgain in Hconn.
  set (n := length (filters (initEqualizer p'))) in *.
  assert (Hroute : forall e, e ∈ route p' [] ->
            e.1 <> Live.EqInput /\ (forall i, e.1 <> Live.Gain i) /\
            (forall i, e.1 <> Live.Band i) /\ e.1 <> Live.Master).
  { intros e He.
    destruct (route_sources p' e He) as [->|[(i & k & _ & [->| ->])|
      (i & t & f & _ & [->|[->|[->| ->]]])]]; repeat split; intros; discriminate. }
  exists g. split; [|split; [|split]].
  - intros b. split.
    + intros H. apply Hconn in H.
      destruct H as [H|[H|[H|[H|[(i & _ & H)|[(i & w & [= <- _] & H)|[H|(_ & _ & H & _)]]]]]]];
        try discriminate.
      * now injection H as ->.
      * now destruct (Hroute _ H) as (Hne & _).
      * now contradiction H.
    + intros ->. apply Hconn. do 5 right. left. now exists g, v.
  - intros b. split.
    + intros H. apply Hconn in H.
      destruct H as [H|[H|[H|[H|[(i & _ & H)|[(i & w & _ & H)|
        [H|(_ & _ & _ & _ & _ & _ & _ & H)]]]]]]]; try discriminate.
      * now injection H as ->.
      * destruct (Hroute _ H) as (_ & Hne & _). now contradiction (Hne g).
      * now contradiction (H g v eq_refl).
    + intros ->. apply Hconn. tauto.
  - intros ->. destruct (Hdelay eq_refl) as (d & t & f & Hdn & _).
    assert (Er : forall e, e ∈ route p' [] <->
              e = (Live.Media, Live.EqInput) \/ e = (Live.Media, Live.Delay d) \/
              e = (Live.Delay d, Live.Feedback d) \/ e = (Live.Feedback d, Live.Delay d) \/
              e = (Live.Delay d, Live.EqInput)).
    { intros e. unfold route, is_type. rewrite Hty, Hdn.
      cbn [String.eqb Ascii.eqb Bool.eqb orb]. cbv zeta.
      rewrite !elem_connect, elem_of_nil. tauto. }
    exists d. split; [|split].
    + intros b. split.
      * intros H. apply Hconn in H. rewrite Er in H.
        destruct H as [H|[H|[H|[H|[(i & _ & H)|[(i & w & _ & H)|[H|(_ & H & _)]]]]]]];
          try discriminate; [|now contradiction H].
        destruct H as [H|[H|[H|[H|H]]]]; try discriminate; injection H as ->; auto.
      * intros [->| ->]; apply Hconn; rewrite Er; tauto.
    + intros b. split.
      * intros H. apply Hconn in H. rewrite Er in H.
        destruct H as [H|[H|[H|[H|[(i & _ & H)|[(i & w & _ & H)|
          [H|(_ & _ & _ & _ & _ & _ & H & _)]]]]]]]; try discriminate.
        -- destruct H as [H|[H|[H|[H|H]]]]; try discriminate; injection H as ->; auto.
        -- destruct (H d t f Hdn) as [Hne _]. now contradiction Hne.
      * intros [->| ->]; apply Hconn; rewrite Er; tauto.
    + intros b. split.
      * intros H. apply Hconn in H. rewrite Er in H.
        destruct H as [H|[H|[H|[H|[(i & _ & H)|[(i & w & _ & H)|
          [H|(_ & _ & _ & _ & _ & _ & H & _)]]]]]]]; try discriminate.
        -- destruct H as [H|[H|[H|[H|H]]]]; try discriminate; now injection H as ->.
        -- destruct (H d t f Hdn) as [_ Hne]. now contradiction Hne.
      * intros ->. apply Hconn. rewrite Er. tauto.
  - intros Hnd.
    assert (Hnode : exists e k, previewEffectNode p' = Some (e, k) /\
              (is_type (currentEffectType p') "distortion" ||
               is_type (currentEffectType p') "bitcrush") = true).
    { rewrite Hty. destruct (offline_effect_cases type Htype) as [->|[->| ->]].
      - destruct (Hdist eq_refl) as (e & a & Hn & _). eauto.
      - contradiction.
      - destruct (Hcrush eq_refl) as (e & m & nf & Hn & _). eauto. }
    destruct Hnode as (e & k & Hnode & His).
    assert (Er : forall x, x ∈ route p' [] <->
              x = (Live.Media, Live.Effect e) \/ x = (Live.Effect e, Live.EqInput)).
    { intros x. unfold route. rewrite His, Hnode.
      rewrite !elem_connect, elem_of_nil. tauto. }
    exists e. split.
    + intros b. split.
      * intros H. apply Hconn in H. rewrite Er in H.
        destruct H as [H|[H|[H|[H|[(i & _ & H)|[(i & w & _ & H)|[H|(_ & H & _)]]]]]]];
          try discriminate; [|now contradiction H].
        destruct H as [H|H]; try discriminate; now injection H as ->.
      * intros ->. apply Hconn. rewrite Er. tauto.
    + intros b. split.
      * intros H. apply Hconn in H. rewrite Er in H.
        destruct H as [H|[H|[H|[H|[(i & _ & H)|[(i & w & _ & H)|
          [H|(_ & _ & _ & _ & _ & H & _)]]]]]]]; try discriminate.
        -- destruct H as [H|H]; try discriminate; now injection H as ->.
        -- now contradiction (H e k Hnode).
      * intros ->. apply Hconn. rewrite Er. tauto.
Qed.

(** ** Exporting from a player *)

Lemma initEqualizer_bank (p : Player) :
  mediaElement p = true ->
  length (filters (initEqualizer p)) =
    (if (length (filters p) =? 0)%nat then 10 else length (filters p)) /\
  is_Some (masterGainNode (initEqualizer p)).
Proof.
  intros Hmedia. unfold initEqualizer. rewrite Hmedia. cbv zeta.
  destruct (match (if truthy_type (currentEffectType p) then previewGainNode p else None)
            with Some _ => _ | None => _ end) as [g chainStart].
  destruct (fold_left _ _ (g, chainStart)) as [g' currentNode].
  cbn [filters masterGainNode set_connections set_filters set_masterGainNode].
  split; [|eauto].
  destruct (Nat.eqb_spec (length (filters p)) 0); [apply length_createFilters | reflexivity].
Qed.

(** The player has built its graph: ten filters and a master gain. *)
Lemma graph_built_initEqualizer (p : Player) :
  mediaElement p = true ->
  filters p = [] \/ length (filters p) = 10 ->
  mediaElement (initEqualizer p) = true /\
  length (filters (initEqualizer p)) = 10 /\
  is_Some (masterGainNode (initEqualizer p)).
Proof.
  intros Hmedia Hf. destruct (initEqualizer_bank p Hmedia) as [Hl Hm].
  rewrite initEqualizer_media. split; [exact Hmedia|]. split; [|exact Hm].
  rewrite Hl. destruct Hf as [-> | ->]; reflexivity.
Qed.

Lemma updateEffectParam_bank (knobIndex : Z) (val : Q) (p : Player) :
  filters (updateEffectParam knobIndex val p) = filters p /\
  masterGainNode (updateEffectParam knobIndex val p) = masterGainNode p.
Proof.
  unfold updateEffectParam. cbv zeta.
  destruct (is_type (currentEffectType p) "distortion").
  { destruct (knobIndex =? 1)%Z; [|split; reflexivity].
    cbn [previewEffectNode set_effectParams].
    destruct (previewEffectNode p) as [[id [c|]]|]; split; reflexivity. }
  destruct (is_type (currentEffectType p) "delay").
  { destruct (knobIndex =? 1)%Z; [|destruct (knobIndex =? 2)%Z];
      cbn [delayNode set_effectParams]; try (split; reflexivity);
      destruct (delayNode p) as [[[id t0] f0]|]; split; reflexivity. }
  destruct (is_type (currentEffectType p) "bitcrush"); [|split; reflexivity].
  destruct (knobIndex =? 1)%Z; [|destruct (knobIndex =? 2)%Z]; split; reflexivity.
Qed.

Lemma graph_built_handleEvent (p : Player) (ev : PlayerEvent) :
  mediaElement p = true /\ length (filters p) = 10 /\ is_Some (masterGainNode p) ->
  mediaElement (handleEvent p ev) = true /\ length (filters (handleEvent p ev)) = 10 /\
  is_Some (masterGainNode (handleEvent p ev)).
Proof.
  intros (Hmedia & Hf & Hm).
  destruct ev as [region type| | |m]; cbn [handleEvent].
  - destruct (closeEffectPanel_wiring p) as (Hcm & _).
    assert (Hclosed : length (filters (closeEffectPanel p)) = 10).
    { unfold closeEffectPanel. cbv zeta. now apply graph_built_initEqualizer; [|right]. }
    unfold activateRealTimePreview. cbv zeta.
    set (p1 := closeEffectPanel p) in *.
    destruct (String.eqb_spec type "distortion") as [->|_]; cbn [negb];
      [|destruct (String.eqb_spec type "delay") as [->|_];
        [|destruct (String.eqb_spec type "bitcrush") as [->|_]]];
      (apply graph_built_initEqualizer; [|right]);
      repeat match goal with |- context [updateEffectParam ?k ?v ?q] =>
        first [rewrite (proj1 (proj2 (proj2 (updateEffectParam_wiring k v q))))
              |rewrite (proj1 (updateEffectParam_bank k v q))]
      end;
      cbn [mediaElement filters set_activations set_activeRegion set_currentEffectType
           set_previewGainNode set_previewEffectNode set_delayNode set_effectParams];
      first [now rewrite Hcm | exact Hclosed].
  - unfold closeEffectPanel. cbv zeta. now apply graph_built_initEqualizer; [|right].
  - now apply graph_built_initEqualizer; [|right].
  - unfold onMouseMove, onInput. cbv zeta. set (v := Qmax 0 _).
    destruct (move_knob m), (truthy_type (currentEffectType p));
      try (repeat split; assumption);
      try (destruct (updateEffectParam_bank 1 v p) as [-> ->];
           rewrite (proj1 (proj2 (proj2 (updateEffectParam_wiring 1 v p))));
           repeat split; assumption);
      try (destruct (updateEffectParam_bank 2 v p) as [-> ->];
           rewrite (proj1 (proj2 (proj2 (updateEffectParam_wiring 2 v p))));
           repeat split; assumption).
    + destruct (previewGainNode p) as [[id g]|]; repeat split; assumption.
    + destruct (masterGainNode p) eqn:E; [repeat split; eauto | now destruct Hm].
Qed.

Lemma length_export_graph (currentGains : list Q) (v : Q) :
  length (export_graph currentGains (Some v)) = 12.
Proof. reflexivity. Qed.

Section ExportFromPlayer.

Variable render : Graph -> list (list Q) -> nat -> nat -> Q.

(** X23. Once [initEqualizer] has run with the media element present,
    then whatever happens to the panel and the graph (effects dropped,
    panels closed, graph rebuilt, knobs dragged), the player has its ten
    filters and a master gain, so [getProcessedWavBlob] on its filter
    gains and master gain never throws: it returns a WAV blob of the full
    length of the buffer, rendered through the ten EQ bands and the
    master gain stage, and leaves the loaded buffer as it is. *)
Theorem export_after_init (s : Store) (originalBuffer : ref) (b : AudioBuffer)
    (p0 : Player) (events : list PlayerEvent) :
  s !! originalBuffer = Some b -> wf_buffer b ->
  mediaElement p0 = true -> filters p0 = [] ->
  let p := fold_left handleEvent events (initEqualizer p0) in
  exists master blob rendered,
    masterGainNode p = Some master /\
    length (filters p) = 10 /\
    length (export_graph (filters p) (masterGainNode p)) = 12 /\
    getProcessedWavBlob render (Some originalBuffer) (filters p) (masterGainNode p) s =
    Ok (Some blob) (s ++ [rendered]) /\
    length (blob_bytes blob) = 44 + buf_length b * numberOfChannels b * 2.
Proof.
  intros Hb Hwf Hmedia Hf p.
  assert (Hp : mediaElement p = true /\ length (filters p) = 10 /\
               is_Some (masterGainNode p)).
  { unfold p.
    assert (H0 : mediaElement (initEqualizer p0) = true /\
                 length (filters (initEqualizer p0)) = 10 /\
                 is_Some (masterGainNode (initEqualizer p0)))
      by (apply graph_built_initEqualizer; auto).
    revert H0. generalize (initEqualizer p0).
    induction events as [|ev events IH]; intros q Hq; [exact Hq|].
    cbn [fold_left]. apply IH. now apply graph_built_handleEvent. }
  destruct Hp as (_ & Hlen & [master Hmaster]).
  destruct (getProcessedWavBlob_run render s originalBuffer b (filters p) (masterGainNode p)
              Hb) as (blob & Hwave & Hrun).
  { rewrite Hlen. reflexivity. }
  set (rendered := mkAudioBuffer (sampleRate b) (buf_length b) _) in *.
  exists master, blob, (normalized rendered).
  split; [exact Hmaster|]. split; [exact Hlen|].
  split; [rewrite Hmaster; apply length_export_graph|]. split; [exact Hrun|].
  destruct (normalized_shape rendered) as (Hl & Hn & _).
  assert (Hn' : numberOfChannels (normalized rendered) = numberOfChannels b).
  { rewrite Hn. unfold rendered, numberOfChannels. cbn [channelData].
    now rewrite length_map, length_seq. }
  assert (Hlast : (s ++ [normalized rendered]) !! length s = Some (normalized rendered))
    by now rewrite lookup_app_r, Nat.sub_diag by lia.
  rewrite (bufferToWave_run _ _ _ _ Hlast) in Hwave.
  assert (Hframes : match buf_length (normalized rendered) with
                    | S n => S n | 0 => buf_length (normalized rendered) end = buf_length b)
    by (rewrite Hl; change (buf_length rendered) with (buf_length b);
        destruct (buf_length b); reflexivity).
  cbv zeta in Hwave. cbn match in Hwave. rewrite Hframes, Hn' in Hwave.
  apply (f_equal (fun r => match r with
                           | Ok bl _ => length (blob_bytes bl)
                           | Throw _ _ => 0
                           end)) in Hwave.
  cbn [blob_bytes] in Hwave. rewrite <- Hwave.
  rewrite length_app, length_wav_header, length_int16_bytes, length_wav_pcm. lia.
Qed.

End ExportFromPlayer.

(** ** BeatDetect: sorting *)

Section Sorting.

Context {A : Type} (before : A -> A -> bool).

Lemma insert_by_Permutation (x : A) (l : list A) :
  BeatDetect.insert_by before x l ≡ₚ x :: l.
Proof.
  induction l as [|y l IH]; cbn [BeatDetect.insert_by]; [reflexivity|].
  destruct (before y x); [|reflexivity].
  rewrite IH. apply Permutation_swap.
Qed.

Lemma sort_by_Permutation (l : list A) : BeatDetect.sort_by before l ≡ₚ l.
Proof.
  unfold BeatDetect.sort_by. induction l as [|x l IH]; cbn [fold_right]; [reflexivity|].
  now rewrite insert_by_Permutation, IH.
Qed.

Lemma length_sort_by (l : list A) : length (BeatDetect.sort_by before l) = length l.
Proof. apply Permutation_length, sort_by_Permutation. Qed.

Hypothesis before_asym : forall a b, before a b = true -> before b a = false.
Hypothesis not_before_trans :
  forall a b c, before b a = false -> before c b = false -> before c a = false.

(** In the sorted array no element is strictly before one on its
    left. *)
Lemma sort_by_sorted (l : list A) :
  StronglySorted (fun a b => before b a = false) (BeatDetect.sort_by before l).
Proof.
  unfold BeatDetect.sort_by. induction l as [|x l IH]; cbn [fold_right]; [constructor|].
  revert IH. generalize (fold_right (BeatDetect.insert_by before) [] l). clear l.
  intros l Hl. induction Hl as [|y l Hl IH Hy]; cbn [BeatDetect.insert_by].
  - repeat constructor.
  - destruct (before y x) eqn:E.
    + constructor; [exact IH|].
      rewrite Forall_forall. intros z Hz.
      rewrite insert_by_Permutation in Hz. apply elem_of_cons in Hz as [->|Hz].
      * now apply before_asym.
      * rewrite Forall_forall in Hy. now apply Hy.
    + constructor; [now constructor|].
      rewrite Forall_forall. intros z Hz. apply elem_of_cons in Hz as [->|Hz]; [exact E|].
      rewrite Forall_forall in Hy. eapply not_before_trans; [exact E | now apply Hy].
Qed.

End Sorting.

(** ** BeatDetect: the tempo of an interval *)

Section TempoProperties.

Import BeatDetect.

Lemma double_up_more_fuel (f f' : nat) (lo t r : Q) :
  f <= f' -> double_up f lo t = Some r -> double_up f' lo t = Some r.
Proof.
  revert f' t. induction f as [|f IH]; intros f' t Hf H; [discriminate|].
  destruct f' as [|f']; [lia|]. cbn [double_up] in *.
  destruct (Qle_bool t lo); [|exact H]. apply IH; [lia | exact H].
Qed.

Lemma halve_down_more_fuel (f f' : nat) (hi t r : Q) :
  f <= f' -> halve_down f hi t = Some r -> halve_down f' hi t = Some r.
Proof.
  revert f' t. induction f as [|f IH]; intros f' t Hf H; [discriminate|].
  destruct f' as [|f']; [lia|]. cbn [halve_down] in *.
  destruct (Qle_bool t hi); [exact H|]. apply IH; [lia | exact H].
Qed.

Lemma pow2_nat_pos (n : nat) : (0 < inject_Z (2 ^ Z.of_nat n))%Q.
Proof. change 0%Q with (inject_Z 0). rewrite <- Zlt_Qlt. apply Z.pow_pos_nonneg; lia. Qed.

Lemma pow2_nat_succ (n : nat) :
  (inject_Z (2 ^ Z.of_nat (S n)) == (2 # 1) * inject_Z (2 ^ Z.of_nat n))%Q.
Proof.
  rewrite Nat2Z.inj_succ, Z.pow_succ_r by lia. rewrite inject_Z_mult. reflexivity.
Qed.

(** Powers of two outgrow every number. *)
Lemma pow2_unbounded (x : Q) : exists n, (x < inject_Z (2 ^ Z.of_nat n))%Q.
Proof.
  exists (Z.to_nat (Qceiling x)).
  eapply Qle_lt_trans; [apply Qle_ceiling|]. rewrite <- Zlt_Qlt.
  destruct (Z.le_gt_cases (Qceiling x) 0) as [Hle|Hgt].
  - eapply Z.le_lt_trans; [exact Hle|]. apply Z.pow_pos_nonneg; lia.
  - rewrite Z2Nat.id by lia. apply Z.pow_gt_lin_r; lia.
Qed.

Lemma Qdiv_lt_mult (x t y : Q) : (0 < t)%Q -> (x / t < y)%Q -> (x < t * y)%Q.
Proof.
  intros Ht H. assert (E : (x == x / t * t)%Q) by (field; lra).
  rewrite E, (Qmult_comm t). apply Qmult_lt_compat_r; assumption.
Qed.

(** The doubling loop ends on every positive tempo, above [lo] and, if
    it has doubled at all, at [2 * lo] at most. *)
Lemma double_up_ends (lo t : Q) :
  (0 < t)%Q ->
  exists F r, double_up F lo t = Some r /\ (lo < r)%Q /\ (r = t \/ r <= (2 # 1) * lo)%Q.
Proof.
  intros Ht.
  assert (Hn : forall n t, (0 < t)%Q -> (lo < t * inject_Z (2 ^ Z.of_nat n))%Q ->
            exists r, double_up (S n) lo t = Some r /\ (lo < r)%Q /\
                      (r = t \/ r <= (2 # 1) * lo)%Q).
  { clear t Ht. induction n as [|n IH]; intros t Ht Hlt.
    - exists t. cbn [double_up]. change (inject_Z (2 ^ Z.of_nat 0)) with 1%Q in Hlt.
      destruct (Qle_bool t lo) eqn:E; [apply Qle_bool_iff in E; lra|]. auto with qarith.
      split; [reflexivity|]. split; [lra | now left].
    - cbn [double_up]. destruct (Qle_bool t lo) eqn:E.
      + apply Qle_bool_iff in E.
        destruct (IH (t * (2 # 1))%Q) as (r & Hr & Hlo & Hup); [lra | |].
        * rewrite pow2_nat_succ in Hlt. lra.
        * exists r. split; [exact Hr|]. split; [exact Hlo|]. right.
          destruct Hup as [->|Hup]; lra.
      + exists t. split; [reflexivity|]. split; [|now left].
        apply Qnot_le_lt. intros H. apply Qle_bool_iff in H. congruence. }
  destruct (pow2_unbounded (lo / t)) as [n Hpow].
  exists (S n). apply Hn; [exact Ht|]. now apply Qdiv_lt_mult.
Qed.

(** The halving loop ends on every positive tempo when [hi] is
    positive, at [hi] at most and, if it has halved at all, above
    [hi / 2]. *)
Lemma halve_down_ends (hi t : Q) :
  (0 < hi)%Q -> (0 < t)%Q ->
  exists F r, halve_down F hi t = Some r /\ (r <= hi)%Q /\ (r = t \/ hi / (2 # 1) < r)%Q.
Proof.
  intros Hhi Ht.
  assert (Hn : forall n t, (0 < t)%Q -> (t <= hi * inject_Z (2 ^ Z.of_nat n))%Q ->
            exists r, halve_down (S n) hi t = Some r /\ (r <= hi)%Q /\
                      (r = t \/ hi / (2 # 1) < r)%Q).
  { clear t Ht. induction n as [|n IH]; intros t Ht Hle.
    - exists t. cbn [halve_down]. change (inject_Z (2 ^ Z.of_nat 0)) with 1%Q in Hle.
      assert (E : Qle_bool t hi = true) by (apply Qle_bool_iff; lra).
      rewrite E. split; [reflexivity|]. split; [lra | now left].
    - cbn [halve_down]. destruct (Qle_bool t hi) eqn:E.
      + apply Qle_bool_iff in E. exists t. split; [reflexivity|]. split; [exact E | now left].
      + assert (Hgt : (hi < t)%Q).
        { apply Qnot_le_lt. intros H. apply Qle_bool_iff in H. congruence. }
        destruct (IH (t / (2 # 1))%Q) as (r & Hr & Hup & Hlo).
        * apply Qlt_shift_div_l; lra.
        * rewrite pow2_nat_succ in Hle. apply Qle_shift_div_r; lra.
        * exists r. split; [exact Hr|]. split; [exact Hup|]. right.
          destruct Hlo as [->|Hlo]; [|exact Hlo].
          apply Qmult_lt_compat_r; [reflexivity | exact Hgt]. }
  destruct (pow2_unbounded (t / hi)) as [n Hpow].
  exists (S n). apply Hn; [exact Ht|]. apply Qlt_le_weak. now apply Qdiv_lt_mult.
Qed.

Lemma round_mono (x y : Q) : (x <= y)%Q -> (Js.round x <= Js.round y)%Z.
Proof. intros H. unfold Js.round. apply Qfloor_resp_le. lra. Qed.

(** The tempo of two peaks in time order: both loops end, and the
    rounded tempo lies in the range. *)
Lemma interval_step_ends (sampleRate lo hi : Q) (peak next : Peak) :
  (0 < sampleRate)%Q -> (0 < lo)%Q -> ((2 # 1) * lo <= hi)%Q ->
  position peak < position next ->
  exists F t,
    (Js.round lo <= t <= Js.round hi)%Z /\
    forall f groups, F <= f ->
      interval_step f sampleRate lo hi peak next groups =
      Some (if (some_interval t peak groups).1 then (some_interval t peak groups).2
            else (some_interval t peak groups).2 ++ [mkGroup t 1 []]).
Proof.
  intros Hsr Hlo Hhi Hpos.
  set (d := (inject_Z (Z.of_nat (position next)) - inject_Z (Z.of_nat (position peak)))%Q).
  assert (Hd : (0 < d)%Q).
  { unfold d. apply (Qplus_lt_l _ _ (inject_Z (Z.of_nat (position peak)))). ring_simplify.
    rewrite <- Zlt_Qlt. lia. }
  assert (Ht0 : (0 < (60 # 1) * sampleRate / d)%Q).
  { apply Qlt_shift_div_l; [exact Hd|]. lra. }
  destruct (double_up_ends lo _ Ht0) as (F1 & r1 & Hr1 & Hlo1 & Hup1).
  assert (Hr1pos : (0 < r1)%Q) by lra.
  destruct (halve_down_ends hi r1 ltac:(lra) Hr1pos) as (F2 & r2 & Hr2 & Hup2 & Hlo2).
  assert (Hrange : (lo < r2)%Q /\ (r2 <= hi)%Q).
  { split; [|exact Hup2]. destruct Hlo2 as [->|Hlo2]; [exact Hlo1|].
    apply Qle_lt_trans with (hi / (2 # 1))%Q; [|exact Hlo2].
    apply Qle_shift_div_l; lra. }
  exists (Nat.max F1 F2), (Js.round r2). split.
  - split; apply round_mono; lra.
  - intros f groups Hf. unfold interval_step, interval_tempo. fold d.
    destruct (Qeq_bool d 0) eqn:E; [apply Qeq_bool_eq in E; lra|].
    rewrite (double_up_more_fuel F1 f lo _ r1 ltac:(lia) Hr1).
    rewrite (halve_down_more_fuel F2 f hi _ r2 ltac:(lia) Hr2).
    cbv zeta. now destruct (some_interval (Js.round r2) peak groups) as [[] g].
Qed.

End TempoProperties.

(** ** BeatDetect: the intervals *)

Lemma sum_list_snoc (l : list nat) (x : nat) : sum_list (l ++ [x]) = sum_list l + x.
Proof. induction l as [|y l IH]; simpl in *; lia. Qed.

Section IntervalProperties.

Import BeatDetect.

Lemma some_interval_spec (t : Z) (peak : Peak) (groups : list Group) :
  (tempo <$> (some_interval t peak groups).2) = (tempo <$> groups) /\
  ((some_interval t peak groups).1 = true <-> t ∈ (tempo <$> groups)) /\
  ((some_interval t peak groups).1 = false -> (some_interval t peak groups).2 = groups) /\
  ((some_interval t peak groups).1 = true ->
   sum_list (count <$> (some_interval t peak groups).2) = S (sum_list (count <$> groups))) /\
  ((forall g, g ∈ groups -> count g = S (length (peaks g))) ->
   forall g, g ∈ (some_interval t peak groups).2 -> count g = S (length (peaks g))).
Proof.
  induction groups as [|g groups IH]; cbn [some_interval].
  - cbn. repeat split; try discriminate; auto.
    intros H. now apply elem_of_nil in H.
  - destruct (Z.eqb_spec (tempo g) t) as [E|E].
    + cbn [fst snd fmap list_fmap tempo count sum_list].
      repeat split; try discriminate; auto.
      * intros _. rewrite E. apply elem_of_cons. now left.
      * intros Hc g' Hg'. apply elem_of_cons in Hg' as [->|Hg'].
        -- cbn [count peaks]. rewrite length_app. cbn [length].
           rewrite (Hc g) by (apply elem_of_cons; now left). lia.
        -- apply Hc. apply elem_of_cons. now right.
    + destruct (some_interval t peak groups) as [found rest].
      cbn [fst snd] in *. destruct IH as (Ht & Hfound & Hsame & Hsum & Hcount).
      cbn [fmap list_fmap sum_list]. change (list_fmap _ _ ?f ?l) with (f <$> l).
      rewrite Ht. repeat split.
      * intros H. apply elem_of_cons. right. now apply Hfound.
      * intros H. apply elem_of_cons in H as [H|H]; [congruence | now apply Hfound].
      * intros H. now rewrite Hsame.
      * intros H. rewrite (Hsum H). lia.
      * intros Hc g' Hg'. apply elem_of_cons in Hg' as [->|Hg'].
        -- apply Hc. apply elem_of_cons. now left.
        -- apply Hcount; [|exact Hg']. intros g'' Hg''. apply Hc, elem_of_cons. now right.
Qed.

(** The two nested loops of [_getIntervals] go through the pairs of
    [interval_pairs] one after the other. *)
Lemma getIntervals_pairs (fuel : nat) (sampleRate lo hi : Q) (peaks : list Peak) :
  _getIntervals fuel sampleRate lo hi peaks =
  fold_left (fun groups '(peak, next) =>
               match groups with
               | Some groups => interval_step fuel sampleRate lo hi peak next groups
               | None => None
               end) (interval_pairs peaks) (Some []).
Proof.
  unfold _getIntervals, interval_pairs.
  generalize (Some (@nil Group)). generalize (imap pair peaks).
  induction l as [|[index peak] l IH]; intros g0; [reflexivity|].
  cbn [fold_left flat_map]. rewrite fold_left_app, IH. f_equal.
  generalize (seq 1 (Nat.min 9 (length peaks - 1 - index))). clear.
  intros l. revert g0. induction l as [|i l IH]; intros g0; [reflexivity|].
  cbn [fold_left omap list_omap]. change (list_omap ?f ?l) with (omap f l).
  destruct (peaks !! (index + i)) as [next|]; cbn [fmap option_fmap option_map].
  - cbn [fold_left]. rewrite IH. now destruct g0.
  - rewrite IH. now destruct g0.
Qed.

Lemma interval_pairs_in_order (peaks : list Peak) (p q : Peak) :
  in_time_order peaks -> (p, q) ∈ interval_pairs peaks -> position p < position q.
Proof.
  intros Hsorted Hin. unfold interval_pairs in Hin.
  apply list_elem_of_In, in_flat_map in Hin. destruct Hin as ([index peak] & Hip & Hin).
  apply list_elem_of_In, elem_of_lookup_imap in Hip. destruct Hip as (k & x & [= -> ->] & Hk).
  apply list_elem_of_In, list_elem_of_omap in Hin. destruct Hin as (i & Hi & Hq).
  apply elem_of_seq in Hi.
  destruct (peaks !! (k + i)) as [next|] eqn:Hnext; [|discriminate].
  injection Hq as <- <-. apply (Hsorted k (k + i)); [lia | exact Hk | exact Hnext].
Qed.

(** Going through pairs in time order: the loops end, every group
    keeps a tempo of its own within the range, and every pair adds one to
    one count. *)
Lemma intervals_fold (sampleRate lo hi : Q) (pairs : list (Peak * Peak)) :
  (0 < sampleRate)%Q -> (0 < lo)%Q -> ((2 # 1) * lo <= hi)%Q ->
  (forall p q, (p, q) ∈ pairs -> position p < position q) ->
  forall groups0,
    NoDup (tempo <$> groups0) ->
    (forall g, g ∈ groups0 ->
       (Js.round lo <= tempo g <= Js.round hi)%Z /\ count g = S (length (peaks g))) ->
    exists groups F,
      (forall f, F <= f ->
         fold_left (fun groups '(peak, next) =>
                      match groups with
                      | Some groups => interval_step f sampleRate lo hi peak next groups
                      | None => None
                      end) pairs (Some groups0) = Some groups) /\
      NoDup (tempo <$> groups) /\
      (forall g, g ∈ groups ->
         (Js.round lo <= tempo g <= Js.round hi)%Z /\ count g = S (length (peaks g))) /\
      sum_list (count <$> groups) = sum_list (count <$> groups0) + length pairs /\
      (length groups0 <= length groups) /\
      (pairs <> [] -> groups <> []).
Proof.
  intros Hsr Hlo Hhi. induction pairs as [|[p q] pairs IH]; intros Hord groups0 Hnd Hinv.
  - exists groups0, 0. repeat split; try assumption; try apply Hinv; auto;
      try (cbn [length]; lia).
  - destruct (interval_step_ends sampleRate lo hi p q Hsr Hlo Hhi) as (F1 & t & Ht & Hstep).
    { apply Hord. apply elem_of_cons. now left. }
    destruct (some_interval_spec t p groups0) as (Etempo & Hfound & Hsame & Hsum & Hcount).
    set (groups1 := if (some_interval t p groups0).1 then (some_interval t p groups0).2
                    else (some_interval t p groups0).2 ++ [mkGroup t 1 []]) in *.
    assert (H1 : NoDup (tempo <$> groups1) /\
                 (forall g, g ∈ groups1 ->
                    (Js.round lo <= tempo g <= Js.round hi)%Z /\
                    count g = S (length (peaks g))) /\
                 sum_list (count <$> groups1) = S (sum_list (count <$> groups0)) /\
                 length groups0 <= length groups1 /\ groups1 <> []).
    { unfold groups1. destruct ((some_interval t p groups0).1) eqn:E.
      - split; [now rewrite Etempo|]. split; [|split; [now apply Hsum|]].
        + intros g Hg. split; [|apply Hcount; [apply Hinv | exact Hg]].
          assert (Hin : tempo g ∈ (tempo <$> groups0)).
          { rewrite <- Etempo. apply list_elem_of_fmap. now exists g. }
          apply list_elem_of_fmap in Hin. destruct Hin as (g0 & -> & Hg0). now apply Hinv.
        + assert (Hl : length (some_interval t p groups0).2 = length groups0).
          { rewrite <- (length_fmap tempo), Etempo. apply length_fmap. }
          rewrite Hl. split; [lia|].
          intros Hnil. rewrite Hnil in Hl. cbn in Hl.
          assert (Hin : t ∈ (tempo <$> groups0)) by now apply Hfound.
          destruct groups0; [now apply elem_of_nil in Hin | discriminate].
      - rewrite (Hsame eq_refl). split; [|split; [|split; [|split]]].
        + rewrite fmap_app. cbn [fmap list_fmap tempo]. apply NoDup_app. split; [exact Hnd|].
          split; [|apply NoDup_singleton].
          intros x Hx Hx'. apply list_elem_of_singleton in Hx'. subst x.
          apply Hfound in Hx. congruence.
        + intros g Hg. apply elem_of_app in Hg as [Hg|Hg]; [now apply Hinv|].
          apply list_elem_of_singleton in Hg. subst g. cbn [tempo count peaks length]. auto.
        + rewrite fmap_app. change (count <$> [mkGroup t 1 []]) with [1].
          rewrite sum_list_snoc. lia.
        + rewrite length_app. lia.
        + now destruct groups0. }
    destruct H1 as (Hnd1 & Hinv1 & Hsum1 & Hlen1 & Hne1).
    destruct (IH ltac:(intros; apply Hord, elem_of_cons; now right) groups1 Hnd1 Hinv1)
      as (groups & F2 & Hrun & Hnd2 & Hinv2 & Hsum2 & Hlen2 & _).
    exists groups, (Nat.max F1 F2). repeat split; try assumption; try apply Hinv2; auto.
    + intros f Hf. cbn [fold_left]. rewrite (Hstep f groups0 ltac:(lia)).
      fold groups1. apply Hrun. lia.
    + rewrite Hsum2, Hsum1. cbn [length]. lia.
    + lia.
    + intros _ ->. destruct groups1; [congruence | cbn in Hlen2; lia].
Qed.

Lemma length_interval_pairs_small (peaks : list Peak) :
  length peaks < 2 -> interval_pairs peaks = [].
Proof.
  intros H. unfold interval_pairs.
  destruct peaks as [|p [|q peaks]]; [reflexivity | reflexivity | cbn in H; lia].
Qed.

Lemma interval_pairs_nonempty (peaks : list Peak) :
  2 <= length peaks -> interval_pairs peaks <> [].
Proof.
  intros H. destruct peaks as [|p [|q peaks]]; [cbn in H; lia | cbn in H; lia |].
  unfold interval_pairs. cbn [imap flat_map]. cbn [length].
  replace (Nat.min 9 (S (S (length peaks)) - 1 - 0)) with (S (Nat.min 8 (length peaks)))
    by lia.
  cbn [seq omap list_omap lookup list_lookup Nat.add fmap option_fmap option_map app].
  discriminate.
Qed.

Lemma no_group_iff (peaks : list Peak) (groups : list Group) :
  (forall g, g ∈ groups -> count g = S (length (BeatDetect.peaks g))) ->
  sum_list (count <$> groups) = length (interval_pairs peaks) ->
  (interval_pairs peaks <> [] -> groups <> []) ->
  groups = [] <-> length peaks < 2.
Proof.
  intros Hinv Hsum Hne. split.
  - intros ->. destruct (Nat.lt_ge_cases (length peaks) 2) as [|Hge]; [assumption|].
    now contradiction (Hne (interval_pairs_nonempty peaks Hge)).
  - intros Hlt. rewrite (length_interval_pairs_small peaks Hlt) in Hsum.
    cbn in Hsum. destruct groups as [|g groups]; [reflexivity|].
    pose proof (Hinv g ltac:(apply elem_of_cons; now left)) as Hc.
    simpl in Hsum. lia.
Qed.

(** X24. For peaks in time order, a positive sample rate and a tempo
    range with [0 < lo] and [2 * lo <= hi], [_getIntervals] ends (its
    doubling and halving loops end at every pair) and returns groups such
    that: no two groups have the same tempo; every tempo is an integer
    between [round(lo)] and [round(hi)]; each group holds one peak less
    than its count; the counts add up to the number of pairs compared;
    and there is a group exactly when there are two peaks or more. *)
Theorem getIntervals_groups (sampleRate lo hi : Q) (peaks : list Peak) :
  (0 < sampleRate)%Q -> (0 < lo)%Q -> ((2 # 1) * lo <= hi)%Q ->
  in_time_order peaks ->
  exists groups F,
    (forall fuel, F <= fuel -> _getIntervals fuel sampleRate lo hi peaks = Some groups) /\
    NoDup (tempo <$> groups) /\
    (forall g, g ∈ groups ->
       (Js.round lo <= tempo g <= Js.round hi)%Z /\ count g = S (length (BeatDetect.peaks g))) /\
    sum_list (count <$> groups) = length (interval_pairs peaks) /\
    (groups = [] <-> length peaks < 2).
Proof.
  intros Hsr Hlo Hhi Hord.
  destruct (intervals_fold sampleRate lo hi (interval_pairs peaks) Hsr Hlo Hhi
              ltac:(intros; now apply (interval_pairs_in_order peaks)) [])
    as (groups & F & Hrun & Hnd & Hinv & Hsum & _ & Hne).
  { constructor. }
  { intros g Hg. now apply elem_of_nil in Hg. }
  exists groups, F. split; [|split; [exact Hnd | split; [exact Hinv | split; [exact Hsum|]]]].
  - intros fuel Hf. rewrite getIntervals_pairs. now apply Hrun.
  - apply no_group_iff; [intros g Hg; now apply Hinv | exact Hsum | exact Hne].
Qed.

End IntervalProperties.

(** ** BeatDetect: the peaks *)

Lemma StronglySorted_lookup_lt {A} (R : A -> A -> Prop) (l : list A) (i j : nat) (a b : A) :
  StronglySorted R l -> i < j -> l !! i = Some a -> l !! j = Some b -> R a b.
Proof.
  intros Hl. revert i j. induction Hl as [|x l Hl IH Hx]; intros i j Hij Ha Hb;
    [discriminate|].
  destruct j as [|j]; [lia|]. cbn in Hb. destruct i as [|i].
  - injection Ha as <-. rewrite Forall_forall in Hx. apply Hx.
    eapply list_elem_of_lookup_2; eauto.
  - cbn in Ha. apply (IH i j); [lia | assumption | assumption].
Qed.

Section PeakProperties.

Import BeatDetect.

Variables (partSize : nat) (dataL dataR : list Q).

Hypothesis partSize_pos : 0 < partSize.
Hypothesis same_length : length dataL = length dataR.

(** [m] is the loudest frame of the part [i]. *)
Let loudest (i : nat) (m : Peak) : Prop :=
  i * partSize <= position m < (i + 1) * partSize /\
  position m < length dataL /\
  frame_volume dataL dataR (position m) = Some (volume m) /\
  forall j v, i * partSize <= j < (i + 1) * partSize ->
    frame_volume dataL dataR j = Some v -> (v <= volume m)%Q.

Lemma frame_volume_Some (j : nat) :
  j < length dataL -> exists l r, dataL !! j = Some l /\ dataR !! j = Some r.
Proof.
  intros Hj. destruct (lookup_lt_is_Some_2 dataL j Hj) as [l Hl].
  destruct (lookup_lt_is_Some_2 dataR j ltac:(lia)) as [r Hr]. eauto.
Qed.

Lemma part_max_loudest (i : nat) :
  i * partSize < length dataL ->
  exists m, part_max dataL dataR (i * partSize) ((i + 1) * partSize) = Some m /\ loudest i m.
Proof.
  intros Hi. unfold part_max.
  replace ((i + 1) * partSize - i * partSize) with partSize by lia.
  set (from := i * partSize) in *.
  set (step := fun (max : option Peak) (j : nat) =>
                 match dataL !! j, dataR !! j with
                 | Some l, Some r =>
                     let volume := Qmax (Js.abs l) (Js.abs r) in
                     match max with
                     | None => Some (mkPeak j volume)
                     | Some m => if Qlt_le_dec (BeatDetect.volume m) volume
                                 then Some (mkPeak j volume) else max
                     end
                 | _, _ => max
                 end).
  assert (Hk : forall k, 0 < k ->
            exists m, fold_left step (seq from k) None = Some m /\
                      from <= position m < from + k /\ position m < length dataL /\
                      frame_volume dataL dataR (position m) = Some (volume m) /\
                      forall j v, from <= j < from + k ->
                        frame_volume dataL dataR j = Some v -> (v <= volume m)%Q).
  { induction k as [|k IH]; intros Hk; [lia|].
    rewrite seq_S, fold_left_app. cbn [fold_left].
    destruct k as [|k].
    - cbn [seq fold_left]. rewrite Nat.add_0_r.
      destruct (frame_volume_Some from Hi) as (l & r & Hl & Hr).
      unfold step. rewrite Hl, Hr. cbv zeta. eexists. split; [reflexivity|].
      cbn [position volume]. split; [lia|]. split; [exact Hi|]. split.
      + unfold frame_volume. now rewrite Hl, Hr.
      + intros j v Hj Hv. replace j with from in Hv by lia.
        unfold frame_volume in Hv. rewrite Hl, Hr in Hv. injection Hv as <-.
        apply Qle_refl.
    - destruct (IH ltac:(lia)) as (m & Hm & Hpos & Hlen & Hvol & Hmax). rewrite Hm.
      unfold step at 1.
      destruct (dataL !! (from + S k)) as [l|] eqn:Hl;
        [destruct (dataR !! (from + S k)) as [r|] eqn:Hr|].
      + cbv zeta. destruct (Qlt_le_dec (volume m) (Qmax (Js.abs l) (Js.abs r))) as [Hlt|Hle].
        * eexists. split; [reflexivity|]. cbn [position volume].
          split; [lia|]. split; [eapply lookup_lt_Some; eauto|]. split.
          -- unfold frame_volume. now rewrite Hl, Hr.
          -- intros j v Hj Hv. destruct (decide (j = from + S k)) as [->|Hne].
             ++ unfold frame_volume in Hv. rewrite Hl, Hr in Hv. injection Hv as <-.
                apply Qle_refl.
             ++ apply Qle_trans with (volume m); [|now apply Qlt_le_weak].
                apply (Hmax j v); [lia | exact Hv].
        * exists m. split; [reflexivity|]. split; [lia|]. split; [exact Hlen|].
          split; [exact Hvol|].
          intros j v Hj Hv. destruct (decide (j = from + S k)) as [->|Hne].
          -- unfold frame_volume in Hv. rewrite Hl, Hr in Hv. injection Hv as <-. exact Hle.
          -- apply (Hmax j v); [lia | exact Hv].
      + exists m. split; [reflexivity|]. split; [lia|]. split; [exact Hlen|].
        split; [exact Hvol|].
        intros j v Hj Hv. destruct (decide (j = from + S k)) as [->|Hne].
        * unfold frame_volume in Hv. rewrite Hl, Hr in Hv. discriminate.
        * apply (Hmax j v); [lia | exact Hv].
      + exists m. split; [reflexivity|]. split; [lia|]. split; [exact Hlen|].
        split; [exact Hvol|].
        intros j v Hj Hv. destruct (decide (j = from + S k)) as [->|Hne].
        * unfold frame_volume in Hv. rewrite Hl in Hv. discriminate.
        * apply (Hmax j v); [lia | exact Hv]. }
  destruct (Hk partSize partSize_pos) as (m & Hm & Hpos & Hlen & Hvol & Hmax).
  exists m. split; [exact Hm|]. unfold loudest. fold from.
  replace ((i + 1) * partSize) with (from + partSize) by (unfold from; lia).
  auto.
Qed.

Lemma parts_in_range (i : nat) :
  i < (length dataL + partSize - 1) / partSize -> i * partSize < length dataL.
Proof.
  intros Hi.
  pose proof (Nat.Div0.mul_div_le (length dataL + partSize - 1) partSize) as H.
  nia.
Qed.

(** The first loop of [_getPeaks]: one peak per part, the loudest frame
    of the part. *)
Lemma part_maxima (k : nat) :
  k <= (length dataL + partSize - 1) / partSize ->
  let maxima :=
    fold_left (fun peaks i =>
                 match part_max dataL dataR (i * partSize) ((i + 1) * partSize) with
                 | Some max => peaks ++ [max]
                 | None => peaks
                 end) (seq 0 k) [] in
  length maxima = k /\
  forall i, i < k -> exists m, maxima !! i = Some m /\ loudest i m.
Proof.
  cbv zeta. induction k as [|k IH]; intros Hk.
  - split; [reflexivity | intros; lia].
  - destruct (IH ltac:(lia)) as [Hlen Hall].
    rewrite seq_S, fold_left_app. cbn [fold_left Nat.add].
    destruct (part_max_loudest k (parts_in_range k ltac:(lia))) as (m & -> & Hm).
    split; [rewrite length_app; cbn [length]; lia|].
    intros i Hi. destruct (decide (i = k)) as [->|Hne].
    + exists m. split; [|exact Hm].
      rewrite lookup_app_r by lia. now rewrite Hlen, Nat.sub_diag.
    + destruct (Hall i ltac:(lia)) as (m' & Hm' & Hl').
      exists m'. split; [|exact Hl']. now apply lookup_app_l_Some.
Qed.

Lemma louder_asym (a b : Peak) : louder a b = true -> louder b a = false.
Proof.
  unfold louder. destruct (Qlt_le_dec (volume b) (volume a)); [|discriminate].
  destruct (Qlt_le_dec (volume a) (volume b)); [lra | reflexivity].
Qed.

Lemma louder_trans (a b c : Peak) :
  louder b a = false -> louder c b = false -> louder c a = false.
Proof.
  unfold louder.
  destruct (Qlt_le_dec (volume a) (volume b)); [discriminate|].
  destruct (Qlt_le_dec (volume b) (volume c)); [discriminate|].
  destruct (Qlt_le_dec (volume a) (volume c)); [lra | reflexivity].
Qed.

Lemma earlier_asym (a b : Peak) : earlier a b = true -> earlier b a = false.
Proof. unfold earlier. destruct (Nat.ltb_spec (position a) (position b)); [|discriminate].
  intros _. apply Nat.ltb_ge. lia.
Qed.

Lemma earlier_trans (a b c : Peak) :
  earlier b a = false -> earlier c b = false -> earlier c a = false.
Proof. unfold earlier. rewrite !Nat.ltb_ge. lia. Qed.

Lemma part_div (i j : nat) :
  j / partSize = i <-> i * partSize <= j < (i + 1) * partSize.
Proof.
  split.
  - intros <-. pose proof (Nat.Div0.mul_div_le j partSize).
    pose proof (Nat.mul_succ_div_gt j partSize ltac:(lia)). lia.
  - intros H. symmetry. apply Nat.div_unique with (j - i * partSize); lia.
Qed.

Lemma loudest_part (i : nat) (m : Peak) : loudest i m -> position m / partSize = i.
Proof. intros (H & _). now apply part_div. Qed.

(** What [_getPeaks] returns, in terms of the loudest frames of the
    parts: they are sorted by volume, the first half is kept and sorted
    by time. *)
Lemma getPeaks_kept :
  let parts := (length dataL + partSize - 1) / partSize in
  exists maxima,
    length maxima = parts /\
    (forall i, i < parts -> exists m, maxima !! i = Some m /\ loudest i m) /\
    _getPeaks partSize dataL dataR =
    Some (sort_by earlier
            (take (length (sort_by louder maxima) / 2) (sort_by louder maxima))).
Proof.
  intros parts. unfold _getPeaks.
  destruct (Nat.eqb_spec partSize 0) as [|_]; [lia|]. cbv zeta.
  destruct (part_maxima parts (le_n _)) as [Hlen Hall]. cbv zeta in Hlen, Hall.
  fold parts. set (maxima := fold_left _ (seq 0 parts) []) in *.
  exists maxima. split; [exact Hlen|]. split; [exact Hall | reflexivity].
Qed.

Lemma getPeaks_in_order :
  let parts := (length dataL + partSize - 1) / partSize in
  exists peaks,
    _getPeaks partSize dataL dataR = Some peaks /\
    length peaks = parts / 2 /\
    in_time_order peaks.
Proof.
  intros parts. destruct getPeaks_kept as (maxima & Hlen & Hall & Hrun).
  fold parts in Hlen, Hall.
  set (sorted := sort_by louder maxima) in *.
  set (kept := take (length sorted / 2) sorted) in *.
  assert (Hperm : sorted ≡ₚ maxima) by apply sort_by_Permutation.
  assert (Hnodup : NoDup (position <$> maxima)).
  { apply NoDup_alt. intros i j x Hi Hj.
    rewrite list_lookup_fmap in Hi, Hj.
    destruct (maxima !! i) as [a|] eqn:Ha; [|discriminate].
    destruct (maxima !! j) as [b|] eqn:Hb; [|discriminate].
    cbn in Hi, Hj. injection Hi as Hi. injection Hj as Hj.
    pose proof (lookup_lt_Some _ _ _ Ha) as Hlta. pose proof (lookup_lt_Some _ _ _ Hb) as Hltb.
    rewrite Hlen in Hlta, Hltb.
    destruct (Hall i Hlta) as (a' & Ha' & Hla). destruct (Hall j Hltb) as (b' & Hb' & Hlb).
    rewrite Ha in Ha'. rewrite Hb in Hb'. injection Ha' as <-. injection Hb' as <-.
    rewrite <- (loudest_part i a Hla), <- (loudest_part j b Hlb). congruence. }
  assert (Hout : sort_by earlier kept ≡ₚ kept) by apply sort_by_Permutation.
  assert (Hosorted : StronglySorted (fun a b => earlier b a = false) (sort_by earlier kept))
    by (apply sort_by_sorted; [apply earlier_asym | apply earlier_trans]).
  exists (sort_by earlier kept). split; [exact Hrun|]. split.
  - rewrite length_sort_by. unfold kept. rewrite length_take.
    unfold sorted. rewrite length_sort_by, Hlen.
    pose proof (Nat.Div0.div_le_upper_bound parts 2 parts ltac:(lia)). lia.
  - intros i j p q Hij Hp Hq.
    pose proof (StronglySorted_lookup_lt _ _ i j p q Hosorted Hij Hp Hq) as Hle.
    unfold earlier in Hle. apply Nat.ltb_ge in Hle.
    assert (Hnd : NoDup (position <$> sort_by earlier kept)).
    { rewrite Hout. unfold kept. rewrite fmap_take.
      eapply sublist_NoDup; [|apply sublist_take]. now rewrite Hperm. }
    assert (Hne : position p <> position q).
    { intros E. pose proof (proj1 (NoDup_alt _) Hnd) as Hnd'.
      assert (i = j); [|lia].
      apply (Hnd' i j (position p)); rewrite list_lookup_fmap.
      - now rewrite Hp.
      - rewrite Hq. cbn. now rewrite E. }
    lia.
Qed.

(** X25. [_getPeaks] on the two channels of a buffer, with a positive
    part size: it cuts the data into parts of [partSize] frames (the
    last one may be shorter) and returns half as many peaks as parts
    (rounded down), in time order and at distinct frames.  Each peak is
    the loudest frame of its part, with its volume the larger magnitude
    of the two channels there; and every part either has its peak
    returned or is no louder, at any frame, than any peak returned. *)
Theorem getPeaks_loudest_half :
  let parts := (length dataL + partSize - 1) / partSize in
  exists peaks,
    _getPeaks partSize dataL dataR = Some peaks /\
    length peaks = parts / 2 /\
    in_time_order peaks /\
    (forall p, p ∈ peaks ->
       position p < length dataL /\
       frame_volume dataL dataR (position p) = Some (volume p) /\
       forall j v, j / partSize = position p / partSize ->
         frame_volume dataL dataR j = Some v -> (v <= volume p)%Q) /\
    (forall i, i < parts ->
       (exists p, p ∈ peaks /\ position p / partSize = i) \/
       (forall p j v, p ∈ peaks -> j / partSize = i ->
          frame_volume dataL dataR j = Some v -> (v <= volume p)%Q)).
Proof.
  intros parts.
  destruct getPeaks_in_order as (peaks & Hpeaks & Hcount & Hord).
  destruct getPeaks_kept as (maxima & Hlen & Hall & Hrun).
  fold parts in Hcount, Hlen, Hall.
  exists peaks. split; [exact Hpeaks|]. split; [exact Hcount|]. split; [exact Hord|].
  set (sorted := sort_by louder maxima) in *.
  set (kept := take (length sorted / 2) sorted) in *.
  rewrite Hrun in Hpeaks. apply (inj Some) in Hpeaks. subst peaks. clear Hcount Hord Hrun.
  assert (Hperm : sorted ≡ₚ maxima) by apply sort_by_Permutation.
  assert (Hsorted : StronglySorted (fun a b => louder b a = false) sorted)
    by (apply sort_by_sorted; [apply louder_asym | apply louder_trans]).
  assert (Hmax : forall m, m ∈ maxima -> exists i, i < parts /\ loudest i m).
  { intros m Hm. apply list_elem_of_lookup in Hm as [i Hi].
    pose proof (lookup_lt_Some _ _ _ Hi) as Hlt. rewrite Hlen in Hlt.
    destruct (Hall i Hlt) as (m' & Hm' & Hl). exists i. split; [exact Hlt|]. congruence. }
  assert (Hkept : forall p, p ∈ kept -> p ∈ maxima).
  { intros p Hp. rewrite <- Hperm. unfold kept in Hp.
    apply list_elem_of_lookup in Hp as [i Hi]. apply lookup_take_Some in Hi as [Hi _].
    eapply list_elem_of_lookup_2; eauto. }
  assert (Hout : sort_by earlier kept ≡ₚ kept) by apply sort_by_Permutation.
  split.
  - intros p Hp. rewrite Hout in Hp. apply Hkept, Hmax in Hp as (i & _ & Hl).
    pose proof (loudest_part i p Hl) as Hi. destruct Hl as (Hr & Hlt & Hv & Hm).
    split; [exact Hlt|]. split; [exact Hv|].
    intros j v Hj Hjv. apply (Hm j v); [|exact Hjv]. apply part_div. congruence.
  - intros i Hi. destruct (Hall i Hi) as (m & Hm & Hl).
    assert (Hin : m ∈ sorted).
    { rewrite Hperm. eapply list_elem_of_lookup_2; eauto. }
    apply list_elem_of_lookup in Hin as [k Hk].
    destruct (Nat.lt_ge_cases k (length sorted / 2)) as [Hlt|Hge].
    + left. exists m. split; [|now apply loudest_part].
      rewrite Hout. unfold kept. eapply list_elem_of_lookup_2.
      apply lookup_take_Some. split; [exact Hk | exact Hlt].
    + right. intros p j v Hp Hj Hv. rewrite Hout in Hp.
      apply list_elem_of_lookup in Hp as [k' Hk']. unfold kept in Hk'.
      apply lookup_take_Some in Hk' as [Hk' Hlt'].
      pose proof (StronglySorted_lookup_lt _ _ k' k p m Hsorted ltac:(lia) Hk' Hk) as Hle.
      unfold louder in Hle.
      destruct (Qlt_le_dec (volume p) (volume m)) as [|Hle']; [discriminate|].
      apply Qle_trans with (volume m); [|exact Hle'].
      destruct Hl as (_ & _ & _ & Hm'). apply (Hm' j v); [|exact Hv]. now apply part_div.
Qed.

End PeakProperties.

(** ** BeatDetect: the tempo reported *)

Section BpmProperties.

Import BeatDetect.

Lemma more_counted_asym (a b : Group) : more_counted a b = true -> more_counted b a = false.
Proof. unfold more_counted. rewrite Nat.ltb_lt, Nat.ltb_ge. lia. Qed.

Lemma more_counted_trans (a b c : Group) :
  more_counted b a = false -> more_counted c b = false -> more_counted c a = false.
Proof. unfold more_counted. rewrite !Nat.ltb_ge. lia. Qed.

(** X26. The analysis of a rendered buffer ends, and what it reports
    depends on the length only through the number of half-second parts:
    with fewer than four parts there are fewer than two peaks, no
    interval, and [top[0].tempo] is a TypeError (the promise of
    [getBeatInfo] is rejected); with four parts or more the [bpm] is an
    integer between [round(lo)] and [round(hi)], the tempo of a group
    that no other group outnumbers.  (Positive sample rate and part size,
    [0 < lo], [2 * lo <= hi].) *)
Theorem processRenderedBuffer_bpm (sampleRate lo hi : Q) (partSize : nat)
    (dataL dataR : list Q) :
  (0 < sampleRate)%Q -> (0 < lo)%Q -> ((2 # 1) * lo <= hi)%Q ->
  0 < partSize -> length dataL = length dataR ->
  let parts := (length dataL + partSize - 1) / partSize in
  exists F peaks groups,
    _getPeaks partSize dataL dataR = Some peaks /\
    forall fuel, F <= fuel ->
      _getIntervals fuel sampleRate lo hi peaks = Some groups /\
      (parts < 4 ->
       _processRenderedBuffer fuel sampleRate lo hi partSize dataL dataR =
       Some (inl TypeError)) /\
      (4 <= parts ->
       exists first,
         _processRenderedBuffer fuel sampleRate lo hi partSize dataL dataR =
         Some (inr (tempo first)) /\
         first ∈ groups /\
         (Js.round lo <= tempo first <= Js.round hi)%Z /\
         forall g, g ∈ groups -> count g <= count first).
Proof.
  intros Hsr Hlo Hhi Hps Hlen parts.
  destruct (getPeaks_in_order partSize dataL dataR Hps Hlen)
    as (peaks & Hpeaks & Hcount & Hord).
  fold parts in Hcount.
  destruct (intervals_fold sampleRate lo hi (interval_pairs peaks) Hsr Hlo Hhi
              ltac:(intros; now apply (interval_pairs_in_order peaks)) [])
    as (groups & F & Hrun' & _ & Hinv & Hsum & _ & Hne).
  { constructor. }
  { intros g Hg. now apply elem_of_nil in Hg. }
  assert (Hrun : forall fuel, F <= fuel ->
            _getIntervals fuel sampleRate lo hi peaks = Some groups)
    by (intros fuel Hf; rewrite getIntervals_pairs; now apply Hrun').
  assert (Hempty : groups = [] <-> length peaks < 2)
    by (apply no_group_iff; [intros g Hg; now apply Hinv | exact Hsum | exact Hne]).
  exists F, peaks, groups. split; [exact Hpeaks|].
  intros fuel Hf. split; [now apply Hrun|].
  unfold _processRenderedBuffer. rewrite Hpeaks, (Hrun fuel Hf). cbv zeta.
  assert (Hparts : length peaks < 2 <-> parts < 4).
  { rewrite Hcount. pose proof (Nat.Div0.mul_div_le parts 2).
    pose proof (Nat.mul_succ_div_gt parts 2 ltac:(lia)). lia. }
  split.
  - intros Hlt. assert (groups = []) as -> by (apply Hempty, Hparts, Hlt). reflexivity.
  - intros Hge.
    assert (Hsorted : StronglySorted (fun a b => more_counted b a = false)
                        (sort_by more_counted groups))
      by (apply sort_by_sorted; [apply more_counted_asym | apply more_counted_trans]).
    assert (Hperm : sort_by more_counted groups ≡ₚ groups) by apply sort_by_Permutation.
    destruct (sort_by more_counted groups) as [|first rest] eqn:E.
    + apply Permutation_nil_l in Hperm. subst groups.
      assert (length peaks < 2) by now apply Hempty. lia.
    + exists first. split; [reflexivity|].
      assert (Hin : first ∈ groups) by (rewrite <- Hperm; apply elem_of_cons; now left).
      split; [exact Hin|]. split; [apply Hinv, Hin|].
      intros g Hg. rewrite <- Hperm in Hg. apply elem_of_cons in Hg as [->|Hg]; [lia|].
      apply StronglySorted_inv in Hsorted as [_ Hall]. rewrite Forall_forall in Hall.
      specialize (Hall g Hg). unfold more_counted in Hall. apply Nat.ltb_ge in Hall. exact Hall.
Qed.

End BpmProperties.

(** * Further worked examples *)

(** The region from 7/44100 s to 1/2048 s of the tape: frames 7 to 21
    of 10. *)
Lemma renderOfflineEffect_out_of_range_witness :
  Js.floor (Js.mul t7 (sampleRate tape)) = 7%Z /\
  Js.floor (Js.mul (1 # 2048) (sampleRate tape)) = 21%Z /\
  exists extra,
    renderOfflineEffect probe_render 0 t7 (1 # 2048) "distortion" tape_params [tape] =
    Throw RangeError ([tape] ++ extra).
Proof.
  split; [vm_compute; reflexivity|]. split; [vm_compute; reflexivity|].
  destruct (renderOfflineEffect_out_of_range probe_render [tape] 0 tape
              t7 (1 # 2048) "distortion" tape_params) as (extra & Hrun & _).
  - reflexivity.
  - exact wf_tape.
  - vm_compute; reflexivity.
  - vm_compute; reflexivity.
  - right. vm_compute; reflexivity.
  - now exists extra.
Defined.

Lemma freeze_out_of_range_witness :
  Js.floor (Js.mul t5 (sampleRate tape)) = 5%Z /\
  Js.floor (Js.mul (1 # 1024) (sampleRate tape)) = 43%Z /\
  exists extra,
    freezeCurrentEffect probe_render (Some (mkRegion t5 (1 # 1024))) 0 "delay" tape_params
      [tape] = Ok None ([tape] ++ extra).
Proof.
  split; [vm_compute; reflexivity|]. split; [vm_compute; reflexivity|].
  destruct (freeze_out_of_range probe_render [tape] (mkRegion t5 (1 # 1024)) 0 tape
              "delay" tape_params) as (extra & Hrun & _).
  - reflexivity.
  - exact wf_tape.
  - reflexivity.
  - vm_compute; reflexivity.
  - vm_compute; reflexivity.
  - right. vm_compute; reflexivity.
  - now exists extra.
Defined.

(** A region dragged backwards, from frame 7 to frame 3. *)
Lemma freeze_degenerate_region_witness :
  (Js.floor (Js.mul t3 (sampleRate tape)) - Js.floor (Js.mul t7 (sampleRate tape)) = -4)%Z /\
  freezeCurrentEffect probe_render (Some (mkRegion t7 t3)) 0 "bitcrush" tape_params
    [tape] = Ok (Some 0) [tape].
Proof.
  split; [vm_compute; reflexivity|].
  apply (freeze_degenerate_region probe_render [tape] (mkRegion t7 t3) 0
           tape "bitcrush" tape_params).
  - reflexivity.
  - reflexivity.
  - vm_compute; reflexivity.
  - vm_compute; reflexivity.
  - vm_compute; discriminate.
Defined.

(** Frames 3 to 7 of the tape, frozen with the delay at half volume. *)
Lemma freeze_bakes_region_witness :
  Js.floor (Js.mul t3 (sampleRate tape)) = 3%Z /\
  Js.floor (Js.mul t7 (sampleRate tape)) = 7%Z /\
  exists temp clip final,
    freezeCurrentEffect probe_render (Some (mkRegion t3 t7)) 0 "delay" tape_params
      [tape] = Ok (Some 3) ([tape] ++ [temp; clip; final]) /\
    sample final 0 2 = Some (-3 # 8)%Q /\
    sample final 0 7 = Some (1 # 8)%Q /\
    sample final 0 3 = (fun x => x * (1 # 2))%Q <$> sample clip 0 0 /\
    sample final 1 6 = (fun x => x * (1 # 2))%Q <$> sample clip 1 3.
Proof.
  split; [vm_compute; reflexivity|]. split; [vm_compute; reflexivity|].
  destruct (freeze_bakes_region probe_render [tape] (mkRegion t3 t7) 0
              tape "delay" tape_params (1 # 2))
    as (temp & clip & final & Hrun & _ & _ & _ & _ & _ & Hout & Hin).
  - reflexivity.
  - exact wf_tape.
  - reflexivity.
  - reflexivity.
  - vm_compute; discriminate.
  - vm_compute; reflexivity.
  - vm_compute; discriminate.
  - exists temp, clip, final. split; [exact Hrun|]. split; [|split; [|split]].
    + rewrite (Hout 0 2); [reflexivity | left; vm_compute; reflexivity].
    + rewrite (Hout 0 7); [reflexivity | right; vm_compute; discriminate].
    + apply (Hin 0 3); [cbn; lia | split; [vm_compute; discriminate | vm_compute; reflexivity]].
    + apply (Hin 1 6); [cbn; lia | split; [vm_compute; discriminate | vm_compute; reflexivity]].
Defined.

Lemma reverseRange_permutes_witness :
  [tape] !! 0 = Some tape /\ wf_buffer tape /\
  exists nb,
    reverseRange 0 (-1 # 1) t7 [tape] = Ok 1 ([tape] ++ [nb]) /\
    Forall2 Permutation (channelData nb) (channelData tape).
Proof.
  split; [reflexivity|]. split; [exact wf_tape|].
  destruct (reverseRange_permutes [tape] 0 tape (-1 # 1) t7)
    as (nb & Hrun & Hperm & _).
  - reflexivity.
  - exact wf_tape.
  - exists nb. split; [exact Hrun | exact Hperm].
Defined.

(** A hold ratio of 1.5. *)
Lemma applyMathBitcrush_above_one_witness :
  stepSize_of (3 # 2) = Some 0%Z /\
  exists b',
    applyMathBitcrush 0 8 (3 # 2) [tape] = Ok 0 (<[0 := b']> [tape]) /\
    sample b' 0 0 = Some 0%Q /\ sample b' 1 9 = Some 0%Q.
Proof.
  split; [vm_compute; reflexivity|].
  destruct (applyMathBitcrush_above_one [tape] 0 tape 8 (3 # 2))
    as (b' & Hrun & _ & _ & Hzero).
  - reflexivity.
  - exact wf_tape.
  - vm_compute; reflexivity.
  - reflexivity.
  - exists b'. split; [exact Hrun|]. split; apply Hzero; cbn; lia.
Defined.

(** The ratio 1/3, as the double it is: a step of 3 frames. *)
Lemma applyMathBitcrush_idempotent_witness :
  stepSize_of (Js.div 1 (3 # 1)) = Some 3%Z /\
  exists s1,
    applyMathBitcrush 0 2 (Js.div 1 (3 # 1)) [tape] = Ok 0 s1 /\
    applyMathBitcrush 0 2 (Js.div 1 (3 # 1)) s1 = Ok 0 s1.
Proof.
  split; [vm_compute; reflexivity|].
  eexists. split; [vm_compute; reflexivity|].
  apply (applyMathBitcrush_idempotent [tape] _ 0 tape 2 (Js.div 1 (3 # 1))).
  - reflexivity.
  - exact wf_tape.
  - lia.
  - vm_compute; reflexivity.
  - vm_compute; discriminate.
  - vm_compute; reflexivity.
Defined.



(** The codes of the samples -1/4 and 3/4. *)
Lemma pcm16_truncates_witness :
  pcm16 (Some (-1 # 4)%Q) = (-8192)%Z /\ pcm16 (Some (3 # 4)%Q) = 24575%Z /\
  ((3 # 4) * (32767 # 1) - 1 < inject_Z (pcm16 (Some (3 # 4)%Q)))%Q /\
  (inject_Z (pcm16 (Some (3 # 4)%Q)) <= (3 # 4) * (32767 # 1))%Q.
Proof.
  split; [reflexivity|]. split; [reflexivity|].
  destruct (pcm16_truncates (3 # 4)) as [_ Hpos].
  destruct Hpos as (Hlo & Hhi & _); [vm_compute; discriminate|].
  split; [exact Hlo | exact Hhi].
Defined.

(** The ratios 0.7 and 1.5 of the 10 frames of the tape: frames 7 to
    15. *)
Lemma sliceBuffer_past_end_witness :
  Js.floor (Js.mul (Js.div 7 (10 # 1)) (inject_Z (Z.of_nat (buf_length tape)))) = 7%Z /\
  Js.floor (Js.mul (3 # 2) (inject_Z (Z.of_nat (buf_length tape)))) = 15%Z /\
  exists nb,
    sliceBuffer 0 (Js.div 7 (10 # 1)) (3 # 2) [tape] = Ok (Some 1) ([tape] ++ [nb]) /\
    Z.of_nat (buf_length nb) = 8%Z /\
    sample nb 0 0 = Some (1 # 8)%Q /\ sample nb 0 2 = Some (3 # 4)%Q /\
    sample nb 0 3 = Some 0%Q /\ sample nb 1 7 = Some 0%Q.
Proof.
  split; [vm_compute; reflexivity|]. split; [vm_compute; reflexivity|].
  destruct (sliceBuffer_past_end [tape] 0 tape (Js.div 7 (10 # 1)) (3 # 2))
    as (nb & Hrun & Hlen & _ & Hs).
  - reflexivity.
  - exact wf_tape.
  - vm_compute; reflexivity.
  - vm_compute; discriminate.
  - vm_compute; discriminate.
  - discriminate.
  - vm_compute; reflexivity.
  - vm_compute; reflexivity.
  - exists nb. split; [exact Hrun|].
    assert (E : Z.of_nat (buf_length nb) = 8%Z) by (rewrite Hlen; vm_compute; reflexivity).
    split; [exact E|].
    assert (Hn : buf_length nb = 8) by lia.
    assert (Hst : Z.to_nat (Js.floor (Js.mul (Js.div 7 (10 # 1))
                                        (inject_Z (Z.of_nat (buf_length tape))))) = 7)
      by (vm_compute; reflexivity).
    rewrite Hst in Hs.
    split; [|split; [|split]].
    + rewrite (Hs 0 0); [reflexivity | cbn; lia | lia].
    + rewrite (Hs 0 2); [reflexivity | cbn; lia | lia].
    + rewrite (Hs 0 3); [reflexivity | cbn; lia | lia].
    + rewrite (Hs 1 7); [reflexivity | cbn; lia | lia].
Defined.

Lemma export_never_clips_witness :
  [tape] !! 0 = Some tape /\ wf_buffer tape /\
  length eqBands <= length (replicate 10 0%Q) /\
  exists blob rendered,
    getProcessedWavBlob demo_render (Some 0) (replicate 10 0%Q) (Some (8 # 10))
      [tape] = Ok (Some blob) ([tape] ++ [rendered]) /\
    length (blob_bytes blob) = 44 + 10 * 2 * 2.
Proof.
  split; [reflexivity|]. split; [exact wf_tape|]. split; [cbn; lia|].
  destruct (export_never_clips demo_render [tape] 0 tape (replicate 10 0%Q)
              (Some (8 # 10))) as (blob & rendered & Hrun & _ & Hlen & _).
  - reflexivity.
  - exact wf_tape.
  - cbn; lia.
  - exists blob, rendered. split; [exact Hrun | exact Hlen].
Defined.



Lemma knobs_keep_params_in_range_witness :
  offline_effect "delay" /\
  exists t f,
    time (effectParams
            (mouseMoves [mkMouseMove knob_p1 (1 # 4) 300 100; mkMouseMove knob_p2 0 0 50]
               (activateRealTimePreview (mkRegion (1 # 2) (3 # 2)) "delay" demo_player)))
    = Some t /\
    feedback (effectParams
            (mouseMoves [mkMouseMove knob_p1 (1 # 4) 300 100; mkMouseMove knob_p2 0 0 50]
               (activateRealTimePreview (mkRegion (1 # 2) (3 # 2)) "delay" demo_player)))
    = Some f /\
    (1 # 100 <= t)%Q /\ (t <= 1)%Q /\ (0 <= f)%Q /\ (f <= 9 # 10)%Q.
Proof.
  split; [reflexivity|].
  destruct (knobs_keep_params_in_range demo_player (mkRegion (1 # 2) (3 # 2)) "delay"
              [mkMouseMove knob_p1 (1 # 4) 300 100; mkMouseMove knob_p2 0 0 50])
    as (_ & _ & _ & _ & Hdelay & _); [reflexivity|].
  exact (Hdelay eq_refl).
Defined.

Lemma freeze_renders_the_preview_witness :
  offline_effect "delay" /\
  exists id t f,
    delayNode
      (mouseMoves [mkMouseMove knob_p2 0 0 50]
         (activateRealTimePreview (mkRegion (1 # 2) (3 # 2)) "delay" demo_player))
    = Some (id, t, f) /\
    build_graph "delay"
      (effectParams
         (mouseMoves [mkMouseMove knob_p2 0 0 50]
            (activateRealTimePreview (mkRegion (1 # 2) (3 # 2)) "delay" demo_player))) =
    [(BufferSource, Destination); (BufferSource, DelayNode t);
     (DelayNode t, GainNode (if Qeq_bool f 0 then 1 # 2 else f));
     (GainNode (if Qeq_bool f 0 then 1 # 2 else f), DelayNode t);
     (DelayNode t, Destination)].
Proof.
  split; [reflexivity|].
  destruct (freeze_renders_the_preview demo_player (mkRegion (1 # 2) (3 # 2)) "delay"
              [mkMouseMove knob_p2 0 0 50])
    as (_ & _ & Hdelay & _); [reflexivity|].
  destruct (Hdelay eq_refl) as (id & t & f & Hnode & Hgraph).
  exists id, t, f. split; [exact Hnode | exact Hgraph].
Defined.

Lemma preview_block_is_offline_crush_witness :
  length [1 # 10; 2 # 10; -3 # 10; 4 # 10]%Q = 4 /\ length [0; 0; 0; 0]%Q = 4 /\
  onaudioprocess 4 2 (1 # 3) [1 # 10; 2 # 10; -3 # 10; 4 # 10]%Q [0; 0; 0; 0]%Q =
  bitcrush_channel 4 (1 / Js.pow2 2) (1 / (1 / Js.pow2 2)) (stepSize_of (1 # 3))
    [1 # 10; 2 # 10; -3 # 10; 4 # 10]%Q.
Proof.
  split; [reflexivity|]. split; [reflexivity|].
  apply (preview_block_is_offline_crush 4 2 (1 # 3)); reflexivity.
Defined.

Lemma closeEffectPanel_clean_chain_witness :
  mediaElement demo_player = true /\
  length (filters (closeEffectPanel demo_player)) = 10 /\
  forall b, (Live.Media, b) ∈ connections (closeEffectPanel demo_player) <->
            b = Live.EqInput.
Proof.
  split; [reflexivity|]. split; [reflexivity|].
  apply (closeEffectPanel_clean_chain demo_player). reflexivity.
Defined.

Lemma closed_delay_stays_wired_witness :
  mediaElement demo_player = true /\
  delay_left_behind 0
    (fold_left handleEvent
       [effect_dropped (mkRegion 0 1) "bitcrush"; knob_moved (mkMouseMove knob_p1 0 10 0);
        panel_closed; graph_rebuilt]
       (closeEffectPanel
          (activateRealTimePreview (mkRegion (1 # 2) (3 # 2)) "delay" demo_player))).
Proof.
  split; [reflexivity|].
  apply (closed_delay_stays_wired demo_player (mkRegion (1 # 2) (3 # 2))). reflexivity.
Defined.

Lemma preview_signal_path_witness :
  mediaElement demo_player = true /\ offline_effect "bitcrush" /\
  exists g,
    forall b,
      (Live.EqInput, b) ∈
        connections (activateRealTimePreview (mkRegion (1 # 2) (3 # 2)) "bitcrush" demo_player)
      <-> b = Live.Gain g.
Proof.
  split; [reflexivity|]. split; [reflexivity|].
  destruct (preview_signal_path demo_player (mkRegion (1 # 2) (3 # 2)) "bitcrush")
    as (g & Hg & _); [reflexivity | reflexivity |].
  now exists g.
Defined.

Lemma export_after_init_witness :
  [tape] !! 0 = Some tape /\ wf_buffer tape /\
  mediaElement demo_player = true /\ filters demo_player = [] /\
  exists master blob rendered,
    masterGainNode
      (fold_left handleEvent [effect_dropped (mkRegion 0 1) "delay"; panel_closed]
         (initEqualizer demo_player)) = Some master /\
    getProcessedWavBlob demo_render (Some 0)
      (filters (fold_left handleEvent [effect_dropped (mkRegion 0 1) "delay"; panel_closed]
                  (initEqualizer demo_player)))
      (masterGainNode
         (fold_left handleEvent [effect_dropped (mkRegion 0 1) "delay"; panel_closed]
            (initEqualizer demo_player)))
      [tape] = Ok (Some blob) ([tape] ++ [rendered]).
Proof.
  split; [reflexivity|]. split; [exact wf_tape|].
  split; [reflexivity|]. split; [reflexivity|].
  destruct (export_after_init demo_render [tape] 0 tape demo_player
              [effect_dropped (mkRegion 0 1) "delay"; panel_closed])
    as (master & blob & rendered & Hmaster & _ & _ & Hrun & _).
  - reflexivity.
  - exact wf_tape.
  - reflexivity.
  - reflexivity.
  - exists master, blob, rendered. split; [exact Hmaster | exact Hrun].
Defined.

Lemma demo_peaks_in_order : in_time_order demo_peaks.
Proof.
  intros i j p q Hij Hp Hq.
  destruct i as [|[|[|i]]]; destruct j as [|[|[|j]]]; try lia;
    cbn in Hp, Hq; try discriminate;
    injection Hp as <-; injection Hq as <-; cbn; lia.
Qed.

Lemma getIntervals_groups_witness :
  (0 < 4 # 1)%Q /\ (0 < 70 # 1)%Q /\ ((2 # 1) * (70 # 1) <= 180 # 1)%Q /\
  in_time_order demo_peaks /\
  exists groups F,
    (forall fuel, F <= fuel ->
       BeatDetect._getIntervals fuel (4 # 1) (70 # 1) (180 # 1) demo_peaks = Some groups) /\
    NoDup (BeatDetect.tempo <$> groups).
Proof.
  split; [reflexivity|]. split; [reflexivity|]. split; [vm_compute; discriminate|].
  split; [exact demo_peaks_in_order|].
  destruct (getIntervals_groups (4 # 1) (70 # 1) (180 # 1) demo_peaks)
    as (groups & F & Hrun & Hnd & _).
  - reflexivity.
  - reflexivity.
  - vm_compute; discriminate.
  - exact demo_peaks_in_order.
  - exists groups, F. split; [exact Hrun | exact Hnd].
Defined.

Lemma getPeaks_loudest_half_witness :
  0 < 2 /\ length demo_left = length demo_right /\
  exists peaks,
    BeatDetect._getPeaks 2 demo_left demo_right = Some peaks /\
    length peaks = 2 /\ in_time_order peaks.
Proof.
  split; [lia|]. split; [reflexivity|].
  destruct (getPeaks_loudest_half 2 demo_left demo_right)
    as (peaks & Hpeaks & Hcount & Hord & _).
  - lia.
  - reflexivity.
  - exists peaks. split; [exact Hpeaks|]. split; [exact Hcount | exact Hord].
Defined.

Lemma processRenderedBuffer_bpm_witness :
  (0 < 4 # 1)%Q /\ (0 < 70 # 1)%Q /\ ((2 # 1) * (70 # 1) <= 180 # 1)%Q /\
  0 < 2 /\ length demo_left = length demo_right /\
  exists F,
    forall fuel, F <= fuel ->
      exists bpm,
        BeatDetect._processRenderedBuffer fuel (4 # 1) (70 # 1) (180 # 1) 2
          demo_left demo_right = Some (inr bpm) /\
        (70 <= bpm <= 180)%Z.
Proof.
  split; [reflexivity|]. split; [reflexivity|]. split; [vm_compute; discriminate|].
  split; [lia|]. split; [reflexivity|].
  destruct (processRenderedBuffer_bpm (4 # 1) (70 # 1) (180 # 1) 2 demo_left demo_right)
    as (F & peaks & groups & _ & Hrun).
  - reflexivity.
  - reflexivity.
  - vm_compute; discriminate.
  - lia.
  - reflexivity.
  - exists F. intros fuel Hf.
    destruct (Hrun fuel Hf) as (_ & _ & Hbpm).
    destruct Hbpm as (first & Hfirst & _ & Hrange & _); [vm_compute; lia|].
    exists (BeatDetect.tempo first). split; [exact Hfirst | exact Hrange].
Defined.
